(** * The chunk manager of the association pipeline, embedded in Rocq

    A shallow embedding of the C++ sources
      - [ChunkManagerImpl.cc]  (hash, HashedSet, BlockAllocator, VisitTracker,
                                SubManager, ChunkManagerSingleImpl),
      - [Bitset.h], [Bitset.cc] (detail::set, detail::reset),
      - [Fifo.h]               (Fifo),
    and the properties of these that the design document states.

    Conventions.  A C++ integer is a [Z]; where the C++ type wraps around the
    wrap is written out.  An array is a [list] read with [!!] and written
    with [<[ _ := _ ]>]; an index that the C++ code would use out of bounds
    makes the embedded function return no result.  A function that can throw
    returns a [result], which keeps the state at the throw. *)

From Stdlib Require Import ZArith List Lia Bool Permutation Sorted.
From stdpp Require Import base list numbers.

Local Open Scope Z_scope.
Local Set Default Proof Using "Type*".

(** ** Fixed-width arithmetic *)

Definition wrap64 (z : Z) : Z := z mod 2 ^ 64.
Definition wrap32 (z : Z) : Z := z mod 2 ^ 32.

(** [~x], [x << n], [x + y] and [x * y] on [uint64_t]. *)
Definition not64 (x : Z) : Z := wrap64 (Z.lnot x).
Definition shl64 (x n : Z) : Z := wrap64 (Z.shiftl x n).
Definition add64 (x y : Z) : Z := wrap64 (x + y).
Definition mul64 (x y : Z) : Z := wrap64 (x * y).

(** [static_cast<uint32_t>] of a [uint64_t]. *)
Definition cast_u32 (x : Z) : Z := Z.land x 4294967295.

(** [static_cast<uint64_t>] of an [int64_t]. *)
Definition cast_u64 (x : Z) : Z := wrap64 x.

(** ** [hash] (ChunkManagerImpl.cc, lines 45-56) *)

Definition hash_u64 (key : Z) : Z :=
  let key := add64 (not64 key) (shl64 key 18) in
  let key := Z.lxor key (Z.shiftr key 31) in
  let key := mul64 key 21 in
  let key := Z.lxor key (Z.shiftr key 11) in
  let key := add64 key (shl64 key 6) in
  let key := Z.lxor key (Z.shiftr key 22) in
  cast_u32 key.

(** [hash(int64_t key)] converts and calls the unsigned version. *)
Definition hash (key : Z) : Z := hash_u64 (cast_u64 key).

(** The mix as the design document words it: six assignments in arithmetic
    modulo [2^64], then the low 32 bits. *)
Definition wang_mix_spec (k : Z) : Z :=
  let m := 2 ^ 64 in
  let k := ((m - 1 - k) + k * 2 ^ 18) mod m in
  let k := Z.lxor k (k / 2 ^ 31) in
  let k := (k * 21) mod m in
  let k := Z.lxor k (k / 2 ^ 11) in
  let k := (k + k * 2 ^ 6) mod m in
  let k := Z.lxor k (k / 2 ^ 22) in
  k mod 2 ^ 32.

(** ** Results of calls that can throw or fail *)

(** The exception classes the sources throw. *)
Inductive exn : Type :=
| LengthError | OutOfRange | InvalidParameter | Timeout | bad_alloc.

(** The result of a call on a state [S]: a normal return with the final
    state, an exception with the state at the throw, a failed [assert], or no
    defined result (an access out of bounds, a loop that does not end). *)
Inductive result (S A : Type) : Type :=
| Ok (a : A) (s : S)
| Throw (e : exn) (s : S)
| AssertFail
| Undef.

Arguments Ok {S A} a s.
Arguments Throw {S A} e s.
Arguments AssertFail {S A}.
Arguments Undef {S A}.

(** The integers from [lo], [n] of them. *)
Fixpoint zseq (lo : Z) (n : nat) : list Z :=
  match n with
  | O => []
  | S n' => lo :: zseq (lo + 1) n'
  end.

(** ** Bitset (Bitset.h, Bitset.cc) *)

Module Bitset.
Section WithWord.

(** [BitTraits<WordT>::BITS_PER_WORD_LOG2]: 3, 4, 5 or 6. *)
Variable LOG2 : Z.

Definition BITS_PER_WORD : Z := 2 ^ LOG2.
Definition WORD_MASK : Z := 2 ^ BITS_PER_WORD - 1.

(** [static_cast<WordT>]. *)
Definition castW (x : Z) : Z := x mod 2 ^ BITS_PER_WORD.

Definition wordForBit (i : Z) : Z := Z.shiftr i LOG2.

Definition maskForBit (i : Z) : Z :=
  castW (Z.shiftl 1 (Z.land i (BITS_PER_WORD - 1))).

(** [populationCount], the built-in version: the number of one bits of
    a word. *)
Definition populationCount (w : Z) : Z :=
  Z.of_nat (length (List.filter (fun j => Z.testbit w j)
                           (zseq 0 (Z.to_nat BITS_PER_WORD)))).

(** [Bitset::test]. *)
Definition test (words : list Z) (i : Z) : bool :=
  match words !! Z.to_nat (wordForBit i) with
  | Some w => negb (Z.land w (maskForBit i) =? 0)
  | None => false
  end.

(** The first loop of [detail::set]:
    [for (i = 0; i < nwords - special && zeroes > 0; ++i)]. *)
Fixpoint set_count (fuel : nat) (words : list Z) (bound i zeroes : Z)
  : option (Z * Z) :=
  if (i <? bound) && (0 <? zeroes) then
    match fuel with
    | O => None
    | S fuel' =>
        match words !! Z.to_nat i with
        | None => None
        | Some w =>
            set_count fuel' words bound (i + 1)
              (zeroes - (BITS_PER_WORD
                         - populationCount (castW (Z.land w WORD_MASK))))
        end
    end
  else Some (i, zeroes).

(** The inner loop of the second pass, [n] iterations left:
    [for (j = 0; j < BITS_PER_WORD; ++j, mask <<= 1)]. *)
Fixpoint set_inner (n : nat) (i j w mask : Z) (indexes : list Z)
         (zeroes numBitsToSet : Z) : option (Z * list Z * Z) :=
  match n with
  | O => Some (w, indexes, zeroes)
  | S n' =>
      if Z.land w mask =? 0 then
        if decide (0 <= zeroes < Z.of_nat (length indexes)) then
          let indexes' :=
            <[Z.to_nat zeroes := Z.shiftl i LOG2 + j]> indexes in
          let zeroes' := zeroes + 1 in
          let w' := Z.lor w mask in
          if zeroes' =? numBitsToSet then Some (w', indexes', zeroes')
          else set_inner n' i (j + 1) w' (castW (Z.shiftl mask 1))
                         indexes' zeroes' numBitsToSet
        else None
      else set_inner n' i (j + 1) w (castW (Z.shiftl mask 1))
                     indexes zeroes numBitsToSet
  end.

(** The outer loop of the second pass:
    [for (int i = 0; zeroes < numBitsToSet; ++i)]. *)
Fixpoint set_outer (fuel : nat) (words indexes : list Z)
         (i zeroes numBitsToSet : Z) : option (list Z * list Z) :=
  if zeroes <? numBitsToSet then
    match fuel with
    | O => None
    | S fuel' =>
        match words !! Z.to_nat i with
        | None => None
        | Some wi =>
            let w := Z.land wi WORD_MASK in
            if w =? WORD_MASK then
              set_outer fuel' words indexes (i + 1) zeroes numBitsToSet
            else
              match set_inner (Z.to_nat BITS_PER_WORD) i 0 w 1
                              indexes zeroes numBitsToSet with
              | None => None
              | Some (w', indexes', zeroes') =>
                  set_outer fuel' (<[Z.to_nat i := w']> words) indexes'
                            (i + 1) zeroes' numBitsToSet
              end
        end
    end
  else Some (words, indexes).

(** [detail::set].  The state is the pair of the arrays [words] and
    [indexes]. *)
Definition set (indexes words : list Z) (numBitsToSet numBits : Z)
  : result (list Z * list Z) bool :=
  if negb (0 <? numBits) then AssertFail
  else if negb (0 <? numBitsToSet) then AssertFail
  else
    let special := 0 <? Z.land numBits (BITS_PER_WORD - 1) in
    let last := castW (Z.lnot (maskForBit numBits - 1)) in
    let nwords := Z.shiftr (numBits + (BITS_PER_WORD - 1)) LOG2 in
    match set_count (S (length words)) words
                    (nwords - (if special then 1 else 0)) 0 numBitsToSet with
    | None => Undef
    | Some (i, zeroes) =>
        let after_last :=
          if (0 <? zeroes) && special then
            match words !! Z.to_nat i with
            | None => None
            | Some w =>
                Some (zeroes -
                      (BITS_PER_WORD
                       - populationCount
                           (castW (Z.lor (Z.land w WORD_MASK) last))))
            end
          else Some zeroes in
        match after_last with
        | None => Undef
        | Some zeroes =>
            if 0 <? zeroes then Ok false (words, indexes)
            else
              match set_outer (S (length words)) words indexes
                              0 0 numBitsToSet with
              | None => Undef
              | Some (words', indexes') => Ok true (words', indexes')
              end
        end
    end.

(** The loop of [detail::reset]. *)
Fixpoint reset_loop (words : list Z) (indexes : list Z) (numBits : Z)
  : result (list Z) unit :=
  match indexes with
  | [] => Ok tt words
  | j :: rest =>
      if negb ((0 <=? j) && (j <? numBits)) then AssertFail
      else
        match words !! Z.to_nat (wordForBit j) with
        | None => Undef
        | Some w =>
            reset_loop
              (<[Z.to_nat (wordForBit j) :=
                   Z.land w (castW (Z.lnot (maskForBit j)))]> words)
              rest numBits
        end
  end.

(** [detail::reset]: clears the bits at the first [numBitsToReset] entries
    of [indexes]. *)
Definition reset (words indexes : list Z) (numBitsToReset numBits : Z)
  : result (list Z) unit :=
  if negb (0 <? numBits) then AssertFail
  else if negb (0 <=? numBitsToReset) then AssertFail
  else if Z.of_nat (length indexes) <? numBitsToReset then Undef
  else reset_loop words (take (Z.to_nat numBitsToReset) indexes) numBits.

(** [Bitset<Word, NumBits>::NUM_WORDS], the length of [_bits]. *)
Definition NUM_WORDS (NumBits : Z) : Z :=
  Z.shiftr (NumBits + (BITS_PER_WORD - 1)) LOG2.

(** [Bitset::set(int * indexes, int numBits)]. *)
Definition set_n (NumBits : Z) (indexes _bits : list Z) (numBits : Z)
  : result (list Z * list Z) bool :=
  set indexes _bits numBits NumBits.

(** [Bitset::reset(int const * indexes, int numBits)]. *)
Definition reset_n (NumBits : Z) (_bits indexes : list Z) (numBits : Z)
  : result (list Z) unit :=
  reset _bits indexes numBits NumBits.

(** [Bitset::reset()]. *)
Definition reset_all (_bits : list Z) : list Z := map (fun _ => 0) _bits.

(** The zero bits among the first [numBits] bits, lowest index first. *)
Definition zero_bits (words : list Z) (numBits : Z) : list Z :=
  List.filter (fun i => negb (test words i)) (zseq 0 (Z.to_nat numBits)).

End WithWord.
End Bitset.


(** ** Fifo (Fifo.h) *)

Module Fifo.

(** The data members of [Fifo<NumEntries>]. *)
Record t : Type := mk {
  _buffer : list Z;
  _size : Z;
  _back : Z;
  _front : Z
}.

Section WithCapacity.

(** The template parameter, a positive power of two. *)
Variable NumEntries : Z.

(** [clear]. *)
Definition clear (f : t) : t :=
  {| _buffer := _buffer f; _size := 0; _back := 0; _front := 0 |}.

(** The constructor calls [clear]; the buffer itself is not initialised. *)
Definition ctor : t := clear (mk (repeat 0 (Z.to_nat NumEntries)) 0 0 0).

Definition empty (f : t) : bool := _size f =? 0.

Definition full (f : t) : bool := _size f =? NumEntries.

(** [enqueue]. *)
Definition enqueue (f : t) (elt : Z) : result t unit :=
  let sz := _size f in
  if sz =? NumEntries then Throw LengthError f
  else
    let i := _back f in
    if decide (0 <= i < Z.of_nat (length (_buffer f))) then
      Ok tt {| _buffer := <[Z.to_nat i := elt]> (_buffer f);
               _size := sz + 1;
               _back := Z.land (i + 1) (NumEntries - 1);
               _front := _front f |}
    else Undef.

(** [dequeue]. *)
Definition dequeue (f : t) : result t Z :=
  let sz := _size f in
  if sz =? 0 then Throw LengthError f
  else
    let i := _front f in
    if decide (0 <= i) then
      match _buffer f !! Z.to_nat i with
      | Some elt =>
          Ok elt {| _buffer := _buffer f;
                    _size := sz - 1;
                    _back := _back f;
                    _front := Z.land (i + 1) (NumEntries - 1) |}
      | None => Undef
      end
    else Undef.

End WithCapacity.
End Fifo.

(** ** HashedSet (ChunkManagerImpl.cc, lines 59-226) *)

(** What [HashedSet] asks of its [EntryType]: the identifier, the link used
    for the bucket chains and the free list, and the default constructor. *)
Class Entry (E : Type) : Type := {
  getId : E -> Z;
  setId : Z -> E -> E;
  getNextInChain : E -> Z;
  setNextInChain : Z -> E -> E;
  (** [EntryType()] *)
  construct : E
}.

(** The setters write the one field they name. *)
Class EntryLaws (E : Type) `{Entry E} : Prop := {
  getId_setId : forall i e, getId (setId i e) = i;
  getId_setNextInChain : forall n e, getId (setNextInChain n e) = getId e;
  getNextInChain_setNextInChain :
    forall n e, getNextInChain (setNextInChain n e) = n;
  getNextInChain_setId :
    forall i e, getNextInChain (setId i e) = getNextInChain e
}.

Module HashedSet.

(** The data members of [HashedSet<EntryType, NumEntries>]. *)
Record t (E : Type) : Type := mk {
  _hashTable : list Z;
  _entries : list E;
  _free : Z;
  _size : Z
}.

Arguments mk {E} _ _ _ _.
Arguments _hashTable {E} _.
Arguments _entries {E} _.
Arguments _free {E} _.
Arguments _size {E} _.

(** How the loop over a bucket's chain ends: at the entry [i] with the
    identifier looked for, or at the end of the chain; [last] is the entry
    visited before. *)
Inductive walk_result : Type :=
| Found (i last : Z)
| NotFound (last : Z).

Section WithEntry.

Context {E : Type} `{Entry E}.

(** The template parameter. *)
Variable NumEntries : nat.

(** [hash(id) & (2*NumEntries - 1)], in [uint32_t]. *)
Definition bucket (id : Z) : Z :=
  Z.land (hash id) (wrap32 (2 * Z.of_nat NumEntries - 1)).

(** The constructor: an empty hash table, and the free list threaded
    through the default-constructed entries. *)
Definition ctor : t E :=
  let entries :=
    fold_left
      (fun es i =>
         match es !! i with
         | Some e =>
             <[i := setNextInChain (Z.of_nat (i + 1)) (setId (-1) e)]> es
         | None => es
         end)
      (seq 0 (NumEntries - 1)) (repeat construct NumEntries) in
  let entries :=
    match entries !! (NumEntries - 1)%nat with
    | Some e => <[(NumEntries - 1)%nat := setNextInChain (-1) e]> entries
    | None => entries
    end in
  {| _hashTable := repeat (-1) (2 * NumEntries);
     _entries := entries;
     _free := 0;
     _size := 0 |}.

(** The loop of [doFind]: [while (i >= 0)]. *)
Fixpoint doFind_loop (fuel : nat) (entries : list E) (id i : Z)
  : option (option Z) :=
  if i <? 0 then Some None
  else
    match fuel with
    | O => None
    | S fuel' =>
        match entries !! Z.to_nat i with
        | None => None
        | Some e =>
            if id =? getId e then Some (Some i)
            else doFind_loop fuel' entries id (getNextInChain e)
        end
    end.

(** [doFind] (and [find]): the entry with the identifier, as its index, or
    null.  A walk of more steps than there are entries never ends. *)
Definition doFind (s : t E) (id : Z) : option (option Z) :=
  match _hashTable s !! Z.to_nat (bucket id) with
  | None => None
  | Some i => doFind_loop (length (_entries s)) (_entries s) id i
  end.

(** The loop that [insert], [findOrInsert] and [erase] share:
    [while (i >= 0) { if (id == _entries[i].getId()) ...;
                      last = i; i = _entries[i].getNextInChain(); }]. *)
Fixpoint walk (fuel : nat) (entries : list E) (id i last : Z)
  : option walk_result :=
  if i <? 0 then Some (NotFound last)
  else
    match fuel with
    | O => None
    | S fuel' =>
        match entries !! Z.to_nat i with
        | None => None
        | Some e =>
            if id =? getId e then Some (Found i last)
            else walk fuel' entries id (getNextInChain e) i
        end
    end.

(** The end of [insert] and [findOrInsert]: take the entry [c] off the
    free list, link it to the end of the chain, construct it. *)
Definition link_new (s : t E) (id b last c : Z) : option (t E) :=
  match _entries s !! Z.to_nat c with
  | None => None
  | Some ec =>
      let free' := getNextInChain ec in
      let linked :=
        if last <? 0 then
          Some (<[Z.to_nat b := c]> (_hashTable s), _entries s)
        else
          match _entries s !! Z.to_nat last with
          | None => None
          | Some el =>
              Some (_hashTable s,
                    <[Z.to_nat last := setNextInChain c el]> (_entries s))
          end in
      match linked with
      | None => None
      | Some (table, entries) =>
          Some {| _hashTable := table;
                  _entries :=
                    <[Z.to_nat c :=
                        setNextInChain (-1) (setId id construct)]> entries;
                  _free := free';
                  _size := _size s + 1 |}
      end
  end.

(** [insert]: the new entry, or null. *)
Definition insert (s : t E) (id : Z) : option (option Z * t E) :=
  if _free s <? 0 then Some (None, s)
  else
    let b := bucket id in
    match _hashTable s !! Z.to_nat b with
    | None => None
    | Some i =>
        match walk (length (_entries s)) (_entries s) id i (-1) with
        | None => None
        | Some (Found _ _) => Some (None, s)
        | Some (NotFound last) =>
            let c := _free s in
            match link_new s id b last c with
            | None => None
            | Some s' => Some (Some c, s')
            end
        end
    end.

(** [findOrInsert]: the entry or null, and whether it was inserted. *)
Definition findOrInsert (s : t E) (id : Z)
  : option (option Z * bool * t E) :=
  let b := bucket id in
  match _hashTable s !! Z.to_nat b with
  | None => None
  | Some i =>
      match walk (length (_entries s)) (_entries s) id i (-1) with
      | None => None
      | Some (Found i _) => Some (Some i, false, s)
      | Some (NotFound last) =>
          let c := _free s in
          if c <? 0 then Some (None, true, s)
          else
            match link_new s id b last c with
            | None => None
            | Some s' => Some (Some c, true, s')
            end
      end
  end.

(** [erase]. *)
Definition erase (s : t E) (id : Z) : option (bool * t E) :=
  let b := bucket id in
  match _hashTable s !! Z.to_nat b with
  | None => None
  | Some i0 =>
      match walk (length (_entries s)) (_entries s) id i0 (-1) with
      | None => None
      | Some (NotFound _) => Some (false, s)
      | Some (Found i last) =>
          match _entries s !! Z.to_nat i with
          | None => None
          | Some ei =>
              let unlinked :=
                if last <? 0 then
                  Some (<[Z.to_nat b := getNextInChain ei]> (_hashTable s),
                        _entries s)
                else
                  match _entries s !! Z.to_nat last with
                  | None => None
                  | Some el =>
                      Some (_hashTable s,
                            <[Z.to_nat last :=
                                setNextInChain (getNextInChain ei) el]>
                              (_entries s))
                  end in
              match unlinked with
              | None => None
              | Some (table, entries) =>
                  Some (true,
                        {| _hashTable := table;
                           _entries :=
                             <[Z.to_nat i :=
                                 setNextInChain (_free s) (setId (-1) ei)]>
                               entries;
                           _free := i;
                           _size := _size s - 1 |})
              end
          end
      end
  end.

(** Modelled from the spec: [HashedSet::space], declared in
    ChunkManagerImpl.h, which is not among the sources: the number of free
    entries. *)
Definition space (s : t E) : Z := Z.of_nat NumEntries - _size s.

End WithEntry.
End HashedSet.

(** ** The template parameters of the chunk manager

    [TraitsType], [BLOCK_SIZE], the word type of the allocator's bitset and
    the capacities are declared in headers that are not among the sources;
    they are parameters here. *)
Record Traits : Type := {
  (** [BITS_PER_WORD_LOG2] of the word type of the allocator's bitset *)
  WORD_LOG2 : Z;
  NUM_BLOCKS : Z;
  BLOCK_SIZE : Z;
  MAX_BLOCKS_PER_CHUNK : Z;
  (** the capacity of the set of chunk descriptors *)
  MAX_CHUNKS : nat;
  MAX_VISITS_IN_FLIGHT : nat;
  (** the capacity of a descriptor's [_interestedParties] *)
  INTERESTED_PARTIES_CAPACITY : Z
}.

(** ** BlockAllocator (ChunkManagerImpl.cc, lines 229-328) *)

Module BlockAllocator.

(** The data members; the mutex only serialises the calls. *)
Record t : Type := mk {
  _allocator : list Z;
  _offset : Z
}.

Section WithTraits.

Variable T : Traits.

(** The constructor: [_allocator.reset()]. *)
Definition ctor (offset : Z) : t :=
  {| _allocator :=
       repeat 0 (Z.to_nat (Bitset.NUM_WORDS (WORD_LOG2 T) (NUM_BLOCKS T)));
     _offset := offset |}.

(** The loop [blockOffsets[j] = _offset + i[j]*BLOCK_SIZE] of [allocate],
    in [size_t]. *)
Fixpoint store_offsets (offset : Z) (blockOffsets : list Z) (j : nat)
         (i : list Z) : option (list Z) :=
  match i with
  | [] => Some blockOffsets
  | ij :: i' =>
      if decide (j < length blockOffsets)%nat then
        store_offsets offset
          (<[j := wrap64 (offset + ij * BLOCK_SIZE T)]> blockOffsets)
          (S j) i'
      else None
  end.

(** [allocate(size_t * blockOffsets, uint32_t n)].  The state is the
    allocator and the array [blockOffsets]. *)
Definition allocate (a : t) (blockOffsets : list Z) (n : Z)
  : result (t * list Z) unit :=
  if (n <? 0) || (MAX_BLOCKS_PER_CHUNK T <? n) then
    Throw OutOfRange (a, blockOffsets)
  else
    let i := repeat 0 (Z.to_nat (MAX_BLOCKS_PER_CHUNK T)) in
    match Bitset.set_n (WORD_LOG2 T) (NUM_BLOCKS T) i (_allocator a) n with
    | Ok false _ => Throw bad_alloc (a, blockOffsets)
    | Ok true (bits, i) =>
        match store_offsets (_offset a) blockOffsets 0
                            (take (Z.to_nat n) i) with
        | Some blockOffsets' =>
            Ok tt ({| _allocator := bits; _offset := _offset a |},
                   blockOffsets')
        | None => Undef
        end
    | Throw e _ => Throw e (a, blockOffsets)
    | AssertFail => AssertFail
    | Undef => Undef
    end.

(** The first loop of [free]: block offsets to block indexes. *)
Fixpoint to_indexes (offset : Z) (blockOffsets : list Z)
  : option (list Z) :=
  match blockOffsets with
  | [] => Some []
  | b :: rest =>
      let off := wrap64 (b - offset) in
      if negb (off <? NUM_BLOCKS T * BLOCK_SIZE T) then None
      else if negb (off mod BLOCK_SIZE T =? 0) then None
      else
        match to_indexes offset rest with
        | Some i => Some (off / BLOCK_SIZE T :: i)
        | None => None
        end
  end.

(** [free(size_t const * blockOffsets, uint32_t n)]; never throws. *)
Definition free (a : t) (blockOffsets : list Z) (n : Z) : result t unit :=
  if negb ((0 <=? n) && (n <=? MAX_BLOCKS_PER_CHUNK T)) then AssertFail
  else if Z.of_nat (length blockOffsets) <? n then Undef
  else
    match to_indexes (_offset a) (take (Z.to_nat n) blockOffsets) with
    | None => AssertFail
    | Some i =>
        match Bitset.reset_n (WORD_LOG2 T) (NUM_BLOCKS T)
                             (_allocator a) i n with
        | Ok _ bits => Ok tt {| _allocator := bits; _offset := _offset a |}
        | Throw e _ => Throw e a
        | AssertFail => AssertFail
        | Undef => Undef
        end
    end.

End WithTraits.
End BlockAllocator.

(** ** Visits and chunk descriptors

    Modelled from the spec: the classes [Visit] and [ChunkDescriptor] are
    declared in headers that are not among the sources.  The fields are those
    the sources use and the data model lists; a default-constructed entry has
    no identifier, no owner, no blocks and an empty queue. *)

Record Visit : Type := {
  v_id : Z;
  v_next : Z;
  v_failed : bool
}.

#[export] Instance Visit_Entry : Entry Visit := {
  getId := v_id;
  setId i v := {| v_id := i; v_next := v_next v; v_failed := v_failed v |};
  getNextInChain := v_next;
  setNextInChain n v :=
    {| v_id := v_id v; v_next := n; v_failed := v_failed v |};
  construct := {| v_id := -1; v_next := -1; v_failed := false |}
}.

(** [Visit::setFailed]. *)
Definition setFailed (v : Visit) : Visit :=
  {| v_id := v_id v; v_next := v_next v; v_failed := true |}.

Record ChunkDescriptor : Type := {
  _chunkId : Z;
  _visitId : Z;
  _usable : bool;
  _nextInChain : Z;
  _interestedParties : Fifo.t;
  _blocks : list Z;
  _numBlocks : Z;
  _nextBlock : Z;
  _size : Z;
  _delta : Z
}.

Definition with_chunkId (i : Z) (d : ChunkDescriptor) : ChunkDescriptor :=
  {| _chunkId := i; _visitId := _visitId d; _usable := _usable d;
     _nextInChain := _nextInChain d;
     _interestedParties := _interestedParties d; _blocks := _blocks d;
     _numBlocks := _numBlocks d; _nextBlock := _nextBlock d;
     _size := _size d; _delta := _delta d |}.

Definition with_visitId (v : Z) (d : ChunkDescriptor) : ChunkDescriptor :=
  {| _chunkId := _chunkId d; _visitId := v; _usable := _usable d;
     _nextInChain := _nextInChain d;
     _interestedParties := _interestedParties d; _blocks := _blocks d;
     _numBlocks := _numBlocks d; _nextBlock := _nextBlock d;
     _size := _size d; _delta := _delta d |}.

Definition with_usable (u : bool) (d : ChunkDescriptor) : ChunkDescriptor :=
  {| _chunkId := _chunkId d; _visitId := _visitId d; _usable := u;
     _nextInChain := _nextInChain d;
     _interestedParties := _interestedParties d; _blocks := _blocks d;
     _numBlocks := _numBlocks d; _nextBlock := _nextBlock d;
     _size := _size d; _delta := _delta d |}.

Definition with_nextInChain (n : Z) (d : ChunkDescriptor) : ChunkDescriptor :=
  {| _chunkId := _chunkId d; _visitId := _visitId d; _usable := _usable d;
     _nextInChain := n;
     _interestedParties := _interestedParties d; _blocks := _blocks d;
     _numBlocks := _numBlocks d; _nextBlock := _nextBlock d;
     _size := _size d; _delta := _delta d |}.

Definition with_interestedParties (q : Fifo.t) (d : ChunkDescriptor)
  : ChunkDescriptor :=
  {| _chunkId := _chunkId d; _visitId := _visitId d; _usable := _usable d;
     _nextInChain := _nextInChain d;
     _interestedParties := q; _blocks := _blocks d;
     _numBlocks := _numBlocks d; _nextBlock := _nextBlock d;
     _size := _size d; _delta := _delta d |}.

Definition with_numBlocks (n : Z) (d : ChunkDescriptor) : ChunkDescriptor :=
  {| _chunkId := _chunkId d; _visitId := _visitId d; _usable := _usable d;
     _nextInChain := _nextInChain d;
     _interestedParties := _interestedParties d; _blocks := _blocks d;
     _numBlocks := n; _nextBlock := _nextBlock d;
     _size := _size d; _delta := _delta d |}.

(** The part of a descriptor that commit and rollback work on. *)
Definition delta_region (d : ChunkDescriptor) : Z * Z * Z :=
  (_size d, _delta d, _nextBlock d).

Definition with_delta_region (r : Z * Z * Z) (d : ChunkDescriptor)
  : ChunkDescriptor :=
  let '(size, delta, nextBlock) := r in
  {| _chunkId := _chunkId d; _visitId := _visitId d; _usable := _usable d;
     _nextInChain := _nextInChain d;
     _interestedParties := _interestedParties d; _blocks := _blocks d;
     _numBlocks := _numBlocks d; _nextBlock := nextBlock;
     _size := size; _delta := delta |}.

Definition ChunkDescriptor_Entry (T : Traits) : Entry ChunkDescriptor := {|
  getId := _chunkId;
  setId := with_chunkId;
  getNextInChain := _nextInChain;
  setNextInChain := with_nextInChain;
  construct :=
    {| _chunkId := -1; _visitId := -1; _usable := false;
       _nextInChain := -1;
       _interestedParties := Fifo.ctor (INTERESTED_PARTIES_CAPACITY T);
       _blocks := repeat 0 (Z.to_nat (MAX_BLOCKS_PER_CHUNK T));
       _numBlocks := 0; _nextBlock := 0; _size := 0; _delta := 0 |}
|}.

#[export] Instance Visit_EntryLaws : EntryLaws Visit.
Proof. split; reflexivity. Qed.

#[export] Instance ChunkDescriptor_EntryLaws (T : Traits) :
  @EntryLaws ChunkDescriptor (ChunkDescriptor_Entry T).
Proof. split; reflexivity. Qed.

(** ** SubManager (ChunkManagerImpl.cc, lines 381-543) *)

(** What [relinquishOwnership] does to the descriptor at an index, in
    program order. *)
Inductive event : Type :=
| EvSetOwner (i : Z) (visitId : Z)   (* [i->_visitId = nextVisitId] *)
| EvRollback (i : Z)                 (* [c.rollback()] *)
| EvCommit (i : Z)                   (* [c.commit()] *)
| EvFree (i : Z)                     (* [_allocator.free(i->_blocks, ...)] *)
| EvErase (i : Z) (chunkId : Z).     (* [_chunks.erase(i->getId())] *)

Module SubManager.

(** The data members. *)
Record t : Type := mk {
  _chunks : HashedSet.t ChunkDescriptor;
  _allocator : BlockAllocator.t
}.

Section WithTraits.

Variable T : Traits.

(** Modelled from the spec: [Chunk::commit] and [Chunk::rollback] are
    defined in Chunk.cc, which is not among the sources.  They work on the
    delta region of the descriptor, in a way the storage layer defines. *)
Variable commit_region : Z * Z * Z -> Z * Z * Z.
Variable rollback_region : Z * Z * Z -> Z * Z * Z.

Local Abbreviation chunks_findOrInsert :=
  (@HashedSet.findOrInsert ChunkDescriptor (ChunkDescriptor_Entry T)
                           (MAX_CHUNKS T)).
Local Abbreviation chunks_doFind :=
  (@HashedSet.doFind ChunkDescriptor (ChunkDescriptor_Entry T)
                     (MAX_CHUNKS T)).
Local Abbreviation chunks_erase :=
  (@HashedSet.erase ChunkDescriptor (ChunkDescriptor_Entry T)
                    (MAX_CHUNKS T)).

Definition tracker : Type := HashedSet.t Visit.

(** The descriptor a chunk handle [ChunkType(d, &_allocator)] refers to;
    the handle is the index of the descriptor. *)
Definition descriptor (s : t) (c : Z) : option ChunkDescriptor :=
  if decide (0 <= c) then HashedSet._entries (_chunks s) !! Z.to_nat c
  else None.

Definition set_descriptor (s : t) (c : Z) (d : ChunkDescriptor) : t :=
  {| _chunks :=
       {| HashedSet._hashTable := HashedSet._hashTable (_chunks s);
          HashedSet._entries :=
            <[Z.to_nat c := d]> (HashedSet._entries (_chunks s));
          HashedSet._free := HashedSet._free (_chunks s);
          HashedSet._size := HashedSet._size (_chunks s) |};
     _allocator := _allocator s |}.

(** Modelled from the spec: [Chunk::commit]. *)
Definition commit (d : ChunkDescriptor) : ChunkDescriptor :=
  with_delta_region (commit_region (delta_region d)) d.

(** Modelled from the spec: [Chunk::rollback]. *)
Definition rollback (d : ChunkDescriptor) : ChunkDescriptor :=
  with_delta_region (rollback_region (delta_region d)) d.

(** Modelled from the spec: [Chunk::clear], defined in Chunk.cc, drops all
    blocks of the chunk back to the allocator. *)
Definition clear (s : t) (c : Z) : result t unit :=
  match descriptor s c with
  | None => Undef
  | Some d =>
      match BlockAllocator.free T (_allocator s) (_blocks d) (_numBlocks d)
      with
      | Ok _ a =>
          Ok tt (set_descriptor {| _chunks := _chunks s; _allocator := a |}
                                c (with_numBlocks 0 d))
      | Throw e _ => Throw e s
      | AssertFail => AssertFail
      | Undef => Undef
      end
  end.

(** [VisitTracker::isValid]. *)
Definition isValid (tr : tracker) (visitId : Z) : option bool :=
  match HashedSet.doFind (MAX_VISITS_IN_FLIGHT T) tr visitId with
  | None => None
  | Some None => Some false
  | Some (Some i) =>
      match HashedSet._entries tr !! Z.to_nat i with
      | Some v => Some (negb (v_failed v))
      | None => None
      end
  end.

(** [createOrRegisterInterest]: the loop over [chunkIds].  The state is the
    sub-manager and the vectors [toRead] and [toWaitFor]. *)
Fixpoint createOrRegisterInterest (s : t) (toRead toWaitFor : list Z)
         (visitId : Z) (chunkIds : list Z)
  : result (t * list Z * list Z) unit :=
  match chunkIds with
  | [] => Ok tt (s, toRead, toWaitFor)
  | i :: rest =>
      match chunks_findOrInsert (_chunks s) i with
      | None => Undef
      | Some (p_first, p_second, chunks) =>
          let s := {| _chunks := chunks; _allocator := _allocator s |} in
          if p_second then
            match p_first with
            | None => Throw bad_alloc (s, toRead, toWaitFor)
            | Some c =>
                match descriptor s c with
                | None => Undef
                | Some d =>
                    createOrRegisterInterest
                      (set_descriptor s c
                         (with_usable false (with_visitId visitId d)))
                      (toRead ++ [c]) toWaitFor visitId rest
                end
            end
          else
            match p_first with
            | None => AssertFail
            | Some c =>
                match descriptor s c with
                | None => Undef
                | Some d =>
                    match Fifo.enqueue (INTERESTED_PARTIES_CAPACITY T)
                                       (_interestedParties d) visitId with
                    | Ok _ q =>
                        createOrRegisterInterest
                          (set_descriptor s c (with_interestedParties q d))
                          toRead (toWaitFor ++ [c]) visitId rest
                    | Throw e _ => Throw e (s, toRead, toWaitFor)
                    | AssertFail => AssertFail
                    | Undef => Undef
                    end
                end
            end
      end
  end.

(** [checkForOwnership]: the loop [while (i < size)]. *)
Fixpoint checkForOwnership_loop (fuel : nat) (s : t)
         (toRead toWaitFor : list Z) (visitId size i : Z)
  : result (t * list Z * list Z) unit :=
  if i <? size then
    match fuel with
    | O => Undef
    | S fuel' =>
        match toWaitFor !! Z.to_nat i with
        | None => Undef
        | Some c =>
            match descriptor s c with
            | None => Undef
            | Some d =>
                if negb (_visitId d =? visitId) then
                  checkForOwnership_loop fuel' s toRead toWaitFor
                                         visitId size (i + 1)
                else
                  let cleared :=
                    if negb (_usable d) then
                      match clear s c with
                      | Ok _ s' => Ok tt (s', toRead ++ [c])
                      | Throw e s' => Throw e (s', toRead)
                      | AssertFail => AssertFail
                      | Undef => Undef
                      end
                    else Ok tt (s, toRead) in
                  match cleared with
                  | Ok _ (s', toRead') =>
                      let size' := size - 1 in
                      let moved :=
                        if i <? size' then
                          match toWaitFor !! Z.to_nat size' with
                          | Some x => Some (<[Z.to_nat i := x]> toWaitFor)
                          | None => None
                          end
                        else Some toWaitFor in
                      match moved with
                      | None => Undef
                      | Some toWaitFor' =>
                          checkForOwnership_loop fuel' s' toRead'
                            (removelast toWaitFor') visitId size' i
                      end
                  | Throw e (s', toRead') => Throw e (s', toRead', toWaitFor)
                  | AssertFail => AssertFail
                  | Undef => Undef
                  end
            end
        end
    end
  else Ok tt (s, toRead, toWaitFor).

(** [checkForOwnership]. *)
Definition checkForOwnership (s : t) (toRead toWaitFor : list Z)
           (visitId : Z) : result (t * list Z * list Z) bool :=
  match checkForOwnership_loop (length toWaitFor) s toRead toWaitFor visitId
                               (Z.of_nat (length toWaitFor)) 0 with
  | Ok _ (s', toRead', toWaitFor') =>
      Ok (match toWaitFor' with [] => true | _ => false end)
         (s', toRead', toWaitFor')
  | Throw e st => Throw e st
  | AssertFail => AssertFail
  | Undef => Undef
  end.

(** [getChunks]. *)
Fixpoint getChunks (s : t) (chunks : list Z) (chunkIds : list Z)
  : option (list Z) :=
  match chunkIds with
  | [] => Some chunks
  | i :: rest =>
      match chunks_doFind (_chunks s) i with
      | None => None
      | Some None => getChunks s chunks rest
      | Some (Some d) => getChunks s (chunks ++ [d]) rest
      end
  end.

(** The loop [while (!i->_interestedParties.empty())] of
    [relinquishOwnership]: the queue afterwards, and the successor if one
    was found. *)
Fixpoint find_successor (fuel : nat) (tr : tracker) (q : Fifo.t)
  : option (Fifo.t * option Z) :=
  if Fifo.empty q then Some (q, None)
  else
    match fuel with
    | O => None
    | S fuel' =>
        match Fifo.dequeue (INTERESTED_PARTIES_CAPACITY T) q with
        | Ok nextVisitId q' =>
            match isValid tr nextVisitId with
            | None => None
            | Some true => Some (q', Some nextVisitId)
            | Some false => find_successor fuel' tr q'
            end
        | _ => None
        end
    end.

(** The body of the loop of [relinquishOwnership] for the descriptor at
    index [i]: the state, [change] and the events. *)
Definition relinquish_one (s : t) (visitId : Z) (rollback_flag : bool)
           (tr : tracker) (change : bool) (i : Z)
  : result t (bool * list event) :=
  match descriptor s i with
  | None => Undef
  | Some d =>
      if negb (_chunkId d =? -1) && (_visitId d =? visitId) then
        match find_successor (Z.to_nat (Fifo._size (_interestedParties d)))
                             tr (_interestedParties d) with
        | None => Undef
        | Some (q, Some nextVisitId) =>
            let d := with_visitId nextVisitId (with_interestedParties q d) in
            let d := if rollback_flag then rollback d else commit d in
            Ok (true,
                [EvSetOwner i nextVisitId;
                 if rollback_flag then EvRollback i else EvCommit i])
               (set_descriptor s i d)
        | Some (q, None) =>
            let d := with_interestedParties q d in
            let s := set_descriptor s i d in
            match BlockAllocator.free T (_allocator s) (_blocks d)
                                      (_numBlocks d) with
            | Ok _ a =>
                match chunks_erase (_chunks s) (_chunkId d) with
                | None => Undef
                | Some (_, chunks) =>
                    Ok (change, [EvFree i; EvErase i (_chunkId d)])
                       {| _chunks := chunks; _allocator := a |}
                end
            | Throw e _ => Throw e s
            | AssertFail => AssertFail
            | Undef => Undef
            end
        end
      else Ok (change, []) s
  end.

(** The loop [for (i = _chunks.begin(); i != end; ++i)], over the indices
    [ixs]. *)
Fixpoint relinquish_loop (s : t) (visitId : Z) (rollback_flag : bool)
         (tr : tracker) (change : bool) (ixs : list Z)
  : result t (bool * list event) :=
  match ixs with
  | [] => Ok (change, []) s
  | i :: rest =>
      match relinquish_one s visitId rollback_flag tr change i with
      | Ok (change', evs) s' =>
          match relinquish_loop s' visitId rollback_flag tr change' rest with
          | Ok (change'', evs') s'' => Ok (change'', evs ++ evs') s''
          | r => r
          end
      | r => r
      end
  end.

(** [relinquishOwnership]: whether any chunk changed hands, and what was
    done, in order. *)
Definition relinquishOwnership (s : t) (visitId : Z) (rollback_flag : bool)
           (tr : tracker) : result t (bool * list event) :=
  relinquish_loop s visitId rollback_flag tr false
                  (zseq 0 (MAX_CHUNKS T)).

End WithTraits.
End SubManager.

(** ** ChunkManagerSingleImpl (ChunkManagerImpl.cc, lines 683-864)

    Every method holds the mutex of the manager from its first statement to
    its return, so a call is one step on the state. *)

Module ChunkManager.

(** The data members; [notifications] counts the calls of
    [_ownerCondition.notifyAll()]. *)
Record t : Type := mk {
  _visits : HashedSet.t Visit;
  _data : SubManager.t;
  notifications : nat
}.

Section WithTraits.

Variable T : Traits.
Variable commit_region : Z * Z * Z -> Z * Z * Z.
Variable rollback_region : Z * Z * Z -> Z * Z * Z.

Local Abbreviation visits_doFind :=
  (@HashedSet.doFind Visit Visit_Entry (MAX_VISITS_IN_FLIGHT T)).
Local Abbreviation visits_insert :=
  (@HashedSet.insert Visit Visit_Entry (MAX_VISITS_IN_FLIGHT T)).
Local Abbreviation visits_erase :=
  (@HashedSet.erase Visit Visit_Entry (MAX_VISITS_IN_FLIGHT T)).

(** The constructor; [offset] is where the blocks are. *)
Definition ctor (offset : Z) : t :=
  {| _visits := @HashedSet.ctor Visit Visit_Entry (MAX_VISITS_IN_FLIGHT T);
     _data :=
       {| SubManager._chunks :=
            @HashedSet.ctor ChunkDescriptor (ChunkDescriptor_Entry T)
                            (MAX_CHUNKS T);
          SubManager._allocator := BlockAllocator.ctor T offset |};
     notifications := 0 |}.

(** [isVisitInFlight]. *)
Definition isVisitInFlight (m : t) (visitId : Z) : option bool :=
  SubManager.isValid T (_visits m) visitId.

(** [failVisit]. *)
Definition failVisit (m : t) (visitId : Z) : option t :=
  match visits_doFind (_visits m) visitId with
  | None => None
  | Some None => Some m
  | Some (Some i) =>
      match HashedSet._entries (_visits m) !! Z.to_nat i with
      | None => None
      | Some v =>
          Some {| _visits :=
                    {| HashedSet._hashTable :=
                         HashedSet._hashTable (_visits m);
                       HashedSet._entries :=
                         <[Z.to_nat i := setFailed v]>
                           (HashedSet._entries (_visits m));
                       HashedSet._free := HashedSet._free (_visits m);
                       HashedSet._size := HashedSet._size (_visits m) |};
                  _data := _data m;
                  notifications := notifications m |}
      end
  end.

(** [registerVisit]. *)
Definition registerVisit (m : t) (visitId : Z) : result t unit :=
  match visits_doFind (_visits m) visitId with
  | None => Undef
  | Some (Some _) => Throw InvalidParameter m
  | Some None =>
      if HashedSet.space (MAX_VISITS_IN_FLIGHT T) (_visits m) =? 0 then
        Throw LengthError m
      else
        match visits_insert (_visits m) visitId with
        | None => Undef
        | Some (None, _) => AssertFail
        | Some (Some _, visits) =>
            Ok tt {| _visits := visits; _data := _data m;
                     notifications := notifications m |}
        end
  end.

(** [startVisit]: the vectors are cleared, then filled.  The state is the
    manager and the two vectors. *)
Definition startVisit (m : t) (toRead toWaitFor : list Z) (visitId : Z)
           (chunkIds : list Z) : result (t * list Z * list Z) unit :=
  let toRead := [] in
  let toWaitFor := [] in
  if HashedSet.space (MAX_CHUNKS T) (SubManager._chunks (_data m))
     <? Z.of_nat (length chunkIds)
  then Throw LengthError (m, toRead, toWaitFor)
  else
    match SubManager.isValid T (_visits m) visitId with
    | None => Undef
    | Some false => Throw InvalidParameter (m, toRead, toWaitFor)
    | Some true =>
        match SubManager.createOrRegisterInterest T (_data m) toRead
                toWaitFor visitId chunkIds with
        | Ok _ (data, toRead, toWaitFor) =>
            Ok tt ({| _visits := _visits m; _data := data;
                      notifications := notifications m |},
                   toRead, toWaitFor)
        | Throw e (data, toRead, toWaitFor) =>
            Throw e ({| _visits := _visits m; _data := data;
                        notifications := notifications m |},
                     toRead, toWaitFor)
        | AssertFail => AssertFail
        | Undef => Undef
        end
    end.

(** [getChunks]. *)
Definition getChunks (m : t) (chunks chunkIds : list Z) : option (list Z) :=
  SubManager.getChunks T (_data m) chunks chunkIds.

(** [endVisit]: the return value, and whether [notifyAll] was called. *)
Definition endVisit (m : t) (visitId : Z) (rollback : bool)
  : result t bool :=
  match SubManager.isValid T (_visits m) visitId with
  | None => Undef
  | Some valid =>
      let roll := rollback || negb valid in
      match visits_erase (_visits m) visitId with
      | None => Undef
      | Some (false, _) => Ok false m
      | Some (true, visits) =>
          match SubManager.relinquishOwnership T commit_region
                  rollback_region (_data m) visitId roll visits with
          | Ok (change, _) data =>
              Ok (negb roll)
                 {| _visits := visits; _data := data;
                    notifications :=
                      if change then S (notifications m)
                      else notifications m |}
          | Throw e data =>
              Throw e {| _visits := visits; _data := data;
                         notifications := notifications m |}
          | AssertFail => AssertFail
          | Undef => Undef
          end
      end
  end.

End WithTraits.
End ChunkManager.

(** * Properties

    ** The hash function *)

Lemma wrap64_range z : 0 <= wrap64 z < 2 ^ 64.
Proof. unfold wrap64. apply Z.mod_pos_bound. lia. Qed.

Lemma wrap64_small z : 0 <= z < 2 ^ 64 -> wrap64 z = z.
Proof. intros H. unfold wrap64. apply Z.mod_small. exact H. Qed.

Lemma cast_u32_mod x : cast_u32 x = x mod 2 ^ 32.
Proof.
  unfold cast_u32. change 4294967295 with (Z.ones 32).
  apply Z.land_ones. lia.
Qed.

Lemma not64_arith k : 0 <= k < 2 ^ 64 -> not64 k = 2 ^ 64 - 1 - k.
Proof.
  intros H. unfold not64, wrap64, Z.lnot.
  replace (Z.pred (- k)) with ((2 ^ 64 - 1 - k) + (-1) * 2 ^ 64) by lia.
  rewrite Z.mod_add by lia. apply Z.mod_small. lia.
Qed.

Lemma add64_shl64 a k n :
  0 <= n -> add64 a (shl64 k n) = (a + k * 2 ^ n) mod 2 ^ 64.
Proof.
  intros Hn. unfold add64, shl64, wrap64.
  rewrite Z.shiftl_mul_pow2 by exact Hn.
  rewrite Zplus_mod_idemp_r. reflexivity.
Qed.

Lemma hash_u64_range key : 0 <= hash_u64 key < 2 ^ 32.
Proof.
  unfold hash_u64. rewrite cast_u32_mod. apply Z.mod_pos_bound. lia.
Qed.

Lemma hash_range key : 0 <= hash key < 2 ^ 32.
Proof. apply hash_u64_range. Qed.

(** C9.  For every unsigned 64-bit key, the [hash] of the source computes
    exactly the six assignments of the specified Wang mix in arithmetic
    modulo [2^64] and returns the low 32 bits of the result. *)
Theorem hash_u64_is_wang_mix (k : Z) :
  0 <= k < 2 ^ 64 ->
  hash_u64 k = wang_mix_spec k /\ 0 <= hash_u64 k < 2 ^ 32.
Proof.
  intros Hk. split; [| apply hash_u64_range].
  unfold hash_u64, wang_mix_spec.
  rewrite not64_arith by exact Hk.
  rewrite !add64_shl64 by lia.
  rewrite !Z.shiftr_div_pow2 by lia.
  rewrite cast_u32_mod.
  unfold mul64, wrap64. reflexivity.
Qed.

Lemma hash_u64_is_wang_mix_witness :
  hash_u64 100 = wang_mix_spec 100 /\ 0 <= hash_u64 100 < 2 ^ 32.
Proof. apply (hash_u64_is_wang_mix 100). lia. Defined.

(** ** The bitset *)

Example set_scenario_fail :
  Bitset.set 3 [0; 0; 0; 0] [187] 4 8 = Ok false ([187], [0; 0; 0; 0]).
Proof. vm_compute. reflexivity. Qed.

Example set_scenario_two :
  Bitset.set 3 [0; 0; 0; 0] [187] 2 8 = Ok true ([255], [2; 6; 0; 0]).
Proof. vm_compute. reflexivity. Qed.

Example set_special_word :
  Bitset.set 3 [0; 0; 0; 0] [255; 2] 3 11 = Ok false ([255; 2], [0; 0; 0; 0])
  /\ Bitset.set 3 [0; 0; 0; 0] [251; 2] 3 11 = Ok true ([255; 7], [2; 8; 10; 0]).
Proof. vm_compute. split; reflexivity. Qed.

(** *** Lists of integers *)

Lemma zseq_length lo n : length (zseq lo n) = n.
Proof. revert lo. induction n as [| n IH]; intros lo; simpl; [| rewrite IH]; reflexivity. Qed.

Lemma zseq_app lo a b :
  zseq lo (a + b) = zseq lo a ++ zseq (lo + Z.of_nat a) b.
Proof.
  revert lo. induction a as [| a IH]; intros lo; simpl.
  - f_equal. lia.
  - rewrite IH. do 3 f_equal. lia.
Qed.

Lemma zseq_In lo n x : In x (zseq lo n) <-> lo <= x < lo + Z.of_nat n.
Proof.
  revert lo. induction n as [| n IH]; intros lo; simpl.
  - lia.
  - rewrite IH. lia.
Qed.

Lemma filter_length_compl {A} (f : A -> bool) (l : list A) :
  (length (List.filter f l) + length (List.filter (fun x => negb (f x)) l)
   = length l)%nat.
Proof.
  induction l as [| x l IH]; simpl; [reflexivity |].
  destruct (f x); simpl; lia.
Qed.

Lemma filter_const_false {A} (l : list A) :
  List.filter (fun _ => false) l = [].
Proof. induction l as [| x l IH]; simpl; [reflexivity | exact IH]. Qed.

(** [fill a z vs] is the array [a] after [a[z++] = v] for each [v] of [vs]. *)
Fixpoint fill (a : list Z) (z : nat) (vs : list Z) : list Z :=
  match vs with
  | [] => a
  | v :: vs' => fill (<[z := v]> a) (S z) vs'
  end.

Lemma fill_length a z vs : length (fill a z vs) = length a.
Proof.
  revert a z. induction vs as [| v vs IH]; intros a z; simpl; [reflexivity |].
  rewrite IH. apply length_insert.
Qed.

Lemma fill_app a z vs ws :
  fill a z (vs ++ ws) = fill (fill a z vs) (z + length vs) ws.
Proof.
  revert a z. induction vs as [| v vs IH]; intros a z; simpl.
  - f_equal. lia.
  - rewrite IH. f_equal. lia.
Qed.

Lemma fill_spec a z vs :
  (z + length vs <= length a)%nat ->
  fill a z vs = take z a ++ vs ++ drop (z + length vs) a.
Proof.
  revert a z. induction vs as [| v vs IH]; intros a z H; simpl in *.
  - rewrite Nat.add_0_r. symmetry. apply take_drop.
  - assert (Hz : (z < length a)%nat) by lia.
    rewrite IH. 2:{ rewrite length_insert. lia. }
    rewrite drop_insert_lt by lia.
    replace (S z + length vs)%nat with (z + S (length vs))%nat by lia.
    rewrite (take_S_r _ _ v) by (apply list_lookup_insert_eq; lia).
    rewrite take_insert_ge by lia.
    rewrite <- app_assoc. reflexivity.
Qed.

Lemma fill_take a z vs :
  (z + length vs <= length a)%nat ->
  take (z + length vs) (fill a z vs) = take z a ++ vs.
Proof.
  intros H. rewrite fill_spec by exact H.
  rewrite app_assoc.
  rewrite take_app_length'; [reflexivity |].
  rewrite length_app, length_take. lia.
Qed.

(** *** Words and their bits *)

(** The indices [base + j'], for [j'] from [j], [n] of them, at which [w] has
    a zero bit, lowest first. *)
Fixpoint zeros_at (base w j : Z) (n : nat) : list Z :=
  match n with
  | O => []
  | S n' =>
      if Z.testbit w j then zeros_at base w (j + 1) n'
      else (base + j) :: zeros_at base w (j + 1) n'
  end.

Lemma zeros_at_filter base w j n :
  zeros_at base w j n
  = map (Z.add base) (List.filter (fun b => negb (Z.testbit w b)) (zseq j n)).
Proof.
  revert j. induction n as [| n IH]; intros j; simpl; [reflexivity |].
  rewrite IH. destruct (Z.testbit w j); reflexivity.
Qed.

Lemma zeros_at_In base w j n x :
  In x (zeros_at base w j n) <->
  base + j <= x < base + j + Z.of_nat n /\ Z.testbit w (x - base) = false.
Proof.
  revert j. induction n as [| n IH]; intros j; simpl; [lia |].
  destruct (Z.testbit w j) eqn:E; simpl; rewrite IH.
  - split; [intros [H1 H2]; split; [lia | exact H2] |].
    intros [H1 H2]. split; [| exact H2].
    destruct (Z.eq_dec x (base + j)) as [-> |]; [| lia].
    replace (base + j - base) with j in H2 by lia. congruence.
  - split.
    + intros [<- | [H1 H2]].
      * split; [lia |]. replace (base + j - base) with j by lia. exact E.
      * split; [lia | exact H2].
    + intros [H1 H2]. destruct (Z.eq_dec x (base + j)); [left; lia | right].
      split; [lia | exact H2].
Qed.

Lemma zeros_at_app base w j a b :
  zeros_at base w j (a + b)
  = zeros_at base w j a ++ zeros_at base w (j + Z.of_nat a) b.
Proof.
  rewrite !zeros_at_filter, zseq_app, List.filter_app, map_app. reflexivity.
Qed.

Lemma zeros_at_ext base w w' j n :
  (forall b, j <= b < j + Z.of_nat n -> Z.testbit w' b = Z.testbit w b) ->
  zeros_at base w' j n = zeros_at base w j n.
Proof.
  revert j. induction n as [| n IH]; intros j H; simpl; [reflexivity |].
  rewrite H by lia. rewrite IH by (intros; apply H; lia). reflexivity.
Qed.

Lemma land_pow2_eqb w j :
  0 <= j -> (Z.land w (2 ^ j) =? 0) = negb (Z.testbit w j).
Proof.
  intros Hj. destruct (Z.testbit w j) eqn:E; simpl.
  - apply Z.eqb_neq. intros H0.
    assert (Hb : Z.testbit (Z.land w (2 ^ j)) j = true).
    { rewrite Z.land_spec, E, Z.pow2_bits_true by lia. reflexivity. }
    rewrite H0, Z.bits_0 in Hb. discriminate.
  - apply Z.eqb_eq. apply Z.bits_inj'. intros n Hn.
    rewrite Z.land_spec, Z.bits_0, Z.pow2_bits_eqb by lia.
    destruct (Z.eqb_spec j n) as [<- |]; [rewrite E; reflexivity |].
    apply andb_false_r.
Qed.

Section BitsetFacts.

Variable LOG2 : Z.
Hypothesis HLOG2 : 0 <= LOG2.

Local Abbreviation BPW := (Bitset.BITS_PER_WORD LOG2).
Local Abbreviation castW := (Bitset.castW LOG2).
Local Abbreviation populationCount := (Bitset.populationCount LOG2).

(** A value of the word type. *)
Definition is_word (w : Z) : Prop := 0 <= w < 2 ^ BPW.

Lemma BPW_pos : 0 < BPW.
Proof. unfold Bitset.BITS_PER_WORD. apply Z.pow_pos_nonneg; lia. Qed.

Lemma wordForBit_div i : Bitset.wordForBit LOG2 i = i / BPW.
Proof. unfold Bitset.wordForBit. apply Z.shiftr_div_pow2. exact HLOG2. Qed.

Lemma land_BPW_mod i : Z.land i (BPW - 1) = i mod BPW.
Proof.
  unfold Bitset.BITS_PER_WORD.
  replace (2 ^ LOG2 - 1) with (Z.ones LOG2) by (rewrite Z.ones_equiv; lia).
  apply Z.land_ones. exact HLOG2.
Qed.

Lemma castW_word w : is_word w -> castW w = w.
Proof. intros H. apply Z.mod_small. exact H. Qed.

Lemma castW_is_word x : is_word (castW x).
Proof.
  apply Z.mod_pos_bound. apply Z.pow_pos_nonneg; [lia |].
  pose proof BPW_pos. lia.
Qed.

Lemma castW_testbit x b :
  0 <= b < BPW -> Z.testbit (castW x) b = Z.testbit x b.
Proof. intros H. apply Z.mod_pow2_bits_low. lia. Qed.

Lemma WORD_MASK_ones : Bitset.WORD_MASK LOG2 = Z.ones BPW.
Proof. unfold Bitset.WORD_MASK. rewrite Z.ones_equiv. lia. Qed.

Lemma land_WORD_MASK w : Z.land w (Bitset.WORD_MASK LOG2) = castW w.
Proof.
  rewrite WORD_MASK_ones. apply Z.land_ones. pose proof BPW_pos. lia.
Qed.

Lemma pow2_is_word j : 0 <= j < BPW -> is_word (2 ^ j).
Proof.
  intros H. split; [apply Z.pow_nonneg; lia |].
  apply Z.pow_lt_mono_r; lia.
Qed.

Lemma maskForBit_pow i :
  Bitset.maskForBit LOG2 i = 2 ^ (i mod BPW).
Proof.
  unfold Bitset.maskForBit. rewrite land_BPW_mod.
  pose proof (Z.mod_pos_bound i BPW BPW_pos) as Hr.
  rewrite Z.shiftl_mul_pow2, Z.mul_1_l by lia.
  apply castW_word, pow2_is_word. exact Hr.
Qed.

Lemma test_testbit words i :
  Bitset.test LOG2 words i
  = match words !! Z.to_nat (i / BPW) with
    | Some w => Z.testbit w (i mod BPW)
    | None => false
    end.
Proof.
  unfold Bitset.test. rewrite wordForBit_div, maskForBit_pow.
  destruct (words !! Z.to_nat (i / BPW)) as [w |]; [| reflexivity].
  pose proof (Z.mod_pos_bound i BPW BPW_pos) as Hr.
  rewrite land_pow2_eqb by lia. apply negb_involutive.
Qed.

Lemma populationCount_ext x y :
  (forall b, 0 <= b < BPW -> Z.testbit x b = Z.testbit y b) ->
  populationCount x = populationCount y.
Proof.
  intros H. unfold Bitset.populationCount. do 2 f_equal.
  apply List.filter_ext_in. intros b Hb. apply zseq_In in Hb.
  apply H. pose proof BPW_pos. lia.
Qed.

Lemma populationCount_castW x : populationCount (castW x) = populationCount x.
Proof. apply populationCount_ext. intros b Hb. apply castW_testbit, Hb. Qed.

(** The zero bits of a whole word, counted as the first pass does. *)
Lemma zero_count_word base w :
  BPW - populationCount (castW (Z.land w (Bitset.WORD_MASK LOG2)))
  = Z.of_nat (length (zeros_at base w 0 (Z.to_nat BPW))).
Proof.
  rewrite land_WORD_MASK, !populationCount_castW.
  unfold Bitset.populationCount.
  rewrite zeros_at_filter, length_map.
  pose proof (filter_length_compl (fun j => Z.testbit w j)
                (zseq 0 (Z.to_nat BPW))) as H.
  rewrite zseq_length in H. pose proof BPW_pos. lia.
Qed.

(** The zero bits of the last word below bit [r], counted as the first
    pass does with the padding bits forced to one. *)
Lemma zero_count_last base w r :
  0 <= r < BPW ->
  BPW - populationCount
          (castW (Z.lor (Z.land w (Bitset.WORD_MASK LOG2))
                        (castW (Z.lnot (2 ^ r - 1)))))
  = Z.of_nat (length (zeros_at base w 0 (Z.to_nat r))).
Proof.
  intros Hr. rewrite populationCount_castW.
  set (x := Z.lor _ _).
  assert (Hx : forall b, 0 <= b < BPW ->
               Z.testbit x b = Z.testbit w b || negb (b <? r)).
  { intros b Hb. unfold x.
    rewrite Z.lor_spec, land_WORD_MASK, !castW_testbit by exact Hb.
    rewrite Z.lnot_spec by lia.
    replace (2 ^ r - 1) with (Z.ones r) by (rewrite Z.ones_equiv; lia).
    rewrite Z.testbit_ones_nonneg by lia. reflexivity. }
  unfold Bitset.populationCount.
  pose proof (filter_length_compl (fun j => Z.testbit x j)
                (zseq 0 (Z.to_nat BPW))) as H.
  rewrite zseq_length in H.
  assert (Hz : List.filter (fun j => negb (Z.testbit x j))
                 (zseq 0 (Z.to_nat BPW))
               = List.filter (fun j => negb (Z.testbit w j))
                   (zseq 0 (Z.to_nat r))).
  { replace (Z.to_nat BPW) with (Z.to_nat r + Z.to_nat (BPW - r))%nat by lia.
    rewrite zseq_app, List.filter_app.
    rewrite (List.filter_ext_in (fun j => negb (Z.testbit x j))
               (fun j => negb (Z.testbit w j)) (zseq 0 (Z.to_nat r))).
    2:{ intros b Hb. apply zseq_In in Hb. rewrite Hx by lia.
        destruct (Z.ltb_spec b r); [| lia]. rewrite orb_false_r.
        reflexivity. }
    rewrite (List.filter_ext_in (fun j => negb (Z.testbit x j))
               (fun _ => false)).
    2:{ intros b Hb. apply zseq_In in Hb. rewrite Hx by lia.
        destruct (Z.ltb_spec b r); [lia |]. rewrite orb_true_r.
        reflexivity. }
    rewrite filter_const_false. apply app_nil_r. }
  rewrite Hz in H. rewrite zeros_at_filter, length_map. lia.
Qed.

End BitsetFacts.

(** *** The two passes of [detail::set] *)

Lemma zeros_at_ones base n j m :
  0 <= j -> j + Z.of_nat m <= n -> zeros_at base (Z.ones n) j m = [].
Proof.
  revert j. induction m as [| m IH]; intros j Hj Hm; simpl; [reflexivity |].
  rewrite Z.ones_spec_low by lia. apply IH; lia.
Qed.

Section BitsetSet.

Variable LOG2 : Z.
Hypothesis HLOG2 : 0 <= LOG2.

Local Abbreviation BPW := (Bitset.BITS_PER_WORD LOG2).
Local Abbreviation castW := (Bitset.castW LOG2).

(** The zero bits of the words [ws], which are the words from index [t] on,
    lowest index first. *)
Fixpoint zeros_from (t : Z) (ws : list Z) : list Z :=
  match ws with
  | [] => []
  | w :: ws' =>
      zeros_at (t * BPW) w 0 (Z.to_nat BPW) ++ zeros_from (t + 1) ws'
  end.

Lemma zeros_from_app t a b :
  zeros_from t (a ++ b)
  = zeros_from t a ++ zeros_from (t + Z.of_nat (length a)) b.
Proof.
  revert t. induction a as [| w a IH]; intros t; simpl.
  - f_equal. lia.
  - rewrite IH, <- app_assoc. do 3 f_equal. lia.
Qed.

Lemma zeros_from_In t ws x :
  In x (zeros_from t ws) -> t * BPW <= x.
Proof.
  pose proof (BPW_pos LOG2 HLOG2) as HB.
  revert t. induction ws as [| w ws IH]; intros t; simpl; [tauto |].
  rewrite in_app_iff, zeros_at_In. intros [[H _] | H]; [lia |].
  apply IH in H. nia.
Qed.

Lemma set_count_eq fuel words bound i zeroes :
  Bitset.set_count LOG2 fuel words bound i zeroes
  = if (i <? bound) && (0 <? zeroes) then
      match fuel with
      | O => None
      | S fuel' =>
          match words !! Z.to_nat i with
          | None => None
          | Some w =>
              Bitset.set_count LOG2 fuel' words bound (i + 1)
                (zeroes - (BPW - Bitset.populationCount LOG2
                                   (castW (Z.land w (Bitset.WORD_MASK LOG2)))))
          end
      end
    else Some (i, zeroes).
Proof. destruct fuel; reflexivity. Qed.

(** The first pass subtracts the zero bits of the words before [bound], and
    stops early once enough were seen. *)
Lemma set_count_spec words bound n :
  forall fuel i z,
    (n < fuel)%nat -> 0 <= i -> Z.of_nat n = bound - i ->
    bound <= Z.of_nat (length words) ->
    exists i' z',
      Bitset.set_count LOG2 fuel words bound i z = Some (i', z') /\
      let T := Z.of_nat (length (zeros_from i
                                   (take n (drop (Z.to_nat i) words)))) in
      (0 < z' <-> T < z) /\ (0 < z' -> i' = bound /\ z' = z - T).
Proof.
  induction n as [| n IH]; intros fuel i z Hf Hi Hn Hb;
    rewrite set_count_eq.
  - destruct (Z.ltb_spec i bound); [lia |]. simpl.
    exists i, z. split; [reflexivity |]. simpl. lia.
  - destruct (Z.ltb_spec i bound); [| lia].
    destruct (Z.ltb_spec 0 z); simpl.
    2:{ exists i, z. split; [reflexivity |]. lia. }
    destruct fuel as [| fuel]; [lia |].
    assert (Hlt : (Z.to_nat i < length words)%nat) by lia.
    destruct (lookup_lt_is_Some_2 _ _ Hlt) as [w Hw]. rewrite Hw.
    rewrite (zero_count_word LOG2 HLOG2 (i * BPW) w).
    destruct (IH fuel (i + 1)
                (z - Z.of_nat (length (zeros_at (i * BPW) w 0 (Z.to_nat BPW)))))
      as (i' & z' & -> & H1 & H2); try lia.
    exists i', z'. split; [reflexivity |].
    rewrite (drop_S _ _ _ Hw). simpl take. simpl zeros_from.
    rewrite length_app.
    replace (Z.to_nat (i + 1)) with (S (Z.to_nat i)) in H1, H2 by lia.
    simpl in H1, H2. lia.
Qed.

(** One word of the bitset holds the bits of one run of indices. *)
Lemma filter_test_word words t w :
  0 <= t -> words !! Z.to_nat t = Some w ->
  forall n j, 0 <= j -> j + Z.of_nat n <= BPW ->
    List.filter (fun i => negb (Bitset.test LOG2 words i))
                (zseq (t * BPW + j) n)
    = zeros_at (t * BPW) w j n.
Proof.
  intros Ht Hw. pose proof (BPW_pos LOG2 HLOG2) as HB.
  induction n as [| n IH]; intros j Hj Hn; simpl; [reflexivity |].
  rewrite (test_testbit LOG2 HLOG2).
  replace ((t * BPW + j) / BPW) with t
    by (apply Z.div_unique with j; lia).
  replace ((t * BPW + j) mod BPW) with j
    by (apply Z.mod_unique with t; lia).
  rewrite Hw.
  replace (t * BPW + j + 1) with (t * BPW + (j + 1)) by lia.
  rewrite IH by lia. destruct (Z.testbit w j); reflexivity.
Qed.

Lemma filter_test_words words :
  forall n t,
    0 <= t -> t + Z.of_nat n <= Z.of_nat (length words) ->
    List.filter (fun i => negb (Bitset.test LOG2 words i))
                (zseq (t * BPW) (n * Z.to_nat BPW))
    = zeros_from t (take n (drop (Z.to_nat t) words)).
Proof.
  pose proof (BPW_pos LOG2 HLOG2) as HB.
  induction n as [| n IH]; intros t Ht Hn; simpl; [reflexivity |].
  assert (Hlt : (Z.to_nat t < length words)%nat) by lia.
  destruct (lookup_lt_is_Some_2 _ _ Hlt) as [w Hw].
  rewrite (drop_S _ _ _ Hw). simpl.
  rewrite zseq_app, List.filter_app.
  replace (t * BPW) with (t * BPW + 0) at 1 by lia.
  rewrite (filter_test_word words t w Ht Hw) by lia.
  f_equal.
  replace (t * BPW + Z.of_nat (Z.to_nat BPW)) with ((t + 1) * BPW) by lia.
  rewrite IH by lia.
  replace (Z.to_nat (t + 1)) with (S (Z.to_nat t)) by lia. reflexivity.
Qed.


Lemma set_outer_eq fuel words indexes i zeroes k :
  Bitset.set_outer LOG2 fuel words indexes i zeroes k
  = if zeroes <? k then
      match fuel with
      | O => None
      | S fuel' =>
          match words !! Z.to_nat i with
          | None => None
          | Some wi =>
              let w := Z.land wi (Bitset.WORD_MASK LOG2) in
              if w =? Bitset.WORD_MASK LOG2 then
                Bitset.set_outer LOG2 fuel' words indexes (i + 1) zeroes k
              else
                match Bitset.set_inner LOG2 (Z.to_nat BPW) i 0 w 1
                                       indexes zeroes k with
                | None => None
                | Some (w', indexes', zeroes') =>
                    Bitset.set_outer LOG2 fuel' (<[Z.to_nat i := w']> words)
                                     indexes' (i + 1) zeroes' k
                end
          end
      end
    else Some (words, indexes).
Proof. destruct fuel; reflexivity. Qed.

(** The inner loop takes the zero bits of the word from bit [j] on, lowest
    first, until [k] indices are stored. *)
Lemma set_inner_spec i k n :
  forall j w indexes z,
    0 <= j -> j + Z.of_nat n = BPW -> is_word LOG2 w ->
    0 <= z < k -> k <= Z.of_nat (length indexes) ->
    let taken := take (Z.to_nat (k - z)) (zeros_at (i * BPW) w j n) in
    exists w',
      Bitset.set_inner LOG2 n i j w (castW (2 ^ j)) indexes z k
      = Some (w', fill indexes (Z.to_nat z) taken,
              z + Z.of_nat (length taken)) /\
      is_word LOG2 w' /\
      (forall b, 0 <= b < BPW ->
         Z.testbit w' b = true <->
         Z.testbit w b = true \/ In (i * BPW + b) taken).
Proof.
  pose proof (BPW_pos LOG2 HLOG2) as HB.
  induction n as [| n IH]; intros j w indexes z Hj Hn Hw Hz Hk; simpl.
  - exists w. rewrite take_nil. simpl. rewrite Z.add_0_r.
    split; [reflexivity |]. split; [exact Hw |]. tauto.
  - assert (Hjw : is_word LOG2 (2 ^ j)) by (apply pow2_is_word; lia).
    rewrite (castW_word LOG2 HLOG2 _ Hjw).
    rewrite land_pow2_eqb by exact Hj.
    assert (Hnext : castW (Z.shiftl (2 ^ j) 1) = castW (2 ^ (j + 1))).
    { rewrite Z.shiftl_mul_pow2 by lia. f_equal.
      rewrite Z.pow_add_r by lia. lia. }
    rewrite Hnext.
    destruct (Z.testbit w j) eqn:E; simpl.
    + destruct (IH (j + 1) w indexes z) as (w' & H1 & H2 & H3); try lia;
        try assumption.
      exists w'. split; [exact H1 |]. split; [exact H2 | exact H3].
    + destruct (decide (0 <= z < Z.of_nat (length indexes))) as [_ | ?];
        [| lia].
      replace (Z.to_nat (k - z)) with (S (Z.to_nat (k - (z + 1)))) by lia.
      simpl take. simpl fill. simpl length.
      rewrite Z.shiftl_mul_pow2 by exact HLOG2.
      fold BPW.
      assert (Hw1 : is_word LOG2 (Z.lor w (2 ^ j))).
      { destruct Hw as [Hw0 Hw1], Hjw as [Hj0 Hj1].
        split; [apply Z.lor_nonneg; lia |].
        destruct (Z.eq_dec (Z.lor w (2 ^ j)) 0) as [-> | Hne];
          [apply Z.pow_pos_nonneg; lia |].
        pose proof (proj2 (Z.lor_nonneg w (2 ^ j)) (conj Hw0 Hj0)) as Hl0.
        apply (proj2 (Z.log2_lt_pow2 (Z.lor w (2 ^ j)) BPW ltac:(lia))).
        rewrite Z.log2_lor by lia.
        apply Z.max_lub_lt.
        - destruct (Z.eq_dec w 0) as [-> | ?]; [change (Z.log2 0) with 0; lia |].
          apply (proj1 (Z.log2_lt_pow2 w BPW ltac:(lia))). lia.
        - rewrite Z.log2_pow2; lia. }
      assert (Hbit : forall b, 0 <= b ->
                Z.testbit (Z.lor w (2 ^ j)) b = Z.testbit w b || (j =? b)).
      { intros b Hb. rewrite Z.lor_spec, Z.pow2_bits_eqb by lia.
        reflexivity. }
      destruct (Z.eqb_spec (z + 1) k) as [Heq | Hne].
      * exists (Z.lor w (2 ^ j)).
        replace (Z.to_nat (k - (z + 1))) with O by lia. rewrite take_0.
        simpl. split; [f_equal |]. split; [exact Hw1 |].
        intros b Hb. rewrite Hbit by lia.
        rewrite orb_true_iff, Z.eqb_eq. intuition lia.
      * destruct (IH (j + 1) (Z.lor w (2 ^ j))
                    (<[Z.to_nat z := i * BPW + j]> indexes) (z + 1))
          as (w' & H1 & H2 & H3); try lia; try assumption.
        { rewrite length_insert. lia. }
        rewrite (zeros_at_ext _ w (Z.lor w (2 ^ j))) in H1, H3.
        2,3: (intros b Hb; rewrite Hbit by lia;
              destruct (Z.eqb_spec j b); [lia | apply orb_false_r]).
        exists w'. split.
        { rewrite H1.
          replace (Z.to_nat (z + 1)) with (S (Z.to_nat z)) by lia.
          do 2 f_equal. lia. }
        split; [exact H2 |].
        intros b Hb. rewrite H3 by exact Hb. rewrite Hbit by lia.
        rewrite orb_true_iff, Z.eqb_eq. simpl. intuition lia.
Qed.

Lemma test_insert words i w idx :
  0 <= i -> (Z.to_nat i < length words)%nat -> 0 <= idx ->
  Bitset.test LOG2 (<[Z.to_nat i := w]> words) idx
  = if idx / BPW =? i then Z.testbit w (idx mod BPW)
    else Bitset.test LOG2 words idx.
Proof.
  intros Hi Hlt Hidx. pose proof (BPW_pos LOG2 HLOG2) as HB.
  rewrite !(test_testbit LOG2 HLOG2).
  assert (0 <= idx / BPW) by (apply Z.div_pos; lia).
  destruct (Z.eqb_spec (idx / BPW) i) as [-> | Hne].
  - rewrite list_lookup_insert_eq by exact Hlt. reflexivity.
  - rewrite list_lookup_insert_ne by lia. reflexivity.
Qed.

(** The outer loop takes the zero bits of the words from index [i] on,
    lowest first, until [k] indices are stored. *)
Lemma set_outer_spec k m :
  forall fuel words indexes i z,
    (m < fuel)%nat -> 0 <= i ->
    Z.of_nat m = Z.of_nat (length words) - i ->
    Forall (is_word LOG2) words ->
    0 <= z <= k -> k <= Z.of_nat (length indexes) ->
    k - z <= Z.of_nat (length (zeros_from i (drop (Z.to_nat i) words))) ->
    let taken :=
      take (Z.to_nat (k - z)) (zeros_from i (drop (Z.to_nat i) words)) in
    exists words',
      Bitset.set_outer LOG2 fuel words indexes i z k
      = Some (words', fill indexes (Z.to_nat z) taken) /\
      length words' = length words /\
      Forall (is_word LOG2) words' /\
      (forall idx, 0 <= idx ->
         Bitset.test LOG2 words' idx = true <->
         Bitset.test LOG2 words idx = true \/ In idx taken).
Proof.
  pose proof (BPW_pos LOG2 HLOG2) as HB.
  induction m as [| m IH];
    intros fuel words indexes i z Hf Hi Hm Hws Hz Hk Hen;
    rewrite set_outer_eq.
  - rewrite drop_ge in * by lia. simpl in Hen.
    destruct (Z.ltb_spec z k); [lia |].
    exists words. simpl zeros_from. rewrite take_nil. simpl.
    split; [reflexivity |]. split; [reflexivity |]. split; [exact Hws |].
    tauto.
  - destruct (Z.ltb_spec z k) as [Hlt | Hge].
    2:{ exists words. replace (Z.to_nat (k - z)) with O by lia.
        rewrite take_0. simpl.
        split; [reflexivity |]. split; [reflexivity |]. split; [exact Hws |].
        tauto. }
    destruct fuel as [| fuel]; [lia |].
    assert (Hil : (Z.to_nat i < length words)%nat) by lia.
    destruct (lookup_lt_is_Some_2 _ _ Hil) as [wi Hwi]. rewrite Hwi.
    assert (Hword : is_word LOG2 wi).
    { rewrite Forall_forall in Hws. apply Hws.
      apply list_elem_of_In, list_elem_of_lookup. eauto. }
    cbv zeta. rewrite (land_WORD_MASK LOG2 HLOG2), (castW_word LOG2 HLOG2 _ Hword).
    rewrite (drop_S _ _ _ Hwi) in *. simpl zeros_from in *.
    assert (HS : Z.to_nat (i + 1) = S (Z.to_nat i)) by lia.
    destruct (Z.eqb_spec wi (Bitset.WORD_MASK LOG2)) as [Hfull | Hnf].
    + assert (Hnil : zeros_at (i * BPW) wi 0 (Z.to_nat BPW) = []).
      { rewrite Hfull, (WORD_MASK_ones LOG2 HLOG2). apply zeros_at_ones; lia. }
      rewrite Hnil in *. simpl app in *.
      pose proof (IH fuel words indexes (i + 1) z) as IH'.
      rewrite HS in IH'.
      destruct IH' as (words' & H1 & H2); try lia; try assumption.
      exists words'. split; [exact H1 | exact H2].
    + set (zs := zeros_at (i * BPW) wi 0 (Z.to_nat BPW)) in *.
      destruct (set_inner_spec i k (Z.to_nat BPW) 0 wi indexes z)
        as (w' & E1 & Hw' & Hbits); try lia; try assumption.
      change (castW (2 ^ 0)) with (castW 1) in E1.
      rewrite (castW_word LOG2 HLOG2 1) in E1
        by (change 1 with (2 ^ 0); apply pow2_is_word; lia).
      fold zs in E1, Hbits. rewrite E1.
      set (t1 := take (Z.to_nat (k - z)) zs) in *.
      assert (Hlen1 : (length t1 <= Z.to_nat (k - z))%nat).
      { unfold t1. rewrite length_take. lia. }
      assert (Hcase : (length t1 = length zs /\ t1 = zs)
                      \/ length t1 = Z.to_nat (k - z)).
      { unfold t1. rewrite length_take.
        destruct (Nat.le_gt_cases (length zs) (Z.to_nat (k - z))).
        - left. split; [lia |]. apply take_ge. lia.
        - right. lia. }
      rewrite length_app in Hen.
      pose proof (IH fuel (<[Z.to_nat i := w']> words)
                    (fill indexes (Z.to_nat z) t1) (i + 1)
                    (z + Z.of_nat (length t1))) as IH'.
      rewrite HS in IH'.
      destruct IH' as (words' & H1 & H2 & H3 & H4).
      { lia. } { lia. } { rewrite length_insert. lia. }
      { apply Forall_insert; assumption. }
      { lia. } { rewrite fill_length. lia. }
      { rewrite drop_insert_lt by lia. destruct Hcase as [[Hc _] | Hc]; lia. }
      rewrite drop_insert_lt in H1, H4 by lia.
      exists words'.
      assert (Htk : take (Z.to_nat (k - z))
                      (zs ++ zeros_from (i + 1) (drop (S (Z.to_nat i)) words))
                    = t1 ++ take (Z.to_nat (k - (z + Z.of_nat (length t1))))
                              (zeros_from (i + 1)
                                 (drop (S (Z.to_nat i)) words))).
      { rewrite take_app. fold t1. f_equal.
        destruct Hcase as [[Hc _] | Hc].
        - f_equal. lia.
        - replace (Z.to_nat (k - (z + Z.of_nat (length t1)))) with O by lia.
          rewrite take_0.
          replace (Z.to_nat (k - z) - length zs)%nat with O; [apply take_0 |].
          unfold t1 in Hc. rewrite length_take in Hc. lia. }
      rewrite Htk. split.
      { rewrite H1, fill_app. do 3 f_equal. lia. }
      split; [rewrite H2; apply length_insert |].
      split; [exact H3 |].
      intros idx Hidx. rewrite H4 by exact Hidx.
      rewrite test_insert by lia. rewrite in_app_iff.
      assert (Hin : In idx t1 -> idx / BPW = i).
      { intros Hx. unfold t1 in Hx.
        apply list_elem_of_In, elem_of_take in Hx as (? & Hx & _).
        apply list_elem_of_lookup_2, list_elem_of_In in Hx.
        unfold zs in Hx. apply zeros_at_In in Hx as [Hx _].
        symmetry. apply Z.div_unique with (idx - i * BPW); lia. }
      destruct (Z.eqb_spec (idx / BPW) i) as [Hq | Hq].
      * rewrite (Hbits (idx mod BPW)) by (apply Z.mod_pos_bound; lia).
        replace (i * BPW + idx mod BPW) with idx
          by (rewrite (Z.div_mod idx BPW) at 1 by lia; rewrite Hq; lia).
        rewrite (test_testbit LOG2 HLOG2), Hq, Hwi. tauto.
      * tauto.
Qed.

End BitsetSet.

(** *** [Bitset::set] *)

Lemma filter_zseq_sorted (f : Z -> bool) n :
  forall lo, StronglySorted Z.lt (List.filter f (zseq lo n)).
Proof.
  induction n as [| n IH]; intros lo; simpl; [constructor |].
  destruct (f lo); [| apply IH].
  constructor; [apply IH |].
  apply Forall_forall. intros x Hx.
  apply List.filter_In in Hx as [Hx _].
  apply zseq_In in Hx. lia.
Qed.

Lemma StronglySorted_take {A} (R : A -> A -> Prop) (l : list A) n :
  StronglySorted R l -> StronglySorted R (take n l).
Proof.
  intros H. revert n. induction H as [| x l Hl IH Hx]; intros [| n]; simpl;
    try constructor.
  - apply IH.
  - apply Forall_forall. intros y Hy.
    apply (proj2 (list_elem_of_In _ _)) in Hy.
    apply elem_of_take in Hy as (i & Hy & _).
    rewrite Forall_forall in Hx. apply Hx.
    apply list_elem_of_lookup_2 in Hy.
    apply (proj1 (list_elem_of_In _ _)), Hy.
Qed.

Section BitsetSetN.

Variable LOG2 : Z.
Hypothesis HLOG2 : 0 <= LOG2.
Variable NumBits : Z.
Hypothesis HNumBits : 0 < NumBits.

Local Abbreviation BPW := (Bitset.BITS_PER_WORD LOG2).

(** A state of the bitset: [NUM_WORDS] values of the word type. *)
Definition bitset_state (bits : list Z) : Prop :=
  Z.of_nat (length bits) = Bitset.NUM_WORDS LOG2 NumBits /\
  Forall (is_word LOG2) bits.

Lemma NUM_WORDS_div :
  Bitset.NUM_WORDS LOG2 NumBits
  = NumBits / BPW + (if NumBits mod BPW =? 0 then 0 else 1).
Proof.
  pose proof (BPW_pos LOG2 HLOG2) as HB.
  unfold Bitset.NUM_WORDS. rewrite Z.shiftr_div_pow2 by exact HLOG2.
  fold BPW.
  pose proof (Z.div_mod NumBits BPW ltac:(lia)) as Hdm.
  pose proof (Z.mod_pos_bound NumBits BPW HB) as Hr.
  destruct (Z.eqb_spec (NumBits mod BPW) 0) as [H0 | H0]; symmetry.
  - apply Z.div_unique with (BPW - 1); lia.
  - apply Z.div_unique with (NumBits mod BPW - 1); lia.
Qed.

(** The zero bits below [NumBits]: those of the whole words, then those of
    the low bits of the last word. *)
Lemma zero_bits_split bits :
  bitset_state bits ->
  Bitset.zero_bits LOG2 bits NumBits
  = zeros_from LOG2 0 (take (Z.to_nat (NumBits / BPW)) bits)
    ++ match bits !! Z.to_nat (NumBits / BPW) with
       | Some w => zeros_at (NumBits / BPW * BPW) w 0
                            (Z.to_nat (NumBits mod BPW))
       | None => []
       end.
Proof.
  intros [Hlen _]. pose proof (BPW_pos LOG2 HLOG2) as HB.
  rewrite NUM_WORDS_div in Hlen.
  pose proof (Z.div_mod NumBits BPW ltac:(lia)) as Hdm.
  pose proof (Z.mod_pos_bound NumBits BPW HB) as Hr.
  assert (Hq : 0 <= NumBits / BPW) by (apply Z.div_pos; lia).
  set (q := NumBits / BPW) in *. set (r := NumBits mod BPW) in *.
  unfold Bitset.zero_bits.
  replace (Z.to_nat NumBits)
    with (Z.to_nat q * Z.to_nat BPW + Z.to_nat r)%nat by nia.
  rewrite zseq_app, List.filter_app.
  change 0 with (0 * BPW) at 1.
  rewrite (filter_test_words LOG2 HLOG2)
    by (destruct (r =? 0); lia).
  change (Z.to_nat 0) with O. rewrite drop_0. f_equal.
  replace (0 + Z.of_nat (Z.to_nat q * Z.to_nat BPW)%nat)
    with (q * BPW + 0) by nia.
  destruct (bits !! Z.to_nat q) as [w |] eqn:Hw.
  - apply (filter_test_word LOG2 HLOG2 bits q w Hq Hw); lia.
  - apply lookup_ge_None_1 in Hw.
    destruct (r =? 0) eqn:E.
    + apply Z.eqb_eq in E. rewrite E. reflexivity.
    + lia.
Qed.

(** The zero bits below [NumBits] come first among the zero bits of the
    words. *)
Lemma zero_bits_prefix bits :
  bitset_state bits ->
  exists rest,
    zeros_from LOG2 0 bits = Bitset.zero_bits LOG2 bits NumBits ++ rest.
Proof.
  intros Hst. rewrite (zero_bits_split bits Hst). destruct Hst as [Hlen _].
  pose proof (BPW_pos LOG2 HLOG2) as HB.
  pose proof (Z.mod_pos_bound NumBits BPW HB) as Hr.
  assert (Hq : 0 <= NumBits / BPW) by (apply Z.div_pos; lia).
  set (q := NumBits / BPW) in *. set (r := NumBits mod BPW) in *.
  assert (Hsplit : zeros_from LOG2 0 bits
                   = zeros_from LOG2 0 (take (Z.to_nat q) bits)
                     ++ zeros_from LOG2
                          (0 + Z.of_nat (length (take (Z.to_nat q) bits)))
                          (drop (Z.to_nat q) bits)).
  { rewrite <- (zeros_from_app LOG2 HLOG2), take_drop. reflexivity. }
  rewrite Hsplit.
  destruct (bits !! Z.to_nat q) as [w |] eqn:Hw.
  - rewrite (drop_S _ _ _ Hw). simpl zeros_from.
    replace (Z.to_nat BPW)
      with (Z.to_nat r + Z.to_nat (BPW - r))%nat by lia.
    rewrite zeros_at_app.
    apply lookup_lt_Some in Hw.
    rewrite length_take, Nat.min_l by lia.
    replace (0 + Z.of_nat (Z.to_nat q)) with q by lia.
    eexists. rewrite <- !app_assoc. reflexivity.
  - apply lookup_ge_None_1 in Hw. rewrite drop_ge by exact Hw.
    exists []. simpl. rewrite !app_nil_r. reflexivity.
Qed.

(** C5.  [Bitset::set(indexes, k)] with [k >= 1]: when fewer than [k] of
    the [NumBits] bits are zero it returns [false] and leaves the bit array
    (and [indexes]) as they were; otherwise it returns [true], has set exactly
    the [k] lowest-index zero bits, has stored their indices in
    [indexes[0..k)] in strictly ascending order, and has changed no other
    bit. *)
Theorem Bitset_set_all_or_nothing (bits indexes : list Z) (k : Z) :
  bitset_state bits -> 1 <= k -> k <= Z.of_nat (length indexes) ->
  let zs := Bitset.zero_bits LOG2 bits NumBits in
  (Z.of_nat (length zs) < k ->
   Bitset.set_n LOG2 NumBits indexes bits k = Ok false (bits, indexes)) /\
  (k <= Z.of_nat (length zs) ->
   let chosen := take (Z.to_nat k) zs in
   exists bits',
     Bitset.set_n LOG2 NumBits indexes bits k
     = Ok true (bits', chosen ++ drop (Z.to_nat k) indexes) /\
     bitset_state bits' /\
     StronglySorted Z.lt chosen /\
     (forall i, 0 <= i ->
        Bitset.test LOG2 bits' i = true <->
        Bitset.test LOG2 bits i = true \/ In i chosen)).
Proof.
  intros Hst Hk Hix zs.
  pose proof (BPW_pos LOG2 HLOG2) as HB.
  pose proof (Z.mod_pos_bound NumBits BPW HB) as Hr.
  assert (Hq : 0 <= NumBits / BPW) by (apply Z.div_pos; lia).
  pose proof (zero_bits_split bits Hst) as Hzs. fold zs in Hzs.
  destruct (zero_bits_prefix bits Hst) as [rest Hrest]. fold zs in Hrest.
  pose proof Hst as [Hlen Hws]. rewrite NUM_WORDS_div in Hlen.
  set (q := NumBits / BPW) in *. set (r := NumBits mod BPW) in *.
  (* the first pass *)
  unfold Bitset.set_n, Bitset.set.
  destruct (Z.ltb_spec 0 NumBits); [| lia].
  destruct (Z.ltb_spec 0 k); [| lia]. cbv zeta. simpl negb. cbv iota.
  rewrite (land_BPW_mod LOG2 HLOG2), (maskForBit_pow LOG2 HLOG2).
  fold (Bitset.NUM_WORDS LOG2 NumBits). rewrite NUM_WORDS_div.
  fold q r.
  assert (Hbound : q + (if r =? 0 then 0 else 1)
                   - (if 0 <? r then 1 else 0) = q).
  { destruct (Z.eqb_spec r 0), (Z.ltb_spec 0 r); lia. }
  rewrite Hbound.
  destruct (set_count_spec LOG2 HLOG2 bits q (Z.to_nat q)
              (S (length bits)) 0 k)
    as (i' & z' & -> & H1 & H2); try lia;
    try (destruct (r =? 0); lia).
  change (Z.to_nat 0) with O in H1, H2. rewrite drop_0 in H1, H2.
  cbv zeta in H1, H2.
  set (T := Z.of_nat (length (zeros_from LOG2 0 (take (Z.to_nat q) bits))))
    in *.
  assert (Hcount :
    exists z'',
      (if (0 <? z') && (0 <? r)
       then match bits !! Z.to_nat i' with
            | Some w =>
                Some (z' - (BPW - Bitset.populationCount LOG2
                                    (Bitset.castW LOG2
                                       (Z.lor (Z.land w (Bitset.WORD_MASK LOG2))
                                          (Bitset.castW LOG2
                                             (Z.lnot (2 ^ r - 1)))))))
            | None => None
            end
       else Some z') = Some z'' /\
      (0 < z'' <-> Z.of_nat (length zs) < k)).
  { rewrite Hzs, length_app. fold T.
    destruct (Z.ltb_spec 0 z') as [Hz' | Hz']; simpl.
    - destruct (H2 Hz') as [-> ->].
      destruct (Z.ltb_spec 0 r) as [Hr0 | Hr0].
      + assert (Hql : (Z.to_nat q < length bits)%nat).
        { destruct (Z.eqb_spec r 0); lia. }
        destruct (lookup_lt_is_Some_2 _ _ Hql) as [w Hw]. rewrite Hw.
        rewrite (zero_count_last LOG2 HLOG2 (q * BPW) w r) by lia.
        eexists. split; [reflexivity |]. lia.
      + assert (r = 0) as Hr00 by lia.
        exists (k - T). split; [reflexivity |].
        destruct (bits !! Z.to_nat q); [rewrite Hr00 |]; simpl; lia.
    - exists z'. split; [reflexivity |]. lia. }
  destruct Hcount as (z'' & -> & Hz'').
  split.
  - intros Hfew. destruct (Z.ltb_spec 0 z''); [reflexivity | lia].
  - intros Henough. set (chosen := take (Z.to_nat k) zs).
    destruct (Z.ltb_spec 0 z''); [lia |].
    destruct (set_outer_spec LOG2 HLOG2 k (length bits) (S (length bits))
                bits indexes 0 0)
      as (bits' & E & Hl' & Hw' & Hbits'); try lia; try assumption.
    { change (Z.to_nat 0) with O. rewrite drop_0, Hrest, length_app. lia. }
    change (Z.to_nat 0) with O in E, Hbits'. rewrite drop_0 in E, Hbits'.
    rewrite Z.sub_0_r, Hrest, take_app_le in E, Hbits' by lia.
    fold chosen in E, Hbits'.
    rewrite E. exists bits'.
    rewrite fill_spec by (unfold chosen; rewrite length_take; lia).
    rewrite take_0. simpl.
    replace (length chosen) with (Z.to_nat k)
      by (unfold chosen; rewrite length_take; lia).
    split; [reflexivity |].
    split.
    { split; [| exact Hw']. rewrite Hl', NUM_WORDS_div. exact Hlen. }
    split; [| exact Hbits'].
    apply StronglySorted_take. apply filter_zseq_sorted.
Qed.

End BitsetSetN.

Lemma Bitset_set_all_or_nothing_witness :
  let zs := Bitset.zero_bits 3 [251; 2] 11 in
  (Z.of_nat (length zs) < 3 ->
   Bitset.set_n 3 11 [0; 0; 0; 0] [251; 2] 3
   = Ok false ([251; 2], [0; 0; 0; 0])) /\
  (3 <= Z.of_nat (length zs) ->
   let chosen := take (Z.to_nat 3) zs in
   exists bits',
     Bitset.set_n 3 11 [0; 0; 0; 0] [251; 2] 3
     = Ok true (bits', chosen ++ drop (Z.to_nat 3) [0; 0; 0; 0]) /\
     bitset_state 3 11 bits' /\
     StronglySorted Z.lt chosen /\
     (forall i, 0 <= i ->
        Bitset.test 3 bits' i = true <->
        Bitset.test 3 [251; 2] i = true \/ In i chosen)).
Proof.
  apply (Bitset_set_all_or_nothing 3 ltac:(lia) 11 ltac:(lia)
           [251; 2] [0; 0; 0; 0] 3).
  - split; [reflexivity |].
    repeat constructor; unfold is_word; simpl; lia.
  - lia.
  - simpl. lia.
Defined.

(** ** The block allocator *)

(** C8.  [BlockAllocator::allocate(out, n)]: with [n = 0] the call passes the
    range check and reaches [detail::set], whose assertion
    [numBitsToSet > 0] fails; with [n] greater than [MAX_BLOCKS_PER_CHUNK]
    the call throws [OutOfRange] and leaves the allocator and [out] as they
    were. *)
Theorem allocate_zero_asserts (T : Traits) (a : BlockAllocator.t)
        (out : list Z) :
  0 <= MAX_BLOCKS_PER_CHUNK T ->
  BlockAllocator.allocate T a out 0 = AssertFail /\
  (forall n, MAX_BLOCKS_PER_CHUNK T < n ->
     BlockAllocator.allocate T a out n = Throw OutOfRange (a, out)).
Proof.
  intros HM. split.
  - unfold BlockAllocator.allocate.
    destruct (Z.ltb_spec (MAX_BLOCKS_PER_CHUNK T) 0); [lia |].
    simpl orb. cbv iota.
    unfold Bitset.set_n, Bitset.set.
    destruct (0 <? NUM_BLOCKS T); reflexivity.
  - intros n Hn. unfold BlockAllocator.allocate.
    destruct (Z.ltb_spec (MAX_BLOCKS_PER_CHUNK T) n); [| lia].
    rewrite orb_true_r. reflexivity.
Qed.

(** Traits small enough to run the model on. *)
Definition small_traits : Traits :=
  {| WORD_LOG2 := 3; NUM_BLOCKS := 8; BLOCK_SIZE := 16;
     MAX_BLOCKS_PER_CHUNK := 4; MAX_CHUNKS := 4;
     MAX_VISITS_IN_FLIGHT := 4; INTERESTED_PARTIES_CAPACITY := 2 |}.

Lemma allocate_zero_asserts_witness :
  BlockAllocator.allocate small_traits
    (BlockAllocator.ctor small_traits 0) [0; 0; 0; 0] 0 = AssertFail /\
  (forall n, MAX_BLOCKS_PER_CHUNK small_traits < n ->
     BlockAllocator.allocate small_traits
       (BlockAllocator.ctor small_traits 0) [0; 0; 0; 0] n
     = Throw OutOfRange (BlockAllocator.ctor small_traits 0, [0; 0; 0; 0])).
Proof.
  apply (allocate_zero_asserts small_traits). simpl. lia.
Defined.

(** With assertions compiled out the same call would return at once: the
    loops of [detail::set] do not run for [numBitsToSet = 0]. *)
Lemma set_loops_zero LOG2 words indexes bound :
  Bitset.set_count LOG2 (S (length words)) words bound 0 0 = Some (0, 0) /\
  Bitset.set_outer LOG2 (S (length words)) words indexes 0 0 0
  = Some (words, indexes).
Proof.
  split; simpl.
  - rewrite andb_false_r. reflexivity.
  - reflexivity.
Qed.

Example allocate_one_block :
  BlockAllocator.allocate small_traits
    (BlockAllocator.mk [5] 1000) [0; 0; 0; 0] 2
  = Ok tt (BlockAllocator.mk [15] 1000, [1016; 1048; 0; 0]).
Proof. vm_compute. reflexivity. Qed.

Example free_blocks :
  BlockAllocator.free small_traits (BlockAllocator.mk [15] 1000)
                      [1016; 1048; 0; 0] 2
  = Ok tt (BlockAllocator.mk [5] 1000).
Proof. vm_compute. reflexivity. Qed.

(** ** The queue of interested parties *)

Section FifoFacts.

(** The capacity, a power of two. *)
Variable N : Z.
Hypothesis Hpow : exists p, 0 <= p /\ N = 2 ^ p.

Lemma N_pos : 0 < N.
Proof. destruct Hpow as (p & Hp & ->). apply Z.pow_pos_nonneg; lia. Qed.

Lemma land_N_mod x : Z.land x (N - 1) = x mod N.
Proof.
  destruct Hpow as (p & Hp & ->).
  replace (2 ^ p - 1) with (Z.ones p) by (rewrite Z.ones_equiv; lia).
  apply Z.land_ones. exact Hp.
Qed.

(** The value [k] places behind the front of the ring. *)
Definition ring_at (buffer : list Z) (front k : Z) : Z :=
  match buffer !! Z.to_nat ((front + k) mod N) with
  | Some x => x
  | None => 0
  end.

(** The queued values, oldest first. *)
Definition contents (f : Fifo.t) : list Z :=
  map (ring_at (Fifo._buffer f) (Fifo._front f))
      (zseq 0 (Z.to_nat (Fifo._size f))).

(** The representation invariant of the ring buffer. *)
Definition fifo_ok (f : Fifo.t) : Prop :=
  Z.of_nat (length (Fifo._buffer f)) = N /\
  0 <= Fifo._front f < N /\
  0 <= Fifo._size f <= N /\
  Fifo._back f = (Fifo._front f + Fifo._size f) mod N.

Lemma ctor_ok : fifo_ok (Fifo.ctor N) /\ contents (Fifo.ctor N) = [].
Proof.
  pose proof N_pos as HN. split; [| reflexivity].
  unfold fifo_ok, Fifo.ctor; simpl. rewrite repeat_length.
  rewrite Z.mod_0_l by lia. lia.
Qed.

Lemma contents_length f : fifo_ok f ->
  Z.of_nat (length (contents f)) = Fifo._size f.
Proof.
  intros (_ & _ & Hs & _). unfold contents.
  rewrite length_map, zseq_length. lia.
Qed.

Lemma empty_contents f :
  fifo_ok f -> Fifo.empty f = true <-> contents f = [].
Proof.
  intros Hok. pose proof (contents_length f Hok) as Hl.
  unfold Fifo.empty. rewrite Z.eqb_eq. split; intros H0.
  - destruct (contents f); [reflexivity | simpl in Hl; lia].
  - rewrite H0 in Hl. simpl in Hl. lia.
Qed.

Lemma enqueue_full f x :
  Fifo._size f = N -> Fifo.enqueue N f x = Throw LengthError f.
Proof.
  intros H0. unfold Fifo.enqueue. rewrite H0, Z.eqb_refl. reflexivity.
Qed.

Lemma enqueue_ok f x :
  fifo_ok f -> Fifo._size f < N ->
  exists f',
    Fifo.enqueue N f x = Ok tt f' /\ fifo_ok f' /\
    contents f' = contents f ++ [x].
Proof.
  intros (Hlen & Hf & Hs & Hb) Hlt. pose proof N_pos as HN.
  unfold Fifo.enqueue.
  destruct (Z.eqb_spec (Fifo._size f) N); [lia |].
  pose proof (Z.mod_pos_bound (Fifo._front f + Fifo._size f) N HN) as Hbr.
  destruct (decide (0 <= Fifo._back f < Z.of_nat (length (Fifo._buffer f))))
    as [_ | ?]; [| lia].
  eexists. split; [reflexivity |]. split.
  - unfold fifo_ok; simpl. rewrite length_insert, land_N_mod.
    repeat split; try lia.
    rewrite Hb, Zplus_mod_idemp_l. f_equal. lia.
  - unfold contents; simpl.
    replace (Z.to_nat (Fifo._size f + 1))
      with (Z.to_nat (Fifo._size f) + 1)%nat by lia.
    rewrite zseq_app, map_app. simpl. f_equal.
    + apply map_ext_in. intros k Hk. apply zseq_In in Hk.
      unfold ring_at. rewrite list_lookup_insert_ne; [reflexivity |].
      intros Heq. rewrite Hb in Heq. apply Z2Nat.inj in Heq; try lia.
      2:{ pose proof (Z.mod_pos_bound (Fifo._front f + k) N HN). lia. }
      assert (Hd : (Fifo._size f - k) mod N = 0).
      { replace (Fifo._size f - k)
          with ((Fifo._front f + Fifo._size f) - (Fifo._front f + k)) by lia.
        rewrite Zminus_mod, Heq, Z.sub_diag. apply Z.mod_0_l. lia. }
      rewrite Z.mod_small in Hd by lia. lia.
    + unfold ring_at. rewrite Z.add_0_l, Z2Nat.id by lia.
      rewrite Hb, list_lookup_insert_eq by lia. reflexivity.
Qed.

Lemma dequeue_ok f :
  fifo_ok f -> 0 < Fifo._size f ->
  exists x f',
    Fifo.dequeue N f = Ok x f' /\ fifo_ok f' /\
    contents f = x :: contents f' /\
    Fifo._size f' = Fifo._size f - 1.
Proof.
  intros (Hlen & Hf & Hs & Hb) Hlt. pose proof N_pos as HN.
  unfold Fifo.dequeue.
  destruct (Z.eqb_spec (Fifo._size f) 0); [lia |].
  destruct (decide (0 <= Fifo._front f)) as [_ | ?]; [| lia].
  assert (Hfl : (Z.to_nat (Fifo._front f) < length (Fifo._buffer f))%nat)
    by lia.
  destruct (lookup_lt_is_Some_2 _ _ Hfl) as [x Hx]. rewrite Hx.
  eexists _, _. split; [reflexivity |].
  pose proof (Z.mod_pos_bound (Fifo._front f + 1) N HN) as Hfr.
  split; [| split; [| reflexivity]].
  - unfold fifo_ok; simpl. rewrite land_N_mod.
    repeat split; try lia.
    rewrite Hb, Zplus_mod_idemp_l. f_equal. lia.
  - unfold contents; simpl. rewrite land_N_mod.
    replace (Z.to_nat (Fifo._size f))
      with (1 + Z.to_nat (Fifo._size f - 1))%nat by lia.
    rewrite zseq_app. simpl. f_equal.
    + unfold ring_at. rewrite Z.add_0_r, Z.mod_small by lia.
      rewrite Hx. reflexivity.
    + assert (Hsh : forall lo m,
                map (ring_at (Fifo._buffer f) (Fifo._front f))
                    (zseq (lo + 1) m)
                = map (ring_at (Fifo._buffer f) ((Fifo._front f + 1) mod N))
                      (zseq lo m)).
      { intros lo m. revert lo.
        induction m as [| m IH]; intros lo; simpl; [reflexivity |].
        rewrite IH. f_equal. unfold ring_at.
        rewrite Zplus_mod_idemp_l.
        replace (Fifo._front f + 1 + lo) with (Fifo._front f + (lo + 1))
          by lia.
        reflexivity. }
      apply (Hsh 0).
Qed.

End FifoFacts.

(** ** The hashed set *)

Lemma land_le_r a b : 0 <= a -> 0 <= b -> 0 <= Z.land a b <= b.
Proof.
  intros Ha Hb. split; [apply Z.land_nonneg; lia |].
  assert (Hor : Z.lor (Z.land a b) (Z.ldiff b a) = b).
  { apply Z.bits_inj'. intros n Hn.
    rewrite Z.lor_spec, Z.land_spec, Z.ldiff_spec.
    destruct (Z.testbit a n), (Z.testbit b n); reflexivity. }
  assert (Hand : Z.land (Z.land a b) (Z.ldiff b a) = 0).
  { apply Z.bits_inj'. intros n Hn.
    rewrite !Z.land_spec, Z.ldiff_spec, Z.bits_0.
    destruct (Z.testbit a n), (Z.testbit b n); reflexivity. }
  pose proof (Z.add_nocarry_lor _ _ Hand) as Hadd. rewrite Hor in Hadd.
  assert (0 <= Z.ldiff b a) by (apply Z.ldiff_nonneg; lia).
  lia.
Qed.

Lemma last_cons {A} (x : A) (l : list A) (d : A) :
  List.last (x :: l) d = List.last l x.
Proof.
  revert x d. induction l as [| y l IH]; intros x d; [reflexivity |].
  change (List.last (x :: y :: l) d) with (List.last (y :: l) d).
  rewrite (IH y d), (IH y x). reflexivity.
Qed.

Lemma repeat_replicate {A} (x : A) n : repeat x n = replicate n x.
Proof. induction n as [| n IH]; simpl; [| rewrite IH]; reflexivity. Qed.

(** *** Lists of chains *)

Lemma elem_of_concat_lookup {A} (bl : list (list A)) b l x :
  bl !! b = Some l -> x ∈ l -> x ∈ concat bl.
Proof.
  revert b. induction bl as [| y bl IH]; intros [| b] Hb Hx; simpl in *;
    try discriminate.
  - injection Hb as ->. apply elem_of_app. left. exact Hx.
  - apply elem_of_app. right. apply (IH b); assumption.
Qed.

Lemma elem_of_concat_inv {A} (bl : list (list A)) x :
  x ∈ concat bl -> exists b l, bl !! b = Some l /\ x ∈ l.
Proof.
  induction bl as [| y bl IH]; simpl; intros Hx.
  - inversion Hx.
  - apply elem_of_app in Hx as [Hx | Hx].
    + exists O, y. split; [reflexivity | exact Hx].
    + destruct (IH Hx) as (b & l & Hb & Hl). exists (S b), l.
      split; assumption.
Qed.

Lemma NoDup_concat_lookup {A} (bl : list (list A)) b l :
  NoDup (concat bl) -> bl !! b = Some l -> NoDup l.
Proof.
  revert b. induction bl as [| y bl IH]; intros [| b] Hnd Hb; simpl in *;
    try discriminate; apply list.NoDup_app in Hnd as (H1 & H2 & H3).
  - injection Hb as ->. exact H1.
  - apply (IH b); assumption.
Qed.

Lemma NoDup_concat_disjoint {A} (bl : list (list A)) b b' l l' x :
  NoDup (concat bl) -> bl !! b = Some l -> bl !! b' = Some l' -> b <> b' ->
  x ∈ l -> x ∉ l'.
Proof.
  revert b b'. induction bl as [| y bl IH]; intros [| b] [| b'] Hnd Hb Hb' Hne Hx;
    simpl in *; try discriminate; try congruence;
    apply list.NoDup_app in Hnd as (H1 & H2 & H3).
  - injection Hb as ->. intros Hx'. apply (H2 x Hx).
    apply (elem_of_concat_lookup bl b' l'); assumption.
  - injection Hb' as ->. intros Hx'. apply (H2 x Hx').
    apply (elem_of_concat_lookup bl b l); assumption.
  - apply (IH b b'); try assumption. congruence.
Qed.

Lemma concat_insert_perm {A} (bl : list (list A)) b l l' :
  bl !! b = Some l -> concat (<[b := l']> bl) ++ l ≡ₚ concat bl ++ l'.
Proof.
  revert b. induction bl as [| y bl IH]; intros [| b] Hb; simpl in *;
    try discriminate.
  - injection Hb as ->.
    rewrite <- !app_assoc.
    rewrite (Permutation_app_comm (concat bl) l), (Permutation_app_comm (concat bl) l').
    rewrite !app_assoc. apply Permutation_app_tail, Permutation_app_comm.
  - rewrite <- !app_assoc. apply Permutation_app_head, IH, Hb.
Qed.

Lemma zseq_NoDup lo n : NoDup (zseq lo n).
Proof.
  revert lo. induction n as [| n IH]; intros lo; simpl; constructor.
  - intros Hin. apply list_elem_of_In, zseq_In in Hin. lia.
  - apply IH.
Qed.

Lemma zseq_elem_of lo n x : x ∈ zseq lo n <-> lo <= x < lo + Z.of_nat n.
Proof. rewrite list_elem_of_In. apply zseq_In. Qed.

Section Chains.

Context {E : Type} `{Entry E} `{!EntryLaws E}.

(** The identifier and the link of the entry at an index. *)
Definition idAt (es : list E) (i : Z) : option Z :=
  getId <$> es !! Z.to_nat i.

Definition nextAt (es : list E) (i : Z) : option Z :=
  getNextInChain <$> es !! Z.to_nat i.

(** [seg es i l stop]: following the links from [i] visits the entries [l]
    and then arrives at [stop]. *)
Fixpoint seg (es : list E) (i : Z) (l : list Z) (stop : Z) : Prop :=
  match l with
  | [] => i = stop
  | j :: l' =>
      i = j /\ 0 <= j /\
      exists n, nextAt es j = Some n /\ seg es n l' stop
  end.

(** A chain ends at a negative link. *)
Definition chain (es : list E) (i : Z) (l : list Z) : Prop :=
  exists stop, stop < 0 /\ seg es i l stop.

Lemma seg_app es i l1 l2 stop :
  seg es i (l1 ++ l2) stop <->
  exists m, seg es i l1 m /\ seg es m l2 stop.
Proof.
  revert i. induction l1 as [| j l1 IH]; intros i; simpl.
  - split; [intros Hs; exists i; auto | intros (m & -> & Hs); exact Hs].
  - split.
    + intros (-> & Hj & n & Hn & Hs). apply IH in Hs as (m & H1 & H2).
      exists m. split; [| exact H2]. repeat split; [exact Hj |].
      exists n. split; assumption.
    + intros (m & (-> & Hj & n & Hn & H1) & H2).
      repeat split; [exact Hj |]. exists n. split; [exact Hn |].
      apply IH. exists m. split; assumption.
Qed.

Lemma seg_ext es es' i l stop :
  (forall j, j ∈ l -> nextAt es' j = nextAt es j) ->
  seg es i l stop -> seg es' i l stop.
Proof.
  revert i. induction l as [| j l IH]; intros i Hext; simpl; [auto |].
  intros (-> & Hj & n & Hn & Hs). repeat split; [exact Hj |].
  exists n. split.
  - rewrite Hext by apply list_elem_of_here. exact Hn.
  - apply IH; [| exact Hs]. intros x Hx. apply Hext.
    apply list_elem_of_further, Hx.
Qed.

Lemma chain_ext es es' i l :
  (forall j, j ∈ l -> nextAt es' j = nextAt es j) ->
  chain es i l -> chain es' i l.
Proof.
  intros Hext (stop & Hstop & Hs). exists stop. split; [exact Hstop |].
  apply (seg_ext es); assumption.
Qed.

Lemma seg_range es i l stop j :
  seg es i l stop -> j ∈ l -> 0 <= j < Z.of_nat (length es).
Proof.
  revert i. induction l as [| x l IH]; intros i; simpl.
  - intros _ Hj. inversion Hj.
  - intros (-> & Hx & n & Hn & Hs) Hj.
    apply elem_of_cons in Hj as [-> | Hj]; [| apply (IH n); assumption].
    unfold nextAt in Hn.
    destruct (es !! Z.to_nat x) eqn:Hl; [| discriminate].
    apply lookup_lt_Some in Hl. lia.
Qed.

Lemma chain_range es i l j :
  chain es i l -> j ∈ l -> 0 <= j < Z.of_nat (length es).
Proof. intros (stop & _ & Hs). apply (seg_range es i l stop j Hs). Qed.

Lemma chain_nil es i : i < 0 -> chain es i [].
Proof. intros Hi. exists i. split; [exact Hi | reflexivity]. Qed.

Lemma chain_cons es i n l :
  0 <= i -> nextAt es i = Some n -> chain es n l -> chain es i (i :: l).
Proof.
  intros Hi Hn (stop & Hstop & Hs). exists stop. split; [exact Hstop |].
  simpl. repeat split; [exact Hi |]. exists n. split; assumption.
Qed.

Lemma chain_inv_cons es i j l :
  chain es i (j :: l) ->
  i = j /\ 0 <= j /\ exists n, nextAt es j = Some n /\ chain es n l.
Proof.
  intros (stop & Hstop & (-> & Hj & n & Hn & Hs)).
  repeat split; [exact Hj |]. exists n. split; [exact Hn |].
  exists stop. split; assumption.
Qed.

Lemma chain_inv_nil es i : chain es i [] -> i < 0.
Proof. intros (stop & Hstop & ->). exact Hstop. Qed.

Lemma chain_det es i l l' : chain es i l -> chain es i l' -> l = l'.
Proof.
  revert i l'. induction l as [| j l IH]; intros i [| j' l'] H1 H2.
  - reflexivity.
  - apply chain_inv_nil in H1. apply chain_inv_cons in H2. lia.
  - apply chain_inv_nil in H2. apply chain_inv_cons in H1. lia.
  - apply chain_inv_cons in H1 as (-> & _ & n & Hn & H1).
    apply chain_inv_cons in H2 as (<- & _ & n' & Hn' & H2).
    rewrite Hn in Hn'. injection Hn' as <-.
    f_equal. apply (IH n); assumption.
Qed.

Lemma nextAt_insert_ne es k e j :
  0 <= j -> 0 <= k -> j <> k -> nextAt (<[Z.to_nat k := e]> es) j = nextAt es j.
Proof.
  intros Hj Hk Hne. unfold nextAt.
  rewrite list_lookup_insert_ne by lia. reflexivity.
Qed.

Lemma nextAt_insert_eq es k e :
  0 <= k < Z.of_nat (length es) ->
  nextAt (<[Z.to_nat k := e]> es) k = Some (getNextInChain e).
Proof.
  intros Hk. unfold nextAt. rewrite list_lookup_insert_eq by lia.
  reflexivity.
Qed.

Lemma idAt_insert_ne es k e j :
  0 <= j -> 0 <= k -> j <> k -> idAt (<[Z.to_nat k := e]> es) j = idAt es j.
Proof.
  intros Hj Hk Hne. unfold idAt.
  rewrite list_lookup_insert_ne by lia. reflexivity.
Qed.

Lemma idAt_insert_eq es k e :
  0 <= k < Z.of_nat (length es) ->
  idAt (<[Z.to_nat k := e]> es) k = Some (getId e).
Proof.
  intros Hk. unfold idAt. rewrite list_lookup_insert_eq by lia.
  reflexivity.
Qed.

(** *** The walk along a chain *)

Lemma walk_eq fuel es id i last :
  HashedSet.walk fuel es id i last
  = if i <? 0 then Some (HashedSet.NotFound last)
    else
      match fuel with
      | O => None
      | S fuel' =>
          match es !! Z.to_nat i with
          | None => None
          | Some e =>
              if id =? getId e then Some (HashedSet.Found i last)
              else HashedSet.walk fuel' es id (getNextInChain e) i
          end
      end.
Proof. destruct fuel; reflexivity. Qed.

Lemma doFind_loop_eq fuel es id i :
  HashedSet.doFind_loop fuel es id i
  = if i <? 0 then Some None
    else
      match fuel with
      | O => None
      | S fuel' =>
          match es !! Z.to_nat i with
          | None => None
          | Some e =>
              if id =? getId e then Some (Some i)
              else HashedSet.doFind_loop fuel' es id (getNextInChain e)
          end
      end.
Proof. destruct fuel; reflexivity. Qed.

(** The walk passes the entries that do not have the identifier. *)
Lemma walk_seg es id l :
  forall fuel i last m,
    seg es i l m -> (forall j, j ∈ l -> idAt es j <> Some id) ->
    HashedSet.walk (length l + fuel) es id i last
    = HashedSet.walk fuel es id m (List.last l last).
Proof.
  induction l as [| j l IH]; intros fuel i last m Hs Hid; simpl in Hs.
  - subst. reflexivity.
  - destruct Hs as (-> & Hj & n & Hn & Hs).
    simpl length. rewrite Nat.add_succ_l, walk_eq.
    destruct (Z.ltb_spec j 0); [lia |].
    unfold nextAt in Hn.
    destruct (es !! Z.to_nat j) as [e |] eqn:He; [| discriminate].
    injection Hn as <-.
    destruct (Z.eqb_spec id (getId e)) as [-> | Hne].
    { exfalso. apply (Hid j); [apply list_elem_of_here |].
      unfold idAt. rewrite He. reflexivity. }
    rewrite (IH fuel _ j m Hs).
    2:{ intros x Hx. apply Hid, list_elem_of_further, Hx. }
    rewrite last_cons. reflexivity.
Qed.

Lemma walk_notfound es id l i last fuel :
  chain es i l -> (forall j, j ∈ l -> idAt es j <> Some id) ->
  (length l <= fuel)%nat ->
  HashedSet.walk fuel es id i last
  = Some (HashedSet.NotFound (List.last l last)).
Proof.
  intros (stop & Hstop & Hs) Hid Hf.
  replace fuel with (length l + (fuel - length l))%nat by lia.
  rewrite (walk_seg es id l _ i last stop Hs Hid), walk_eq.
  destruct (Z.ltb_spec stop 0); [reflexivity | lia].
Qed.

Lemma walk_found es id l1 j l2 i last fuel :
  chain es i (l1 ++ j :: l2) ->
  (forall x, x ∈ l1 -> idAt es x <> Some id) -> idAt es j = Some id ->
  (length (l1 ++ j :: l2) <= fuel)%nat ->
  HashedSet.walk fuel es id i last
  = Some (HashedSet.Found j (List.last l1 last)).
Proof.
  intros (stop & Hstop & Hs) Hid Hj Hf.
  apply seg_app in Hs as (m & H1 & H2).
  rewrite length_app in Hf. simpl in Hf.
  replace fuel with (length l1 + S (fuel - length l1 - 1))%nat by lia.
  rewrite (walk_seg es id l1 _ i last m H1 Hid), walk_eq.
  simpl in H2. destruct H2 as (-> & Hj0 & _).
  destruct (Z.ltb_spec j 0); [lia |].
  unfold idAt in Hj.
  destruct (es !! Z.to_nat j) as [e |]; [| discriminate].
  injection Hj as <-. rewrite Z.eqb_refl. reflexivity.
Qed.

(** [doFind]'s loop finds what the shared walk finds. *)
Lemma doFind_loop_walk fuel es id :
  forall i last,
    HashedSet.doFind_loop fuel es id i
    = match HashedSet.walk fuel es id i last with
      | Some (HashedSet.Found j _) => Some (Some j)
      | Some (HashedSet.NotFound _) => Some None
      | None => None
      end.
Proof.
  induction fuel as [| fuel IH]; intros i last;
    rewrite doFind_loop_eq, walk_eq.
  - destruct (i <? 0); reflexivity.
  - destruct (i <? 0); [reflexivity |].
    destruct (es !! Z.to_nat i) as [e |]; [| reflexivity].
    destruct (id =? getId e); [reflexivity |]. apply IH.
Qed.

End Chains.

Section HashedSetFacts.

Context {E : Type} `{Entry E} `{!EntryLaws E}.

Variable NumEntries : nat.
Hypothesis HNumEntries : (0 < NumEntries)%nat.

Local Abbreviation bucket := (HashedSet.bucket NumEntries).

Lemma bucket_range id : 0 <= bucket id < 2 * Z.of_nat NumEntries.
Proof.
  unfold HashedSet.bucket.
  pose proof (hash_range id) as Hh.
  assert (Hw : 0 <= wrap32 (2 * Z.of_nat NumEntries - 1)
               <= 2 * Z.of_nat NumEntries - 1).
  { unfold wrap32. apply Z.mod_bound_pos_le; lia. }
  pose proof (land_le_r (hash id) _ (proj1 Hh) (proj1 Hw)). lia.
Qed.

(** *** The representation invariant *)

(** [rep s fl bl]: the free list of [s] is [fl], the chain of bucket [b] is
    [bl !! b]; the chains share no entry and cover all entries; a free entry
    has identifier -1; a member is in the bucket of its identifier, which
    is not -1 and is the identifier of no other member. *)
Record rep (s : HashedSet.t E) (fl : list Z) (bl : list (list Z))
  : Prop := {
  rep_entries : length (HashedSet._entries s) = NumEntries;
  rep_table : length (HashedSet._hashTable s) = (2 * NumEntries)%nat;
  rep_buckets : length bl = (2 * NumEntries)%nat;
  rep_free : chain (HashedSet._entries s) (HashedSet._free s) fl;
  rep_chain :
    forall b h l,
      HashedSet._hashTable s !! b = Some h -> bl !! b = Some l ->
      chain (HashedSet._entries s) h l;
  rep_part : fl ++ concat bl ≡ₚ zseq 0 NumEntries;
  rep_free_id :
    forall i, i ∈ fl -> idAt (HashedSet._entries s) i = Some (-1);
  rep_member_id :
    forall b l i,
      bl !! b = Some l -> i ∈ l ->
      exists id,
        idAt (HashedSet._entries s) i = Some id /\ id <> -1 /\
        bucket id = Z.of_nat b;
  rep_ids :
    forall b l,
      bl !! b = Some l -> NoDup (idAt (HashedSet._entries s) <$> l);
  rep_size : HashedSet._size s = Z.of_nat (length (concat bl))
}.

(** A well-formed set. *)
Definition wf (s : HashedSet.t E) : Prop := exists fl bl, rep s fl bl.

Lemma rep_NoDup s fl bl : rep s fl bl -> NoDup (fl ++ concat bl).
Proof.
  intros R. rewrite (rep_part _ _ _ R). apply zseq_NoDup.
Qed.

Lemma rep_in_range s fl bl i :
  rep s fl bl -> i ∈ fl ++ concat bl <-> 0 <= i < Z.of_nat NumEntries.
Proof.
  intros R. rewrite (rep_part _ _ _ R), zseq_elem_of. lia.
Qed.

Lemma rep_free_not_member s fl bl b l i :
  rep s fl bl -> bl !! b = Some l -> i ∈ fl -> i ∉ l.
Proof.
  intros R Hb Hi Hl. apply rep_NoDup in R.
  apply list.NoDup_app in R as (_ & Hd & _). apply (Hd i Hi).
  apply (elem_of_concat_lookup bl b l); assumption.
Qed.

Lemma rep_bucket_NoDup s fl bl b l :
  rep s fl bl -> bl !! b = Some l -> NoDup l.
Proof.
  intros R Hb. apply rep_NoDup in R. apply list.NoDup_app in R as (_ & _ & Hc).
  apply (NoDup_concat_lookup bl b l); assumption.
Qed.

Lemma rep_buckets_disjoint s fl bl b b' l l' i :
  rep s fl bl -> bl !! b = Some l -> bl !! b' = Some l' -> b <> b' ->
  i ∈ l -> i ∉ l'.
Proof.
  intros R Hb Hb' Hne. apply rep_NoDup in R.
  apply list.NoDup_app in R as (_ & _ & Hc).
  apply (NoDup_concat_disjoint bl b b' l l'); assumption.
Qed.

(** The bucket of an identifier, its head and its chain. *)
Lemma rep_bucket s fl bl id :
  rep s fl bl ->
  exists h l,
    HashedSet._hashTable s !! Z.to_nat (bucket id) = Some h /\
    bl !! Z.to_nat (bucket id) = Some l /\
    chain (HashedSet._entries s) h l /\
    (length l <= length (HashedSet._entries s))%nat.
Proof.
  intros R. pose proof (bucket_range id) as Hb.
  destruct (lookup_lt_is_Some_2 (HashedSet._hashTable s)
              (Z.to_nat (bucket id))) as [h Hh].
  { rewrite (rep_table _ _ _ R). lia. }
  destruct (lookup_lt_is_Some_2 bl (Z.to_nat (bucket id))) as [l Hl].
  { rewrite (rep_buckets _ _ _ R). lia. }
  exists h, l. repeat split; try assumption.
  - apply (rep_chain _ _ _ R _ _ _ Hh Hl).
  - pose proof (rep_bucket_NoDup _ _ _ _ _ R Hl) as Hnd.
    rewrite (rep_entries _ _ _ R).
    rewrite <- (zseq_length 0 NumEntries).
    apply submseteq_length, NoDup_submseteq; [exact Hnd |].
    intros x Hx. apply zseq_elem_of.
    pose proof (proj1 (rep_in_range s fl bl x R)) as Hr.
    rewrite Z.add_0_l. apply Hr. apply elem_of_app. right.
    apply (elem_of_concat_lookup bl (Z.to_nat (bucket id)) l); assumption.
Qed.

(** A member is in the chain of the bucket of its identifier. *)
Lemma rep_member_bucket s fl bl i id l :
  rep s fl bl -> i ∈ concat bl -> idAt (HashedSet._entries s) i = Some id ->
  bl !! Z.to_nat (bucket id) = Some l -> i ∈ l.
Proof.
  intros R Hi Hid Hl.
  apply elem_of_concat_inv in Hi as (b' & l' & Hb' & Hil').
  destruct (rep_member_id _ _ _ R b' l' i Hb' Hil') as (id' & Hid' & _ & Hbk).
  rewrite Hid in Hid'. injection Hid' as <-.
  rewrite Hbk, Nat2Z.id in Hl. rewrite Hb' in Hl. injection Hl as <-.
  exact Hil'.
Qed.

(** An entry with an identifier other than -1 is a member. *)
Lemma rep_id_member s fl bl i id :
  rep s fl bl -> 0 <= i -> idAt (HashedSet._entries s) i = Some id ->
  id <> -1 -> i ∈ concat bl.
Proof.
  intros R Hi Hid Hne.
  assert (Hr : 0 <= i < Z.of_nat NumEntries).
  { unfold idAt in Hid.
    destruct (HashedSet._entries s !! Z.to_nat i) eqn:Hl; [| discriminate].
    apply lookup_lt_Some in Hl. rewrite (rep_entries _ _ _ R) in Hl. lia. }
  apply (rep_in_range s fl bl i R) in Hr.
  apply elem_of_app in Hr as [Hf | Hm]; [| exact Hm].
  rewrite (rep_free_id _ _ _ R i Hf) in Hid. congruence.
Qed.

(** Two members with the same identifier are the same entry. *)
Lemma rep_id_unique s fl bl i j id :
  rep s fl bl -> i ∈ concat bl -> j ∈ concat bl ->
  idAt (HashedSet._entries s) i = Some id ->
  idAt (HashedSet._entries s) j = Some id -> i = j.
Proof.
  intros R Hi Hj Hidi Hidj.
  destruct (rep_bucket s fl bl id R) as (h & l & _ & Hl & _ & _).
  pose proof (rep_member_bucket s fl bl i id l R Hi Hidi Hl) as Hil.
  pose proof (rep_member_bucket s fl bl j id l R Hj Hidj Hl) as Hjl.
  pose proof (rep_ids _ _ _ R _ l Hl) as Hnd.
  apply list_elem_of_lookup in Hil as (a & Ha).
  apply list_elem_of_lookup in Hjl as (c & Hc).
  assert (a = c).
  { apply (NoDup_lookup _ a c (Some id) Hnd);
      rewrite list_lookup_fmap; [rewrite Ha | rewrite Hc]; simpl;
      f_equal; assumption. }
  subst c. congruence.
Qed.

(** Writing an entry without changing its identifier or its link keeps
    the representation. *)
Lemma rep_update s fl bl k e e' :
  rep s fl bl ->
  HashedSet._entries s !! k = Some e ->
  getId e' = getId e -> getNextInChain e' = getNextInChain e ->
  rep {| HashedSet._hashTable := HashedSet._hashTable s;
         HashedSet._entries := <[k := e']> (HashedSet._entries s);
         HashedSet._free := HashedSet._free s;
         HashedSet._size := HashedSet._size s |} fl bl.
Proof.
  intros R Hk Hid Hnx.
  assert (Hn : forall j, nextAt (<[k := e']> (HashedSet._entries s)) j
                         = nextAt (HashedSet._entries s) j).
  { intros j. unfold nextAt.
    destruct (decide (k = Z.to_nat j)) as [-> | Hne].
    - rewrite list_lookup_insert_eq by (eapply lookup_lt_Some; eassumption).
      rewrite Hk. simpl. f_equal. exact Hnx.
    - rewrite list_lookup_insert_ne by exact Hne. reflexivity. }
  assert (Hi : forall j, idAt (<[k := e']> (HashedSet._entries s)) j
                         = idAt (HashedSet._entries s) j).
  { intros j. unfold idAt.
    destruct (decide (k = Z.to_nat j)) as [-> | Hne].
    - rewrite list_lookup_insert_eq by (eapply lookup_lt_Some; eassumption).
      rewrite Hk. simpl. f_equal. exact Hid.
    - rewrite list_lookup_insert_ne by exact Hne. reflexivity. }
  destruct R as [R1 R2 R3 R4 R5 R6 R7 R8 R9 R10].
  split; simpl; try assumption.
  - rewrite length_insert. exact R1.
  - apply (chain_ext (HashedSet._entries s)); [intros; apply Hn | exact R4].
  - intros b h l Hh Hl.
    apply (chain_ext (HashedSet._entries s)); [intros; apply Hn |].
    apply (R5 b h l); assumption.
  - intros i Hin. rewrite Hi. apply R7, Hin.
  - intros b l i Hb Hin. rewrite Hi. apply (R8 b l i); assumption.
  - intros b l Hb.
    replace (idAt (<[k := e']> (HashedSet._entries s)) <$> l)
      with (idAt (HashedSet._entries s) <$> l); [apply (R9 b l Hb) |].
    apply list_fmap_ext. intros. symmetry. apply Hi.
Qed.

(** *** The constructor *)

Lemma ctor_loop_lookup (m : nat) :
  (m <= NumEntries)%nat ->
  forall i,
    (i < NumEntries)%nat ->
    fold_left
      (fun es i =>
         match es !! i with
         | Some e =>
             <[i := setNextInChain (Z.of_nat (i + 1)) (setId (-1) e)]> es
         | None => es
         end)
      (seq 0 m) (repeat construct NumEntries) !! i
    = Some (if decide (i < m)%nat
            then setNextInChain (Z.of_nat (i + 1)) (setId (-1) construct)
            else construct)
    /\ length (fold_left
                 (fun es i =>
                    match es !! i with
                    | Some e =>
                        <[i := setNextInChain (Z.of_nat (i + 1))
                                 (setId (-1) e)]> es
                    | None => es
                    end)
                 (seq 0 m) (repeat construct NumEntries)) = NumEntries.
Proof.
  induction m as [| m IH]; intros Hm i Hi.
  - simpl. rewrite repeat_length. split; [| reflexivity].
    destruct (decide (i < 0)%nat); [lia |].
    rewrite repeat_replicate. apply lookup_replicate_2. exact Hi.
  - rewrite seq_S, fold_left_app. simpl.
    destruct (IH ltac:(lia) m ltac:(lia)) as [Hm1 Hlen].
    destruct (decide (m < m)%nat); [lia |].
    rewrite Hm1, length_insert. split; [| exact Hlen].
    destruct (decide (i = m)) as [-> | Hne].
    + rewrite list_lookup_insert_eq by lia.
      destruct (decide (m < S m)%nat); [reflexivity | lia].
    + rewrite list_lookup_insert_ne by lia.
      rewrite (proj1 (IH ltac:(lia) i Hi)).
      destruct (decide (i < m)%nat), (decide (i < S m)%nat);
        try reflexivity; lia.
Qed.

Lemma ctor_entries (i : nat) :
  (i < NumEntries)%nat ->
  HashedSet._entries (HashedSet.ctor NumEntries) !! i
  = Some (if decide (i < NumEntries - 1)%nat
          then setNextInChain (Z.of_nat (i + 1)) (setId (-1) construct)
          else setNextInChain (-1) construct)
  /\ length (HashedSet._entries (HashedSet.ctor NumEntries)) = NumEntries.
Proof.
  intros Hi. unfold HashedSet.ctor. cbv zeta. simpl HashedSet._entries.
  destruct (ctor_loop_lookup (NumEntries - 1) ltac:(lia) (NumEntries - 1)%nat
              ltac:(lia)) as [Hlast Hlen].
  rewrite Hlast. rewrite length_insert. split; [| exact Hlen].
  destruct (decide (NumEntries - 1 < NumEntries - 1)%nat); [lia |].
  destruct (decide (i = NumEntries - 1)%nat) as [-> | Hne].
  - rewrite list_lookup_insert_eq by lia.
    destruct (decide (NumEntries - 1 < NumEntries - 1)%nat); [lia |].
    reflexivity.
  - rewrite list_lookup_insert_ne by lia.
    rewrite (proj1 (ctor_loop_lookup (NumEntries - 1) ltac:(lia) i Hi)).
    destruct (decide (i < NumEntries - 1)%nat); [reflexivity | lia].
Qed.

Lemma ctor_chain (n : nat) :
  forall k : nat,
    (k + n = NumEntries)%nat ->
    chain (HashedSet._entries (HashedSet.ctor NumEntries))
          (if decide (n = 0)%nat then -1 else Z.of_nat k)
          (zseq (Z.of_nat k) n).
Proof.
  induction n as [| n IH]; intros k Hk.
  - apply chain_nil. simpl. lia.
  - destruct (decide (S n = 0)%nat); [lia |]. simpl zseq.
    apply (chain_cons _ _ (if decide (n = 0)%nat then -1
                            else Z.of_nat (S k))); [lia | |].
    + unfold nextAt. rewrite Nat2Z.id.
      rewrite (proj1 (ctor_entries k ltac:(lia))). simpl. f_equal.
      destruct (decide (k < NumEntries - 1)%nat), (decide (n = 0)%nat);
        try lia; rewrite getNextInChain_setNextInChain; [lia | reflexivity].
    + replace (Z.of_nat k + 1) with (Z.of_nat (S k)) by lia.
      apply IH. lia.
Qed.

(** After the constructor: every entry is on the free list, in the order of
    the indices.  The identifier of the last entry is the one its default
    constructor gave it: the constructor's loop stops before the last
    entry, which only gets its link. *)
Lemma ctor_rep :
  getId construct = -1 ->
  rep (HashedSet.ctor NumEntries) (zseq 0 NumEntries)
      (repeat [] (2 * NumEntries)).
Proof.
  intros Hc.
  assert (Hcat : forall n, concat (repeat (@nil Z) n) = []).
  { induction n; simpl; auto. }
  split; rewrite ?Hcat.
  - apply (proj2 (ctor_entries O HNumEntries)).
  - simpl. apply repeat_length.
  - apply repeat_length.
  - pose proof (ctor_chain NumEntries O ltac:(lia)) as Hch.
    destruct (decide (NumEntries = 0)%nat); [lia |]. exact Hch.
  - intros b h l Hh Hl. rewrite repeat_replicate in Hl.
    apply lookup_replicate in Hl as [-> _].
    simpl in Hh. rewrite repeat_replicate in Hh.
    apply lookup_replicate in Hh as [-> _].
    apply chain_nil. lia.
  - rewrite app_nil_r. reflexivity.
  - intros i Hi. apply zseq_elem_of in Hi. unfold idAt.
    rewrite (proj1 (ctor_entries (Z.to_nat i) ltac:(lia))). simpl. f_equal.
    destruct (decide (Z.to_nat i < NumEntries - 1)%nat).
    + rewrite getId_setNextInChain, getId_setId. reflexivity.
    + rewrite getId_setNextInChain. exact Hc.
  - intros b l i Hl Hi. rewrite repeat_replicate in Hl.
    apply lookup_replicate in Hl as [-> _]. inversion Hi.
  - intros b l Hl. rewrite repeat_replicate in Hl.
    apply lookup_replicate in Hl as [-> _]. constructor.
  - reflexivity.
Qed.

(** *** Linking a new entry *)

(** Moving the head [c] of the free list to the end of the chain [l] of the
    bucket of [id] keeps the representation, whatever the writes were that
    did it, as long as they touched no other chain. *)
Lemma rep_link s fl' bl c b l id table' es' free' :
  rep s (c :: fl') bl -> bl !! b = Some l -> bucket id = Z.of_nat b ->
  id <> -1 ->
  (forall j, j ∈ l -> idAt (HashedSet._entries s) j <> Some id) ->
  length es' = NumEntries -> length table' = (2 * NumEntries)%nat ->
  (forall j, j ∈ fl' ->
     nextAt es' j = nextAt (HashedSet._entries s) j /\
     idAt es' j = idAt (HashedSet._entries s) j) ->
  (forall b' l' j, b' <> b -> bl !! b' = Some l' -> j ∈ l' ->
     nextAt es' j = nextAt (HashedSet._entries s) j /\
     idAt es' j = idAt (HashedSet._entries s) j) ->
  (forall j, j ∈ l -> idAt es' j = idAt (HashedSet._entries s) j) ->
  (forall b', b' <> b -> table' !! b' = HashedSet._hashTable s !! b') ->
  (forall h', table' !! b = Some h' -> chain es' h' (l ++ [c])) ->
  idAt es' c = Some id ->
  chain (HashedSet._entries s) free' fl' ->
  rep {| HashedSet._hashTable := table'; HashedSet._entries := es';
         HashedSet._free := free';
         HashedSet._size := HashedSet._size s + 1 |}
      fl' (<[b := l ++ [c]]> bl).
Proof.
  intros R Hl Hbk Hid Hfresh Hlen Htab Hfl Hother Hlid Htab' Hchain Hcid Hfree.
  pose proof (concat_insert_perm bl b l (l ++ [c]) Hl) as Hperm.
  assert (Hcat : concat (<[b := l ++ [c]]> bl) ≡ₚ concat bl ++ [c]).
  { apply (Permutation_app_inv_r l). rewrite Hperm.
    rewrite <- !app_assoc. apply Permutation_app_head, Permutation_app_comm. }
  assert (Hb : (b < length bl)%nat) by (eapply lookup_lt_Some; eassumption).
  split; simpl.
  - exact Hlen.
  - exact Htab.
  - rewrite length_insert. apply (rep_buckets _ _ _ R).
  - apply (chain_ext (HashedSet._entries s)); [| exact Hfree].
    intros j Hj. apply Hfl, Hj.
  - intros b' h' l' Hh' Hl'.
    destruct (decide (b' = b)) as [-> | Hne].
    + rewrite list_lookup_insert_eq in Hl' by exact Hb.
      injection Hl' as <-. apply Hchain, Hh'.
    + rewrite list_lookup_insert_ne in Hl' by congruence.
      rewrite Htab' in Hh' by exact Hne.
      apply (chain_ext (HashedSet._entries s)).
      * intros j Hj. apply (Hother b' l' j Hne Hl' Hj).
      * apply (rep_chain _ _ _ R b' h' l'); assumption.
  - rewrite Hcat, <- (rep_part _ _ _ R). simpl.
    rewrite app_assoc. symmetry. apply Permutation_cons_append.
  - intros i Hi. rewrite (proj2 (Hfl i Hi)).
    apply (rep_free_id _ _ _ R). apply list_elem_of_further, Hi.
  - intros b' l' i Hl' Hi.
    destruct (decide (b' = b)) as [-> | Hne].
    + rewrite list_lookup_insert_eq in Hl' by exact Hb.
      injection Hl' as <-. apply elem_of_app in Hi as [Hi | Hi].
      * rewrite (Hlid i Hi). apply (rep_member_id _ _ _ R b l i Hl Hi).
      * apply list_elem_of_singleton in Hi as ->.
        exists id. repeat split; assumption.
    + rewrite list_lookup_insert_ne in Hl' by congruence.
      rewrite (proj2 (Hother b' l' i Hne Hl' Hi)).
      apply (rep_member_id _ _ _ R b' l' i Hl' Hi).
  - intros b' l' Hl'.
    destruct (decide (b' = b)) as [-> | Hne].
    + rewrite list_lookup_insert_eq in Hl' by exact Hb.
      injection Hl' as <-. rewrite fmap_app. simpl. rewrite Hcid.
      replace (idAt es' <$> l) with (idAt (HashedSet._entries s) <$> l).
      2:{ apply list_fmap_ext. intros k x Hx. symmetry. apply Hlid.
          apply list_elem_of_lookup. eauto. }
      apply list.NoDup_app. split; [apply (rep_ids _ _ _ R b l Hl) |].
      split; [| apply NoDup_singleton].
      intros x Hx Hx'. apply list_elem_of_singleton in Hx' as ->.
      apply list_elem_of_fmap in Hx as (j & Hj & Hjl).
      apply (Hfresh j Hjl). symmetry. exact Hj.
    + rewrite list_lookup_insert_ne in Hl' by congruence.
      replace (idAt es' <$> l')
        with (idAt (HashedSet._entries s) <$> l');
        [apply (rep_ids _ _ _ R b' l' Hl') |].
      apply list_fmap_ext. intros k x Hx. symmetry.
      apply (Hother b' l' x Hne Hl'). apply list_elem_of_lookup. eauto.
  - rewrite Hcat, length_app, (rep_size _ _ _ R). simpl. lia.
Qed.

(** An entry as it was, or with another link. *)
Definition relinked (o o' : option E) : Prop :=
  o' = o \/ exists e n, o = Some e /\ o' = Some (setNextInChain n e).

Lemma relinked_idAt es es' j :
  relinked (es !! Z.to_nat j) (es' !! Z.to_nat j) -> idAt es' j = idAt es j.
Proof.
  unfold idAt. intros [-> | (e & n & -> & ->)]; [reflexivity |].
  simpl. rewrite getId_setNextInChain. reflexivity.
Qed.

Lemma free_head s fl bl :
  rep s fl bl -> 0 <= HashedSet._free s ->
  exists fl' ec,
    fl = HashedSet._free s :: fl' /\
    HashedSet._entries s !! Z.to_nat (HashedSet._free s) = Some ec /\
    chain (HashedSet._entries s) (getNextInChain ec) fl'.
Proof.
  intros R Hc. pose proof (rep_free _ _ _ R) as Hch.
  destruct fl as [| c' fl']; [apply chain_inv_nil in Hch; lia |].
  apply chain_inv_cons in Hch as (Heq & _ & n & Hn & Hch).
  unfold nextAt in Hn.
  destruct (HashedSet._entries s !! Z.to_nat c') as [ec |] eqn:Hec;
    [| discriminate].
  injection Hn as <-. exists fl', ec. subst c'. auto.
Qed.

Lemma link_new_rep s fl bl id h l :
  rep s fl bl -> id <> -1 ->
  HashedSet._hashTable s !! Z.to_nat (bucket id) = Some h ->
  bl !! Z.to_nat (bucket id) = Some l ->
  (forall j, j ∈ l -> idAt (HashedSet._entries s) j <> Some id) ->
  0 <= HashedSet._free s ->
  exists s' fl',
    HashedSet.link_new s id (bucket id) (List.last l (-1))
                       (HashedSet._free s) = Some s' /\
    fl = HashedSet._free s :: fl' /\
    rep s' fl' (<[Z.to_nat (bucket id) := l ++ [HashedSet._free s]]> bl) /\
    HashedSet._entries s' !! Z.to_nat (HashedSet._free s)
    = Some (setNextInChain (-1) (setId id construct)) /\
    (forall j, 0 <= j -> j <> HashedSet._free s ->
       relinked (HashedSet._entries s !! Z.to_nat j)
                (HashedSet._entries s' !! Z.to_nat j)).
Proof.
  intros R Hid Hh Hl Hfresh Hc.
  destruct (free_head s fl bl R Hc) as (fl' & ec & -> & Hec & Hfree).
  set (c := HashedSet._free s) in *. set (es := HashedSet._entries s) in *.
  set (b := Z.to_nat (bucket id)) in *.
  pose proof (bucket_range id) as Hbr.
  assert (Hcr : 0 <= c < Z.of_nat (length es)).
  { apply lookup_lt_Some in Hec. lia. }
  assert (Hcl : c ∉ l).
  { apply (rep_free_not_member s _ bl b l c R Hl), list_elem_of_here. }
  assert (Hcfl : c ∉ fl').
  { pose proof (rep_NoDup _ _ _ R) as Hnd. simpl in Hnd.
    apply list.NoDup_cons in Hnd as [Hnd _]. intros Hin. apply Hnd.
    apply elem_of_app. left. exact Hin. }
  pose proof (rep_chain _ _ _ R b h l Hh Hl) as Hch.
  pose proof (rep_bucket_NoDup _ _ _ _ _ R Hl) as Hndl.
  assert (Hrange : forall j, j ∈ c :: fl' ++ concat bl ->
                             0 <= j < Z.of_nat (length es)).
  { intros j Hj. unfold es. rewrite (rep_entries _ _ _ R).
    apply (rep_in_range s _ bl j R). exact Hj. }
  assert (Hnew : forall es1, length es1 = length es ->
            idAt (<[Z.to_nat c := setNextInChain (-1) (setId id construct)]>
                    es1) c = Some id /\
            nextAt (<[Z.to_nat c := setNextInChain (-1) (setId id construct)]>
                      es1) c = Some (-1)).
  { intros es1 Hlen. split.
    - rewrite idAt_insert_eq by lia.
      rewrite getId_setNextInChain, getId_setId. reflexivity.
    - rewrite nextAt_insert_eq by lia.
      rewrite getNextInChain_setNextInChain. reflexivity. }
  unfold HashedSet.link_new. fold c es. rewrite Hec.
  destruct (decide (l = [])) as [-> | Hne].
  - (* the bucket was empty: the table gets the new entry *)
    simpl List.last. change (-1 <? 0) with true. cbv iota.
    eexists _, fl'. split; [reflexivity |]. split; [reflexivity |].
    assert (Hsame : forall j, 0 <= j -> j <> c ->
              <[Z.to_nat c := setNextInChain (-1) (setId id construct)]> es
                !! Z.to_nat j = es !! Z.to_nat j).
    { intros j Hj Hjc. apply list_lookup_insert_ne. lia. }
    split; [| split].
    + apply (rep_link s fl' bl c b [] id); try assumption.
      * unfold b. lia.
      * rewrite length_insert. apply (rep_entries _ _ _ R).
      * rewrite length_insert. apply (rep_table _ _ _ R).
      * intros j Hj.
        assert (0 <= j /\ j <> c) as [Hj0 Hjc].
        { split; [| intros ->; contradiction].
          apply Hrange. apply list_elem_of_further, elem_of_app. auto. }
        unfold nextAt, idAt. rewrite Hsame by assumption. auto.
      * intros b' l' j Hb' Hl' Hj.
        assert (0 <= j /\ j <> c) as [Hj0 Hjc].
        { split.
          - apply Hrange. apply list_elem_of_further, elem_of_app. right.
            apply (elem_of_concat_lookup bl b' l'); assumption.
          - intros ->.
            apply (rep_free_not_member s _ bl b' l' c R Hl');
              [apply list_elem_of_here | exact Hj]. }
        unfold nextAt, idAt. rewrite Hsame by assumption. auto.
      * intros j Hj. inversion Hj.
      * intros b' Hb'. apply list_lookup_insert_ne.
        intros Heq. apply Hb'. rewrite <- Heq. reflexivity.
      * intros h' Hh'.
        rewrite list_lookup_insert_eq in Hh'
          by (rewrite (rep_table _ _ _ R); unfold b; lia).
        injection Hh' as <-. simpl.
        apply (chain_cons _ _ (-1)); [lia | apply Hnew; reflexivity |].
        apply chain_nil. lia.
      * apply Hnew. reflexivity.
    + simpl. apply list_lookup_insert_eq. lia.
    + intros j Hj Hjc. left. simpl. apply Hsame; assumption.
  - (* the new entry is linked after the last of the chain *)
    destruct (exists_last Hne) as (l0 & lst & ->).
    rewrite last_last.
    assert (Hlst : 0 <= lst < Z.of_nat (length es)).
    { apply (chain_range es h (l0 ++ [lst]) lst Hch).
      apply elem_of_app. right. apply list_elem_of_here. }
    destruct (Z.ltb_spec lst 0); [lia |].
    destruct (lookup_lt_is_Some_2 es (Z.to_nat lst) ltac:(lia)) as [el Hel].
    rewrite Hel.
    eexists _, fl'. split; [reflexivity |]. split; [reflexivity |].
    assert (Hlc : lst <> c).
    { intros ->. apply Hcl. apply elem_of_app. right.
      apply list_elem_of_here. }
    set (es1 := <[Z.to_nat lst := setNextInChain c el]> es).
    assert (Hsame : forall j, 0 <= j -> j <> c -> j <> lst ->
              <[Z.to_nat c := setNextInChain (-1) (setId id construct)]> es1
                !! Z.to_nat j = es !! Z.to_nat j).
    { intros j Hj Hjc Hjl. unfold es1.
      rewrite !list_lookup_insert_ne by lia. reflexivity. }
    assert (Hlast : <[Z.to_nat c := setNextInChain (-1) (setId id construct)]>
                      es1 !! Z.to_nat lst = Some (setNextInChain c el)).
    { unfold es1. rewrite list_lookup_insert_ne by lia.
      apply list_lookup_insert_eq. lia. }
    assert (Hl0 : lst ∉ l0).
    { apply list.NoDup_app in Hndl as (_ & Hd & _). intros Hin.
      apply (Hd lst Hin), list_elem_of_here. }
    split; [| split].
    + apply (rep_link s fl' bl c b (l0 ++ [lst]) id); try assumption.
      * unfold b. lia.
      * unfold es1. rewrite !length_insert. apply (rep_entries _ _ _ R).
      * apply (rep_table _ _ _ R).
      * intros j Hj.
        assert (0 <= j /\ j <> c /\ j <> lst) as (Hj0 & Hjc & Hjl).
        { split; [| split].
          - apply Hrange. apply list_elem_of_further, elem_of_app. auto.
          - intros ->; contradiction.
          - intros ->.
            apply (rep_free_not_member s _ bl b _ lst R Hl);
              [apply list_elem_of_further, Hj |].
            apply elem_of_app. right. apply list_elem_of_here. }
        unfold nextAt, idAt. rewrite Hsame by assumption. auto.
      * intros b' l' j Hb' Hl' Hj.
        assert (0 <= j /\ j <> c /\ j <> lst) as (Hj0 & Hjc & Hjl).
        { split; [| split].
          - apply Hrange. apply list_elem_of_further, elem_of_app. right.
            apply (elem_of_concat_lookup bl b' l'); assumption.
          - intros ->.
            apply (rep_free_not_member s _ bl b' l' c R Hl');
              [apply list_elem_of_here | exact Hj].
          - intros ->.
            apply (rep_buckets_disjoint s _ bl b' b l' _ lst R Hl' Hl Hb' Hj).
            apply elem_of_app. right. apply list_elem_of_here. }
        unfold nextAt, idAt. rewrite Hsame by assumption. auto.
      * intros j Hj. apply relinked_idAt.
        destruct (decide (j = lst)) as [-> | Hjl].
        -- right. exists el, c. split; [exact Hel | exact Hlast].
        -- left. apply Hsame; [| | exact Hjl].
           ++ apply (chain_range es h _ j Hch Hj).
           ++ intros ->; contradiction.
      * intros b' Hb'. reflexivity.
      * intros h' Hh'. simpl in Hh'. rewrite Hh in Hh'. injection Hh' as <-.
        destruct Hch as (stop & Hstop & Hseg).
        apply seg_app in Hseg as (m & Hs0 & Hs1).
        simpl in Hs1. destruct Hs1 as (-> & _ & n & Hn & _).
        exists (-1). split; [lia |].
        rewrite <- app_assoc. apply seg_app. exists lst. split.
        -- apply (seg_ext es); [| exact Hs0].
           intros j Hj. unfold nextAt. rewrite Hsame; [reflexivity | | |].
           ++ apply (seg_range es h l0 lst j Hs0 Hj).
           ++ intros ->. apply Hcl. apply elem_of_app. auto.
           ++ intros ->; contradiction.
        -- simpl. repeat split; [lia |]. exists c. split.
           ++ unfold nextAt. rewrite Hlast. simpl.
              rewrite getNextInChain_setNextInChain. reflexivity.
           ++ repeat split; [lia |]. exists (-1). split; [| reflexivity].
              apply Hnew. unfold es1. apply length_insert.
      * apply Hnew. unfold es1. apply length_insert.
    + simpl. apply list_lookup_insert_eq. unfold es1.
      rewrite length_insert. lia.
    + intros j Hj Hjc. simpl.
      destruct (decide (j = lst)) as [-> | Hjl].
      * right. exists el, c. split; [exact Hel | exact Hlast].
      * left. apply Hsame; assumption.
Qed.

(** *** Unlinking an entry *)

(** Moving the entry [i] from the chain of its bucket to the head of the
    free list keeps the representation. *)
Lemma rep_unlink s fl bl i b l1 l2 table' es' :
  rep s fl bl -> bl !! b = Some (l1 ++ i :: l2) ->
  length es' = NumEntries -> length table' = (2 * NumEntries)%nat ->
  (forall j, j ∈ fl ->
     nextAt es' j = nextAt (HashedSet._entries s) j /\
     idAt es' j = idAt (HashedSet._entries s) j) ->
  (forall b' l' j, b' <> b -> bl !! b' = Some l' -> j ∈ l' ->
     nextAt es' j = nextAt (HashedSet._entries s) j /\
     idAt es' j = idAt (HashedSet._entries s) j) ->
  (forall j, j ∈ l1 ++ l2 -> idAt es' j = idAt (HashedSet._entries s) j) ->
  (forall b', b' <> b -> table' !! b' = HashedSet._hashTable s !! b') ->
  (forall h', table' !! b = Some h' -> chain es' h' (l1 ++ l2)) ->
  idAt es' i = Some (-1) -> nextAt es' i = Some (HashedSet._free s) ->
  rep {| HashedSet._hashTable := table'; HashedSet._entries := es';
         HashedSet._free := i;
         HashedSet._size := HashedSet._size s - 1 |}
      (i :: fl) (<[b := l1 ++ l2]> bl).
Proof.
  intros R Hl Hlen Htab Hfl Hother Hlid Htab' Hchain Hiid Hinext.
  pose proof (concat_insert_perm bl b _ (l1 ++ l2) Hl) as Hperm.
  assert (Hcat : i :: concat (<[b := l1 ++ l2]> bl) ≡ₚ concat bl).
  { apply (Permutation_app_inv_r (l1 ++ l2)). rewrite <- Hperm.
    simpl. rewrite !app_assoc. apply Permutation_middle. }
  assert (Hb : (b < length bl)%nat) by (eapply lookup_lt_Some; eassumption).
  assert (Hil : i ∈ l1 ++ i :: l2).
  { apply elem_of_app. right. apply list_elem_of_here. }
  assert (Hi0 : 0 <= i).
  { apply (rep_in_range s fl bl i R). apply elem_of_app. right.
    apply (elem_of_concat_lookup bl b _ i Hl Hil). }
  assert (Hsub : forall j, j ∈ l1 ++ l2 -> j ∈ l1 ++ i :: l2).
  { intros j Hj. apply elem_of_app in Hj as [Hj | Hj]; apply elem_of_app;
      [left | right; apply list_elem_of_further]; exact Hj. }
  split; simpl.
  - exact Hlen.
  - exact Htab.
  - rewrite length_insert. apply (rep_buckets _ _ _ R).
  - apply (chain_cons _ _ (HashedSet._free s)); [exact Hi0 | exact Hinext |].
    apply (chain_ext (HashedSet._entries s)); [| apply (rep_free _ _ _ R)].
    intros j Hj. apply Hfl, Hj.
  - intros b' h' l' Hh' Hl'.
    destruct (decide (b' = b)) as [-> | Hne].
    + rewrite list_lookup_insert_eq in Hl' by exact Hb.
      injection Hl' as <-. apply Hchain, Hh'.
    + rewrite list_lookup_insert_ne in Hl' by congruence.
      rewrite Htab' in Hh' by exact Hne.
      apply (chain_ext (HashedSet._entries s)).
      * intros j Hj. apply (Hother b' l' j Hne Hl' Hj).
      * apply (rep_chain _ _ _ R b' h' l'); assumption.
  - rewrite <- (rep_part _ _ _ R), <- Hcat.
    apply Permutation_middle.
  - intros j Hj. apply elem_of_cons in Hj as [-> | Hj]; [exact Hiid |].
    rewrite (proj2 (Hfl j Hj)). apply (rep_free_id _ _ _ R j Hj).
  - intros b' l' j Hl' Hj.
    destruct (decide (b' = b)) as [-> | Hne].
    + rewrite list_lookup_insert_eq in Hl' by exact Hb.
      injection Hl' as <-. rewrite (Hlid j Hj).
      apply (rep_member_id _ _ _ R b _ j Hl), Hsub, Hj.
    + rewrite list_lookup_insert_ne in Hl' by congruence.
      rewrite (proj2 (Hother b' l' j Hne Hl' Hj)).
      apply (rep_member_id _ _ _ R b' l' j Hl' Hj).
  - intros b' l' Hl'.
    destruct (decide (b' = b)) as [-> | Hne].
    + rewrite list_lookup_insert_eq in Hl' by exact Hb.
      injection Hl' as <-.
      replace (idAt es' <$> l1 ++ l2)
        with (idAt (HashedSet._entries s) <$> l1 ++ l2).
      2:{ apply list_fmap_ext. intros k x Hx. symmetry. apply Hlid.
          apply list_elem_of_lookup. eauto. }
      pose proof (rep_ids _ _ _ R b _ Hl) as Hnd.
      rewrite fmap_app in Hnd. rewrite fmap_cons in Hnd.
      rewrite fmap_app.
      apply list.NoDup_app in Hnd as (H1 & H2 & H3).
      apply list.NoDup_cons in H3 as [_ H3].
      apply list.NoDup_app. split; [exact H1 |]. split; [| exact H3].
      intros x Hx Hx'. apply (H2 x Hx). apply list_elem_of_further, Hx'.
    + rewrite list_lookup_insert_ne in Hl' by congruence.
      replace (idAt es' <$> l')
        with (idAt (HashedSet._entries s) <$> l');
        [apply (rep_ids _ _ _ R b' l' Hl') |].
      apply list_fmap_ext. intros k x Hx. symmetry.
      apply (Hother b' l' x Hne Hl'). apply list_elem_of_lookup. eauto.
  - rewrite (rep_size _ _ _ R), <- Hcat. simpl. lia.
Qed.

(** *** What the walk finds *)

Lemma bucket_split s fl bl b l i id :
  rep s fl bl -> bl !! b = Some l -> i ∈ l ->
  idAt (HashedSet._entries s) i = Some id ->
  exists l1 l2,
    l = l1 ++ i :: l2 /\
    forall x, x ∈ l1 -> idAt (HashedSet._entries s) x <> Some id.
Proof.
  intros R Hl Hi Hid.
  apply list_elem_of_split in Hi as (l1 & l2 & ->).
  exists l1, l2. split; [reflexivity |].
  intros x Hx Hxid. pose proof (rep_ids _ _ _ R b _ Hl) as Hnd.
  rewrite fmap_app, fmap_cons in Hnd.
  apply list.NoDup_app in Hnd as (_ & Hd & _).
  apply (Hd (Some id)).
  - apply list_elem_of_fmap. exists x. split; [symmetry |]; assumption.
  - rewrite Hid. apply list_elem_of_here.
Qed.

(** An entry with the identifier [id], other than -1, is found. *)
Lemma walk_member s fl bl i id :
  rep s fl bl -> 0 <= i -> idAt (HashedSet._entries s) i = Some id ->
  id <> -1 ->
  exists h l1 l2,
    HashedSet._hashTable s !! Z.to_nat (bucket id) = Some h /\
    bl !! Z.to_nat (bucket id) = Some (l1 ++ i :: l2) /\
    chain (HashedSet._entries s) h (l1 ++ i :: l2) /\
    HashedSet.walk (length (HashedSet._entries s)) (HashedSet._entries s)
                   id h (-1)
    = Some (HashedSet.Found i (List.last l1 (-1))).
Proof.
  intros R Hi Hid Hne.
  destruct (rep_bucket s fl bl id R) as (h & l & Hh & Hl & Hch & Hlen).
  pose proof (rep_id_member s fl bl i id R Hi Hid Hne) as Hm.
  pose proof (rep_member_bucket s fl bl i id l R Hm Hid Hl) as Hil.
  destruct (bucket_split s fl bl _ l i id R Hl Hil Hid)
    as (l1 & l2 & -> & Hl1).
  exists h, l1, l2. repeat split; try assumption.
  apply (walk_found (HashedSet._entries s) id l1 i l2); assumption.
Qed.

(** When no member has the identifier the walk reaches the end of the
    chain. *)
Lemma walk_absent s fl bl id :
  rep s fl bl ->
  (forall i, i ∈ concat bl -> idAt (HashedSet._entries s) i <> Some id) ->
  exists h l,
    HashedSet._hashTable s !! Z.to_nat (bucket id) = Some h /\
    bl !! Z.to_nat (bucket id) = Some l /\
    HashedSet.walk (length (HashedSet._entries s)) (HashedSet._entries s)
                   id h (-1)
    = Some (HashedSet.NotFound (List.last l (-1))).
Proof.
  intros R Hno.
  destruct (rep_bucket s fl bl id R) as (h & l & Hh & Hl & Hch & Hlen).
  exists h, l. repeat split; try assumption.
  apply (walk_notfound (HashedSet._entries s) id l); try assumption.
  intros j Hj. apply Hno.
  apply (elem_of_concat_lookup bl _ l j Hl Hj).
Qed.

(** No entry has the identifier. *)
Definition absent (s : HashedSet.t E) (id : Z) : Prop :=
  forall i, 0 <= i -> idAt (HashedSet._entries s) i <> Some id.

Lemma absent_members s fl bl id :
  rep s fl bl -> absent s id ->
  forall i, i ∈ concat bl -> idAt (HashedSet._entries s) i <> Some id.
Proof.
  intros R Ha i Hi. apply Ha.
  apply (rep_in_range s fl bl i R). apply elem_of_app. auto.
Qed.

Lemma minus_one_members s fl bl :
  rep s fl bl ->
  forall i, i ∈ concat bl -> idAt (HashedSet._entries s) i <> Some (-1).
Proof.
  intros R i Hi Hid.
  apply elem_of_concat_inv in Hi as (b & l & Hl & Hil).
  destruct (rep_member_id _ _ _ R b l i Hl Hil) as (id & Hid' & Hne & _).
  congruence.
Qed.

(** *** [doFind] *)

Lemma doFind_found s fl bl i id :
  rep s fl bl -> 0 <= i -> idAt (HashedSet._entries s) i = Some id ->
  id <> -1 -> HashedSet.doFind NumEntries s id = Some (Some i).
Proof.
  intros R Hi Hid Hne.
  destruct (walk_member s fl bl i id R Hi Hid Hne)
    as (h & l1 & l2 & Hh & _ & _ & Hw).
  unfold HashedSet.doFind. rewrite Hh.
  rewrite (doFind_loop_walk _ _ _ h (-1)), Hw. reflexivity.
Qed.

Lemma doFind_members_absent s fl bl id :
  rep s fl bl ->
  (forall i, i ∈ concat bl -> idAt (HashedSet._entries s) i <> Some id) ->
  HashedSet.doFind NumEntries s id = Some None.
Proof.
  intros R Hno.
  destruct (walk_absent s fl bl id R Hno) as (h & l & Hh & _ & Hw).
  unfold HashedSet.doFind. rewrite Hh.
  rewrite (doFind_loop_walk _ _ _ h (-1)), Hw. reflexivity.
Qed.

(** [doFind] is defined on a well-formed set, and finds the entry with the
    identifier if there is one. *)
Lemma doFind_spec s id :
  wf s -> id <> -1 ->
  exists r,
    HashedSet.doFind NumEntries s id = Some r /\
    (forall i, r = Some i <->
               0 <= i /\ idAt (HashedSet._entries s) i = Some id) /\
    (r = None <-> absent s id).
Proof.
  intros (fl & bl & R) Hne.
  destruct (rep_bucket s fl bl id R) as (h & l & Hh & Hl & Hch & Hlen).
  destruct (decide (Some id ∈ idAt (HashedSet._entries s) <$> l))
    as [Hin | Hout].
  - apply list_elem_of_fmap in Hin as (i & Hid & Hil). symmetry in Hid.
    assert (Hi : 0 <= i) by (apply (chain_range _ h l i Hch Hil)).
    exists (Some i). split; [| split].
    + apply (doFind_found s fl bl i id R Hi Hid Hne).
    + intros j. split.
      * intros [= <-]. auto.
      * intros [Hj Hjid]. f_equal.
        apply (rep_id_unique s fl bl i j id R); try assumption;
          eapply rep_id_member; eassumption.
    + split; [discriminate |]. intros Ha. exfalso. apply (Ha i Hi Hid).
  - assert (Hno : forall i, i ∈ concat bl ->
                            idAt (HashedSet._entries s) i <> Some id).
    { intros i Hi Hid. apply Hout. apply list_elem_of_fmap. exists i.
      split; [symmetry; exact Hid |].
      apply (rep_member_bucket s fl bl i id l R Hi Hid Hl). }
    exists None. split; [| split].
    + apply (doFind_members_absent s fl bl id R Hno).
    + intros i. split; [discriminate |]. intros [Hi Hid]. exfalso.
      apply (Hno i); [| exact Hid].
      apply (rep_id_member s fl bl i id R Hi Hid Hne).
    + split; [| reflexivity]. intros _ i Hi Hid.
      apply (Hno i); [| exact Hid].
      apply (rep_id_member s fl bl i id R Hi Hid Hne).
Qed.

(** *** [erase] *)

Lemma erase_members_absent s fl bl id :
  rep s fl bl ->
  (forall i, i ∈ concat bl -> idAt (HashedSet._entries s) i <> Some id) ->
  HashedSet.erase NumEntries s id = Some (false, s).
Proof.
  intros R Hno.
  destruct (walk_absent s fl bl id R Hno) as (h & l & Hh & _ & Hw).
  unfold HashedSet.erase. rewrite Hh, Hw. reflexivity.
Qed.

Lemma erase_found s fl bl i id :
  rep s fl bl -> 0 <= i -> idAt (HashedSet._entries s) i = Some id ->
  id <> -1 ->
  exists s' l1 l2 ei,
    HashedSet.erase NumEntries s id = Some (true, s') /\
    bl !! Z.to_nat (bucket id) = Some (l1 ++ i :: l2) /\
    rep s' (i :: fl) (<[Z.to_nat (bucket id) := l1 ++ l2]> bl) /\
    HashedSet._entries s !! Z.to_nat i = Some ei /\
    HashedSet._entries s' !! Z.to_nat i
    = Some (setNextInChain (HashedSet._free s) (setId (-1) ei)) /\
    (forall j, 0 <= j -> j <> i ->
       relinked (HashedSet._entries s !! Z.to_nat j)
                (HashedSet._entries s' !! Z.to_nat j)).
Proof.
  intros R Hi Hid Hne.
  destruct (walk_member s fl bl i id R Hi Hid Hne)
    as (h & l1 & l2 & Hh & Hl & Hch & Hw).
  set (es := HashedSet._entries s) in *.
  set (b := Z.to_nat (bucket id)) in *.
  pose proof (bucket_range id) as Hbr.
  pose proof (rep_bucket_NoDup _ _ _ _ _ R Hl) as Hnd.
  assert (Hir : 0 <= i < Z.of_nat (length es)).
  { apply (chain_range es h _ i Hch). apply elem_of_app. right.
    apply list_elem_of_here. }
  destruct (lookup_lt_is_Some_2 es (Z.to_nat i) ltac:(lia)) as [ei Hei].
  assert (Hrange : forall j, j ∈ fl ++ concat bl ->
                             0 <= j < Z.of_nat (length es)).
  { intros j Hj. unfold es. rewrite (rep_entries _ _ _ R).
    apply (rep_in_range s _ bl j R). exact Hj. }
  assert (Hil : i ∈ l1 ++ i :: l2).
  { apply elem_of_app. right. apply list_elem_of_here. }
  assert (Hifl : i ∉ fl).
  { intros Hin. apply (rep_free_not_member s fl bl b _ i R Hl Hin Hil). }
  assert (Hnew : forall es1, length es1 = length es ->
            idAt (<[Z.to_nat i :=
                      setNextInChain (HashedSet._free s) (setId (-1) ei)]>
                    es1) i = Some (-1) /\
            nextAt (<[Z.to_nat i :=
                        setNextInChain (HashedSet._free s) (setId (-1) ei)]>
                      es1) i = Some (HashedSet._free s)).
  { intros es1 Hlen. split.
    - rewrite idAt_insert_eq by lia.
      rewrite getId_setNextInChain, getId_setId. reflexivity.
    - rewrite nextAt_insert_eq by lia.
      rewrite getNextInChain_setNextInChain. reflexivity. }
  destruct Hch as (stop & Hstop & Hseg).
  apply seg_app in Hseg as (m & Hs1 & Hs2).
  simpl in Hs2. destruct Hs2 as (-> & _ & n & Hn & Hs2).
  assert (Hnei : getNextInChain ei = n).
  { unfold nextAt in Hn. fold es in Hn. rewrite Hei in Hn.
    injection Hn as <-. reflexivity. }
  apply list.NoDup_app in Hnd as (Hnd1 & Hd12 & Hnd2).
  apply list.NoDup_cons in Hnd2 as [Hi2 Hnd2].
  assert (Hi1 : i ∉ l1).
  { intros Hin. apply (Hd12 i Hin), list_elem_of_here. }
  assert (Hin12 : forall j, j ∈ l1 ++ l2 -> j ∈ l1 ++ i :: l2 /\ j <> i).
  { intros j Hj. apply elem_of_app in Hj as [Hj | Hj].
    - split; [apply elem_of_app; auto | intros ->; contradiction].
    - split; [| intros ->; contradiction].
      apply elem_of_app. right. apply list_elem_of_further, Hj. }
  unfold HashedSet.erase. fold es b. rewrite Hh, Hw, Hei.
  destruct (decide (l1 = [])) as [-> | Hne1].
  - (* the entry is the head of the chain: the table gets its successor *)
    simpl List.last. change (-1 <? 0) with true. cbv iota.
    eexists _, [], l2, ei. split; [reflexivity |].
    split; [exact Hl |].
    assert (Hsame : forall j, 0 <= j -> j <> i ->
              <[Z.to_nat i :=
                  setNextInChain (HashedSet._free s) (setId (-1) ei)]> es
                !! Z.to_nat j = es !! Z.to_nat j).
    { intros j Hj Hji. apply list_lookup_insert_ne. lia. }
    split; [| split; [reflexivity | split]].
    + apply (rep_unlink s fl bl i b [] l2); try assumption.
      * rewrite length_insert. apply (rep_entries _ _ _ R).
      * rewrite length_insert. apply (rep_table _ _ _ R).
      * intros j Hj.
        assert (0 <= j /\ j <> i) as [Hj0 Hji].
        { split; [| intros ->; contradiction].
          apply Hrange, elem_of_app. auto. }
        unfold nextAt, idAt. rewrite Hsame by assumption. auto.
      * intros b' l' j Hb' Hl' Hj.
        assert (0 <= j /\ j <> i) as [Hj0 Hji].
        { split.
          - apply Hrange, elem_of_app. right.
            apply (elem_of_concat_lookup bl b' l'); assumption.
          - intros ->.
            apply (rep_buckets_disjoint s fl bl b' b l' _ i R Hl' Hl Hb' Hj).
            exact Hil. }
        unfold nextAt, idAt. rewrite Hsame by assumption. auto.
      * intros j Hj. destruct (Hin12 j Hj) as [Hjl Hji].
        unfold idAt. rewrite Hsame; [reflexivity | | exact Hji].
        apply Hrange, elem_of_app. right.
        apply (elem_of_concat_lookup bl b _ j Hl Hjl).
      * intros b' Hb'. apply list_lookup_insert_ne.
        intros Heq. apply Hb'. rewrite <- Heq. reflexivity.
      * intros h' Hh'.
        rewrite list_lookup_insert_eq in Hh'
          by (rewrite (rep_table _ _ _ R); unfold b; lia).
        injection Hh' as <-. simpl. rewrite Hnei.
        exists stop. split; [exact Hstop |].
        apply (seg_ext es); [| exact Hs2].
        intros j Hj. unfold nextAt. rewrite Hsame; [reflexivity | |].
        -- apply (seg_range es n l2 stop j Hs2 Hj).
        -- intros ->; contradiction.
      * apply Hnew. reflexivity.
      * apply Hnew. reflexivity.
    + simpl. apply list_lookup_insert_eq. lia.
    + intros j Hj Hji. left. apply Hsame; assumption.
  - (* the entry has a predecessor, which gets its successor *)
    destruct (exists_last Hne1) as (l0 & lst & ->).
    rewrite last_last.
    assert (Hlst : 0 <= lst < Z.of_nat (length es)).
    { apply (seg_range es h (l0 ++ [lst]) i lst Hs1).
      apply elem_of_app. right. apply list_elem_of_here. }
    destruct (Z.ltb_spec lst 0); [lia |].
    destruct (lookup_lt_is_Some_2 es (Z.to_nat lst) ltac:(lia)) as [el Hel].
    rewrite Hel.
    assert (Hli : lst <> i).
    { intros ->. apply Hi1. apply elem_of_app. right.
      apply list_elem_of_here. }
    set (es1 := <[Z.to_nat lst := setNextInChain (getNextInChain ei) el]> es).
    assert (Hsame : forall j, 0 <= j -> j <> i -> j <> lst ->
              <[Z.to_nat i :=
                  setNextInChain (HashedSet._free s) (setId (-1) ei)]> es1
                !! Z.to_nat j = es !! Z.to_nat j).
    { intros j Hj Hji Hjl. unfold es1.
      rewrite !list_lookup_insert_ne by lia. reflexivity. }
    assert (Hlast : <[Z.to_nat i :=
                       setNextInChain (HashedSet._free s) (setId (-1) ei)]>
                      es1 !! Z.to_nat lst
                    = Some (setNextInChain (getNextInChain ei) el)).
    { unfold es1. rewrite list_lookup_insert_ne by lia.
      apply list_lookup_insert_eq. lia. }
    assert (Hlstl : lst ∈ (l0 ++ [lst]) ++ i :: l2).
    { apply elem_of_app. left. apply elem_of_app. right.
      apply list_elem_of_here. }
    eexists _, (l0 ++ [lst]), l2, ei. split; [reflexivity |].
    split; [exact Hl |].
    apply seg_app in Hs1 as (m & Hs0 & Hs1). simpl in Hs1.
    destruct Hs1 as (-> & _ & ni & Hni & ->).
    apply list.NoDup_app in Hnd1 as (_ & Hd0 & _).
    assert (Hl0 : lst ∉ l0).
    { intros Hin. apply (Hd0 lst Hin), list_elem_of_here. }
    split; [| split; [reflexivity | split]].
    + apply (rep_unlink s fl bl i b (l0 ++ [lst]) l2); try assumption.
      * unfold es1. rewrite !length_insert. apply (rep_entries _ _ _ R).
      * apply (rep_table _ _ _ R).
      * intros j Hj.
        assert (0 <= j /\ j <> i /\ j <> lst) as (Hj0 & Hji & Hjl).
        { split; [| split].
          - apply Hrange, elem_of_app. auto.
          - intros ->; contradiction.
          - intros ->.
            apply (rep_free_not_member s fl bl b _ lst R Hl Hj Hlstl). }
        unfold nextAt, idAt. rewrite Hsame by assumption. auto.
      * intros b' l' j Hb' Hl' Hj.
        assert (0 <= j /\ j <> i /\ j <> lst) as (Hj0 & Hji & Hjl).
        { split; [| split].
          - apply Hrange, elem_of_app. right.
            apply (elem_of_concat_lookup bl b' l'); assumption.
          - intros ->.
            apply (rep_buckets_disjoint s fl bl b' b l' _ i R Hl' Hl Hb' Hj).
            exact Hil.
          - intros ->.
            apply (rep_buckets_disjoint s fl bl b' b l' _ lst R Hl' Hl Hb'
                     Hj).
            exact Hlstl. }
        unfold nextAt, idAt. rewrite Hsame by assumption. auto.
      * intros j Hj. destruct (Hin12 j Hj) as [Hjl Hji].
        apply relinked_idAt.
        destruct (decide (j = lst)) as [-> | Hjlst].
        -- right. eexists el, _. split; [exact Hel | exact Hlast].
        -- left. apply Hsame; [| exact Hji | exact Hjlst].
           apply Hrange, elem_of_app. right.
           apply (elem_of_concat_lookup bl b _ j Hl Hjl).
      * intros b' Hb'. reflexivity.
      * intros h' Hh'. simpl in Hh'. rewrite Hh in Hh'. injection Hh' as <-.
        exists stop. split; [exact Hstop |].
        rewrite <- app_assoc. apply seg_app. exists lst. split.
        -- apply (seg_ext es); [| exact Hs0].
           intros j Hj. unfold nextAt. rewrite Hsame; [reflexivity | | |].
           ++ apply (seg_range es h l0 lst j Hs0 Hj).
           ++ intros ->. apply Hi1. apply elem_of_app. auto.
           ++ intros ->; contradiction.
        -- simpl. repeat split; [lia |]. exists n. split.
           ++ unfold nextAt. rewrite Hlast. simpl.
              rewrite getNextInChain_setNextInChain, Hnei. reflexivity.
           ++ apply (seg_ext es); [| exact Hs2].
              intros j Hj. unfold nextAt. rewrite Hsame; [reflexivity | | |].
              ** apply (seg_range es n l2 stop j Hs2 Hj).
              ** intros ->; contradiction.
              ** intros ->.
                 apply (Hd12 lst); [| apply list_elem_of_further, Hj].
                 apply elem_of_app. right. apply list_elem_of_here.
      * apply Hnew. unfold es1. apply length_insert.
      * apply Hnew. unfold es1. apply length_insert.
    + simpl. apply list_lookup_insert_eq. unfold es1.
      rewrite length_insert. lia.
    + intros j Hj Hji. simpl.
      destruct (decide (j = lst)) as [-> | Hjl].
      * right. eexists el, _. split; [exact Hel | exact Hlast].
      * left. apply Hsame; assumption.
Qed.

(** *** [insert] and [findOrInsert] *)

Lemma insert_full s id :
  HashedSet._free s < 0 -> HashedSet.insert NumEntries s id = Some (None, s).
Proof.
  intros Hf. unfold HashedSet.insert.
  destruct (Z.ltb_spec (HashedSet._free s) 0); [reflexivity | lia].
Qed.

Lemma insert_present s fl bl i id :
  rep s fl bl -> 0 <= i -> idAt (HashedSet._entries s) i = Some id ->
  id <> -1 -> HashedSet.insert NumEntries s id = Some (None, s).
Proof.
  intros R Hi Hid Hne. unfold HashedSet.insert.
  destruct (HashedSet._free s <? 0); [reflexivity |].
  destruct (walk_member s fl bl i id R Hi Hid Hne)
    as (h & l1 & l2 & Hh & _ & _ & Hw).
  rewrite Hh, Hw. reflexivity.
Qed.

Lemma insert_new s fl bl id :
  rep s fl bl -> id <> -1 -> absent s id -> 0 <= HashedSet._free s ->
  exists s' fl' l,
    HashedSet.insert NumEntries s id = Some (Some (HashedSet._free s), s') /\
    fl = HashedSet._free s :: fl' /\
    bl !! Z.to_nat (bucket id) = Some l /\
    rep s' fl' (<[Z.to_nat (bucket id) := l ++ [HashedSet._free s]]> bl) /\
    HashedSet._entries s' !! Z.to_nat (HashedSet._free s)
    = Some (setNextInChain (-1) (setId id construct)) /\
    (forall j, 0 <= j -> j <> HashedSet._free s ->
       relinked (HashedSet._entries s !! Z.to_nat j)
                (HashedSet._entries s' !! Z.to_nat j)).
Proof.
  intros R Hne Ha Hf.
  pose proof (absent_members s fl bl id R Ha) as Hno.
  destruct (walk_absent s fl bl id R Hno) as (h & l & Hh & Hl & Hw).
  destruct (link_new_rep s fl bl id h l R Hne Hh Hl) as (s' & fl' & Hlk & Hrest);
    [| exact Hf |].
  { intros j Hj. apply Hno.
    apply (elem_of_concat_lookup bl _ l j Hl Hj). }
  exists s', fl', l. unfold HashedSet.insert.
  destruct (Z.ltb_spec (HashedSet._free s) 0); [lia |].
  rewrite Hh, Hw, Hlk. split; [reflexivity |].
  destruct Hrest as (H1 & H2 & H3 & H4). auto.
Qed.

Lemma findOrInsert_found s fl bl i id :
  rep s fl bl -> 0 <= i -> idAt (HashedSet._entries s) i = Some id ->
  id <> -1 ->
  HashedSet.findOrInsert NumEntries s id = Some (Some i, false, s).
Proof.
  intros R Hi Hid Hne. unfold HashedSet.findOrInsert.
  destruct (walk_member s fl bl i id R Hi Hid Hne)
    as (h & l1 & l2 & Hh & _ & _ & Hw).
  rewrite Hh, Hw. reflexivity.
Qed.

Lemma findOrInsert_full s fl bl id :
  rep s fl bl -> id <> -1 -> absent s id -> HashedSet._free s < 0 ->
  HashedSet.findOrInsert NumEntries s id = Some (None, true, s).
Proof.
  intros R Hne Ha Hf.
  pose proof (absent_members s fl bl id R Ha) as Hno.
  destruct (walk_absent s fl bl id R Hno) as (h & l & Hh & Hl & Hw).
  unfold HashedSet.findOrInsert. rewrite Hh, Hw.
  destruct (Z.ltb_spec (HashedSet._free s) 0); [reflexivity | lia].
Qed.

Lemma findOrInsert_new s fl bl id :
  rep s fl bl -> id <> -1 -> absent s id -> 0 <= HashedSet._free s ->
  exists s' fl' l,
    HashedSet.findOrInsert NumEntries s id
    = Some (Some (HashedSet._free s), true, s') /\
    fl = HashedSet._free s :: fl' /\
    bl !! Z.to_nat (bucket id) = Some l /\
    rep s' fl' (<[Z.to_nat (bucket id) := l ++ [HashedSet._free s]]> bl) /\
    HashedSet._entries s' !! Z.to_nat (HashedSet._free s)
    = Some (setNextInChain (-1) (setId id construct)) /\
    (forall j, 0 <= j -> j <> HashedSet._free s ->
       relinked (HashedSet._entries s !! Z.to_nat j)
                (HashedSet._entries s' !! Z.to_nat j)).
Proof.
  intros R Hne Ha Hf.
  pose proof (absent_members s fl bl id R Ha) as Hno.
  destruct (walk_absent s fl bl id R Hno) as (h & l & Hh & Hl & Hw).
  destruct (link_new_rep s fl bl id h l R Hne Hh Hl) as (s' & fl' & Hlk & Hrest);
    [| exact Hf |].
  { intros j Hj. apply Hno.
    apply (elem_of_concat_lookup bl _ l j Hl Hj). }
  exists s', fl', l. unfold HashedSet.findOrInsert.
  rewrite Hh, Hw.
  destruct (Z.ltb_spec (HashedSet._free s) 0); [lia |].
  rewrite Hlk. split; [reflexivity |].
  destruct Hrest as (H1 & H2 & H3 & H4). auto.
Qed.

(** An identifier other than -1 is the identifier of an entry, or of
    none. *)
Lemma present_or_absent s id :
  (exists i, 0 <= i /\ idAt (HashedSet._entries s) i = Some id)
  \/ absent s id.
Proof.
  clear HNumEntries.
  destruct (decide (id ∈ (getId <$> HashedSet._entries s)))
    as [Hin | Hout].
  - left. apply list_elem_of_lookup in Hin as (k & Hk).
    exists (Z.of_nat k). split; [lia |]. unfold idAt.
    rewrite Nat2Z.id. rewrite list_lookup_fmap in Hk. exact Hk.
  - right. intros i Hi Hid. apply Hout.
    apply list_elem_of_lookup. exists (Z.to_nat i).
    rewrite list_lookup_fmap. exact Hid.
Qed.

(** *** Reachable sets *)

(** The sets built from the constructor by [insert], [findOrInsert] and
    [erase], with identifiers taken from [ok]. *)
Inductive reachable (ok : Z -> Prop) : HashedSet.t E -> Prop :=
| reach_ctor : reachable ok (HashedSet.ctor NumEntries)
| reach_insert s id r s' :
    reachable ok s -> ok id ->
    HashedSet.insert NumEntries s id = Some (r, s') -> reachable ok s'
| reach_findOrInsert s id r b s' :
    reachable ok s -> ok id ->
    HashedSet.findOrInsert NumEntries s id = Some (r, b, s') ->
    reachable ok s'
| reach_erase s id b s' :
    reachable ok s -> ok id ->
    HashedSet.erase NumEntries s id = Some (b, s') -> reachable ok s'.

Lemma insert_wf s id r s' :
  wf s -> id <> -1 ->
  HashedSet.insert NumEntries s id = Some (r, s') -> wf s'.
Proof.
  intros (fl & bl & R) Hne Hins.
  destruct (Z.lt_ge_cases (HashedSet._free s) 0) as [Hf | Hf].
  { rewrite insert_full in Hins by exact Hf. injection Hins as _ <-.
    exists fl, bl. exact R. }
  destruct (present_or_absent s id) as [(i & Hi & Hid) | Ha].
  - rewrite (insert_present s fl bl i id R Hi Hid Hne) in Hins.
    injection Hins as _ <-. exists fl, bl. exact R.
  - destruct (insert_new s fl bl id R Hne Ha Hf)
      as (s1 & fl' & l & E1 & _ & _ & R' & _).
    rewrite E1 in Hins. injection Hins as _ <-. eexists _, _. exact R'.
Qed.

Lemma findOrInsert_wf s id r b s' :
  wf s -> id <> -1 ->
  HashedSet.findOrInsert NumEntries s id = Some (r, b, s') -> wf s'.
Proof.
  intros (fl & bl & R) Hne Hins.
  destruct (present_or_absent s id) as [(i & Hi & Hid) | Ha].
  - rewrite (findOrInsert_found s fl bl i id R Hi Hid Hne) in Hins.
    injection Hins as _ _ <-. exists fl, bl. exact R.
  - destruct (Z.lt_ge_cases (HashedSet._free s) 0) as [Hf | Hf].
    + rewrite (findOrInsert_full s fl bl id R Hne Ha Hf) in Hins.
      injection Hins as _ _ <-. exists fl, bl. exact R.
    + destruct (findOrInsert_new s fl bl id R Hne Ha Hf)
        as (s1 & fl' & l & E1 & _ & _ & R' & _).
      rewrite E1 in Hins. injection Hins as _ _ <-. eexists _, _. exact R'.
Qed.

Lemma erase_wf s id b s' :
  wf s -> HashedSet.erase NumEntries s id = Some (b, s') -> wf s'.
Proof.
  intros (fl & bl & R) Her.
  destruct (Z.eq_dec id (-1)) as [-> | Hne].
  { rewrite (erase_members_absent s fl bl (-1) R (minus_one_members s fl bl R))
      in Her.
    injection Her as _ <-. exists fl, bl. exact R. }
  destruct (present_or_absent s id) as [(i & Hi & Hid) | Ha].
  - destruct (erase_found s fl bl i id R Hi Hid Hne)
      as (s1 & l1 & l2 & ei & E1 & _ & R' & _).
    rewrite E1 in Her. injection Her as _ <-. eexists _, _. exact R'.
  - rewrite (erase_members_absent s fl bl id R (absent_members s fl bl id R Ha))
      in Her.
    injection Her as _ <-. exists fl, bl. exact R.
Qed.

(** The operations are defined on a well-formed set. *)
Lemma operations_defined s id :
  wf s -> id <> -1 ->
  (exists r, HashedSet.insert NumEntries s id = Some r) /\
  (exists r, HashedSet.findOrInsert NumEntries s id = Some r) /\
  (exists r, HashedSet.erase NumEntries s id = Some r).
Proof.
  intros (fl & bl & R) Hne.
  destruct (present_or_absent s id) as [(i & Hi & Hid) | Ha].
  - split; [| split].
    + rewrite (insert_present s fl bl i id R Hi Hid Hne). eauto.
    + rewrite (findOrInsert_found s fl bl i id R Hi Hid Hne). eauto.
    + destruct (erase_found s fl bl i id R Hi Hid Hne)
        as (s1 & l1 & l2 & ei & E1 & _). rewrite E1. eauto.
  - split; [| split].
    + destruct (Z.lt_ge_cases (HashedSet._free s) 0) as [Hf | Hf].
      * rewrite insert_full by exact Hf. eauto.
      * destruct (insert_new s fl bl id R Hne Ha Hf)
          as (s1 & fl' & l & E1 & _). rewrite E1. eauto.
    + destruct (Z.lt_ge_cases (HashedSet._free s) 0) as [Hf | Hf].
      * rewrite (findOrInsert_full s fl bl id R Hne Ha Hf). eauto.
      * destruct (findOrInsert_new s fl bl id R Hne Ha Hf)
          as (s1 & fl' & l & E1 & _). rewrite E1. eauto.
    + rewrite (erase_members_absent s fl bl id R
                 (absent_members s fl bl id R Ha)). eauto.
Qed.

Lemma reachable_wf s :
  getId construct = -1 -> reachable (fun id => id <> -1) s -> wf s.
Proof.
  intros Hc Hr. induction Hr as [| s id r s' _ IH Hok Hop
                                 | s id r b s' _ IH Hok Hop
                                 | s id b s' _ IH Hok Hop].
  - eexists _, _. apply (ctor_rep Hc).
  - apply (insert_wf s id r s' IH Hok Hop).
  - apply (findOrInsert_wf s id r b s' IH Hok Hop).
  - apply (erase_wf s id b s' IH Hop).
Qed.

(** The entry at index [i] is on the free list. *)
Definition on_free_list (s : HashedSet.t E) (i : Z) : Prop :=
  exists fl, chain (HashedSet._entries s) (HashedSet._free s) fl /\ i ∈ fl.

(** The entry at index [i] is in the chain of a bucket. *)
Definition is_member (s : HashedSet.t E) (i : Z) : Prop :=
  exists b h l,
    HashedSet._hashTable s !! b = Some h /\
    chain (HashedSet._entries s) h l /\ i ∈ l.

Lemma rep_on_free_list s fl bl i :
  rep s fl bl -> on_free_list s i <-> i ∈ fl.
Proof.
  intros R. split.
  - intros (fl' & Hch & Hi).
    rewrite (chain_det _ _ _ _ (rep_free _ _ _ R) Hch). exact Hi.
  - intros Hi. exists fl. split; [apply (rep_free _ _ _ R) | exact Hi].
Qed.

Lemma rep_is_member s fl bl i :
  rep s fl bl -> is_member s i <-> i ∈ concat bl.
Proof.
  intros R. split.
  - intros (b & h & l & Hh & Hch & Hi).
    destruct (lookup_lt_is_Some_2 bl b) as [l' Hl'].
    { rewrite (rep_buckets _ _ _ R), <- (rep_table _ _ _ R).
      eapply lookup_lt_Some. eassumption. }
    rewrite (chain_det _ _ _ _ Hch (rep_chain _ _ _ R b h l' Hh Hl')) in Hi.
    apply (elem_of_concat_lookup bl b l' i Hl' Hi).
  - intros Hi. apply elem_of_concat_inv in Hi as (b & l & Hl & Hi).
    destruct (lookup_lt_is_Some_2 (HashedSet._hashTable s) b) as [h Hh].
    { rewrite (rep_table _ _ _ R), <- (rep_buckets _ _ _ R).
      eapply lookup_lt_Some. eassumption. }
    exists b, h, l. repeat split; try assumption.
    apply (rep_chain _ _ _ R b h l Hh Hl).
Qed.

(** In a well-formed set an entry is free, and then no member, exactly if
    its identifier is -1. *)
Lemma wf_free_iff s i e :
  wf s -> HashedSet._entries s !! i = Some e ->
  (on_free_list s (Z.of_nat i) <-> getId e = -1) /\
  (on_free_list s (Z.of_nat i) <-> ~ is_member s (Z.of_nat i)).
Proof.
  intros (fl & bl & R) He.
  rewrite (rep_on_free_list s fl bl _ R), (rep_is_member s fl bl _ R).
  assert (Hid : idAt (HashedSet._entries s) (Z.of_nat i) = Some (getId e)).
  { unfold idAt. rewrite Nat2Z.id, He. reflexivity. }
  assert (Hin : Z.of_nat i ∈ fl ++ concat bl).
  { apply (rep_in_range s fl bl _ R). apply lookup_lt_Some in He.
    rewrite (rep_entries _ _ _ R) in He. lia. }
  pose proof (rep_NoDup s fl bl R) as Hnd.
  apply list.NoDup_app in Hnd as (_ & Hd & _).
  apply elem_of_app in Hin as [Hf | Hm].
  - pose proof (rep_free_id _ _ _ R _ Hf) as Hf1. rewrite Hid in Hf1.
    injection Hf1 as Hf1.
    split; (split; [intros _ | intros _; exact Hf]);
      [exact Hf1 | apply Hd, Hf].
  - pose proof (minus_one_members s fl bl R _ Hm) as Hm1.
    rewrite Hid in Hm1.
    split; split; intros Hx; try (exfalso; apply (Hd _ Hx Hm)).
    + exfalso. apply Hm1. f_equal. exact Hx.
    + contradiction.
Qed.

(** C7, as amended.  For an entry type whose default constructor sets the
    identifier to -1: in every state reached from the constructor by
    [insert], [findOrInsert] and [erase] with identifiers other than -1,
    these operations are defined, and an entry is on the free list, and then
    in no bucket chain, if and only if its identifier is -1; so it is for
    every entry right after the constructor. *)
Theorem HashedSet_free_iff_minus_one (s : HashedSet.t E) :
  getId construct = -1 ->
  reachable (fun id => id <> -1) s ->
  (forall id, id <> -1 ->
     (exists r, HashedSet.insert NumEntries s id = Some r) /\
     (exists r, HashedSet.findOrInsert NumEntries s id = Some r) /\
     (exists r, HashedSet.erase NumEntries s id = Some r)) /\
  (forall i e,
     HashedSet._entries s !! i = Some e ->
     (on_free_list s (Z.of_nat i) <-> getId e = -1) /\
     (on_free_list s (Z.of_nat i) <-> ~ is_member s (Z.of_nat i))).
Proof.
  intros Hc Hr. pose proof (reachable_wf s Hc Hr) as Hwf. split.
  - intros id Hid. apply operations_defined; assumption.
  - intros i e He. apply wf_free_iff; assumption.
Qed.

(** The constructor leaves the identifier of the last entry as the default
    constructor of the entry type set it. *)
Lemma ctor_last_entry_id :
  getId <$> HashedSet._entries (HashedSet.ctor NumEntries)
            !! (NumEntries - 1)%nat
  = Some (getId construct).
Proof.
  rewrite (proj1 (ctor_entries (NumEntries - 1)%nat ltac:(lia))). simpl.
  destruct (decide (NumEntries - 1 < NumEntries - 1)%nat); [lia |].
  rewrite getId_setNextInChain. reflexivity.
Qed.

End HashedSetFacts.

(** A set of two visits, after [insert(7)]. *)
Definition one_visit : HashedSet.t Visit :=
  Eval vm_compute in
    match HashedSet.insert 2 (HashedSet.ctor 2) 7 with
    | Some (_, s) => s
    | None => HashedSet.ctor 2
    end.

Lemma one_visit_reachable : reachable 2 (fun id => id <> -1) one_visit.
Proof.
  apply (reach_insert 2 _ (HashedSet.ctor 2) 7 (Some 0) one_visit).
  - apply reach_ctor.
  - lia.
  - vm_compute. reflexivity.
Qed.

Lemma HashedSet_free_iff_minus_one_witness :
  (forall id, id <> -1 ->
     (exists r, HashedSet.insert 2 one_visit id = Some r) /\
     (exists r, HashedSet.findOrInsert 2 one_visit id = Some r) /\
     (exists r, HashedSet.erase 2 one_visit id = Some r)) /\
  (forall i e,
     HashedSet._entries one_visit !! i = Some e ->
     (on_free_list one_visit (Z.of_nat i) <-> getId e = -1) /\
     (on_free_list one_visit (Z.of_nat i)
      <-> ~ is_member one_visit (Z.of_nat i))).
Proof.
  apply (HashedSet_free_iff_minus_one 2 ltac:(lia) one_visit).
  - reflexivity.
  - exact one_visit_reachable.
Defined.

(** A set of two visits, after [insert(-1)]. *)
Definition minus_one_visit : HashedSet.t Visit :=
  Eval vm_compute in
    match HashedSet.insert 2 (HashedSet.ctor 2) (-1) with
    | Some (_, s) => s
    | None => HashedSet.ctor 2
    end.

(** C7 as stated fails: [insert(-1)] on a new set makes entry 0 a member
    with identifier -1, which is not on the free list. *)
Lemma HashedSet_free_iff_minus_one_counterexample :
  ~ (forall s : HashedSet.t Visit,
       reachable 2 (fun _ => True) s ->
       forall i e,
         HashedSet._entries s !! i = Some e ->
         (on_free_list s (Z.of_nat i) <-> getId e = -1)).
Proof.
  intros Hclaim.
  assert (Hr : reachable 2 (fun _ => True) minus_one_visit).
  { apply (reach_insert 2 _ (HashedSet.ctor 2) (-1) (Some 0) minus_one_visit).
    - apply reach_ctor.
    - exact I.
    - vm_compute. reflexivity. }
  destruct (Hclaim minus_one_visit Hr O
              {| v_id := -1; v_next := -1; v_failed := false |}
              eq_refl) as [_ Hfree].
  destruct (Hfree eq_refl) as (fl & Hch & Hin).
  assert (Hch' : chain (HashedSet._entries minus_one_visit)
                       (HashedSet._free minus_one_visit) [1]).
  { apply (chain_cons _ _ (-1)); [simpl; lia | reflexivity |].
    apply chain_nil. lia. }
  assert (Hfl : fl = [1]) by (eapply chain_det; eassumption).
  rewrite Hfl in Hin. apply list_elem_of_singleton in Hin. discriminate.
Qed.

(** ** The chunk sub-manager *)

(** *** The order of the hand-off *)






Section RelinquishOrder.

Variable T : Traits.
Variable commit_region rollback_region : Z * Z * Z -> Z * Z * Z.

Local Abbreviation relinquish_one :=
  (SubManager.relinquish_one T commit_region rollback_region).
Local Abbreviation relinquish_loop :=
  (SubManager.relinquish_loop T commit_region rollback_region).
Local Abbreviation relinquishOwnership :=
  (SubManager.relinquishOwnership T commit_region rollback_region).



(** A descriptor of the departing visit for which a successor is found
    gets the successor as owner, and then the commit or the rollback. *)
Lemma relinquish_one_handoff s visitId rollback tr change i d q next :
  SubManager.descriptor s i = Some d ->
  _chunkId d <> -1 -> _visitId d = visitId ->
  SubManager.find_successor T
    (Z.to_nat (Fifo._size (_interestedParties d))) tr (_interestedParties d)
  = Some (q, Some next) ->
  exists s',
    relinquish_one s visitId rollback tr change i
    = Ok (true, [EvSetOwner i next;
                 if rollback then EvRollback i else EvCommit i]) s' /\
    exists d', SubManager.descriptor s' i = Some d' /\ _visitId d' = next.
Proof.
  intros Hd Hid Hv Hsucc. unfold SubManager.relinquish_one.
  rewrite Hd. destruct (Z.eqb_spec (_chunkId d) (-1)); [contradiction |].
  subst visitId. rewrite Z.eqb_refl. simpl andb. cbv iota. rewrite Hsucc.
  eexists. split; [reflexivity |].
  unfold SubManager.descriptor in *. simpl.
  destruct (decide (0 <= i)); [| discriminate].
  rewrite list_lookup_insert_eq by (eapply lookup_lt_Some; eassumption).
  eexists. split; [reflexivity |].
  destruct rollback; unfold SubManager.rollback, SubManager.commit,
    with_delta_region;
    [destruct (rollback_region _) as [[? ?] ?]
    | destruct (commit_region _) as [[? ?] ?]]; reflexivity.
Qed.


End RelinquishOrder.

(** *** Runs of the manager *)

(** The calls of the interface of the manager. *)
Inductive call : Type :=
| RegisterVisit (visitId : Z)
| StartVisit (visitId : Z) (chunkIds : list Z)
| FailVisit (visitId : Z)
| EndVisit (visitId : Z) (rollback : bool).

Section Runs.

Variable T : Traits.
Variable commit_region rollback_region : Z * Z * Z -> Z * Z * Z.

(** One call that returns normally. *)
Definition step (m : ChunkManager.t) (c : call) : option ChunkManager.t :=
  match c with
  | RegisterVisit v =>
      match ChunkManager.registerVisit T m v with
      | Ok _ m' => Some m'
      | _ => None
      end
  | StartVisit v chunkIds =>
      match ChunkManager.startVisit T m [] [] v chunkIds with
      | Ok _ (m', _, _) => Some m'
      | _ => None
      end
  | FailVisit v => ChunkManager.failVisit T m v
  | EndVisit v rollback =>
      match ChunkManager.endVisit T commit_region rollback_region
                                  m v rollback with
      | Ok _ m' => Some m'
      | _ => None
      end
  end.

(** A sequence of calls that all return normally. *)
Fixpoint run (m : ChunkManager.t) (calls : list call)
  : option ChunkManager.t :=
  match calls with
  | [] => Some m
  | c :: rest =>
      match step m c with
      | Some m' => run m' rest
      | None => None
      end
  end.

(** The states of the manager that calls returning normally lead to. *)
Definition reachable_manager (m : ChunkManager.t) : Prop :=
  exists offset calls, run (ChunkManager.ctor T offset) calls = Some m.

End Runs.

(** A storage layer to run the model with: commit makes the delta part of
    the chunk, rollback drops it. *)
Definition demo_commit (r : Z * Z * Z) : Z * Z * Z :=
  let '(size, delta, nextBlock) := r in (size, size, nextBlock).

Definition demo_rollback (r : Z * Z * Z) : Z * Z * Z :=
  let '(size, delta, nextBlock) := r in (delta, delta, nextBlock).

(** Traits small enough to run: four descriptors, four visits, queues of
    four. *)
Definition demo_traits : Traits :=
  {| WORD_LOG2 := 3; NUM_BLOCKS := 8; BLOCK_SIZE := 16;
     MAX_BLOCKS_PER_CHUNK := 4; MAX_CHUNKS := 4;
     MAX_VISITS_IN_FLIGHT := 4; INTERESTED_PARTIES_CAPACITY := 4 |}.

Definition demo_run (calls : list call) : ChunkManager.t :=
  match run demo_traits demo_commit demo_rollback
            (ChunkManager.ctor demo_traits 4096) calls with
  | Some m => m
  | None => ChunkManager.ctor demo_traits 4096
  end.

(** Visit 1 owns chunk 100, visit 2 waits for it. *)
Definition two_visits_one_chunk : ChunkManager.t :=
  demo_run [RegisterVisit 1; RegisterVisit 2;
            StartVisit 1 [100]; StartVisit 2 [100]].




(** *** Exception safety of [startVisit] *)

(** Visit 1 owns chunk 200; the visits 2, 3, 4 and 5 each registered an
    interest in it and ended, which left their identifiers in the queue of
    the chunk; visit 6 is in flight. *)
Definition queue_full_calls : list call :=
  [RegisterVisit 1; StartVisit 1 [200];
   RegisterVisit 2; StartVisit 2 [200]; EndVisit 2 true;
   RegisterVisit 3; StartVisit 3 [200]; EndVisit 3 true;
   RegisterVisit 4; StartVisit 4 [200]; EndVisit 4 true;
   RegisterVisit 5; StartVisit 5 [200]; EndVisit 5 true;
   RegisterVisit 6].

Definition queue_full : ChunkManager.t := demo_run queue_full_calls.

(** C4 fails on the code: in a state the interface leads to,
    [startVisit(6, [100, 200])] passes both checks, creates the descriptor
    of chunk 100, and then throws [LengthError] from [Fifo::enqueue] on the
    full queue of chunk 200; the descriptor of chunk 100 stays. *)
Theorem startVisit_mutates_then_throws :
  exists m' c100,
    reachable_manager demo_traits demo_commit demo_rollback queue_full /\
    ChunkManager.startVisit demo_traits queue_full [] [] 6 [100; 200]
    = Throw LengthError (m', [c100], []) /\
    ChunkManager.getChunks demo_traits queue_full [] [100] = Some [] /\
    ChunkManager.getChunks demo_traits m' [] [100] = Some [c100] /\
    m' <> queue_full.
Proof.
  eexists _, _. split; [| split; [| split; [| split]]].
  - exists 4096, queue_full_calls. vm_compute. reflexivity.
  - vm_compute. reflexivity.
  - vm_compute. reflexivity.
  - vm_compute. reflexivity.
  - intros Heq.
    assert (H : ChunkManager.getChunks demo_traits queue_full [] [100]
                = Some []) by (vm_compute; reflexivity).
    rewrite <- Heq in H. vm_compute in H. discriminate.
Qed.

(** The same happens below the manager: [createOrRegisterInterest] throws
    with the descriptor of chunk 100 created. *)
Lemma createOrRegisterInterest_mutates_then_throws :
  exists s' c100,
    SubManager.createOrRegisterInterest demo_traits
      (ChunkManager._data queue_full) [] [] 6 [100; 200]
    = Throw LengthError (s', [c100], []) /\
    s' <> ChunkManager._data queue_full.
Proof.
  eexists _, _. split; [vm_compute; reflexivity |].
  intros Heq. vm_compute in Heq. discriminate.
Qed.

(** *** What [relinquishOwnership] leaves alone *)

(** Visit 2 owns chunk 100, visit 1 owns chunk 107; both chunks hash to
    bucket 6, and the descriptor of chunk 107 is chained behind the one of
    chunk 100. *)
Definition two_chunks_one_bucket : ChunkManager.t :=
  demo_run [RegisterVisit 1; RegisterVisit 2;
            StartVisit 2 [100]; StartVisit 1 [107]].

(** C10 as stated fails: when visit 1 ends, erasing the descriptor of chunk
    107 rewrites the link of its predecessor in the chain, the descriptor of
    chunk 100, which visit 2 owns. *)
Lemma relinquishOwnership_frame_counterexample :
  exists d s' d',
    HashedSet._entries
      (SubManager._chunks (ChunkManager._data two_chunks_one_bucket)) !! O
    = Some d /\
    _chunkId d = 100 /\ _visitId d = 2 /\ _nextInChain d = 1 /\
    SubManager.relinquishOwnership demo_traits demo_commit demo_rollback
      (ChunkManager._data two_chunks_one_bucket) 1 false
      (ChunkManager._visits two_chunks_one_bucket)
    = Ok (false, [EvFree 1; EvErase 1 107]) s' /\
    HashedSet._entries (SubManager._chunks s') !! O = Some d' /\
    _nextInChain d' = -1 /\ d' <> d.
Proof.
  eexists _, _, _. repeat split; try (vm_compute; reflexivity).
  intros Heq. vm_compute in Heq. discriminate.
Qed.

(** ** Freeing blocks *)

Section ResetFacts.

Variable LOG2 : Z.
Hypothesis HLOG2 : 0 <= LOG2.

Local Abbreviation BPW := (Bitset.BITS_PER_WORD LOG2).

Lemma test_reset_one words j k w :
  0 <= j -> 0 <= k -> k <> j ->
  words !! Z.to_nat (Bitset.wordForBit LOG2 j) = Some w ->
  Bitset.test LOG2
    (<[Z.to_nat (Bitset.wordForBit LOG2 j) :=
         Z.land w (Bitset.castW LOG2 (Z.lnot (Bitset.maskForBit LOG2 j)))]>
       words) k
  = Bitset.test LOG2 words k.
Proof.
  intros Hj Hk Hne Hw. pose proof (BPW_pos LOG2 HLOG2) as HB.
  rewrite (wordForBit_div LOG2 HLOG2) in *.
  assert (Hq : 0 <= j / BPW) by (apply Z.div_pos; lia).
  rewrite (test_insert LOG2 HLOG2) by
    (try lia; eapply lookup_lt_Some; eassumption).
  destruct (Z.eqb_spec (k / BPW) (j / BPW)) as [Heq | Hneq];
    [| reflexivity].
  rewrite (test_testbit LOG2 HLOG2), Heq, Hw.
  pose proof (Z.mod_pos_bound k BPW HB) as Hkm.
  pose proof (Z.mod_pos_bound j BPW HB) as Hjm.
  rewrite Z.land_spec, (castW_testbit LOG2) by lia.
  rewrite Z.lnot_spec by lia.
  rewrite (maskForBit_pow LOG2 HLOG2), Z.pow2_bits_eqb by lia.
  destruct (Z.eqb_spec (j mod BPW) (k mod BPW)) as [Hm | Hm].
  - exfalso. apply Hne.
    rewrite (Z.div_mod k BPW), (Z.div_mod j BPW) by lia. lia.
  - apply andb_true_r.
Qed.

Lemma reset_loop_spec numBits idxs :
  forall words,
    Forall (fun j => 0 <= j < numBits) idxs ->
    numBits <= Z.of_nat (length words) * BPW ->
    exists words',
      Bitset.reset_loop LOG2 words idxs numBits = Ok tt words' /\
      length words' = length words /\
      (forall k, 0 <= k -> ~ In k idxs ->
         Bitset.test LOG2 words' k = Bitset.test LOG2 words k).
Proof.
  pose proof (BPW_pos LOG2 HLOG2) as HB.
  induction idxs as [| j idxs IH]; intros words Hall Hlen; simpl.
  - exists words. auto.
  - apply list.Forall_cons in Hall as [Hj Hall].
    destruct (Z.leb_spec 0 j); [| lia].
    destruct (Z.ltb_spec j numBits); [| lia]. simpl negb. cbv iota.
    assert (Hwl : (Z.to_nat (Bitset.wordForBit LOG2 j) < length words)%nat).
    { rewrite (wordForBit_div LOG2 HLOG2).
      assert (j / BPW < Z.of_nat (length words))
        by (apply Z.div_lt_upper_bound; lia).
      assert (0 <= j / BPW) by (apply Z.div_pos; lia). lia. }
    destruct (lookup_lt_is_Some_2 _ _ Hwl) as [w Hw]. rewrite Hw.
    destruct (IH (<[Z.to_nat (Bitset.wordForBit LOG2 j) :=
                      Z.land w (Bitset.castW LOG2
                                  (Z.lnot (Bitset.maskForBit LOG2 j)))]>
                    words) Hall)
      as (words' & E & Hl & Hfr).
    { rewrite length_insert. exact Hlen. }
    exists words'. split; [exact E |].
    split; [rewrite Hl; apply length_insert |].
    intros k Hk Hnin. simpl in Hnin. rewrite Hfr by tauto.
    apply (test_reset_one words j k w);
      [lia | lia | intros ->; apply Hnin; left; reflexivity | exact Hw].
Qed.

End ResetFacts.

Section AllocatorFacts.

Variable T : Traits.

(** What the sources assume of the template parameters. *)
Record traits_ok : Prop := {
  word_log2_ok : 0 <= WORD_LOG2 T;
  num_blocks_ok : 0 < NUM_BLOCKS T;
  block_size_ok : 0 < BLOCK_SIZE T;
  max_blocks_ok : 0 <= MAX_BLOCKS_PER_CHUNK T;
  max_chunks_ok : (0 < MAX_CHUNKS T)%nat;
  max_visits_ok : (0 < MAX_VISITS_IN_FLIGHT T)%nat;
  capacity_ok :
    exists p, 0 <= p /\ INTERESTED_PARTIES_CAPACITY T = 2 ^ p
}.

Hypothesis HT : traits_ok.

(** The bitset of the allocator has its [NUM_WORDS] words. *)
Definition allocator_ok (a : BlockAllocator.t) : Prop :=
  Z.of_nat (length (BlockAllocator._allocator a))
  = Bitset.NUM_WORDS (WORD_LOG2 T) (NUM_BLOCKS T).

(** The bit index of the block at an offset. *)
Definition block_index (offset b : Z) : Z :=
  wrap64 (b - offset) / BLOCK_SIZE T.

(** The offsets [blocks[0..n)] are offsets of blocks of the allocator. *)
Definition blocks_ok (offset : Z) (blocks : list Z) (n : Z) : Prop :=
  0 <= n <= MAX_BLOCKS_PER_CHUNK T /\
  n <= Z.of_nat (length blocks) /\
  Forall (fun b =>
            wrap64 (b - offset) < NUM_BLOCKS T * BLOCK_SIZE T /\
            wrap64 (b - offset) mod BLOCK_SIZE T = 0)
         (take (Z.to_nat n) blocks).

Lemma ctor_allocator_ok offset :
  allocator_ok (BlockAllocator.ctor T offset).
Proof.
  unfold allocator_ok, BlockAllocator.ctor. simpl. rewrite repeat_length.
  apply Z2Nat.id. unfold Bitset.NUM_WORDS. apply Z.shiftr_nonneg.
  pose proof (BPW_pos _ (word_log2_ok HT)). pose proof (num_blocks_ok HT).
  lia.
Qed.

Lemma to_indexes_spec offset blocks :
  Forall (fun b =>
            wrap64 (b - offset) < NUM_BLOCKS T * BLOCK_SIZE T /\
            wrap64 (b - offset) mod BLOCK_SIZE T = 0) blocks ->
  BlockAllocator.to_indexes T offset blocks
  = Some (map (block_index offset) blocks) /\
  Forall (fun j => 0 <= j < NUM_BLOCKS T) (map (block_index offset) blocks).
Proof.
  pose proof (block_size_ok HT) as HBS.
  induction 1 as [| b blocks [Hb1 Hb2] Hall [IH1 IH2]]; simpl.
  - split; [reflexivity | constructor].
  - destruct (Z.ltb_spec (wrap64 (b - offset))
                (NUM_BLOCKS T * BLOCK_SIZE T)); [| lia].
    rewrite Hb2, Z.eqb_refl, IH1. simpl. split; [reflexivity |].
    constructor; [| exact IH2].
    unfold block_index. pose proof (wrap64_range (b - offset)) as Hr.
    split.
    + apply Z.div_pos; lia.
    + apply Z.div_lt_upper_bound; lia.
Qed.

(** [free] returns, and clears no bit but those of the blocks freed. *)
Lemma free_spec a blocks n :
  allocator_ok a -> blocks_ok (BlockAllocator._offset a) blocks n ->
  exists a',
    BlockAllocator.free T a blocks n = Ok tt a' /\
    allocator_ok a' /\
    BlockAllocator._offset a' = BlockAllocator._offset a /\
    (forall k, 0 <= k ->
       ~ In k (map (block_index (BlockAllocator._offset a))
                   (take (Z.to_nat n) blocks)) ->
       Bitset.test (WORD_LOG2 T) (BlockAllocator._allocator a') k
       = Bitset.test (WORD_LOG2 T) (BlockAllocator._allocator a) k).
Proof.
  intros Ha (Hn & Hlen & Hall).
  pose proof (word_log2_ok HT) as HL. pose proof (num_blocks_ok HT) as HNB.
  pose proof (BPW_pos _ HL) as HB.
  destruct (to_indexes_spec _ _ Hall) as [Hidx Hrange].
  unfold BlockAllocator.free.
  destruct (Z.leb_spec 0 n); [| lia].
  destruct (Z.leb_spec n (MAX_BLOCKS_PER_CHUNK T)); [| lia].
  simpl negb. cbv iota.
  destruct (Z.ltb_spec (Z.of_nat (length blocks)) n); [lia |].
  rewrite Hidx. unfold Bitset.reset_n, Bitset.reset.
  destruct (Z.ltb_spec 0 (NUM_BLOCKS T)); [| lia].
  destruct (Z.leb_spec 0 n); [| lia]. simpl negb. cbv iota.
  rewrite length_map, length_take.
  destruct (Z.ltb_spec (Z.of_nat (Z.to_nat n `min` length blocks)) n);
    [lia |].
  rewrite take_ge by (rewrite length_map, length_take; lia).
  destruct (reset_loop_spec (WORD_LOG2 T) HL (NUM_BLOCKS T)
              (map (block_index (BlockAllocator._offset a))
                   (take (Z.to_nat n) blocks))
              (BlockAllocator._allocator a) Hrange)
    as (words' & E & Hl' & Hfr).
  { rewrite Ha. unfold Bitset.NUM_WORDS.
    rewrite Z.shiftr_div_pow2 by exact HL.
    fold (Bitset.BITS_PER_WORD (WORD_LOG2 T)).
    pose proof (Z.div_mod (NUM_BLOCKS T + (Bitset.BITS_PER_WORD (WORD_LOG2 T) - 1))
                  (Bitset.BITS_PER_WORD (WORD_LOG2 T)) ltac:(lia)) as Hdm.
    pose proof (Z.mod_pos_bound
                  (NUM_BLOCKS T + (Bitset.BITS_PER_WORD (WORD_LOG2 T) - 1))
                  (Bitset.BITS_PER_WORD (WORD_LOG2 T)) HB) as Hm.
    lia. }
  rewrite E. eexists. split; [reflexivity |].
  split; [unfold allocator_ok; simpl; rewrite Hl'; exact Ha |].
  split; [reflexivity |]. simpl. exact Hfr.
Qed.

End AllocatorFacts.

(** ** The visit tracker *)

Section TrackerFacts.

Variable T : Traits.
Hypothesis HT : traits_ok T.

Local Abbreviation NV := (MAX_VISITS_IN_FLIGHT T).
Local Abbreviation isValid := (SubManager.isValid T).

(** A well-formed tracker. *)
Definition tracker_ok (tr : HashedSet.t Visit) : Prop := wf NV tr.

(** The visit is being tracked and has not failed. *)
Definition valid_in (tr : HashedSet.t Visit) (visitId : Z) : Prop :=
  visitId <> -1 /\
  exists i v,
    0 <= i /\ HashedSet._entries tr !! Z.to_nat i = Some v /\
    v_id v = visitId /\ v_failed v = false.

Lemma isValid_total tr visitId :
  tracker_ok tr -> exists b, isValid tr visitId = Some b.
Proof.
  intros Hwf. unfold SubManager.isValid.
  destruct (Z.eq_dec visitId (-1)) as [-> | Hne].
  - destruct Hwf as (fl & bl & R).
    rewrite (doFind_members_absent NV (max_visits_ok T HT) tr fl bl (-1) R
               (minus_one_members NV (max_visits_ok T HT) tr fl bl R)).
    eauto.
  - destruct (doFind_spec NV (max_visits_ok T HT) tr visitId Hwf Hne)
      as (r & -> & Hr & _).
    destruct r as [i |]; [| eauto].
    destruct (proj1 (Hr i) eq_refl) as [Hi Hid]. unfold idAt in Hid.
    destruct (HashedSet._entries tr !! Z.to_nat i); [eauto | discriminate].
Qed.

Lemma isValid_true tr visitId :
  tracker_ok tr -> isValid tr visitId = Some true <-> valid_in tr visitId.
Proof.
  intros Hwf. unfold SubManager.isValid, valid_in.
  destruct (Z.eq_dec visitId (-1)) as [-> | Hne].
  - destruct Hwf as (fl & bl & R).
    rewrite (doFind_members_absent NV (max_visits_ok T HT) tr fl bl (-1) R
               (minus_one_members NV (max_visits_ok T HT) tr fl bl R)).
    split; [discriminate | intros [? _]; congruence].
  - destruct (doFind_spec NV (max_visits_ok T HT) tr visitId Hwf Hne)
      as (r & -> & Hr & Hnone).
    destruct r as [i |].
    + destruct (proj1 (Hr i) eq_refl) as [Hi Hid]. unfold idAt in Hid.
      destruct (HashedSet._entries tr !! Z.to_nat i) as [v |] eqn:Hv;
        [| discriminate].
      simpl in Hid. injection Hid as Hid. split.
      * intros [= Hf]. split; [exact Hne |]. exists i, v.
        repeat split; try assumption. destruct (v_failed v); [discriminate |].
        reflexivity.
      * intros (_ & j & w & Hj & Hw & Hwid & Hwf').
        assert (Some i = Some j) as [= <-].
        { apply Hr. split; [exact Hj |]. unfold idAt. rewrite Hw. simpl.
          f_equal. exact Hwid. }
        rewrite Hv in Hw. injection Hw as ->. rewrite Hwf'. reflexivity.
    + split; [discriminate |].
      intros (_ & j & w & Hj & Hw & Hwid & _). exfalso.
      apply (proj1 Hnone eq_refl j Hj). unfold idAt. rewrite Hw. simpl.
      f_equal. exact Hwid.
Qed.

Lemma isValid_false tr visitId :
  tracker_ok tr -> isValid tr visitId = Some false <-> ~ valid_in tr visitId.
Proof.
  intros Hwf. destruct (isValid_total tr visitId Hwf) as [[|] Hb].
  - rewrite Hb. split; [discriminate |]. intros Hn. exfalso. apply Hn.
    apply (isValid_true tr visitId Hwf), Hb.
  - rewrite Hb. split; [| reflexivity]. intros _ Hv.
    apply (isValid_true tr visitId Hwf) in Hv. congruence.
Qed.

(** Erasing a visit leaves the other visits as valid as they were, and
    the visit itself not valid. *)
Lemma erase_valid_in tr visitId tr' :
  tracker_ok tr ->
  HashedSet.erase NV tr visitId = Some (true, tr') ->
  tracker_ok tr' /\
  ~ valid_in tr' visitId /\
  (forall w, w <> visitId -> valid_in tr' w <-> valid_in tr w).
Proof.
  intros Hwf Her. pose proof (erase_wf NV (max_visits_ok T HT) _ _ _ _ Hwf Her) as Hwf'.
  split; [exact Hwf' |].
  destruct Hwf as (fl & bl & R).
  destruct (Z.eq_dec visitId (-1)) as [-> | Hne].
  { rewrite (erase_members_absent NV (max_visits_ok T HT) tr fl bl (-1) R
               (minus_one_members NV (max_visits_ok T HT) tr fl bl R)) in Her. discriminate. }
  destruct (present_or_absent tr visitId) as [(i & Hi & Hid) | Ha].
  2:{ rewrite (erase_members_absent NV (max_visits_ok T HT) tr fl bl visitId R
                 (absent_members NV (max_visits_ok T HT) tr fl bl visitId R Ha)) in Her.
      discriminate. }
  destruct (erase_found NV (max_visits_ok T HT) tr fl bl i visitId R Hi Hid Hne)
    as (s1 & l1 & l2 & ei & E1 & Hl & R' & Hei & Hei' & Hrel).
  rewrite E1 in Her. injection Her as <-.
  assert (Hother : forall j w,
            0 <= j -> j <> i ->
            (HashedSet._entries s1 !! Z.to_nat j = Some w ->
             exists w0, HashedSet._entries tr !! Z.to_nat j = Some w0 /\
                        v_id w0 = v_id w /\ v_failed w0 = v_failed w) /\
            (HashedSet._entries tr !! Z.to_nat j = Some w ->
             exists w1, HashedSet._entries s1 !! Z.to_nat j = Some w1 /\
                        v_id w1 = v_id w /\ v_failed w1 = v_failed w)).
  { intros j w Hj Hji.
    destruct (Hrel j Hj Hji) as [Heq | (e & n & He & He')].
    - rewrite Heq. split; intros Hw; exists w; auto.
    - rewrite He, He'. split; intros [= <-]; eexists; split;
        try reflexivity; auto. }
  assert (Hunique : forall j w,
            0 <= j -> HashedSet._entries tr !! Z.to_nat j = Some w ->
            v_id w = visitId -> j = i).
  { intros j w Hj Hw Hwid.
    apply (rep_id_unique NV (max_visits_ok T HT) tr fl bl j i visitId R).
    - apply (rep_id_member NV (max_visits_ok T HT) tr fl bl j visitId R Hj); [| exact Hne].
      unfold idAt. rewrite Hw. simpl. f_equal. exact Hwid.
    - apply (rep_id_member NV (max_visits_ok T HT) tr fl bl i visitId R Hi Hid Hne).
    - unfold idAt. rewrite Hw. simpl. f_equal. exact Hwid.
    - exact Hid. }
  split.
  - intros (_ & j & w & Hj & Hw & Hwid & _).
    destruct (Z.eq_dec j i) as [-> | Hji].
    + rewrite Hei' in Hw. injection Hw as <-. simpl in Hwid. congruence.
    + destruct (proj1 (Hother j w Hj Hji) Hw) as (w0 & Hw0 & Hid0 & _).
      apply Hji, (Hunique j w0 Hj Hw0). congruence.
  - intros w Hw. unfold valid_in. split.
    + intros (Hw1 & j & x & Hj & Hx & Hxid & Hxf). split; [exact Hw1 |].
      destruct (Z.eq_dec j i) as [-> | Hji].
      * rewrite Hei' in Hx. injection Hx as <-. simpl in Hxid. congruence.
      * destruct (proj1 (Hother j x Hj Hji) Hx) as (x0 & Hx0 & Hid0 & Hf0).
        exists j, x0. repeat split; try assumption; congruence.
    + intros (Hw1 & j & x & Hj & Hx & Hxid & Hxf). split; [exact Hw1 |].
      destruct (Z.eq_dec j i) as [-> | Hji].
      * exfalso. unfold idAt in Hid. rewrite Hx in Hid. simpl in Hid.
        congruence.
      * destruct (proj2 (Hother j x Hj Hji) Hx) as (x1 & Hx1 & Hid1 & Hf1).
        exists j, x1. repeat split; try assumption; congruence.
Qed.

End TrackerFacts.

(** ** The state of the sub-manager *)

Section SubManagerFacts.

Variable T : Traits.
Hypothesis HT : traits_ok T.
Variable commit_region rollback_region : Z * Z * Z -> Z * Z * Z.

Local Hint Extern 0 (Entry ChunkDescriptor) =>
  exact (ChunkDescriptor_Entry T) : typeclass_instances.

Local Abbreviation NC := (MAX_CHUNKS T).
Local Abbreviation CAP := (INTERESTED_PARTIES_CAPACITY T).
Local Abbreviation isValid := (SubManager.isValid T).

(** The queue of interested parties, oldest first. *)
Definition queue (d : ChunkDescriptor) : list Z :=
  contents CAP (_interestedParties d).

(** The descriptor at index [j]. *)
Definition entry (s : SubManager.t) (j : Z) : option ChunkDescriptor :=
  HashedSet._entries (SubManager._chunks s) !! Z.to_nat j.

(** The descriptors agree on every field but the link of the chain. *)
Definition same_fields (d d' : ChunkDescriptor) : Prop :=
  with_nextInChain 0 d = with_nextInChain 0 d'.

Lemma same_fields_refl d : same_fields d d.
Proof. reflexivity. Qed.

Lemma same_fields_trans d1 d2 d3 :
  same_fields d1 d2 -> same_fields d2 d3 -> same_fields d1 d3.
Proof. unfold same_fields. congruence. Qed.

Lemma same_fields_sym d1 d2 : same_fields d1 d2 -> same_fields d2 d1.
Proof. unfold same_fields. congruence. Qed.

Lemma same_fields_link n d : same_fields d (with_nextInChain n d).
Proof. reflexivity. Qed.

Lemma same_fields_eq d d' :
  same_fields d d' <-> d' = with_nextInChain (_nextInChain d') d.
Proof.
  unfold same_fields, with_nextInChain. destruct d, d'; simpl.
  split; intros [=]; subst; reflexivity.
Qed.

Lemma same_fields_proj d d' :
  same_fields d d' ->
  _chunkId d' = _chunkId d /\ _visitId d' = _visitId d /\
  _usable d' = _usable d /\
  _interestedParties d' = _interestedParties d /\
  _blocks d' = _blocks d /\ _numBlocks d' = _numBlocks d /\
  delta_region d' = delta_region d.
Proof.
  unfold same_fields, with_nextInChain, delta_region.
  destruct d, d'; simpl. intros [=]; subst. repeat split.
Qed.

Lemma relinked_same_fields (d d' : ChunkDescriptor) :
  relinked (Some d) (Some d') -> same_fields d d'.
Proof.
  intros [[= ->] | (e & n & [= <-] & [= ->])]; reflexivity.
Qed.

(** The descriptor belongs to the visit. *)
Definition owned_by (visitId : Z) (d : ChunkDescriptor) : Prop :=
  _chunkId d <> -1 /\ _visitId d = visitId.

Lemma owned_by_dec visitId d :
  {owned_by visitId d} + {_chunkId d = -1 \/ _visitId d <> visitId}.
Proof.
  unfold owned_by.
  destruct (Z.eq_dec (_chunkId d) (-1)); [right; auto |].
  destruct (Z.eq_dec (_visitId d) visitId); [left | right]; auto.
Qed.

(** Every descriptor has a well-formed queue and blocks of the
    allocator. *)
Definition descriptor_ok (offset : Z) (d : ChunkDescriptor) : Prop :=
  fifo_ok CAP (_interestedParties d) /\
  blocks_ok T offset (_blocks d) (_numBlocks d).

Definition sm_ok (s : SubManager.t) : Prop :=
  wf NC (SubManager._chunks s) /\
  allocator_ok T (SubManager._allocator s) /\
  Forall (descriptor_ok (BlockAllocator._offset (SubManager._allocator s)))
         (HashedSet._entries (SubManager._chunks s)).

Lemma descriptor_ok_same_fields offset d d' :
  same_fields d d' -> descriptor_ok offset d -> descriptor_ok offset d'.
Proof.
  intros Hs [H1 H2].
  apply same_fields_proj in Hs as (_ & _ & _ & E1 & E2 & E3 & _).
  unfold descriptor_ok. rewrite E1, E2, E3. split; assumption.
Qed.

(** *** The successor *)

Lemma find_successor_eq fuel tr q :
  SubManager.find_successor T fuel tr q
  = if Fifo.empty q then Some (q, None)
    else
      match fuel with
      | O => None
      | S fuel' =>
          match Fifo.dequeue CAP q with
          | Ok nextVisitId q' =>
              match isValid tr nextVisitId with
              | None => None
              | Some true => Some (q', Some nextVisitId)
              | Some false => SubManager.find_successor T fuel' tr q'
              end
          | _ => None
          end
      end.
Proof. destruct fuel; reflexivity. Qed.

(** The loop over the queue drops the visits that are not valid, up to the
    first valid one, which is the successor. *)
Lemma find_successor_spec tr :
  tracker_ok T tr ->
  forall n q,
    Z.of_nat n = Fifo._size q -> fifo_ok CAP q ->
    exists q' r dropped,
      SubManager.find_successor T n tr q = Some (q', r) /\
      fifo_ok CAP q' /\
      (forall x, x ∈ dropped -> ~ valid_in tr x) /\
      match r with
      | Some w =>
          contents CAP q = dropped ++ w :: contents CAP q' /\ valid_in tr w
      | None => contents CAP q = dropped /\ contents CAP q' = []
      end.
Proof.
  intros Htr. pose proof (capacity_ok T HT) as Hcap.
  induction n as [| n IH]; intros q Hn Hq; rewrite find_successor_eq.
  - assert (He : Fifo.empty q = true) by (apply Z.eqb_eq; lia).
    rewrite He. exists q, None, []. split; [reflexivity |].
    split; [exact Hq |]. split; [intros x Hx; inversion Hx |].
    split; apply (empty_contents CAP Hcap q Hq), He.
  - assert (He : Fifo.empty q = false) by (apply Z.eqb_neq; lia).
    rewrite He.
    destruct (dequeue_ok CAP Hcap q Hq ltac:(lia))
      as (x & q1 & -> & Hq1 & Hc & Hs).
    destruct (isValid_total T HT tr x Htr) as [[|] Hv]; rewrite Hv.
    + exists q1, (Some x), []. split; [reflexivity |].
      split; [exact Hq1 |]. split; [intros y Hy; inversion Hy |].
      split; [exact Hc |]. apply (isValid_true T HT tr x Htr), Hv.
    + destruct (IH q1 ltac:(lia) Hq1) as (q' & r & dropped & E & Hq' & Hd & Hr).
      exists q', r, (x :: dropped). split; [exact E |].
      split; [exact Hq' |]. split.
      * intros y Hy. apply elem_of_cons in Hy as [-> | Hy]; [| apply Hd, Hy].
        apply (isValid_false T HT tr x Htr), Hv.
      * destruct r as [w |].
        -- destruct Hr as [Hr1 Hr2]. split; [| exact Hr2].
           rewrite Hc, Hr1. reflexivity.
        -- destruct Hr as [Hr1 Hr2]. split; [| exact Hr2].
           rewrite Hc, Hr1. reflexivity.
Qed.

(** The first valid visit of a queue is determined. *)
Lemma first_valid_unique (valid : Z -> Prop) d1 w1 r1 d2 w2 r2 :
  d1 ++ w1 :: r1 = d2 ++ w2 :: r2 ->
  (forall x, x ∈ d1 -> ~ valid x) -> valid w1 ->
  (forall x, x ∈ d2 -> ~ valid x) -> valid w2 ->
  d1 = d2 /\ w1 = w2 /\ r1 = r2.
Proof.
  revert d2. induction d1 as [| x d1 IH]; intros [| y d2] Heq H1 Hw1 H2 Hw2;
    simpl in Heq.
  - injection Heq as -> ->. auto.
  - injection Heq as -> _. exfalso. apply (H2 y); [apply list_elem_of_here |].
    exact Hw1.
  - injection Heq as -> _. exfalso. apply (H1 w2); [apply list_elem_of_here |].
    exact Hw2.
  - injection Heq as -> Heq.
    destruct (IH d2 Heq) as (-> & -> & ->); auto.
    + intros z Hz. apply H1, list_elem_of_further, Hz.
    + intros z Hz. apply H2, list_elem_of_further, Hz.
Qed.

End SubManagerFacts.

(** ** Relinquishing ownership *)

Lemma with_delta_region_proj r d :
  _chunkId (with_delta_region r d) = _chunkId d /\
  _visitId (with_delta_region r d) = _visitId d /\
  _usable (with_delta_region r d) = _usable d /\
  _nextInChain (with_delta_region r d) = _nextInChain d /\
  _interestedParties (with_delta_region r d) = _interestedParties d /\
  _blocks (with_delta_region r d) = _blocks d /\
  _numBlocks (with_delta_region r d) = _numBlocks d.
Proof. destruct r as [[? ?] ?]. repeat split. Qed.

Section RelinquishFacts.

Variable T : Traits.
Hypothesis HT : traits_ok T.
Variable commit_region rollback_region : Z * Z * Z -> Z * Z * Z.

Local Hint Extern 0 (Entry ChunkDescriptor) =>
  exact (ChunkDescriptor_Entry T) : typeclass_instances.

Local Abbreviation NC := (MAX_CHUNKS T).
Local Abbreviation CAP := (INTERESTED_PARTIES_CAPACITY T).
Local Abbreviation relinquish_one :=
  (SubManager.relinquish_one T commit_region rollback_region).
Local Abbreviation relinquish_loop :=
  (SubManager.relinquish_loop T commit_region rollback_region).
Local Abbreviation relinquishOwnership :=
  (SubManager.relinquishOwnership T commit_region rollback_region).
Local Abbreviation offset_of s :=
  (BlockAllocator._offset (SubManager._allocator s)).
Local Abbreviation bits_of s :=
  (BlockAllocator._allocator (SubManager._allocator s)).

(** The bits of the allocator that stand for the blocks of a descriptor. *)
Definition block_indexes (offset : Z) (d : ChunkDescriptor) : list Z :=
  map (block_index T offset) (take (Z.to_nat (_numBlocks d)) (_blocks d)).

(** What [commit] or [rollback] leaves of the descriptor of a chunk handed
    to its next owner. *)
Definition finish (rollback_flag : bool) (d : ChunkDescriptor)
  : ChunkDescriptor :=
  if rollback_flag then SubManager.rollback rollback_region d
  else SubManager.commit commit_region d.

(** What the loop over the queue of [d] finds: the queue left, and the
    successor if there is one. *)
Definition successor_of (tr : HashedSet.t Visit) (d : ChunkDescriptor)
           (q' : Fifo.t) (r : option Z) : Prop :=
  fifo_ok CAP q' /\
  exists dropped,
    (forall x, x ∈ dropped -> ~ valid_in tr x) /\
    match r with
    | Some w => queue T d = dropped ++ w :: contents CAP q' /\ valid_in tr w
    | None => queue T d = dropped /\ contents CAP q' = []
    end.

(** The descriptor at index [i] after the body of the loop ran on it. *)
Definition relinquished (tr : HashedSet.t Visit) (rollback_flag : bool)
           (d : ChunkDescriptor) (o : option ChunkDescriptor) : Prop :=
  exists q' r,
    successor_of tr d q' r /\
    match r with
    | Some w =>
        exists d',
          o = Some d' /\
          same_fields
            (finish rollback_flag
                    (with_visitId w (with_interestedParties q' d))) d'
    | None => exists d', o = Some d' /\ _chunkId d' = -1
    end.

Lemma descriptor_entry s i : 0 <= i -> SubManager.descriptor s i = entry s i.
Proof.
  intros Hi. unfold SubManager.descriptor, entry.
  destruct (decide (0 <= i)); [reflexivity | lia].
Qed.

Lemma sm_ok_entry s i d :
  sm_ok T s -> entry s i = Some d -> descriptor_ok T (offset_of s) d.
Proof.
  intros (_ & _ & Hall) Hd. unfold entry in Hd.
  rewrite list.Forall_lookup in Hall. exact (Hall _ _ Hd).
Qed.

Lemma set_descriptor_ok s i d d' :
  sm_ok T s -> entry s i = Some d ->
  _chunkId d' = _chunkId d -> _nextInChain d' = _nextInChain d ->
  descriptor_ok T (offset_of s) d' ->
  sm_ok T (SubManager.set_descriptor s i d').
Proof.
  intros ((fl & bl & R) & Ha & Hall) Hd Hid Hnext Hok.
  split; [| split].
  - exists fl, bl. unfold SubManager.set_descriptor; simpl.
    apply (rep_update NC (max_chunks_ok T HT) _ fl bl _ d d' R Hd);
      assumption.
  - exact Ha.
  - simpl. apply list.Forall_insert; assumption.
Qed.

Lemma set_descriptor_entry s i d d' :
  entry s i = Some d ->
  entry (SubManager.set_descriptor s i d') i = Some d'.
Proof.
  unfold entry; simpl. intros Hd.
  apply list_lookup_insert_eq. apply lookup_lt_Some in Hd. exact Hd.
Qed.

Lemma set_descriptor_other s i j d' :
  0 <= i -> 0 <= j -> j <> i ->
  entry (SubManager.set_descriptor s i d') j = entry s j.
Proof.
  unfold entry; simpl. intros Hi Hj Hne.
  apply list_lookup_insert_ne. lia.
Qed.

(** The body of the loop of [relinquishOwnership] returns.  It leaves the
    descriptors at the other indices as they are, up to the links of the
    chains, and clears no bit of the allocator but those of the blocks of a
    chunk it releases. *)
Lemma relinquish_one_spec s visitId rollback_flag tr change i d :
  sm_ok T s -> tracker_ok T tr -> 0 <= i -> entry s i = Some d ->
  exists change' evs s',
    relinquish_one s visitId rollback_flag tr change i
    = Ok (change', evs) s' /\
    sm_ok T s' /\ offset_of s' = offset_of s /\
    (forall j dj, 0 <= j -> j <> i -> entry s j = Some dj ->
       exists dj', entry s' j = Some dj' /\ same_fields dj dj') /\
    (forall k, 0 <= k ->
       (owned_by visitId d -> ~ In k (block_indexes (offset_of s) d)) ->
       Bitset.test (WORD_LOG2 T) (bits_of s') k
       = Bitset.test (WORD_LOG2 T) (bits_of s) k) /\
    (~ owned_by visitId d -> s' = s /\ change' = change) /\
    (owned_by visitId d ->
       relinquished tr rollback_flag d (entry s' i)).
Proof.
  intros Hs Htr Hi Hd.
  pose proof (sm_ok_entry s i d Hs Hd) as [Hq Hb].
  unfold SubManager.relinquish_one. rewrite (descriptor_entry s i Hi), Hd.
  destruct (owned_by_dec visitId d) as [[Hid Hv] | Hno].
  2: { assert (Hc : negb (_chunkId d =? -1) && (_visitId d =? visitId) = false).
       { destruct Hno as [-> | Hne]; [reflexivity |].
         apply andb_false_iff. right. apply Z.eqb_neq, Hne. }
       rewrite Hc. exists change, [], s. split; [reflexivity |].
       split; [exact Hs |]. split; [reflexivity |].
       split; [intros j dj _ _ Hj; exists dj; split;
                 [exact Hj | apply same_fields_refl] |].
       split; [reflexivity |].
       split; [auto |]. intros [Hid Hv]. destruct Hno; contradiction. }
  assert (Hc : negb (_chunkId d =? -1) && (_visitId d =? visitId) = true).
  { apply andb_true_iff. split; [apply negb_true_iff, Z.eqb_neq, Hid |].
    apply Z.eqb_eq, Hv. }
  rewrite Hc.
  destruct (find_successor_spec T HT tr Htr
              (Z.to_nat (Fifo._size (_interestedParties d)))
              (_interestedParties d))
    as (q' & r & dropped & -> & Hq' & Hdrop & Hr).
  { destruct Hq as (_ & _ & Hsz & _). lia. }
  { exact Hq. }
  destruct r as [w |].
  - set (d2 := if rollback_flag
               then SubManager.rollback rollback_region
                      (with_visitId w (with_interestedParties q' d))
               else SubManager.commit commit_region
                      (with_visitId w (with_interestedParties q' d))).
    assert (Hd2 : _chunkId d2 = _chunkId d /\
                  _nextInChain d2 = _nextInChain d /\
                  _interestedParties d2 = q' /\
                  _blocks d2 = _blocks d /\ _numBlocks d2 = _numBlocks d).
    { unfold d2, SubManager.rollback, SubManager.commit.
      destruct rollback_flag;
        match goal with
        | |- context [with_delta_region ?r ?x] =>
            destruct (with_delta_region_proj r x) as (-> & _ & _ & -> & -> & -> & ->)
        end; destruct d; repeat split. }
    destruct Hd2 as (E1 & E2 & E3 & E4 & E5).
    exists true, [EvSetOwner i w;
                  if rollback_flag then EvRollback i else EvCommit i],
      (SubManager.set_descriptor s i d2).
    split; [reflexivity |].
    split.
    { apply (set_descriptor_ok s i d d2 Hs Hd E1 E2).
      unfold descriptor_ok. rewrite E3, E4, E5. split; assumption. }
    split; [reflexivity |].
    split.
    { intros j dj Hj Hne Hdj. exists dj.
      rewrite (set_descriptor_other s i j d2 Hi Hj Hne).
      split; [exact Hdj | apply same_fields_refl]. }
    split; [reflexivity |].
    split; [intros Hn; exfalso; apply Hn; split; assumption |].
    intros _. exists q', (Some w). split.
    { split; [exact Hq' |]. exists dropped. split; [exact Hdrop | exact Hr]. }
    exists d2. split; [apply (set_descriptor_entry s i d d2 Hd) |].
    unfold finish. apply same_fields_refl.
  - set (d1 := with_interestedParties q' d).
    set (s1 := SubManager.set_descriptor s i d1).
    assert (Hs1 : sm_ok T s1).
    { apply (set_descriptor_ok s i d d1 Hs Hd); try reflexivity.
      destruct d; split; simpl; [exact Hq' | exact Hb]. }
    assert (Hd1 : entry s1 i = Some d1)
      by apply (set_descriptor_entry s i d d1 Hd).
    destruct Hs1 as ((fl & bl & R1) & Ha1 & Hall1).
    replace (_blocks d1) with (_blocks d) by (destruct d; reflexivity).
    replace (_numBlocks d1) with (_numBlocks d) by (destruct d; reflexivity).
    replace (_chunkId d1) with (_chunkId d) by (destruct d; reflexivity).
    destruct (free_spec T HT (SubManager._allocator s1) (_blocks d)
                (_numBlocks d) Ha1 Hb) as (a' & -> & Ha' & Hoff & Hbits).
    destruct (erase_found NC (max_chunks_ok T HT) (SubManager._chunks s1)
                fl bl i (_chunkId d) R1 Hi) as
      (c' & l1 & l2 & ei & -> & Hbl & R' & Hei & Hei' & Hrel).
    { unfold idAt. unfold entry in Hd1. rewrite Hd1. simpl.
      destruct d; reflexivity. }
    { exact Hid. }
    exists change, [EvFree i; EvErase i (_chunkId d)],
      {| SubManager._chunks := c'; SubManager._allocator := a' |}.
    split; [reflexivity |].
    assert (Hother : forall j dj, 0 <= j -> j <> i -> entry s j = Some dj ->
              exists dj', HashedSet._entries c' !! Z.to_nat j = Some dj' /\
                          same_fields dj dj').
    { intros j dj Hj Hne Hdj.
      pose proof (Hrel j Hj Hne) as Hr'.
      assert (E : HashedSet._entries (SubManager._chunks s1) !! Z.to_nat j
                  = Some dj).
      { rewrite <- Hdj. apply (set_descriptor_other s i j d1 Hi Hj Hne). }
      rewrite E in Hr'.
      destruct Hr' as [-> | (e & n & [= <-] & ->)].
      - exists dj. split; [reflexivity | apply same_fields_refl].
      - eexists. split; [reflexivity | apply same_fields_link]. }
    split.
    { split; [exists (i :: fl); eexists; exact R' |].
      split; [exact Ha' |]. simpl. rewrite Hoff.
      apply list.Forall_lookup. intros k e' Hk.
      destruct (decide (k = Z.to_nat i)) as [-> | Hne].
      - rewrite Hei' in Hk. injection Hk as <-.
        unfold entry in Hd1. rewrite Hd1 in Hei. injection Hei as <-.
        destruct d; split; simpl; [exact Hq' | exact Hb].
      - assert (Hlt : (k < length (HashedSet._entries (SubManager._chunks s)))%nat).
        { apply lookup_lt_Some in Hk.
          rewrite (rep_entries _ _ _ _ R') in Hk.
          destruct Hs as ((fl0 & bl0 & R0) & _).
          rewrite (rep_entries _ _ _ _ R0). exact Hk. }
        apply lookup_lt_is_Some_2 in Hlt as [dj Hdj].
        destruct (Hother (Z.of_nat k) dj) as (dj' & E' & Hsf).
        { lia. } { lia. }
        { unfold entry. rewrite Nat2Z.id. exact Hdj. }
        rewrite Nat2Z.id, Hk in E'. injection E' as <-.
        apply (descriptor_ok_same_fields T HT _ dj e' Hsf).
        destruct Hs as (_ & _ & Hall).
        rewrite list.Forall_lookup in Hall. exact (Hall _ _ Hdj). }
    split; [exact Hoff |].
    split; [exact Hother |].
    split.
    { intros k Hk Hnk. simpl. apply Hbits; [exact Hk |].
      apply Hnk. split; assumption. }
    split; [intros Hn; exfalso; apply Hn; split; assumption |].
    intros _. exists q', None. split.
    { split; [exact Hq' |]. exists dropped. split; [exact Hdrop | exact Hr]. }
    eexists. split; [exact Hei' |]. reflexivity.
Qed.

Lemma entry_exists s j :
  sm_ok T s -> 0 <= j < Z.of_nat NC -> exists d, entry s j = Some d.
Proof.
  intros ((fl & bl & R) & _) Hj. unfold entry.
  apply lookup_lt_is_Some_2. rewrite (rep_entries _ _ _ _ R). lia.
Qed.

Lemma entry_range s j d :
  sm_ok T s -> 0 <= j -> entry s j = Some d -> j < Z.of_nat NC.
Proof.
  intros ((fl & bl & R) & _) Hj Hd. unfold entry in Hd.
  apply lookup_lt_Some in Hd. rewrite (rep_entries _ _ _ _ R) in Hd. lia.
Qed.

Lemma owned_by_same_fields visitId d d' :
  same_fields d d' -> owned_by visitId d <-> owned_by visitId d'.
Proof.
  intros Hs. apply same_fields_proj in Hs as (E1 & E2 & _).
  unfold owned_by. rewrite E1, E2. reflexivity.
Qed.

Lemma block_indexes_same_fields offset d d' :
  same_fields d d' -> block_indexes offset d' = block_indexes offset d.
Proof.
  intros Hs. apply same_fields_proj in Hs as (_ & _ & _ & _ & E1 & E2 & _).
  unfold block_indexes. rewrite E1, E2. reflexivity.
Qed.

Lemma queue_same_fields d d' : same_fields d d' -> queue T d' = queue T d.
Proof.
  intros Hs. apply same_fields_proj in Hs as (_ & _ & _ & E & _).
  unfold queue. rewrite E. reflexivity.
Qed.

Lemma finish_same_fields rollback_flag w q d d' :
  same_fields d d' ->
  same_fields
    (finish rollback_flag (with_visitId w (with_interestedParties q d)))
    (finish rollback_flag (with_visitId w (with_interestedParties q d'))).
Proof.
  intros Hs. pose proof (proj1 (same_fields_eq d d') Hs) as E.
  revert E. generalize (_nextInChain d'). intros n ->. clear Hs.
  unfold finish, SubManager.rollback, SubManager.commit, same_fields.
  destruct d; simpl. unfold delta_region; simpl.
  destruct rollback_flag.
  - destruct (rollback_region _) as [[? ?] ?]. reflexivity.
  - destruct (commit_region _) as [[? ?] ?]. reflexivity.
Qed.

Lemma finish_proj rollback_flag w q d :
  let d' := finish rollback_flag
                   (with_visitId w (with_interestedParties q d)) in
  _chunkId d' = _chunkId d /\ _visitId d' = w /\ _usable d' = _usable d /\
  _interestedParties d' = q /\ _blocks d' = _blocks d /\
  _numBlocks d' = _numBlocks d.
Proof.
  unfold finish, SubManager.rollback, SubManager.commit.
  destruct rollback_flag; cbv zeta;
    match goal with
    | |- context [with_delta_region ?r ?x] =>
        destruct (with_delta_region_proj r x)
          as (-> & -> & -> & _ & -> & -> & ->)
    end; destruct d; repeat split.
Qed.

Lemma relinquished_source tr rollback_flag d d' o :
  same_fields d d' ->
  relinquished tr rollback_flag d' o -> relinquished tr rollback_flag d o.
Proof.
  intros Hs (q' & r & (Hq' & dropped & Hdrop & Hr) & Ho).
  exists q', r. split.
  - split; [exact Hq' |]. exists dropped. split; [exact Hdrop |].
    rewrite <- (queue_same_fields d d' Hs). exact Hr.
  - destruct r as [w |]; [| exact Ho].
    destruct Ho as (x & -> & Hx). exists x. split; [reflexivity |].
    eapply same_fields_trans; [| exact Hx].
    apply finish_same_fields, Hs.
Qed.

Lemma relinquished_target tr rollback_flag d x x' :
  same_fields x x' ->
  relinquished tr rollback_flag d (Some x) ->
  relinquished tr rollback_flag d (Some x').
Proof.
  intros Hs (q' & r & Hsucc & Ho).
  exists q', r. split; [exact Hsucc |].
  destruct r as [w |].
  - destruct Ho as (y & [= <-] & Hy). exists x'. split; [reflexivity |].
    eapply same_fields_trans; [exact Hy | exact Hs].
  - destruct Ho as (y & [= <-] & Hy). exists x'. split; [reflexivity |].
    apply same_fields_proj in Hs as (-> & _). exact Hy.
Qed.

Lemma relinquished_some tr rollback_flag d o :
  relinquished tr rollback_flag d o -> exists x, o = Some x.
Proof.
  intros (q' & r & _ & Ho). destruct r; destruct Ho as (x & -> & _); eauto.
Qed.

(** A descriptor the loop went through still belongs to the visit only if
    it was handed over, and then it has the blocks it had. *)
Lemma relinquished_owned tr rollback_flag visitId offset d x :
  relinquished tr rollback_flag d (Some x) -> owned_by visitId x ->
  block_indexes offset x = block_indexes offset d.
Proof.
  intros (q' & r & _ & Ho) [Hid _]. destruct r as [w |].
  - destruct Ho as (y & [= <-] & Hy).
    rewrite (block_indexes_same_fields offset _ _ Hy).
    destruct (finish_proj rollback_flag w q' d) as (_ & _ & _ & _ & E1 & E2).
    unfold block_indexes. rewrite E1, E2. reflexivity.
  - destruct Ho as (y & [= <-] & Hy). contradiction.
Qed.

Lemma relinquish_loop_cons s visitId rollback_flag tr change i rest
      change1 evs1 s1 change2 evs2 s2 :
  relinquish_one s visitId rollback_flag tr change i
  = Ok (change1, evs1) s1 ->
  relinquish_loop s1 visitId rollback_flag tr change1 rest
  = Ok (change2, evs2) s2 ->
  relinquish_loop s visitId rollback_flag tr change (i :: rest)
  = Ok (change2, evs1 ++ evs2) s2.
Proof. intros E1 E2. simpl. rewrite E1, E2. reflexivity. Qed.

(** The loop of [relinquishOwnership] returns.  The descriptors of the
    visit are handed over or released; the others are as they were, up to
    the links of the chains. *)
Lemma relinquish_loop_spec tr visitId rollback_flag :
  tracker_ok T tr ->
  forall n lo s change,
    0 <= lo -> lo + Z.of_nat n <= Z.of_nat NC -> sm_ok T s ->
    exists change' evs s',
      relinquish_loop s visitId rollback_flag tr change (zseq lo n)
      = Ok (change', evs) s' /\
      sm_ok T s' /\ offset_of s' = offset_of s /\
      (forall j dj, 0 <= j -> entry s j = Some dj ->
         j < lo \/ lo + Z.of_nat n <= j \/ ~ owned_by visitId dj ->
         exists dj', entry s' j = Some dj' /\ same_fields dj dj') /\
      (forall j dj, lo <= j < lo + Z.of_nat n -> entry s j = Some dj ->
         owned_by visitId dj ->
         relinquished tr rollback_flag dj (entry s' j)) /\
      (forall k, 0 <= k ->
         (forall j dj, 0 <= j -> entry s j = Some dj ->
            owned_by visitId dj ->
            ~ In k (block_indexes (offset_of s) dj)) ->
         Bitset.test (WORD_LOG2 T) (bits_of s') k
         = Bitset.test (WORD_LOG2 T) (bits_of s) k).
Proof.
  intros Htr. induction n as [| n IH]; intros lo s change Hlo Hn Hs.
  - exists change, [], s. split; [reflexivity |].
    split; [exact Hs |]. split; [reflexivity |].
    split; [intros j dj _ Hj _; exists dj; split;
              [exact Hj | apply same_fields_refl] |].
    split; [intros j dj Hj; lia |]. reflexivity.
  - destruct (entry_exists s lo Hs ltac:(lia)) as [d Hd].
    destruct (relinquish_one_spec s visitId rollback_flag tr change lo d
                Hs Htr Hlo Hd)
      as (c1 & evs1 & s1 & E1 & Hs1 & Hoff1 & Hfr1 & Hbits1 & Hno1 & Hown1).
    destruct (IH (lo + 1) s1 c1 ltac:(lia) ltac:(lia) Hs1)
      as (c2 & evs2 & s2 & E2 & Hs2 & Hoff2 & HA & HB & HD).
    exists c2, (evs1 ++ evs2), s2.
    split; [exact (relinquish_loop_cons _ _ _ _ _ _ _ _ _ _ _ _ _ E1 E2) |].
    split; [exact Hs2 |]. split; [congruence |].
    (* what the step does to the entry at [j] *)
    assert (Hstep : forall j dj, 0 <= j -> entry s j = Some dj ->
              j <> lo \/ ~ owned_by visitId dj ->
              exists dj1, entry s1 j = Some dj1 /\ same_fields dj dj1).
    { intros j dj Hj Hdj Hc.
      destruct (Z.eq_dec j lo) as [-> | Hne].
      - destruct Hc as [Hc | Hc]; [contradiction |].
        rewrite Hd in Hdj. injection Hdj as <-.
        destruct (Hno1 Hc) as [-> _]. exists d.
        split; [exact Hd | apply same_fields_refl].
      - apply Hfr1; assumption. }
    split; [| split].
    + intros j dj Hj Hdj Hc.
      destruct (Hstep j dj Hj Hdj) as (dj1 & Hdj1 & Hsf1).
      { destruct (Z.eq_dec j lo); [right | left; assumption].
        destruct Hc as [? | [? | ?]]; [lia | lia | assumption]. }
      destruct (HA j dj1 Hj Hdj1) as (dj' & Hdj' & Hsf').
      { destruct Hc as [? | [? | Hc]]; [lia | lia |].
        right; right. rewrite <- (owned_by_same_fields visitId dj dj1 Hsf1).
        exact Hc. }
      exists dj'. split; [exact Hdj' |].
      eapply same_fields_trans; eassumption.
    + intros j dj Hj Hdj Hown.
      destruct (Z.eq_dec j lo) as [-> | Hne].
      * rewrite Hd in Hdj. injection Hdj as <-.
        pose proof (Hown1 Hown) as Hrel.
        destruct (relinquished_some _ _ _ _ Hrel) as [x Hx].
        rewrite Hx in Hrel.
        destruct (HA lo x Hlo Hx ltac:(lia)) as (x' & Hx' & Hsf).
        rewrite Hx'. exact (relinquished_target _ _ _ _ _ Hsf Hrel).
      * destruct (Hstep j dj ltac:(lia) Hdj ltac:(auto))
          as (dj1 & Hdj1 & Hsf1).
        apply (relinquished_source _ _ _ _ _ Hsf1).
        apply HB; [lia | exact Hdj1 |].
        rewrite <- (owned_by_same_fields visitId dj dj1 Hsf1). exact Hown.
    + intros k Hk Hfree.
      rewrite HD; [apply Hbits1; [exact Hk |] |exact Hk |].
      * intros Hown. exact (Hfree lo d Hlo Hd Hown).
      * intros j dj1 Hj Hdj1 Hown1'.
        rewrite Hoff1.
        pose proof (entry_range s1 j dj1 Hs1 Hj Hdj1) as Hr.
        destruct (entry_exists s j Hs ltac:(lia)) as [dj Hdj].
        destruct (Z.eq_dec j lo) as [-> | Hne].
        -- rewrite Hd in Hdj. injection Hdj as <-.
           destruct (owned_by_dec visitId d) as [Hown | Hno].
           ++ pose proof (Hown1 Hown) as Hrel. rewrite Hdj1 in Hrel.
              rewrite (relinquished_owned _ _ _ _ _ _ Hrel Hown1').
              exact (Hfree lo d Hlo Hd Hown).
           ++ assert (Hnot : ~ owned_by visitId d)
                by (intros [? ?]; destruct Hno; contradiction).
              destruct (Hno1 Hnot) as [-> _].
              rewrite Hd in Hdj1. injection Hdj1 as <-.
              exact (Hfree lo d Hlo Hd Hown1').
        -- destruct (Hfr1 j dj Hj Hne Hdj) as (x & Hx & Hsf).
           rewrite Hdj1 in Hx. injection Hx as <-.
           rewrite (block_indexes_same_fields _ _ _ Hsf).
           apply (Hfree j dj Hj Hdj).
           rewrite (owned_by_same_fields visitId dj dj1 Hsf). exact Hown1'.
Qed.

(** [relinquishOwnership] returns, on every well-formed state. *)
Lemma relinquishOwnership_spec s visitId rollback_flag tr :
  sm_ok T s -> tracker_ok T tr ->
  exists change evs s',
    relinquishOwnership s visitId rollback_flag tr = Ok (change, evs) s' /\
    sm_ok T s' /\ offset_of s' = offset_of s /\
    (forall j dj, 0 <= j -> entry s j = Some dj -> ~ owned_by visitId dj ->
       exists dj', entry s' j = Some dj' /\ same_fields dj dj') /\
    (forall j dj, 0 <= j -> entry s j = Some dj -> owned_by visitId dj ->
       relinquished tr rollback_flag dj (entry s' j)) /\
    (forall k, 0 <= k ->
       (forall j dj, 0 <= j -> entry s j = Some dj ->
          owned_by visitId dj ->
          ~ In k (block_indexes (offset_of s) dj)) ->
       Bitset.test (WORD_LOG2 T) (bits_of s') k
       = Bitset.test (WORD_LOG2 T) (bits_of s) k).
Proof.
  intros Hs Htr. unfold SubManager.relinquishOwnership.
  destruct (relinquish_loop_spec tr visitId rollback_flag Htr NC 0 s false
              ltac:(lia) ltac:(lia) Hs)
    as (c & evs & s' & E & Hs' & Hoff & HA & HB & HD).
  exists c, evs, s'. split; [exact E |]. split; [exact Hs' |].
  split; [exact Hoff |]. split; [| split].
  - intros j dj Hj Hdj Hno. apply HA; auto.
  - intros j dj Hj Hdj Hown. apply HB; [| exact Hdj | exact Hown].
    pose proof (entry_range s j dj Hs Hj Hdj). lia.
  - exact HD.
Qed.

End RelinquishFacts.

(** ** The states of the manager *)

Section FindOrInsertCases.

Context {E : Type} `{Entry E} `{!EntryLaws E}.
Variable NumEntries : nat.
Hypothesis HNumEntries : (0 < NumEntries)%nat.

(** The three ways [findOrInsert] ends. *)
Lemma findOrInsert_cases (s : HashedSet.t E) id :
  wf NumEntries s -> id <> -1 ->
  (exists i, 0 <= i /\ idAt (HashedSet._entries s) i = Some id /\
             HashedSet.findOrInsert NumEntries s id = Some (Some i, false, s))
  \/ (absent s id /\
      HashedSet.findOrInsert NumEntries s id = Some (None, true, s))
  \/ (absent s id /\ 0 <= HashedSet._free s /\
      exists s',
        HashedSet.findOrInsert NumEntries s id
        = Some (Some (HashedSet._free s), true, s') /\
        wf NumEntries s' /\
        HashedSet._entries s' !! Z.to_nat (HashedSet._free s)
        = Some (setNextInChain (-1) (setId id construct)) /\
        (forall j, 0 <= j -> j <> HashedSet._free s ->
           relinked (HashedSet._entries s !! Z.to_nat j)
                    (HashedSet._entries s' !! Z.to_nat j))).
Proof.
  intros (fl & bl & R) Hid.
  destruct (present_or_absent s id) as [(i & Hi & Hat) | Habs].
  - left. exists i. split; [exact Hi |]. split; [exact Hat |].
    exact (findOrInsert_found NumEntries HNumEntries s fl bl i id R Hi Hat Hid).
  - right. destruct (Z.lt_ge_cases (HashedSet._free s) 0) as [Hf | Hf].
    + left. split; [exact Habs |].
      exact (findOrInsert_full NumEntries HNumEntries s fl bl id R Hid Habs Hf).
    + right. split; [exact Habs |]. split; [exact Hf |].
      destruct (findOrInsert_new NumEntries HNumEntries s fl bl id R Hid
                  Habs Hf) as (s' & fl' & l & E1 & _ & _ & R' & He & Hrel).
      exists s'. split; [exact E1 |].
      split; [exists fl'; eexists; exact R' |]. split; assumption.
Qed.

End FindOrInsertCases.

Section ManagerFacts.

Variable T : Traits.
Hypothesis HT : traits_ok T.
Variable commit_region rollback_region : Z * Z * Z -> Z * Z * Z.

Local Hint Extern 0 (Entry ChunkDescriptor) =>
  exact (ChunkDescriptor_Entry T) : typeclass_instances.

Local Abbreviation NC := (MAX_CHUNKS T).
Local Abbreviation NV := (MAX_VISITS_IN_FLIGHT T).
Local Abbreviation CAP := (INTERESTED_PARTIES_CAPACITY T).
Local Abbreviation offset_of s :=
  (BlockAllocator._offset (SubManager._allocator s)).
Local Abbreviation endVisit :=
  (ChunkManager.endVisit T commit_region rollback_region).
Local Abbreviation startVisit := (ChunkManager.startVisit T).

(** The invariant of the manager. *)
Definition m_ok (m : ChunkManager.t) : Prop :=
  tracker_ok T (ChunkManager._visits m) /\ sm_ok T (ChunkManager._data m).

Lemma construct_ok offset :
  descriptor_ok T offset (@construct _ (ChunkDescriptor_Entry T)).
Proof.
  split; simpl.
  - apply (ctor_ok CAP (capacity_ok T HT)).
  - split; [pose proof (max_blocks_ok T HT); lia |].
    split; [lia |]. simpl. constructor.
Qed.

Lemma descriptor_ok_fields offset d d' :
  _interestedParties d' = _interestedParties d ->
  _blocks d' = _blocks d -> _numBlocks d' = _numBlocks d ->
  descriptor_ok T offset d -> descriptor_ok T offset d'.
Proof.
  intros E1 E2 E3 [H1 H2]. unfold descriptor_ok. rewrite E1, E2, E3.
  split; assumption.
Qed.

Lemma ctor_m_ok offset : m_ok (ChunkManager.ctor T offset).
Proof.
  split; [| split; [| split]].
  - do 2 eexists. apply (ctor_rep NV (max_visits_ok T HT)). reflexivity.
  - do 2 eexists. apply (ctor_rep NC (max_chunks_ok T HT)). reflexivity.
  - apply ctor_allocator_ok, HT.
  - apply list.Forall_lookup. intros k e Hk.
    cbn [ChunkManager._data ChunkManager.ctor SubManager._chunks] in Hk.
    assert (Hlt : (k < NC)%nat).
    { pose proof (lookup_lt_Some _ _ _ Hk) as Hlt.
      rewrite (proj2 (ctor_entries (E:=ChunkDescriptor) NC (max_chunks_ok T HT) O
                        (max_chunks_ok T HT))) in Hlt. exact Hlt. }
    destruct (ctor_entries (E:=ChunkDescriptor) NC (max_chunks_ok T HT) k Hlt)
      as [He _].
    rewrite He in Hk. injection Hk as <-.
    destruct (decide (k < NC - 1)%nat);
      apply (descriptor_ok_fields _ construct); try reflexivity;
      apply construct_ok.
Qed.

Lemma registerVisit_ok m visitId m' :
  m_ok m -> visitId <> -1 ->
  ChunkManager.registerVisit T m visitId = Ok tt m' -> m_ok m'.
Proof.
  intros [Htr Hs] Hid. unfold ChunkManager.registerVisit.
  destruct (HashedSet.doFind NV (ChunkManager._visits m) visitId)
    as [[? |] |]; try discriminate.
  destruct (_ =? 0); [discriminate |].
  destruct (HashedSet.insert NV (ChunkManager._visits m) visitId)
    as [[[i |] visits] |] eqn:Hins; try discriminate.
  intros [= <-]. split; [| exact Hs]. simpl.
  exact (insert_wf NV (max_visits_ok T HT) _ _ _ _ Htr Hid Hins).
Qed.

Lemma failVisit_ok m visitId m' :
  m_ok m -> ChunkManager.failVisit T m visitId = Some m' -> m_ok m'.
Proof.
  intros [Htr Hs]. unfold ChunkManager.failVisit.
  destruct (HashedSet.doFind NV (ChunkManager._visits m) visitId)
    as [[i |] |]; try discriminate.
  - destruct (HashedSet._entries (ChunkManager._visits m) !! Z.to_nat i)
      as [v |] eqn:Hv; [| discriminate].
    intros [= <-]. split; [| exact Hs]. simpl.
    destruct Htr as (fl & bl & R). exists fl, bl.
    apply (rep_update NV (max_visits_ok T HT) _ fl bl _ v (setFailed v) R Hv);
      reflexivity.
  - intros [= <-]. split; assumption.
Qed.

(** [createOrRegisterInterest], where it returns, keeps the sub-manager
    well formed. *)
Lemma createOrRegisterInterest_ok chunkIds :
  forall s toRead toWaitFor visitId s' toRead' toWaitFor',
    sm_ok T s -> Forall (fun c => c <> -1) chunkIds ->
    SubManager.createOrRegisterInterest T s toRead toWaitFor visitId chunkIds
    = Ok tt (s', toRead', toWaitFor') ->
    sm_ok T s' /\ SubManager._allocator s' = SubManager._allocator s.
Proof.
  induction chunkIds as [| c rest IH];
    intros s toRead toWaitFor visitId s' toRead' toWaitFor' Hs Hids.
  - simpl. intros [= <- _ _]. split; [exact Hs | reflexivity].
  - apply list.Forall_cons in Hids as [Hc Hrest]. simpl.
    destruct Hs as (Hwf & Ha & Hall).
    destruct (findOrInsert_cases NC (max_chunks_ok T HT)
                (SubManager._chunks s) c Hwf Hc)
      as [(i & Hi & Hat & ->) | [(Habs & ->) | (Habs & Hf & c' & -> & Hwf' & He & Hrel)]].
    + (* an existing descriptor *)
      set (s0 := {| SubManager._chunks := SubManager._chunks s;
                    SubManager._allocator := SubManager._allocator s |}).
      assert (Hs0 : sm_ok T s0) by (split; [| split]; assumption).
      rewrite (descriptor_entry s0 i Hi).
      destruct (entry s0 i) as [d |] eqn:Hd; [| discriminate].
      destruct (Fifo.enqueue CAP (_interestedParties d) visitId)
        as [[] q | | |] eqn:Hq; try discriminate.
      intros Hrec. apply IH in Hrec as [Hok Hal]; [split; [exact Hok |] | |].
      * rewrite Hal. reflexivity.
      * apply (set_descriptor_ok T HT s0 i d); try assumption;
          try (destruct d; reflexivity).
        destruct (sm_ok_entry T HT s0 i d Hs0 Hd) as [Hqd Hbd].
        split; [| destruct d; exact Hbd].
        destruct (Z.eq_dec (Fifo._size (_interestedParties d)) CAP)
          as [Hfull | Hroom].
        -- rewrite (enqueue_full CAP (capacity_ok T HT) _ visitId Hfull)
             in Hq. discriminate.
        -- destruct (enqueue_ok CAP (capacity_ok T HT) _ visitId Hqd)
             as (q2 & Hq2 & Hok2 & _).
           { destruct Hqd as (_ & _ & ? & _). lia. }
           rewrite Hq in Hq2. injection Hq2 as ->.
           destruct d; exact Hok2.
      * exact Hrest.
    + discriminate.
    + (* a new descriptor *)
      set (s0 := {| SubManager._chunks := c';
                    SubManager._allocator := SubManager._allocator s |}).
      assert (Hs0 : sm_ok T s0).
      { split; [exact Hwf' |]. split; [exact Ha |]. simpl.
        apply list.Forall_lookup. intros k e Hk.
        destruct (decide (k = Z.to_nat (HashedSet._free (SubManager._chunks s))))
          as [-> | Hne].
        - rewrite He in Hk. injection Hk as <-.
          apply (descriptor_ok_fields _ construct); try reflexivity.
          apply construct_ok.
        - pose proof (Hrel (Z.of_nat k) ltac:(lia) ltac:(lia)) as Hr.
          rewrite Nat2Z.id, Hk in Hr.
          rewrite list.Forall_lookup in Hall.
          destruct Hr as [Hr | (e0 & n & Hr & [= ->])].
          + symmetry in Hr. exact (Hall _ _ Hr).
          + apply (descriptor_ok_fields _ e0); try reflexivity.
            exact (Hall _ _ Hr). }
      rewrite (descriptor_entry s0 _ Hf).
      destruct (entry s0 (HashedSet._free (SubManager._chunks s)))
        as [d |] eqn:Hd; [| discriminate].
      intros Hrec. apply IH in Hrec as [Hok Hal]; [split; [exact Hok |] | |].
      * rewrite Hal. reflexivity.
      * apply (set_descriptor_ok T HT s0 _ d); try assumption;
          try (destruct d; reflexivity).
        destruct (sm_ok_entry T HT s0 _ d Hs0 Hd) as [Hqd Hbd].
        destruct d; split; assumption.
      * exact Hrest.
Qed.

Lemma startVisit_ok m toRead toWaitFor visitId chunkIds m' toRead' toWaitFor' :
  m_ok m -> Forall (fun c => c <> -1) chunkIds ->
  startVisit m toRead toWaitFor visitId chunkIds
  = Ok tt (m', toRead', toWaitFor') ->
  m_ok m'.
Proof.
  intros [Htr Hs] Hids. unfold ChunkManager.startVisit.
  destruct (_ <? _); [discriminate |].
  destruct (SubManager.isValid T (ChunkManager._visits m) visitId)
    as [[|] |]; try discriminate.
  destruct (SubManager.createOrRegisterInterest T (ChunkManager._data m)
              [] [] visitId chunkIds) as [[] [[s1 r1] w1] | ? [[? ?] ?] | |]
    eqn:Hc; try discriminate.
  intros [= <- _ _].
  apply createOrRegisterInterest_ok in Hc as [Hok _]; [| exact Hs | exact Hids].
  split; assumption.
Qed.

Lemma endVisit_ok m visitId rollback b m' :
  m_ok m -> endVisit m visitId rollback = Ok b m' -> m_ok m'.
Proof.
  intros [Htr Hs]. unfold ChunkManager.endVisit.
  destruct (SubManager.isValid T (ChunkManager._visits m) visitId)
    as [valid |]; [| discriminate].
  destruct (HashedSet.erase NV (ChunkManager._visits m) visitId)
    as [[[|] visits] |] eqn:He; try discriminate.
  2: { intros [= _ <-]. split; assumption. }
  assert (Htr' : tracker_ok T visits)
    by exact (erase_wf NV (max_visits_ok T HT) _ _ _ _ Htr He).
  destruct (relinquishOwnership_spec T HT commit_region rollback_region
              (ChunkManager._data m) visitId (rollback || negb valid) visits
              Hs Htr') as (c & evs & s' & -> & Hs' & _).
  intros [= _ <-]. split; assumption.
Qed.

(** The calls with identifiers other than -1, which the sets cannot
    hold. *)
Definition call_ok (c : call) : Prop :=
  match c with
  | RegisterVisit v => v <> -1
  | StartVisit _ chunkIds => Forall (fun c => c <> -1) chunkIds
  | _ => True
  end.

Lemma step_ok m c m' :
  m_ok m -> call_ok c ->
  step T commit_region rollback_region m c = Some m' -> m_ok m'.
Proof.
  intros Hm Hc. destruct c as [v | v ids | v | v rb]; simpl.
  - destruct (ChunkManager.registerVisit T m v) as [[] m1 | | |] eqn:E;
      try discriminate.
    intros [= <-]. exact (registerVisit_ok m v m1 Hm Hc E).
  - destruct (ChunkManager.startVisit T m [] [] v ids)
      as [[] [[m1 r1] w1] | | |] eqn:E; try discriminate.
    intros [= <-]. exact (startVisit_ok m [] [] v ids m1 r1 w1 Hm Hc E).
  - intros E. exact (failVisit_ok m v m' Hm E).
  - destruct (ChunkManager.endVisit T commit_region rollback_region m v rb)
      as [b m1 | | |] eqn:E; try discriminate.
    intros [= <-]. exact (endVisit_ok m v rb b m1 Hm E).
Qed.

Lemma run_ok calls :
  forall m m',
    m_ok m -> Forall call_ok calls ->
    run T commit_region rollback_region m calls = Some m' -> m_ok m'.
Proof.
  induction calls as [| c rest IH]; intros m m' Hm Hcs; simpl.
  - intros [= <-]. exact Hm.
  - apply list.Forall_cons in Hcs as [Hc Hrest].
    destruct (step T commit_region rollback_region m c) as [m1 |] eqn:E;
      [| discriminate].
    intros Hr. apply (IH m1 m' (step_ok m c m1 Hm Hc E) Hrest Hr).
Qed.

End ManagerFacts.

(** ** The frame of [relinquishOwnership] and [endVisit] *)

Lemma demo_traits_ok : traits_ok demo_traits.
Proof.
  constructor; simpl; try lia. exists 2. split; [lia | reflexivity].
Qed.

Lemma demo_run_ok calls :
  Forall call_ok calls -> m_ok demo_traits (demo_run calls).
Proof.
  intros Hcs. unfold demo_run.
  destruct (run demo_traits demo_commit demo_rollback
              (ChunkManager.ctor demo_traits 4096) calls) as [m |] eqn:E.
  - apply (run_ok demo_traits demo_traits_ok demo_commit demo_rollback calls
             _ m (ctor_m_ok demo_traits demo_traits_ok 4096) Hcs E).
  - apply ctor_m_ok, demo_traits_ok.
Qed.

Section HashedSetErase.

Context {E : Type} `{Entry E} `{!EntryLaws E}.
Variable NumEntries : nat.
Hypothesis HNumEntries : (0 < NumEntries)%nat.

(** The set holds an entry with the identifier. *)
Definition holds (s : HashedSet.t E) (id : Z) : Prop :=
  id <> -1 /\ exists i, 0 <= i /\ idAt (HashedSet._entries s) i = Some id.

(** [erase] returns [false] and changes nothing where the set does not hold
    the identifier, and returns [true] with the identifier gone where it
    does. *)
Lemma erase_spec (s : HashedSet.t E) id :
  wf NumEntries s ->
  (~ holds s id /\ HashedSet.erase NumEntries s id = Some (false, s)) \/
  (holds s id /\
   exists s', HashedSet.erase NumEntries s id = Some (true, s') /\
              wf NumEntries s' /\ ~ holds s' id).
Proof.
  intros (fl & bl & R).
  destruct (Z.eq_dec id (-1)) as [-> | Hid].
  { left. split; [intros [Hne _]; contradiction |].
    apply (erase_members_absent NumEntries HNumEntries s fl bl (-1) R).
    apply (minus_one_members NumEntries HNumEntries s fl bl R). }
  destruct (present_or_absent s id) as [(i & Hi & Hat) | Habs].
  - right. split; [split; [exact Hid | exists i; auto] |].
    destruct (erase_found NumEntries HNumEntries s fl bl i id R Hi Hat Hid)
      as (s' & l1 & l2 & ei & E1 & Hbl & R' & Hei & Hei' & Hrel).
    exists s'. split; [exact E1 |].
    split; [exists (i :: fl); eexists; exact R' |].
    intros (_ & j & Hj & Hatj).
    destruct (Z.eq_dec j i) as [-> | Hne].
    + unfold idAt in Hatj. rewrite Hei' in Hatj. simpl in Hatj.
      rewrite getId_setNextInChain, getId_setId in Hatj. congruence.
    + rewrite (relinked_idAt _ _ j (Hrel j Hj Hne)) in Hatj.
      apply Hne.
      apply (rep_id_unique NumEntries HNumEntries s fl bl j i id R);
        try assumption.
      * apply (rep_id_member NumEntries HNumEntries s fl bl j id R);
          assumption.
      * apply (rep_id_member NumEntries HNumEntries s fl bl i id R);
          assumption.
  - left. split; [intros (_ & i & Hi & Hat); exact (Habs i Hi Hat) |].
    apply (erase_members_absent NumEntries HNumEntries s fl bl id R).
    apply (absent_members NumEntries HNumEntries s fl bl id R Habs).
Qed.

End HashedSetErase.

Section FrameFacts.

Variable T : Traits.
Hypothesis HT : traits_ok T.
Variable commit_region rollback_region : Z * Z * Z -> Z * Z * Z.

Local Abbreviation NV := (MAX_VISITS_IN_FLIGHT T).
Local Abbreviation offset_of s :=
  (BlockAllocator._offset (SubManager._allocator s)).
Local Abbreviation bits_of s :=
  (BlockAllocator._allocator (SubManager._allocator s)).
Local Abbreviation relinquishOwnership :=
  (SubManager.relinquishOwnership T commit_region rollback_region).
Local Abbreviation endVisit :=
  (ChunkManager.endVisit T commit_region rollback_region).

(** C10 (amended): on a well-formed sub-manager [relinquishOwnership]
    returns, and for every descriptor whose id is -1 or whose owner is not
    [visitId], every field but [nextInChain], the queue of interested
    parties included, is as it was; and every bit of the allocator that
    backs no block of a descriptor owned by [visitId] is as it was. *)
Theorem relinquishOwnership_frame s visitId rollback_flag tr :
  sm_ok T s -> tracker_ok T tr ->
  exists change evs s',
    relinquishOwnership s visitId rollback_flag tr = Ok (change, evs) s' /\
    (forall j d, 0 <= j -> entry s j = Some d ->
       _chunkId d = -1 \/ _visitId d <> visitId ->
       exists d',
         entry s' j = Some d' /\
         d' = with_nextInChain (_nextInChain d') d) /\
    (forall k, 0 <= k ->
       (forall j d, 0 <= j -> entry s j = Some d ->
          _chunkId d <> -1 -> _visitId d = visitId ->
          ~ In k (block_indexes T (offset_of s) d)) ->
       Bitset.test (WORD_LOG2 T) (bits_of s') k
       = Bitset.test (WORD_LOG2 T) (bits_of s) k).
Proof.
  intros Hs Htr.
  destruct (relinquishOwnership_spec T HT commit_region rollback_region
              s visitId rollback_flag tr Hs Htr)
    as (c & evs & s' & E & _ & _ & HA & _ & HD).
  exists c, evs, s'. split; [exact E |]. split.
  - intros j d Hj Hd Hno.
    destruct (HA j d Hj Hd) as (d' & Hd' & Hsf).
    { intros [? ?]. destruct Hno; contradiction. }
    exists d'. split; [exact Hd' |]. apply same_fields_eq, Hsf.
  - intros k Hk Hfree. apply HD; [exact Hk |].
    intros j d Hj Hd [Hid Hv]. exact (Hfree j d Hj Hd Hid Hv).
Qed.

(** C3: [endVisit] returns [false] and leaves the manager as it is where
    the tracker does not hold the visit.  Otherwise the visit is erased,
    [relinquishOwnership] runs with [rollback || !isValid(visitId)],
    [notifyAll] is called if and only if it reported a change, and the
    negation of that flag is returned.  On a visit that is not valid the
    call with [rollback = false] is the call with [rollback = true]. *)
Theorem endVisit_spec m visitId rollback :
  m_ok T m ->
  exists valid,
    SubManager.isValid T (ChunkManager._visits m) visitId = Some valid /\
    (valid = true <-> valid_in (ChunkManager._visits m) visitId) /\
    (~ holds (ChunkManager._visits m) visitId ->
     endVisit m visitId rollback = Ok false m) /\
    (holds (ChunkManager._visits m) visitId ->
     exists visits change evs data,
       HashedSet.erase NV (ChunkManager._visits m) visitId
       = Some (true, visits) /\
       ~ holds visits visitId /\
       relinquishOwnership (ChunkManager._data m) visitId
                           (rollback || negb valid) visits
       = Ok (change, evs) data /\
       endVisit m visitId rollback
       = Ok (negb (rollback || negb valid))
            {| ChunkManager._visits := visits;
               ChunkManager._data := data;
               ChunkManager.notifications :=
                 if change then S (ChunkManager.notifications m)
                 else ChunkManager.notifications m |}) /\
    (valid = false ->
     endVisit m visitId false = endVisit m visitId true).
Proof.
  intros [Htr Hs].
  destruct (isValid_total T HT _ visitId Htr) as [valid Hv].
  exists valid. split; [exact Hv |]. split.
  { rewrite <- (isValid_true T HT _ visitId Htr), Hv.
    split; [intros -> | intros [= ->]]; reflexivity. }
  unfold ChunkManager.endVisit. rewrite Hv.
  destruct (erase_spec NV (max_visits_ok T HT) (ChunkManager._visits m)
              visitId Htr) as [[Hno He] | (Hyes & visits & He & Htr' & Hgone)].
  - split; [| split].
    + intros _. rewrite He. reflexivity.
    + intros Hyes. contradiction.
    + intros ->. reflexivity.
  - split; [| split].
    + intros Hno. contradiction.
    + intros _.
      destruct (relinquishOwnership_spec T HT commit_region rollback_region
                  (ChunkManager._data m) visitId (rollback || negb valid)
                  visits Hs Htr') as (c & evs & data & E & _).
      exists visits, c, evs, data. rewrite He, E. repeat split. exact Hgone.
    + intros ->. reflexivity.
Qed.

End FrameFacts.

Lemma relinquishOwnership_frame_witness :
  exists change evs s',
    SubManager.relinquishOwnership demo_traits demo_commit demo_rollback
      (ChunkManager._data two_chunks_one_bucket) 1 false
      (ChunkManager._visits two_chunks_one_bucket)
    = Ok (change, evs) s' /\
    (forall j d, 0 <= j ->
       entry (ChunkManager._data two_chunks_one_bucket) j = Some d ->
       _chunkId d = -1 \/ _visitId d <> 1 ->
       exists d',
         entry s' j = Some d' /\
         d' = with_nextInChain (_nextInChain d') d) /\
    (forall k, 0 <= k ->
       (forall j d, 0 <= j ->
          entry (ChunkManager._data two_chunks_one_bucket) j = Some d ->
          _chunkId d <> -1 -> _visitId d = 1 ->
          ~ In k (block_indexes demo_traits
                    (BlockAllocator._offset
                       (SubManager._allocator
                          (ChunkManager._data two_chunks_one_bucket))) d)) ->
       Bitset.test (WORD_LOG2 demo_traits)
         (BlockAllocator._allocator (SubManager._allocator s')) k
       = Bitset.test (WORD_LOG2 demo_traits)
           (BlockAllocator._allocator
              (SubManager._allocator
                 (ChunkManager._data two_chunks_one_bucket))) k).
Proof.
  apply (relinquishOwnership_frame demo_traits demo_traits_ok demo_commit
           demo_rollback (ChunkManager._data two_chunks_one_bucket) 1 false
           (ChunkManager._visits two_chunks_one_bucket)).
  - apply demo_run_ok. repeat constructor; discriminate.
  - apply demo_run_ok. repeat constructor; discriminate.
Defined.

Lemma endVisit_spec_witness :
  exists valid,
    SubManager.isValid demo_traits
      (ChunkManager._visits two_visits_one_chunk) 1 = Some valid /\
    (valid = true <->
     valid_in (ChunkManager._visits two_visits_one_chunk) 1) /\
    (~ holds (ChunkManager._visits two_visits_one_chunk) 1 ->
     ChunkManager.endVisit demo_traits demo_commit demo_rollback
       two_visits_one_chunk 1 false
     = Ok false two_visits_one_chunk) /\
    (holds (ChunkManager._visits two_visits_one_chunk) 1 ->
     exists visits change evs data,
       HashedSet.erase (MAX_VISITS_IN_FLIGHT demo_traits)
         (ChunkManager._visits two_visits_one_chunk) 1
       = Some (true, visits) /\
       ~ holds visits 1 /\
       SubManager.relinquishOwnership demo_traits demo_commit demo_rollback
         (ChunkManager._data two_visits_one_chunk) 1
         (false || negb valid) visits
       = Ok (change, evs) data /\
       ChunkManager.endVisit demo_traits demo_commit demo_rollback
         two_visits_one_chunk 1 false
       = Ok (negb (false || negb valid))
            {| ChunkManager._visits := visits;
               ChunkManager._data := data;
               ChunkManager.notifications :=
                 if change
                 then S (ChunkManager.notifications two_visits_one_chunk)
                 else ChunkManager.notifications two_visits_one_chunk |}) /\
    (valid = false ->
     ChunkManager.endVisit demo_traits demo_commit demo_rollback
       two_visits_one_chunk 1 false
     = ChunkManager.endVisit demo_traits demo_commit demo_rollback
         two_visits_one_chunk 1 true).
Proof.
  apply (endVisit_spec demo_traits demo_traits_ok demo_commit demo_rollback
           two_visits_one_chunk 1 false).
  apply demo_run_ok. repeat constructor; discriminate.
Defined.

(** ** Handing a chunk over *)

Section HandoffFacts.

Variable T : Traits.
Hypothesis HT : traits_ok T.
Variable commit_region rollback_region : Z * Z * Z -> Z * Z * Z.

Local Hint Extern 0 (Entry ChunkDescriptor) =>
  exact (ChunkDescriptor_Entry T) : typeclass_instances.

Local Abbreviation NC := (MAX_CHUNKS T).
Local Abbreviation NV := (MAX_VISITS_IN_FLIGHT T).
Local Abbreviation CAP := (INTERESTED_PARTIES_CAPACITY T).
Local Abbreviation endVisit :=
  (ChunkManager.endVisit T commit_region rollback_region).
Local Abbreviation startVisit := (ChunkManager.startVisit T).
Local Abbreviation visits_of m := (ChunkManager._visits m).
Local Abbreviation data_of m := (ChunkManager._data m).

(** The descriptor at index [i] is the one of chunk [c], owned by [owner],
    with the interested parties [q], oldest first. *)
Definition chunk_state (m : ChunkManager.t) (i c owner : Z) (q : list Z)
  : Prop :=
  exists d,
    entry (data_of m) i = Some d /\
    _chunkId d = c /\ _visitId d = owner /\ queue T d = q.

(** The number of free descriptors. *)
Definition free_descriptors (m : ChunkManager.t) : Z :=
  HashedSet.space NC (SubManager._chunks (data_of m)).

(** A valid visit that starts on a chunk that has a descriptor is put at
    the back of its queue. *)
Lemma startVisit_existing m i c owner q v toRead toWaitFor :
  m_ok T m -> 0 <= i -> c <> -1 -> chunk_state m i c owner q ->
  valid_in (visits_of m) v -> 1 <= free_descriptors m ->
  Z.of_nat (length q) < CAP ->
  exists m',
    startVisit m toRead toWaitFor v [c] = Ok tt (m', [], [i]) /\
    m_ok T m' /\ visits_of m' = visits_of m /\
    chunk_state m' i c owner (q ++ [v]) /\
    free_descriptors m' = free_descriptors m.
Proof.
  intros Hm Hi Hc (d & Hd & Hid & Hown & Hq) Hv Hfree Hlen.
  pose proof Hm as [Htr Hs].
  assert (Hstart : exists m',
    startVisit m toRead toWaitFor v [c] = Ok tt (m', [], [i]) /\
    visits_of m' = visits_of m /\
    chunk_state m' i c owner (q ++ [v]) /\
    free_descriptors m' = free_descriptors m).
  { unfold ChunkManager.startVisit.
    unfold free_descriptors in Hfree.
    destruct (Z.ltb_spec (HashedSet.space NC (SubManager._chunks (data_of m)))
                         (Z.of_nat (length [c]))) as [Hlt | _];
      [simpl in Hlt; lia |].
    rewrite (proj2 (isValid_true T HT _ v Htr) Hv).
    cbn [SubManager.createOrRegisterInterest].
    destruct Hs as ((fl & bl & R) & Ha & Hall).
    rewrite (findOrInsert_found NC (max_chunks_ok T HT) _ fl bl i c R Hi).
    2: { unfold idAt. unfold entry in Hd. rewrite Hd. simpl. congruence. }
    2: { exact Hc. }
    rewrite (descriptor_entry _ i Hi).
    change (entry {| SubManager._chunks := SubManager._chunks (data_of m);
                     SubManager._allocator :=
                       SubManager._allocator (data_of m) |} i)
      with (entry (data_of m) i).
    rewrite Hd.
    rewrite list.Forall_lookup in Hall.
    destruct (Hall _ _ Hd) as [Hqd _].
    destruct (enqueue_ok CAP (capacity_ok T HT) (_interestedParties d) v Hqd)
      as (q2 & -> & Hq2 & Hc2).
    { rewrite <- (contents_length CAP (capacity_ok T HT) _ Hqd).
      unfold queue in Hq. rewrite Hq. exact Hlen. }
    eexists. split; [reflexivity |]. split; [reflexivity |]. split.
    - exists (with_interestedParties q2 d).
      split; [| destruct d; repeat split; simpl in *; try assumption].
      + unfold entry; simpl. apply list_lookup_insert_eq.
        unfold entry in Hd. apply lookup_lt_Some in Hd. exact Hd.
      + unfold queue; simpl. unfold queue in Hq; simpl in Hq.
        rewrite Hc2, Hq. reflexivity.
    - reflexivity. }
  destruct Hstart as (m' & E & Hvis & Hst & Hsp).
  exists m'. split; [exact E |]. split; [| auto].
  apply (startVisit_ok T HT m toRead toWaitFor v [c] m' [] [i] Hm);
    [repeat constructor; exact Hc | exact E].
Qed.

(** When the owner of a chunk ends, the chunk goes to the first valid
    visit of its queue; the visits in front of it are dropped. *)
Lemma endVisit_handoff m i c owner dropped w rest rollback :
  m_ok T m -> 0 <= i -> c <> -1 ->
  chunk_state m i c owner (dropped ++ w :: rest) ->
  holds (visits_of m) owner ->
  (forall x, x ∈ dropped -> ~ valid_in (visits_of m) x) ->
  valid_in (visits_of m) w -> w <> owner ->
  exists b m',
    endVisit m owner rollback = Ok b m' /\ m_ok T m' /\
    chunk_state m' i c w rest /\
    (forall x, x <> owner ->
       valid_in (visits_of m') x <-> valid_in (visits_of m) x).
Proof.
  intros Hm Hi Hc (d & Hd & Hid & Hown & Hq) Hheld Hdrop Hw Hne.
  pose proof Hm as [Htr Hs].
  destruct (isValid_total T HT _ owner Htr) as [valid Hv].
  destruct (erase_spec NV (max_visits_ok T HT) (visits_of m) owner Htr)
    as [[Hno _] | (_ & visits & He & Htr' & _)]; [contradiction |].
  destruct (relinquishOwnership_spec T HT commit_region rollback_region
              (data_of m) owner (rollback || negb valid) visits Hs Htr')
    as (change & evs & data & Er & _ & _ & _ & HB & _).
  assert (E : endVisit m owner rollback
              = Ok (negb (rollback || negb valid))
                   {| ChunkManager._visits := visits;
                      ChunkManager._data := data;
                      ChunkManager.notifications :=
                        if change then S (ChunkManager.notifications m)
                        else ChunkManager.notifications m |}).
  { unfold ChunkManager.endVisit. rewrite Hv, He, Er. reflexivity. }
  exists (negb (rollback || negb valid)). eexists. split; [exact E |].
  split; [exact (endVisit_ok T HT commit_region rollback_region m owner
                   rollback _ _ Hm E) |].
  destruct (erase_valid_in T HT _ owner visits Htr He)
    as (_ & Hgone & Hsame).
  split; [| exact Hsame].
  assert (Hown' : owned_by owner d) by (split; congruence).
  destruct (HB i d Hi Hd Hown') as (q' & r & (Hq' & dr & Hdr & Hr) & Hent).
  assert (Hdrop' : forall x, x ∈ dropped -> ~ valid_in visits x).
  { intros x Hx Hvx. destruct (Z.eq_dec x owner) as [-> | Hxo].
    - exact (Hgone Hvx).
    - apply (Hdrop x Hx). apply (Hsame x Hxo), Hvx. }
  assert (Hw' : valid_in visits w) by (apply (Hsame w Hne), Hw).
  destruct r as [w' |].
  - destruct Hr as [Hr Hvw']. rewrite Hq in Hr.
    destruct (first_valid_unique (valid_in visits) _ _ _ _ _ _ Hr
                Hdrop' Hw' Hdr Hvw') as (_ & <- & Hrest).
    destruct Hent as (d' & Hd' & Hsf).
    exists d'. split; [exact Hd' |].
    destruct (finish_proj commit_region rollback_region
                (rollback || negb valid) w q' d)
      as (F1 & F2 & _ & F4 & _).
    apply same_fields_proj in Hsf as (S1 & S2 & _ & S4 & _).
    split; [congruence |]. split; [congruence |].
    unfold queue. rewrite S4, F4. symmetry. exact Hrest.
  - exfalso. destruct Hr as [Hr _]. rewrite Hq in Hr.
    apply (Hdr w); [| exact Hw'].
    rewrite <- Hr. apply elem_of_app. right. apply list_elem_of_here.
Qed.

Lemma valid_in_holds tr v : valid_in tr v -> holds tr v.
Proof.
  intros (Hne & i & x & Hi & Hx & Hid & _). split; [exact Hne |].
  exists i. split; [exact Hi |]. unfold idAt. rewrite Hx. simpl.
  congruence.
Qed.

(** C2: a chunk owned by visit [O], with only visits that are not valid in
    its queue; the valid visits [A], [B] and [C] start on the chunk, in
    that order.  When [O], then [A], then [B] end, the chunk goes to [A],
    then to [B], then to [C]: the queue is served from the front, and what
    was dequeued is not in it any more. *)
Theorem interested_parties_served_in_order
        m i c O A B C q0 rollbackO rollbackA rollbackB :
  m_ok T m -> 0 <= i -> c <> -1 ->
  chunk_state m i c O q0 -> holds (visits_of m) O ->
  (forall x, x ∈ q0 -> ~ valid_in (visits_of m) x) ->
  valid_in (visits_of m) A -> valid_in (visits_of m) B ->
  valid_in (visits_of m) C -> NoDup [O; A; B; C] ->
  1 <= free_descriptors m -> Z.of_nat (length q0) + 3 <= CAP ->
  exists m1 m2 m3 b4 m4 b5 m5 b6 m6,
    startVisit m [] [] A [c] = Ok tt (m1, [], [i]) /\
    startVisit m1 [] [] B [c] = Ok tt (m2, [], [i]) /\
    startVisit m2 [] [] C [c] = Ok tt (m3, [], [i]) /\
    chunk_state m3 i c O (q0 ++ [A; B; C]) /\
    endVisit m3 O rollbackO = Ok b4 m4 /\ chunk_state m4 i c A [B; C] /\
    endVisit m4 A rollbackA = Ok b5 m5 /\ chunk_state m5 i c B [C] /\
    endVisit m5 B rollbackB = Ok b6 m6 /\ chunk_state m6 i c C [].
Proof.
  intros Hm Hi Hc Hst HO Hq0 HA HB HC Hnd Hfree Hlen.
  assert (Hdist : O <> A /\ O <> B /\ O <> C /\ A <> B /\ A <> C /\ B <> C).
  { apply list.NoDup_cons in Hnd as [H1 Hnd].
    apply list.NoDup_cons in Hnd as [H2 Hnd].
    apply list.NoDup_cons in Hnd as [H3 _].
    rewrite !elem_of_cons in H1, H2, H3.
    repeat split; intros Heq;
      [apply H1 | apply H1 | apply H1 | apply H2 | apply H2 | apply H3];
      rewrite Heq; rewrite ?elem_of_cons; auto 6. }
  destruct Hdist as (HOA & HOB & HOC & HAB & HAC & HBC).
  destruct (startVisit_existing m i c O q0 A [] [] Hm Hi Hc Hst HA Hfree
              ltac:(lia)) as (m1 & E1 & Hm1 & V1 & St1 & F1).
  rewrite <- V1 in HO, Hq0, HA, HB, HC.
  destruct (startVisit_existing m1 i c O (q0 ++ [A]) B [] [] Hm1 Hi Hc St1
              HB ltac:(lia))
    as (m2 & E2 & Hm2 & V2 & St2 & F2).
  { rewrite length_app. simpl. lia. }
  rewrite <- V2 in HO, Hq0, HA, HB, HC.
  destruct (startVisit_existing m2 i c O ((q0 ++ [A]) ++ [B]) C [] [] Hm2 Hi
              Hc St2 HC ltac:(lia))
    as (m3 & E3 & Hm3 & V3 & St3 & F3).
  { rewrite !length_app. simpl. lia. }
  rewrite <- V3 in HO, Hq0, HA, HB, HC.
  replace (((q0 ++ [A]) ++ [B]) ++ [C]) with (q0 ++ A :: [B; C]) in St3
    by (rewrite <- !app_assoc; reflexivity).
  destruct (endVisit_handoff m3 i c O q0 A [B; C] rollbackO Hm3 Hi Hc St3
              HO Hq0 HA ltac:(congruence))
    as (b4 & m4 & E4 & Hm4 & St4 & V4).
  assert (HB4 : valid_in (visits_of m4) B)
    by (apply (V4 B ltac:(congruence)), HB).
  assert (HC4 : valid_in (visits_of m4) C)
    by (apply (V4 C ltac:(congruence)), HC).
  assert (HA4 : valid_in (visits_of m4) A)
    by (apply (V4 A ltac:(congruence)), HA).
  destruct (endVisit_handoff m4 i c A [] B [C] rollbackA Hm4 Hi Hc St4
              (valid_in_holds _ _ HA4)
              ltac:(intros x Hx; inversion Hx) HB4 ltac:(congruence))
    as (b5 & m5 & E5 & Hm5 & St5 & V5).
  assert (HB5 : valid_in (visits_of m5) B)
    by (apply (V5 B ltac:(congruence)), HB4).
  assert (HC5 : valid_in (visits_of m5) C)
    by (apply (V5 C ltac:(congruence)), HC4).
  destruct (endVisit_handoff m5 i c B [] C [] rollbackB Hm5 Hi Hc St5
              (valid_in_holds _ _ HB5)
              ltac:(intros x Hx; inversion Hx) HC5 ltac:(congruence))
    as (b6 & m6 & E6 & Hm6 & St6 & V6).
  exists m1, m2, m3, b4, m4, b5, m5, b6, m6.
  replace (q0 ++ [A; B; C]) with (q0 ++ A :: [B; C]) by reflexivity.
  repeat split; assumption.
Qed.

End HandoffFacts.

(** Visit 1 owns chunk 100; visit 5 started on it and ended, which left
    its identifier in the queue; the visits 2, 3 and 4 are in flight. *)
Definition one_owner_stale_queue : ChunkManager.t :=
  demo_run [RegisterVisit 1; StartVisit 1 [100];
            RegisterVisit 5; StartVisit 5 [100]; EndVisit 5 true;
            RegisterVisit 2; RegisterVisit 3; RegisterVisit 4].

Lemma one_owner_stale_queue_ok : m_ok demo_traits one_owner_stale_queue.
Proof. apply demo_run_ok. repeat constructor; discriminate. Qed.

Lemma interested_parties_served_in_order_witness :
  exists m1 m2 m3 b4 m4 b5 m5 b6 m6,
    ChunkManager.startVisit demo_traits one_owner_stale_queue [] [] 2 [100]
    = Ok tt (m1, [], [0]) /\
    ChunkManager.startVisit demo_traits m1 [] [] 3 [100]
    = Ok tt (m2, [], [0]) /\
    ChunkManager.startVisit demo_traits m2 [] [] 4 [100]
    = Ok tt (m3, [], [0]) /\
    chunk_state demo_traits m3 0 100 1 ([5] ++ [2; 3; 4]) /\
    ChunkManager.endVisit demo_traits demo_commit demo_rollback m3 1 false
    = Ok b4 m4 /\
    chunk_state demo_traits m4 0 100 2 [3; 4] /\
    ChunkManager.endVisit demo_traits demo_commit demo_rollback m4 2 true
    = Ok b5 m5 /\
    chunk_state demo_traits m5 0 100 3 [4] /\
    ChunkManager.endVisit demo_traits demo_commit demo_rollback m5 3 false
    = Ok b6 m6 /\
    chunk_state demo_traits m6 0 100 4 [].
Proof.
  pose proof one_owner_stale_queue_ok as Hm.
  apply (interested_parties_served_in_order demo_traits demo_traits_ok
           demo_commit demo_rollback one_owner_stale_queue 0 100 1 2 3 4 [5]
           false true false Hm).
  - lia.
  - discriminate.
  - eexists. repeat split; vm_compute; reflexivity.
  - split; [discriminate |]. exists 0. split; [lia |].
    vm_compute. reflexivity.
  - intros x Hx. apply list_elem_of_singleton in Hx. subst x.
    apply (isValid_false demo_traits demo_traits_ok _ 5 (proj1 Hm)).
    vm_compute. reflexivity.
  - apply (isValid_true demo_traits demo_traits_ok _ 2 (proj1 Hm)).
    vm_compute. reflexivity.
  - apply (isValid_true demo_traits demo_traits_ok _ 3 (proj1 Hm)).
    vm_compute. reflexivity.
  - apply (isValid_true demo_traits demo_traits_ok _ 4 (proj1 Hm)).
    vm_compute. reflexivity.
  - apply (bool_decide_unpack _). vm_compute. exact I.
  - vm_compute. discriminate.
  - vm_compute. discriminate.
Defined.

(** ** Checking for ownership *)

Lemma filter_perm (f : Z -> bool) l l' :
  l ≡ₚ l' -> List.filter f l ≡ₚ List.filter f l'.
Proof.
  induction 1 as [| x l l' _ IH | x y l | l l' l'' _ IH1 _ IH2]; simpl.
  - reflexivity.
  - destruct (f x); [constructor |]; exact IH.
  - destruct (f x), (f y); try reflexivity. apply perm_swap.
  - etransitivity; eassumption.
Qed.

(** Removing the element at [k] by moving the last element there. *)
Lemma swap_remove_spec (W : list Z) (k : nat) c :
  W !! k = Some c ->
  exists W1,
    (if Z.of_nat k <? Z.of_nat (length W) - 1
     then match W !! Z.to_nat (Z.of_nat (length W) - 1) with
          | Some x => Some (<[Z.to_nat (Z.of_nat k) := x]> W)
          | None => None
          end
     else Some W) = Some W1 /\
    Z.of_nat (length W) - 1 = Z.of_nat (length (removelast W1)) /\
    take k (removelast W1) = take k W /\
    drop k (removelast W1) ≡ₚ drop (S k) W /\
    (forall x, x ∈ removelast W1 -> x ∈ W).
Proof.
  intros Hk. pose proof (lookup_lt_Some _ _ _ Hk) as Hlt.
  destruct W as [| w0 W0] using rev_ind; [simpl in Hlt; lia |].
  clear IHW0. rewrite length_app in *. simpl length in *.
  rewrite Nat2Z.id.
  replace (Z.to_nat (Z.of_nat (length W0 + 1) - 1)) with (length W0) by lia.
  destruct (Z.ltb_spec (Z.of_nat k) (Z.of_nat (length W0 + 1) - 1))
    as [Hin | Hlast].
  - assert (Hk' : (k < length W0)%nat) by lia.
    rewrite (list_lookup_middle W0 [] w0 (length W0) eq_refl).
    eexists. split; [reflexivity |].
    rewrite (insert_app_l W0 [w0] k w0 Hk'), removelast_last.
    rewrite length_insert. split; [lia |].
    rewrite (take_insert_ge W0 k k w0 (le_n k)).
    rewrite (take_app_le W0 [w0] k ltac:(lia)). split; [reflexivity |].
    split.
    + rewrite (insert_take_drop W0 k w0 Hk').
      rewrite (drop_app_le W0 [w0] (S k) ltac:(lia)).
      assert (Hlen : length (take k W0) = k) by (rewrite length_take; lia).
      rewrite <- Hlen at 1. rewrite drop_app_length.
      apply Permutation_cons_append.
    + intros x Hx. apply elem_of_app.
      apply list_elem_of_lookup in Hx as [j Hj].
      destruct (decide (j = k)) as [-> | Hne].
      * rewrite list_lookup_insert_eq in Hj by exact Hk'.
        injection Hj as <-. right. apply list_elem_of_here.
      * rewrite list_lookup_insert_ne in Hj by lia.
        left. apply (list_elem_of_lookup_2 _ _ _ Hj).
  - assert (Hk' : k = length W0) by lia. subst k.
    eexists. split; [reflexivity |]. rewrite removelast_last.
    split; [lia |].
    rewrite (take_app_le W0 [w0] (length W0) (le_n _)).
    split; [reflexivity |].
    rewrite (drop_ge W0 (length W0) (le_n _)).
    rewrite (drop_ge (W0 ++ [w0]) (S (length W0)))
      by (rewrite length_app; simpl; lia).
    split; [reflexivity |].
    intros x Hx. apply elem_of_app. left. exact Hx.
Qed.

Section OwnershipFacts.

Variable T : Traits.
Hypothesis HT : traits_ok T.

Local Hint Extern 0 (Entry ChunkDescriptor) =>
  exact (ChunkDescriptor_Entry T) : typeclass_instances.

Local Abbreviation NC := (MAX_CHUNKS T).
Local Abbreviation offset_of s :=
  (BlockAllocator._offset (SubManager._allocator s)).
Local Abbreviation checkForOwnership_loop :=
  (SubManager.checkForOwnership_loop T).
Local Abbreviation checkForOwnership := (SubManager.checkForOwnership T).

(** The chunk of the handle [c] belongs to the visit. *)
Definition owns (s : SubManager.t) (visitId c : Z) : bool :=
  match SubManager.descriptor s c with
  | Some d => _visitId d =? visitId
  | None => false
  end.

(** The chunk of the handle [c] belongs to the visit and is not usable. *)
Definition to_reread (s : SubManager.t) (visitId c : Z) : bool :=
  match SubManager.descriptor s c with
  | Some d => (_visitId d =? visitId) && negb (_usable d)
  | None => false
  end.

(** The handles refer to descriptors of the sub-manager. *)
Definition handles_ok (W : list Z) : Prop :=
  forall c, c ∈ W -> 0 <= c < Z.of_nat NC.

(** What the calls of [clear] did to the descriptors: nothing, or they
    took the blocks away. *)
Definition cleared (s s' : SubManager.t) (L : list Z) : Prop :=
  (forall j d, 0 <= j -> entry s j = Some d ->
     exists d',
       entry s' j = Some d' /\
       (d' = d \/ j ∈ L /\ d' = with_numBlocks 0 d)) /\
  (forall c, c ∈ L ->
     exists d', entry s' c = Some d' /\ _numBlocks d' = 0).

(** [Chunk::clear] returns, on a descriptor of a well-formed
    sub-manager. *)
Lemma clear_spec s c d :
  sm_ok T s -> 0 <= c -> entry s c = Some d ->
  exists s',
    SubManager.clear T s c = Ok tt s' /\ sm_ok T s' /\
    entry s' c = Some (with_numBlocks 0 d) /\
    (forall j, 0 <= j -> j <> c -> entry s' j = entry s j).
Proof.
  intros Hs Hc Hd. pose proof Hs as (Hwf & Ha & Hall).
  destruct (sm_ok_entry T HT s c d Hs Hd) as [Hq Hb].
  unfold SubManager.clear. rewrite (descriptor_entry s c Hc), Hd.
  destruct (free_spec T HT (SubManager._allocator s) (_blocks d)
              (_numBlocks d) Ha Hb) as (a' & -> & Ha' & Hoff & _).
  eexists. split; [reflexivity |].
  set (s0 := {| SubManager._chunks := SubManager._chunks s;
                SubManager._allocator := a' |}).
  assert (Hs0 : sm_ok T s0).
  { split; [exact Hwf |]. split; [exact Ha' |]. simpl. rewrite Hoff.
    exact Hall. }
  split; [| split].
  - apply (set_descriptor_ok T HT s0 c d); try assumption;
      try (destruct d; reflexivity).
    simpl. rewrite Hoff. destruct d; split; simpl in *; [exact Hq |].
    split; [pose proof (max_blocks_ok T HT); lia |].
    split; [lia |]. simpl. constructor.
  - apply (set_descriptor_entry s0 c d). exact Hd.
  - intros j Hj Hne. apply (set_descriptor_other s0 c j _ Hc Hj Hne).
Qed.

Lemma checkForOwnership_loop_eq fuel s toRead toWaitFor visitId size i :
  checkForOwnership_loop fuel s toRead toWaitFor visitId size i
  = if i <? size then
      match fuel with
      | O => Undef
      | S fuel' =>
          match toWaitFor !! Z.to_nat i with
          | None => Undef
          | Some c =>
              match SubManager.descriptor s c with
              | None => Undef
              | Some d =>
                  if negb (_visitId d =? visitId) then
                    checkForOwnership_loop fuel' s toRead toWaitFor
                                           visitId size (i + 1)
                  else
                    match
                      (if negb (_usable d) then
                         match SubManager.clear T s c with
                         | Ok _ s' => Ok tt (s', toRead ++ [c])
                         | Throw e s' => Throw e (s', toRead)
                         | AssertFail => AssertFail
                         | Undef => Undef
                         end
                       else Ok tt (s, toRead))
                    with
                    | Ok _ (s', toRead') =>
                        match
                          (if i <? size - 1 then
                             match toWaitFor !! Z.to_nat (size - 1) with
                             | Some x =>
                                 Some (<[Z.to_nat i := x]> toWaitFor)
                             | None => None
                             end
                           else Some toWaitFor)
                        with
                        | None => Undef
                        | Some toWaitFor' =>
                            checkForOwnership_loop fuel' s' toRead'
                              (removelast toWaitFor') visitId (size - 1) i
                        end
                    | Throw e (s', toRead') =>
                        Throw e (s', toRead', toWaitFor)
                    | AssertFail => AssertFail
                    | Undef => Undef
                    end
              end
          end
      end
    else Ok tt (s, toRead, toWaitFor).
Proof. destruct fuel; reflexivity. Qed.

Lemma cleared_refl s : cleared s s [].
Proof.
  split.
  - intros j d _ Hd. exists d. auto.
  - intros c Hc. inversion Hc.
Qed.

Lemma cleared_classes s s' L visitId c :
  sm_ok T s -> cleared s s' L -> 0 <= c < Z.of_nat NC ->
  owns s' visitId c = owns s visitId c /\
  to_reread s' visitId c = to_reread s visitId c.
Proof.
  intros Hs [Hcl _] Hc. unfold owns, to_reread.
  rewrite !descriptor_entry by lia.
  destruct (entry_exists T HT s c Hs Hc) as [d Hd].
  destruct (Hcl c d ltac:(lia) Hd) as (d' & Hd' & [-> | (_ & ->)]);
    rewrite Hd, Hd'; [auto |]. destruct d; auto.
Qed.

(** The loop of [checkForOwnership] returns.  The handles it leaves are
    those of chunks that are not the visit's; the handles it appends to
    [toRead] are those of chunks that are the visit's and are not
    usable. *)
Lemma checkForOwnership_loop_spec visitId :
  forall fuel s toRead W k,
    sm_ok T s -> handles_ok W ->
    (k <= length W)%nat -> (length W - k <= fuel)%nat ->
    exists s' L W',
      checkForOwnership_loop fuel s toRead W visitId
                             (Z.of_nat (length W)) (Z.of_nat k)
      = Ok tt (s', toRead ++ L, W') /\
      sm_ok T s' /\
      W' ≡ₚ take k W
            ++ List.filter (fun c => negb (owns s visitId c)) (drop k W) /\
      L ≡ₚ List.filter (to_reread s visitId) (drop k W) /\
      cleared s s' L.
Proof.
  induction fuel as [| fuel IH]; intros s toRead W k Hs HW Hk Hfuel;
    rewrite checkForOwnership_loop_eq.
  - assert (k = length W) by lia. subst k.
    rewrite Z.ltb_irrefl. exists s, [], W. rewrite app_nil_r.
    split; [reflexivity |]. split; [exact Hs |].
    rewrite take_ge, drop_ge by lia. simpl. rewrite app_nil_r.
    split; [reflexivity |]. split; [reflexivity | apply cleared_refl].
  - destruct (Z.ltb_spec (Z.of_nat k) (Z.of_nat (length W))) as [Hlt | Hge].
    2: { assert (k = length W) by lia. subst k.
         exists s, [], W. rewrite app_nil_r.
         split; [reflexivity |]. split; [exact Hs |].
         rewrite take_ge, drop_ge by lia. simpl. rewrite app_nil_r.
         split; [reflexivity |]. split; [reflexivity | apply cleared_refl]. }
    rewrite Nat2Z.id.
    destruct (lookup_lt_is_Some_2 W k ltac:(lia)) as [c Hc].
    rewrite Hc.
    assert (Hcr : 0 <= c < Z.of_nat NC)
      by (apply HW, (list_elem_of_lookup_2 _ _ _ Hc)).
    destruct (entry_exists T HT s c Hs Hcr) as [d Hd].
    rewrite (descriptor_entry s c ltac:(lia)), Hd.
    assert (Hown : owns s visitId c = (_visitId d =? visitId)).
    { unfold owns. rewrite (descriptor_entry s c ltac:(lia)), Hd.
      reflexivity. }
    assert (Hrr : to_reread s visitId c
                  = (_visitId d =? visitId) && negb (_usable d)).
    { unfold to_reread. rewrite (descriptor_entry s c ltac:(lia)), Hd.
      reflexivity. }
    rewrite (drop_S W c k Hc). simpl List.filter. rewrite Hown, Hrr.
    destruct (_visitId d =? visitId) eqn:Hv; simpl negb; cbv iota.
    + (* the chunk is the visit's *)
      destruct (swap_remove_spec W k c Hc)
        as (W1 & Hmoved & Hlen & Htake & Hdrop & Hsub).
      rewrite Nat2Z.id in Hmoved.
      assert (HW1 : handles_ok (removelast W1))
        by (intros x Hx; apply HW, Hsub, Hx).
      assert (Hk1 : (k <= length (removelast W1))%nat) by lia.
      assert (Hf1 : (length (removelast W1) - k <= fuel)%nat) by lia.
      destruct (_usable d) eqn:Hu; simpl negb; cbv iota; simpl andb.
      * rewrite Hmoved, Hlen.
        destruct (IH s toRead (removelast W1) k Hs HW1 Hk1 Hf1)
          as (s' & L & W' & -> & Hs' & HW' & HL & Hcl).
        exists s', L, W'. split; [reflexivity |]. split; [exact Hs' |].
        split; [| split; [| exact Hcl]].
        -- rewrite HW', Htake. apply Permutation_app_head.
           apply filter_perm, Hdrop.
        -- rewrite HL. apply filter_perm, Hdrop.
      * destruct (clear_spec s c d Hs ltac:(lia) Hd)
          as (s1 & -> & Hs1 & Hd1 & Hother).
        rewrite Hmoved, Hlen.
        assert (Hcl1 : cleared s s1 [c]).
        { split.
          - intros j dj Hj Hdj. destruct (Z.eq_dec j c) as [-> | Hne].
            + rewrite Hd in Hdj. injection Hdj as <-.
              exists (with_numBlocks 0 d). split; [exact Hd1 |].
              right. split; [apply list_elem_of_here | reflexivity].
            + exists dj. rewrite (Hother j Hj Hne). auto.
          - intros x Hx. apply list_elem_of_singleton in Hx. subst x.
            exists (with_numBlocks 0 d). split; [exact Hd1 |].
            destruct d; reflexivity. }
        destruct (IH s1 (toRead ++ [c]) (removelast W1) k Hs1 HW1 Hk1 Hf1)
          as (s' & L & W' & -> & Hs' & HW' & HL & Hcl).
        exists s', (c :: L), W'.
        split; [rewrite <- app_assoc; reflexivity |].
        split; [exact Hs' |].
        assert (Hext1 : forall f g,
                  (forall x, 0 <= x < Z.of_nat NC -> f x = g x) ->
                  List.filter f (drop k (removelast W1))
                  = List.filter g (drop k (removelast W1))).
        { intros f g Hfg. apply filter_ext_in. intros x Hx.
          apply Hfg, HW1. apply list_elem_of_In in Hx.
          apply (list_elem_of_lookup) in Hx as [j Hj].
          rewrite lookup_drop in Hj.
          apply (list_elem_of_lookup_2 _ _ _ Hj). }
        split; [| split].
        -- rewrite HW', Htake. apply Permutation_app_head.
           rewrite (Hext1 _ (fun x => negb (owns s visitId x))).
           ++ apply filter_perm, Hdrop.
           ++ intros x Hx.
              rewrite (proj1 (cleared_classes s s1 [c] visitId x Hs Hcl1 Hx)).
              reflexivity.
        -- constructor. rewrite HL.
           rewrite (Hext1 _ (to_reread s visitId)).
           ++ apply filter_perm, Hdrop.
           ++ intros x Hx.
              exact (proj2 (cleared_classes s s1 [c] visitId x Hs Hcl1 Hx)).
        -- destruct Hcl1 as [Hc1 _]. destruct Hcl as [Hc2 Hc3]. split.
           ++ intros j dj Hj Hdj.
              destruct (Hc1 j dj Hj Hdj) as (d1 & Hd1' & Hcase1).
              destruct (Hc2 j d1 Hj Hd1') as (d2 & Hd2 & Hcase2).
              exists d2. split; [exact Hd2 |].
              destruct Hcase1 as [-> | [Hin1 ->]];
                destruct Hcase2 as [-> | [Hin2 ->]].
              ** left; reflexivity.
              ** right. split; [apply list_elem_of_further, Hin2 |].
                 reflexivity.
              ** right. split; [| reflexivity].
                 apply list_elem_of_singleton in Hin1. subst j.
                 apply list_elem_of_here.
              ** right. split; [apply list_elem_of_further, Hin2 |].
                 destruct dj; reflexivity.
           ++ intros x Hx. apply elem_of_cons in Hx as [-> | Hx];
                [| exact (Hc3 x Hx)].
              destruct (Hc2 c (with_numBlocks 0 d) ltac:(lia) Hd1)
                as (d2 & Hd2 & Hcase2).
              exists d2. split; [exact Hd2 |].
              destruct Hcase2 as [-> | [_ ->]]; destruct d; reflexivity.
    + (* the chunk is another visit's *)
      replace (Z.of_nat k + 1) with (Z.of_nat (S k)) by lia.
      destruct (IH s toRead W (S k) Hs HW ltac:(lia) ltac:(lia))
        as (s' & L & W' & -> & Hs' & HW' & HL & Hcl).
      exists s', L, W'. split; [reflexivity |]. split; [exact Hs' |].
      split; [| split; [exact HL | exact Hcl]].
      rewrite HW', (take_S_r W k c Hc), <- app_assoc. reflexivity.
Qed.

(** C6: [checkForOwnership] returns.  It leaves in [toWaitFor] the handles
    of the chunks that the visit does not own, in some order; it appends
    to [toRead] the handles it removed whose chunk is not usable, having
    cleared those chunks; and it returns [true] if and only if
    [toWaitFor] is empty afterwards. *)
Theorem checkForOwnership_removes_owned s toRead toWaitFor visitId :
  sm_ok T s -> handles_ok toWaitFor ->
  exists b s' L W,
    checkForOwnership s toRead toWaitFor visitId
    = Ok b (s', toRead ++ L, W) /\
    W ≡ₚ List.filter (fun c => negb (owns s visitId c)) toWaitFor /\
    L ≡ₚ List.filter (to_reread s visitId) toWaitFor /\
    cleared s s' L /\
    (b = true <-> W = []).
Proof.
  intros Hs HW. unfold SubManager.checkForOwnership.
  destruct (checkForOwnership_loop_spec visitId (length toWaitFor) s toRead
              toWaitFor O Hs HW ltac:(lia) ltac:(lia))
    as (s' & L & W & E & _ & HW' & HL & Hcl).
  change (Z.of_nat 0) with 0 in E. rewrite E.
  eexists _, s', L, W. split; [reflexivity |].
  split; [exact HW' |]. split; [exact HL |]. split; [exact Hcl |].
  destruct W; split; intros; congruence.
Qed.

End OwnershipFacts.

(** Visit 1 ended and left chunk 100 (descriptor 0) to visit 2; visit 3
    owns chunk 107 (descriptor 1), which visit 2 waits for as well. *)
Definition handed_over_one_of_two : ChunkManager.t :=
  demo_run [RegisterVisit 1; RegisterVisit 2; RegisterVisit 3;
            StartVisit 1 [100]; StartVisit 3 [107];
            StartVisit 2 [100; 107]; EndVisit 1 false].

Example checkForOwnership_handed_over_one_of_two :
  exists s',
    SubManager.checkForOwnership demo_traits
      (ChunkManager._data handed_over_one_of_two) [] [0; 1] 2
    = Ok false (s', [0], [1]) /\
    owns (ChunkManager._data handed_over_one_of_two) 2 0 = true /\
    to_reread (ChunkManager._data handed_over_one_of_two) 2 0 = true /\
    owns (ChunkManager._data handed_over_one_of_two) 2 1 = false.
Proof.
  eexists. split; [vm_compute; reflexivity |].
  split; [vm_compute; reflexivity |].
  split; vm_compute; reflexivity.
Qed.

Lemma checkForOwnership_removes_owned_witness :
  exists b s' L W,
    SubManager.checkForOwnership demo_traits
      (ChunkManager._data handed_over_one_of_two) [] [0; 1] 2
    = Ok b (s', [] ++ L, W) /\
    W ≡ₚ List.filter
           (fun c =>
              negb (owns (ChunkManager._data handed_over_one_of_two) 2 c))
           [0; 1] /\
    L ≡ₚ List.filter
           (to_reread (ChunkManager._data handed_over_one_of_two) 2)
           [0; 1] /\
    cleared (ChunkManager._data handed_over_one_of_two) s' L /\
    (b = true <-> W = []).
Proof.
  apply (checkForOwnership_removes_owned demo_traits demo_traits_ok
           (ChunkManager._data handed_over_one_of_two) [] [0; 1] 2).
  - apply demo_run_ok. repeat constructor; discriminate.
  - intros c Hc. rewrite !elem_of_cons, elem_of_nil in Hc. simpl. lia.
Defined.

(** * Further properties of the code

    ** Fifo (Fifo.h): the order and the bounds *)

Section FifoQueue.

Variable N : Z.
Hypothesis Hpow : exists p, 0 <= p /\ N = 2 ^ p.

(** [enqueue] called on each element of [xs] in turn; the calls stop at the
    first one that throws. *)
Fixpoint enqueue_all (f : Fifo.t) (xs : list Z) : result Fifo.t unit :=
  match xs with
  | [] => Ok tt f
  | x :: rest =>
      match Fifo.enqueue N f x with
      | Ok _ f' => enqueue_all f' rest
      | r => r
      end
  end.

(** [dequeue] called [n] times; the values returned, in the order of the
    calls. *)
Fixpoint dequeue_many (f : Fifo.t) (n : nat) : result Fifo.t (list Z) :=
  match n with
  | O => Ok [] f
  | S n' =>
      match Fifo.dequeue N f with
      | Ok x f' =>
          match dequeue_many f' n' with
          | Ok l f'' => Ok (x :: l) f''
          | r => r
          end
      | Throw e s => Throw e s
      | AssertFail => AssertFail
      | Undef => Undef
      end
  end.

Lemma enqueue_all_spec xs :
  forall f,
    fifo_ok N f -> Fifo._size f + Z.of_nat (length xs) <= N ->
    exists f',
      enqueue_all f xs = Ok tt f' /\ fifo_ok N f' /\
      contents N f' = contents N f ++ xs.
Proof.
  induction xs as [| x xs IH]; intros f Hf Hroom; simpl.
  - exists f. rewrite app_nil_r. auto.
  - simpl in Hroom.
    destruct (enqueue_ok N Hpow f x Hf ltac:(lia)) as (f1 & -> & Hf1 & Hc1).
    destruct (IH f1 Hf1) as (f' & E & Hf' & Hc').
    { rewrite <- (contents_length N Hpow f1 Hf1), Hc1, length_app.
      rewrite (Nat2Z.inj_add), (contents_length N Hpow f Hf). simpl. lia. }
    exists f'. split; [exact E |]. split; [exact Hf' |].
    rewrite Hc', Hc1, <- app_assoc. reflexivity.
Qed.

Lemma dequeue_many_spec n :
  forall f,
    fifo_ok N f -> (n <= length (contents N f))%nat ->
    exists f',
      dequeue_many f n = Ok (take n (contents N f)) f' /\ fifo_ok N f' /\
      contents N f' = drop n (contents N f).
Proof.
  induction n as [| n IH]; intros f Hf Hn; simpl.
  - exists f. rewrite drop_0. auto.
  - pose proof (contents_length N Hpow f Hf) as Hlen.
    destruct (dequeue_ok N Hpow f Hf ltac:(lia))
      as (x & f1 & -> & Hf1 & Hc & _).
    rewrite Hc in Hn |- *. simpl in Hn.
    destruct (IH f1 Hf1 ltac:(lia)) as (f' & -> & Hf' & Hc').
    exists f'. simpl. auto.
Qed.

(** What was put in first comes out first: after the elements [xs] are
    enqueued behind what a queue holds, [n] calls of [dequeue] return the
    [n] oldest elements, oldest first, and leave the others. *)
Theorem Fifo_first_in_first_out f xs n :
  fifo_ok N f -> Fifo._size f + Z.of_nat (length xs) <= N ->
  (n <= length (contents N f ++ xs))%nat ->
  exists f1 f2,
    enqueue_all f xs = Ok tt f1 /\
    dequeue_many f1 n = Ok (take n (contents N f ++ xs)) f2 /\
    fifo_ok N f2 /\
    contents N f2 = drop n (contents N f ++ xs).
Proof.
  intros Hf Hroom Hn.
  destruct (enqueue_all_spec xs f Hf Hroom) as (f1 & E1 & Hf1 & Hc1).
  rewrite <- Hc1 in Hn |- *.
  destruct (dequeue_many_spec n f1 Hf1 Hn) as (f2 & E2 & Hf2 & Hc2).
  exists f1, f2. auto.
Qed.

(** [enqueue] throws [LengthError] exactly when the queue holds
    [NumEntries] elements, [dequeue] exactly when it holds none; a call
    that throws leaves the queue as it was. *)
Theorem Fifo_throws_at_the_bounds f x :
  fifo_ok N f ->
  (Z.of_nat (length (contents N f)) = N ->
   Fifo.full N f = true /\ Fifo.enqueue N f x = Throw LengthError f) /\
  (Z.of_nat (length (contents N f)) <> N ->
   Fifo.full N f = false /\ exists f', Fifo.enqueue N f x = Ok tt f') /\
  (contents N f = [] ->
   Fifo.empty f = true /\ Fifo.dequeue N f = Throw LengthError f) /\
  (contents N f <> [] ->
   Fifo.empty f = false /\
   exists y f', Fifo.dequeue N f = Ok y f' /\ head (contents N f) = Some y).
Proof.
  intros Hf. pose proof (contents_length N Hpow f Hf) as Hlen.
  pose proof Hf as (_ & _ & Hs & _).
  split; [| split; [| split]].
  - intros Hfull. rewrite Hlen in Hfull. split.
    + unfold Fifo.full. apply Z.eqb_eq, Hfull.
    + apply (enqueue_full N Hpow f x Hfull).
  - intros Hroom. rewrite Hlen in Hroom. split.
    + unfold Fifo.full. apply Z.eqb_neq, Hroom.
    + destruct (enqueue_ok N Hpow f x Hf ltac:(lia)) as (f' & E & _).
      exists f'. exact E.
  - intros Hemp. rewrite Hemp in Hlen. simpl in Hlen.
    assert (He : Fifo.empty f = true) by (apply Z.eqb_eq; lia).
    split; [exact He |]. unfold Fifo.dequeue.
    unfold Fifo.empty in He. rewrite He. reflexivity.
  - intros Hne.
    assert (Hpos : 0 < Fifo._size f).
    { destruct (contents N f); [contradiction | simpl in Hlen; lia]. }
    split; [apply Z.eqb_neq; lia |].
    destruct (dequeue_ok N Hpow f Hf Hpos) as (y & f' & E & _ & Hc & _).
    exists y, f'. split; [exact E |]. rewrite Hc. reflexivity.
Qed.

End FifoQueue.

Lemma Fifo_first_in_first_out_witness :
  exists f1 f2,
    enqueue_all 4 (Fifo.ctor 4) [7; 8; 9] = Ok tt f1 /\
    dequeue_many 4 f1 2 = Ok (take 2 (contents 4 (Fifo.ctor 4) ++ [7; 8; 9])) f2 /\
    fifo_ok 4 f2 /\
    contents 4 f2 = drop 2 (contents 4 (Fifo.ctor 4) ++ [7; 8; 9]).
Proof.
  assert (Hpow : exists p, 0 <= p /\ 4 = 2 ^ p)
    by (exists 2; split; [lia | reflexivity]).
  apply (Fifo_first_in_first_out 4 Hpow (Fifo.ctor 4) [7; 8; 9] 2).
  - apply (ctor_ok 4 Hpow).
  - simpl. lia.
  - simpl. lia.
Defined.

Lemma Fifo_throws_at_the_bounds_witness :
  (Z.of_nat (length (contents 4 (Fifo.ctor 4))) = 4 ->
   Fifo.full 4 (Fifo.ctor 4) = true /\
   Fifo.enqueue 4 (Fifo.ctor 4) 7 = Throw LengthError (Fifo.ctor 4)) /\
  (Z.of_nat (length (contents 4 (Fifo.ctor 4))) <> 4 ->
   Fifo.full 4 (Fifo.ctor 4) = false /\
   exists f', Fifo.enqueue 4 (Fifo.ctor 4) 7 = Ok tt f') /\
  (contents 4 (Fifo.ctor 4) = [] ->
   Fifo.empty (Fifo.ctor 4) = true /\
   Fifo.dequeue 4 (Fifo.ctor 4) = Throw LengthError (Fifo.ctor 4)) /\
  (contents 4 (Fifo.ctor 4) <> [] ->
   Fifo.empty (Fifo.ctor 4) = false /\
   exists y f',
     Fifo.dequeue 4 (Fifo.ctor 4) = Ok y f' /\
     head (contents 4 (Fifo.ctor 4)) = Some y).
Proof.
  assert (Hpow : exists p, 0 <= p /\ 4 = 2 ^ p)
    by (exists 2; split; [lia | reflexivity]).
  apply (Fifo_throws_at_the_bounds 4 Hpow (Fifo.ctor 4) 7).
  apply (ctor_ok 4 Hpow).
Defined.

(** ** Bitset (Bitset.h, Bitset.cc): the members that work on one bit, on
    all bits, and on a list of bits *)

Module BitsetMember.
Section WithWord.

(** [BitTraits<Word>::BITS_PER_WORD_LOG2] and the template parameter
    [NumBits]. *)
Variable LOG2 : Z.
Variable NumBits : Z.

(** [Bitset::set()]: [memset(_bits, -1, sizeof(_bits))]. *)
Definition set_all (_bits : list Z) : list Z :=
  map (fun _ => Bitset.WORD_MASK LOG2) _bits.

(** [Bitset::reset(int i)]. *)
Definition reset_bit (_bits : list Z) (i : Z) : result (list Z) unit :=
  if negb ((0 <=? i) && (i <? NumBits)) then AssertFail
  else
    match _bits !! Z.to_nat (Bitset.wordForBit LOG2 i) with
    | None => Undef
    | Some w =>
        Ok tt (<[Z.to_nat (Bitset.wordForBit LOG2 i) :=
                   Z.land w (Bitset.castW LOG2
                               (Z.lnot (Bitset.maskForBit LOG2 i)))]> _bits)
    end.

(** [Bitset::set(int i)]. *)
Definition set_bit (_bits : list Z) (i : Z) : result (list Z) unit :=
  if negb ((0 <=? i) && (i <? NumBits)) then AssertFail
  else
    match _bits !! Z.to_nat (Bitset.wordForBit LOG2 i) with
    | None => Undef
    | Some w =>
        Ok tt (<[Z.to_nat (Bitset.wordForBit LOG2 i) :=
                   Z.lor w (Bitset.maskForBit LOG2 i)]> _bits)
    end.

(** [Bitset::set(int i, bool on)]. *)
Definition set_bit_to (_bits : list Z) (i : Z) (on : bool)
  : result (list Z) unit :=
  if on then set_bit _bits i else reset_bit _bits i.

(** [Bitset::test(int i)], with its assertion. *)
Definition test_bit (_bits : list Z) (i : Z) : result (list Z) bool :=
  if negb ((0 <=? i) && (i <? NumBits)) then AssertFail
  else
    match _bits !! Z.to_nat (Bitset.wordForBit LOG2 i) with
    | None => Undef
    | Some w =>
        Ok (negb (Z.land w (Bitset.maskForBit LOG2 i) =? 0)) _bits
    end.

End WithWord.
End BitsetMember.

Lemma is_word_lor LOG2 a b :
  0 <= LOG2 -> is_word LOG2 a -> is_word LOG2 b -> is_word LOG2 (Z.lor a b).
Proof.
  intros HL [Ha1 Ha2] [Hb1 Hb2]. pose proof (BPW_pos LOG2 HL) as HB.
  assert (H0 : 0 <= Z.lor a b) by (apply Z.lor_nonneg; auto).
  split; [exact H0 |].
  destruct (Z.eq_dec (Z.lor a b) 0) as [-> | Hne].
  { apply Z.pow_pos_nonneg; lia. }
  apply (proj2 (Z.log2_lt_pow2 (Z.lor a b) (Bitset.BITS_PER_WORD LOG2)
                  ltac:(lia))).
  rewrite Z.log2_lor by assumption.
  assert (Hla : Z.log2 a < Bitset.BITS_PER_WORD LOG2).
  { destruct (Z.eq_dec a 0) as [-> | ?]; [simpl; lia |].
    apply (proj1 (Z.log2_lt_pow2 a (Bitset.BITS_PER_WORD LOG2) ltac:(lia))).
    lia. }
  assert (Hlb : Z.log2 b < Bitset.BITS_PER_WORD LOG2).
  { destruct (Z.eq_dec b 0) as [-> | ?]; [simpl; lia |].
    apply (proj1 (Z.log2_lt_pow2 b (Bitset.BITS_PER_WORD LOG2) ltac:(lia))).
    lia. }
  lia.
Qed.

Lemma is_word_land LOG2 a b :
  is_word LOG2 a -> 0 <= b -> is_word LOG2 (Z.land a b).
Proof.
  intros [Ha1 Ha2] Hb. split.
  - apply Z.land_nonneg. auto.
  - assert (Z.land a b <= a); [| lia].
    rewrite Z.land_comm. apply land_le_r; assumption.
Qed.

Lemma is_word_high_bits LOG2 w b :
  0 <= LOG2 -> is_word LOG2 w -> Bitset.BITS_PER_WORD LOG2 <= b ->
  Z.testbit w b = false.
Proof.
  intros HL [H1 H2] Hb. pose proof (BPW_pos LOG2 HL) as HB.
  rewrite <- (Z.mod_small w (2 ^ Bitset.BITS_PER_WORD LOG2)) by lia.
  apply Z.mod_pow2_bits_high. lia.
Qed.

Section BitsetMemberFacts.

Variable LOG2 : Z.
Hypothesis HLOG2 : 0 <= LOG2.
Variable NumBits : Z.
Hypothesis HNumBits : 0 < NumBits.

Local Abbreviation BPW := (Bitset.BITS_PER_WORD LOG2).
Local Abbreviation test := (Bitset.test LOG2).
Local Abbreviation state := (bitset_state LOG2 NumBits).

(** The word of a bit below [NumBits] is in the array. *)
Lemma word_in_range bits i :
  state bits -> 0 <= i < NumBits ->
  0 <= i / BPW /\ (Z.to_nat (i / BPW) < length bits)%nat.
Proof.
  intros [Hlen _] Hi. pose proof (BPW_pos LOG2 HLOG2) as HB.
  rewrite (NUM_WORDS_div LOG2 HLOG2 NumBits HNumBits) in Hlen.
  assert (H0 : 0 <= i / BPW) by (apply Z.div_pos; lia).
  split; [exact H0 |].
  pose proof (Z.div_mod NumBits BPW ltac:(lia)) as Hdm.
  pose proof (Z.mod_pos_bound NumBits BPW HB) as Hr.
  assert (i / BPW < Z.of_nat (length bits)); [| lia].
  apply Z.div_lt_upper_bound; [lia |].
  destruct (Z.eqb_spec (NumBits mod BPW) 0); nia.
Qed.

(** Two states that [test] cannot tell apart are the same array. *)
Lemma state_ext bits bits' :
  length bits' = length bits ->
  Forall (is_word LOG2) bits -> Forall (is_word LOG2) bits' ->
  (forall j, 0 <= j -> test bits' j = test bits j) ->
  bits' = bits.
Proof.
  intros Hlen Hw Hw' Hall. pose proof (BPW_pos LOG2 HLOG2) as HB.
  apply list_eq. intros k.
  destruct (bits !! k) as [w |] eqn:Hk.
  2: { apply lookup_ge_None_1 in Hk. apply lookup_ge_None_2. lia. }
  pose proof (lookup_lt_Some _ _ _ Hk) as Hlt.
  destruct (lookup_lt_is_Some_2 bits' k ltac:(lia)) as [w' Hk'].
  rewrite Hk'. f_equal.
  rewrite list.Forall_lookup in Hw, Hw'.
  pose proof (Hw _ _ Hk) as Hww. pose proof (Hw' _ _ Hk') as Hww'.
  apply Z.bits_inj'. intros b Hb.
  destruct (Z.lt_ge_cases b BPW) as [Hlow | Hhigh].
  - pose proof (Hall (Z.of_nat k * BPW + b) ltac:(nia)) as Ht.
    rewrite !(test_testbit LOG2 HLOG2) in Ht.
    replace ((Z.of_nat k * BPW + b) / BPW) with (Z.of_nat k) in Ht
      by (apply Z.div_unique with b; lia).
    replace ((Z.of_nat k * BPW + b) mod BPW) with b in Ht
      by (apply Z.mod_unique with (Z.of_nat k); lia).
    rewrite Nat2Z.id, Hk, Hk' in Ht. exact Ht.
  - rewrite (is_word_high_bits LOG2 w b HLOG2 Hww Hhigh).
    apply (is_word_high_bits LOG2 w' b HLOG2 Hww' Hhigh).
Qed.

(** Clearing one bit. *)
Lemma test_reset_same words j w :
  0 <= j ->
  words !! Z.to_nat (Bitset.wordForBit LOG2 j) = Some w ->
  test
    (<[Z.to_nat (Bitset.wordForBit LOG2 j) :=
         Z.land w (Bitset.castW LOG2 (Z.lnot (Bitset.maskForBit LOG2 j)))]>
       words) j
  = false.
Proof.
  intros Hj Hw. pose proof (BPW_pos LOG2 HLOG2) as HB.
  rewrite (wordForBit_div LOG2 HLOG2) in *.
  assert (Hq : 0 <= j / BPW) by (apply Z.div_pos; lia).
  rewrite (test_insert LOG2 HLOG2) by
    (try lia; eapply lookup_lt_Some; eassumption).
  rewrite Z.eqb_refl.
  pose proof (Z.mod_pos_bound j BPW HB) as Hjm.
  rewrite Z.land_spec, (castW_testbit LOG2 HLOG2) by lia.
  rewrite Z.lnot_spec by lia.
  rewrite (maskForBit_pow LOG2 HLOG2), Z.pow2_bits_eqb by lia.
  rewrite Z.eqb_refl. apply andb_false_r.
Qed.

(** Setting one bit. *)
Lemma test_set_one words j k w :
  0 <= j -> 0 <= k ->
  words !! Z.to_nat (Bitset.wordForBit LOG2 j) = Some w ->
  test (<[Z.to_nat (Bitset.wordForBit LOG2 j) :=
            Z.lor w (Bitset.maskForBit LOG2 j)]> words) k
  = if k =? j then true else test words k.
Proof.
  intros Hj Hk Hw. pose proof (BPW_pos LOG2 HLOG2) as HB.
  rewrite (wordForBit_div LOG2 HLOG2) in *.
  assert (Hq : 0 <= j / BPW) by (apply Z.div_pos; lia).
  rewrite (test_insert LOG2 HLOG2) by
    (try lia; eapply lookup_lt_Some; eassumption).
  pose proof (Z.mod_pos_bound k BPW HB) as Hkm.
  pose proof (Z.mod_pos_bound j BPW HB) as Hjm.
  destruct (Z.eqb_spec (k / BPW) (j / BPW)) as [Heq | Hneq].
  - rewrite Z.lor_spec, (maskForBit_pow LOG2 HLOG2), Z.pow2_bits_eqb by lia.
    rewrite (test_testbit LOG2 HLOG2), Heq, Hw.
    destruct (Z.eqb_spec k j) as [-> | Hne].
    + rewrite Z.eqb_refl. apply orb_true_r.
    + destruct (Z.eqb_spec (j mod BPW) (k mod BPW)) as [Hm | Hm].
      * exfalso. apply Hne.
        rewrite (Z.div_mod k BPW), (Z.div_mod j BPW) by lia. lia.
      * apply orb_false_r.
  - destruct (Z.eqb_spec k j) as [-> | Hne]; [contradiction | reflexivity].
Qed.

Lemma test_bit_test bits i :
  state bits -> 0 <= i < NumBits ->
  BitsetMember.test_bit LOG2 NumBits bits i = Ok (test bits i) bits.
Proof.
  intros Hst Hi. destruct (word_in_range bits i Hst Hi) as [Hq Hlt].
  unfold BitsetMember.test_bit, Bitset.test.
  destruct (Z.leb_spec 0 i); [| lia]. destruct (Z.ltb_spec i NumBits); [| lia].
  simpl negb. cbv iota. rewrite (wordForBit_div LOG2 HLOG2).
  destruct (lookup_lt_is_Some_2 _ _ Hlt) as [w ->]. reflexivity.
Qed.

(** [set(i, on)] makes bit [i] equal to [on] and leaves every other bit as
    it is; [test(i)] then returns [on].  Outside [0 <= i < NumBits] the
    assertion of [set], [reset] and [test] fails. *)
Theorem Bitset_set_bit_then_test bits i on :
  state bits ->
  (~ 0 <= i < NumBits ->
   BitsetMember.set_bit_to LOG2 NumBits bits i on = AssertFail /\
   BitsetMember.test_bit LOG2 NumBits bits i = AssertFail) /\
  (0 <= i < NumBits ->
   exists bits',
     BitsetMember.set_bit_to LOG2 NumBits bits i on = Ok tt bits' /\
     state bits' /\
     BitsetMember.test_bit LOG2 NumBits bits' i = Ok on bits' /\
     (forall j, 0 <= j -> j <> i -> test bits' j = test bits j)).
Proof.
  intros Hst. pose proof (BPW_pos LOG2 HLOG2) as HB. split.
  - intros Hout.
    assert (Hc : negb ((0 <=? i) && (i <? NumBits)) = true).
    { destruct (Z.leb_spec 0 i), (Z.ltb_spec i NumBits); simpl; try reflexivity.
      lia. }
    unfold BitsetMember.set_bit_to, BitsetMember.set_bit,
      BitsetMember.reset_bit, BitsetMember.test_bit.
    rewrite Hc. destruct on; auto.
  - intros Hi. destruct (word_in_range bits i Hst Hi) as [Hq Hlt].
    destruct (lookup_lt_is_Some_2 _ _ Hlt) as [w Hw].
    assert (Hw' : bits !! Z.to_nat (Bitset.wordForBit LOG2 i) = Some w)
      by (rewrite (wordForBit_div LOG2 HLOG2); exact Hw).
    pose proof Hst as [Hlen Hws].
    assert (Hww : is_word LOG2 w).
    { rewrite list.Forall_lookup in Hws. exact (Hws _ _ Hw). }
    assert (Hmask : is_word LOG2 (Bitset.maskForBit LOG2 i)).
    { rewrite (maskForBit_pow LOG2 HLOG2).
      apply (pow2_is_word LOG2 HLOG2), Z.mod_pos_bound, HB. }
    assert (Hc : negb ((0 <=? i) && (i <? NumBits)) = false).
    { destruct (Z.leb_spec 0 i), (Z.ltb_spec i NumBits); simpl; try reflexivity;
        lia. }
    assert (Hres : exists bits',
      BitsetMember.set_bit_to LOG2 NumBits bits i on = Ok tt bits' /\
      state bits' /\
      (forall j, 0 <= j -> test bits' j = if j =? i then on else test bits j)).
    { unfold BitsetMember.set_bit_to, BitsetMember.set_bit,
        BitsetMember.reset_bit.
      rewrite Hc, Hw'. destruct on; eexists; (split; [reflexivity |]); split.
      - split; [rewrite length_insert; exact Hlen |].
        apply list.Forall_insert; [exact Hws |].
        apply is_word_lor; assumption.
      - intros j Hj. apply test_set_one; [lia | exact Hj | exact Hw'].
      - split; [rewrite length_insert; exact Hlen |].
        apply list.Forall_insert; [exact Hws |].
        apply is_word_land; [exact Hww |].
        apply (castW_is_word LOG2 HLOG2).
      - intros j Hj. destruct (Z.eqb_spec j i) as [-> | Hne].
        + apply test_reset_same; [lia | exact Hw'].
        + apply (test_reset_one LOG2 HLOG2);
            [lia | exact Hj | exact Hne | exact Hw']. }
    destruct Hres as (bits' & E & Hst' & Ht).
    exists bits'. split; [exact E |]. split; [exact Hst' |]. split.
    + rewrite (test_bit_test bits' i Hst' Hi), (Ht i ltac:(lia)), Z.eqb_refl.
      reflexivity.
    + intros j Hj Hne. rewrite (Ht j Hj).
      destruct (Z.eqb_spec j i); [contradiction | reflexivity].
Qed.

(** *** [detail::reset] *)

(** The loop clears the listed bits and no other. *)
Lemma reset_loop_clears idxs :
  forall words,
    Forall (fun j => 0 <= j < NumBits) idxs ->
    NumBits <= Z.of_nat (length words) * BPW ->
    Forall (is_word LOG2) words ->
    exists words',
      Bitset.reset_loop LOG2 words idxs NumBits = Ok tt words' /\
      length words' = length words /\
      Forall (is_word LOG2) words' /\
      (forall k, 0 <= k ->
         test words' k = test words k && negb (bool_decide (k ∈ idxs))).
Proof.
  pose proof (BPW_pos LOG2 HLOG2) as HB.
  induction idxs as [| j idxs IH]; intros words Hall Hlen Hws;
    cbn [Bitset.reset_loop].
  - exists words. split; [reflexivity |]. split; [reflexivity |].
    split; [exact Hws |]. intros k _.
    rewrite (bool_decide_eq_false_2 (k ∈ [])) by (intros H; inversion H).
    symmetry. apply andb_true_r.
  - apply list.Forall_cons in Hall as [Hj Hall].
    destruct (Z.leb_spec 0 j); [| lia].
    destruct (Z.ltb_spec j NumBits); [| lia]. simpl negb. cbv iota.
    assert (Hwl : (Z.to_nat (Bitset.wordForBit LOG2 j) < length words)%nat).
    { rewrite (wordForBit_div LOG2 HLOG2).
      assert (j / BPW < Z.of_nat (length words))
        by (apply Z.div_lt_upper_bound; lia).
      assert (0 <= j / BPW) by (apply Z.div_pos; lia). lia. }
    destruct (lookup_lt_is_Some_2 _ _ Hwl) as [w Hw]. rewrite Hw.
    destruct (IH (<[Z.to_nat (Bitset.wordForBit LOG2 j) :=
                      Z.land w (Bitset.castW LOG2
                                  (Z.lnot (Bitset.maskForBit LOG2 j)))]>
                    words) Hall)
      as (words' & E & Hl & Hws' & Hfr).
    { rewrite length_insert. exact Hlen. }
    { apply list.Forall_insert; [exact Hws |].
      apply is_word_land; [| apply (castW_is_word LOG2 HLOG2)].
      rewrite list.Forall_lookup in Hws. exact (Hws _ _ Hw). }
    exists words'. split; [exact E |].
    split; [rewrite Hl; apply length_insert |].
    split; [exact Hws' |].
    intros k Hk. rewrite (Hfr k Hk).
    destruct (Z.eq_dec k j) as [-> | Hne].
    + rewrite (test_reset_same words j w ltac:(lia) Hw).
      rewrite (bool_decide_eq_true_2 (j ∈ j :: idxs))
        by apply list_elem_of_here.
      simpl. symmetry. apply andb_false_r.
    + rewrite (test_reset_one LOG2 HLOG2 words j k w ltac:(lia) Hk Hne Hw).
      f_equal. f_equal. apply bool_decide_ext.
      rewrite elem_of_cons. tauto.
Qed.

(** [Bitset::reset(indexes, n)] clears the bits [indexes[0..n)] and leaves
    every other bit as it is; with one of these indexes outside
    [0 <= j < NumBits] its assertion fails. *)
Theorem Bitset_reset_clears_the_listed_bits bits indexes n :
  state bits -> 0 <= n <= Z.of_nat (length indexes) ->
  let listed := take (Z.to_nat n) indexes in
  (Forall (fun j => 0 <= j < NumBits) listed ->
   exists bits',
     Bitset.reset_n LOG2 NumBits bits indexes n = Ok tt bits' /\
     state bits' /\
     (forall k, 0 <= k ->
        test bits' k = test bits k && negb (bool_decide (k ∈ listed)))) /\
  (~ Forall (fun j => 0 <= j < NumBits) listed ->
   Bitset.reset_n LOG2 NumBits bits indexes n = AssertFail).
Proof.
  intros Hst Hn listed. pose proof (BPW_pos LOG2 HLOG2) as HB.
  pose proof Hst as [Hlen Hws].
  assert (Hcap : NumBits <= Z.of_nat (length bits) * BPW).
  { rewrite Hlen, (NUM_WORDS_div LOG2 HLOG2 NumBits HNumBits).
    pose proof (Z.div_mod NumBits BPW ltac:(lia)) as Hdm.
    pose proof (Z.mod_pos_bound NumBits BPW HB) as Hr.
    destruct (Z.eqb_spec (NumBits mod BPW) 0); nia. }
  unfold Bitset.reset_n, Bitset.reset.
  destruct (Z.ltb_spec 0 NumBits); [| lia].
  destruct (Z.leb_spec 0 n); [| lia]. simpl negb. cbv iota.
  destruct (Z.ltb_spec (Z.of_nat (length indexes)) n); [lia |].
  fold listed. split.
  - intros Hall.
    destruct (reset_loop_clears listed bits Hall Hcap Hws)
      as (bits' & E & Hl & Hws' & Hfr).
    exists bits'. split; [exact E |].
    split; [split; [rewrite Hl; exact Hlen | exact Hws'] | exact Hfr].
  - intros Hbad. clear Hn. revert bits Hst Hlen Hws Hcap.
    induction listed as [| j rest IH]; intros bits Hst Hlen Hws Hcap.
    + exfalso. apply Hbad. constructor.
    + simpl.
      destruct (Z.leb_spec 0 j); [| reflexivity].
      destruct (Z.ltb_spec j NumBits); [| reflexivity]. simpl negb. cbv iota.
      destruct (word_in_range bits j Hst ltac:(lia)) as [Hq Hlt].
      rewrite (wordForBit_div LOG2 HLOG2).
      destruct (lookup_lt_is_Some_2 _ _ Hlt) as [w Hw]. rewrite Hw.
      assert (Hst' : state (<[Z.to_nat (j / BPW) :=
                      Z.land w (Bitset.castW LOG2
                                  (Z.lnot (Bitset.maskForBit LOG2 j)))]>
                              bits)).
      { split; [rewrite length_insert; exact Hlen |].
        apply list.Forall_insert; [exact Hws |].
        apply is_word_land; [| apply (castW_is_word LOG2 HLOG2)].
        rewrite list.Forall_lookup in Hws. exact (Hws _ _ Hw). }
      apply IH.
      * intros Hrest. apply Hbad. constructor; [lia | exact Hrest].
      * exact Hst'.
      * rewrite length_insert. exact Hlen.
      * apply Hst'.
      * rewrite length_insert. exact Hcap.
Qed.

End BitsetMemberFacts.

Lemma Bitset_set_bit_then_test_witness :
  (~ 0 <= 9 < 11 ->
   BitsetMember.set_bit_to 3 11 [251; 2] 9 false = AssertFail /\
   BitsetMember.test_bit 3 11 [251; 2] 9 = AssertFail) /\
  (0 <= 9 < 11 ->
   exists bits',
     BitsetMember.set_bit_to 3 11 [251; 2] 9 false = Ok tt bits' /\
     bitset_state 3 11 bits' /\
     BitsetMember.test_bit 3 11 bits' 9 = Ok false bits' /\
     (forall j, 0 <= j -> j <> 9 ->
        Bitset.test 3 bits' j = Bitset.test 3 [251; 2] j)).
Proof.
  apply (Bitset_set_bit_then_test 3 ltac:(lia) 11 ltac:(lia) [251; 2] 9 false).
  split; [reflexivity |].
  repeat constructor; unfold is_word; simpl; lia.
Defined.

Lemma Bitset_reset_clears_the_listed_bits_witness :
  let listed := take (Z.to_nat 2) [9; 0; 77] in
  (Forall (fun j => 0 <= j < 11) listed ->
   exists bits',
     Bitset.reset_n 3 11 [251; 2] [9; 0; 77] 2 = Ok tt bits' /\
     bitset_state 3 11 bits' /\
     (forall k, 0 <= k ->
        Bitset.test 3 bits' k
        = Bitset.test 3 [251; 2] k && negb (bool_decide (k ∈ listed)))) /\
  (~ Forall (fun j => 0 <= j < 11) listed ->
   Bitset.reset_n 3 11 [251; 2] [9; 0; 77] 2 = AssertFail).
Proof.
  apply (Bitset_reset_clears_the_listed_bits 3 ltac:(lia) 11 ltac:(lia)
           [251; 2] [9; 0; 77] 2).
  - split; [reflexivity |].
    repeat constructor; unfold is_word; simpl; lia.
  - simpl. lia.
Defined.

(** *** [Bitset::set(indexes, k)] after [reset()], after [set()], and
    before [reset(indexes, k)] *)

Section BitsetCompose.

Variable LOG2 : Z.
Hypothesis HLOG2 : 0 <= LOG2.
Variable NumBits : Z.
Hypothesis HNumBits : 0 < NumBits.

Local Abbreviation BPW := (Bitset.BITS_PER_WORD LOG2).
Local Abbreviation test := (Bitset.test LOG2).
Local Abbreviation state := (bitset_state LOG2 NumBits).

(** What [Bitset::set(indexes, k)] does, for the proofs below. *)
Lemma set_n_spec (bits indexes : list Z) (k : Z) :
  state bits -> 1 <= k -> k <= Z.of_nat (length indexes) ->
  let zs := Bitset.zero_bits LOG2 bits NumBits in
  (Z.of_nat (length zs) < k ->
   Bitset.set_n LOG2 NumBits indexes bits k = Ok false (bits, indexes)) /\
  (k <= Z.of_nat (length zs) ->
   let chosen := take (Z.to_nat k) zs in
   exists bits',
     Bitset.set_n LOG2 NumBits indexes bits k
     = Ok true (bits', chosen ++ drop (Z.to_nat k) indexes) /\
     state bits' /\
     StronglySorted Z.lt chosen /\
     (forall i, 0 <= i ->
        Bitset.test LOG2 bits' i = true <->
        Bitset.test LOG2 bits i = true \/ In i chosen)).
Proof.
  intros Hst Hk Hix zs.
  pose proof (BPW_pos LOG2 HLOG2) as HB.
  pose proof (Z.mod_pos_bound NumBits BPW HB) as Hr.
  assert (Hq : 0 <= NumBits / BPW) by (apply Z.div_pos; lia).
  pose proof (zero_bits_split LOG2 HLOG2 NumBits HNumBits bits Hst) as Hzs. fold zs in Hzs.
  destruct (zero_bits_prefix LOG2 HLOG2 NumBits HNumBits bits Hst)
    as [rest Hrest]. fold zs in Hrest.
  pose proof Hst as [Hlen Hws]. rewrite (NUM_WORDS_div LOG2 HLOG2 NumBits HNumBits) in Hlen.
  set (q := NumBits / BPW) in *. set (r := NumBits mod BPW) in *.
  (* the first pass *)
  unfold Bitset.set_n, Bitset.set.
  destruct (Z.ltb_spec 0 NumBits); [| lia].
  destruct (Z.ltb_spec 0 k); [| lia]. cbv zeta. simpl negb. cbv iota.
  rewrite (land_BPW_mod LOG2 HLOG2), (maskForBit_pow LOG2 HLOG2).
  fold (Bitset.NUM_WORDS LOG2 NumBits). rewrite (NUM_WORDS_div LOG2 HLOG2 NumBits HNumBits).
  fold q r.
  assert (Hbound : q + (if r =? 0 then 0 else 1)
                   - (if 0 <? r then 1 else 0) = q).
  { destruct (Z.eqb_spec r 0), (Z.ltb_spec 0 r); lia. }
  rewrite Hbound.
  destruct (set_count_spec LOG2 HLOG2 bits q (Z.to_nat q)
              (S (length bits)) 0 k)
    as (i' & z' & -> & H1 & H2); try lia;
    try (destruct (r =? 0); lia).
  change (Z.to_nat 0) with O in H1, H2. rewrite drop_0 in H1, H2.
  cbv zeta in H1, H2.
  set (T := Z.of_nat (length (zeros_from LOG2 0 (take (Z.to_nat q) bits))))
    in *.
  assert (Hcount :
    exists z'',
      (if (0 <? z') && (0 <? r)
       then match bits !! Z.to_nat i' with
            | Some w =>
                Some (z' - (BPW - Bitset.populationCount LOG2
                                    (Bitset.castW LOG2
                                       (Z.lor (Z.land w (Bitset.WORD_MASK LOG2))
                                          (Bitset.castW LOG2
                                             (Z.lnot (2 ^ r - 1)))))))
            | None => None
            end
       else Some z') = Some z'' /\
      (0 < z'' <-> Z.of_nat (length zs) < k)).
  { rewrite Hzs, length_app. fold T.
    destruct (Z.ltb_spec 0 z') as [Hz' | Hz']; simpl.
    - destruct (H2 Hz') as [-> ->].
      destruct (Z.ltb_spec 0 r) as [Hr0 | Hr0].
      + assert (Hql : (Z.to_nat q < length bits)%nat).
        { destruct (Z.eqb_spec r 0); lia. }
        destruct (lookup_lt_is_Some_2 _ _ Hql) as [w Hw]. rewrite Hw.
        rewrite (zero_count_last LOG2 HLOG2 (q * BPW) w r) by lia.
        eexists. split; [reflexivity |]. lia.
      + assert (r = 0) as Hr00 by lia.
        exists (k - T). split; [reflexivity |].
        destruct (bits !! Z.to_nat q); [rewrite Hr00 |]; simpl; lia.
    - exists z'. split; [reflexivity |]. lia. }
  destruct Hcount as (z'' & -> & Hz'').
  split.
  - intros Hfew. destruct (Z.ltb_spec 0 z''); [reflexivity | lia].
  - intros Henough. set (chosen := take (Z.to_nat k) zs).
    destruct (Z.ltb_spec 0 z''); [lia |].
    destruct (set_outer_spec LOG2 HLOG2 k (length bits) (S (length bits))
                bits indexes 0 0)
      as (bits' & E & Hl' & Hw' & Hbits'); try lia; try assumption.
    { change (Z.to_nat 0) with O. rewrite drop_0, Hrest, length_app. lia. }
    change (Z.to_nat 0) with O in E, Hbits'. rewrite drop_0 in E, Hbits'.
    rewrite Z.sub_0_r, Hrest, take_app_le in E, Hbits' by lia.
    fold chosen in E, Hbits'.
    rewrite E. exists bits'.
    rewrite fill_spec by (unfold chosen; rewrite length_take; lia).
    rewrite take_0. simpl.
    replace (length chosen) with (Z.to_nat k)
      by (unfold chosen; rewrite length_take; lia).
    split; [reflexivity |].
    split.
    { split; [| exact Hw']. rewrite Hl', (NUM_WORDS_div LOG2 HLOG2 NumBits HNumBits). exact Hlen. }
    split; [| exact Hbits'].
    apply StronglySorted_take. apply filter_zseq_sorted.
Qed.


Lemma test_reset_all bits i : test (Bitset.reset_all bits) i = false.
Proof.
  rewrite (test_testbit LOG2 HLOG2). unfold Bitset.reset_all.
  rewrite list_lookup_fmap.
  destruct (bits !! Z.to_nat (i / BPW)); [apply Z.bits_0 | reflexivity].
Qed.

Lemma state_reset_all bits :
  Z.of_nat (length bits) = Bitset.NUM_WORDS LOG2 NumBits ->
  state (Bitset.reset_all bits).
Proof.
  intros Hlen. pose proof (BPW_pos LOG2 HLOG2) as HB. split.
  - unfold Bitset.reset_all. rewrite length_map. exact Hlen.
  - unfold Bitset.reset_all. apply list.Forall_fmap, list.Forall_true.
    intros ?. split; [simpl; lia |]. simpl. apply Z.pow_pos_nonneg; lia.
Qed.

Lemma zero_bits_reset_all bits :
  Bitset.zero_bits LOG2 (Bitset.reset_all bits) NumBits
  = zseq 0 (Z.to_nat NumBits).
Proof.
  unfold Bitset.zero_bits.
  generalize (zseq 0 (Z.to_nat NumBits)). intros l.
  induction l as [| x l IH]; simpl; [reflexivity |].
  rewrite test_reset_all. simpl. f_equal. exact IH.
Qed.

Lemma take_zseq lo n m : (m <= n)%nat -> take m (zseq lo n) = zseq lo m.
Proof.
  revert lo n. induction m as [| m IH]; intros lo n Hm.
  - apply take_0.
  - destruct n as [| n]; [lia |]. simpl. f_equal. apply IH. lia.
Qed.

(** After [reset()] the bitset hands out its bits from bit 0 on:
    [set(indexes, k)] returns [true] with [indexes[0..k)] equal to
    0, 1, ..., k-1 when [k <= NumBits], and [false] when [k > NumBits]. *)
Theorem Bitset_reset_then_set_hands_out_lowest bits indexes k :
  Z.of_nat (length bits) = Bitset.NUM_WORDS LOG2 NumBits ->
  1 <= k -> k <= Z.of_nat (length indexes) ->
  (k <= NumBits ->
   exists bits',
     Bitset.set_n LOG2 NumBits indexes (Bitset.reset_all bits) k
     = Ok true (bits', zseq 0 (Z.to_nat k) ++ drop (Z.to_nat k) indexes) /\
     (forall i, 0 <= i -> test bits' i = true <-> i < k)) /\
  (NumBits < k ->
   Bitset.set_n LOG2 NumBits indexes (Bitset.reset_all bits) k
   = Ok false (Bitset.reset_all bits, indexes)).
Proof.
  intros Hlen Hk Hix.
  destruct (set_n_spec (Bitset.reset_all bits) indexes k
              (state_reset_all bits Hlen) Hk Hix) as [Hfew Henough].
  cbv zeta in Hfew, Henough.
  rewrite zero_bits_reset_all, zseq_length in Hfew, Henough.
  split.
  - intros Hle. destruct (Henough ltac:(lia)) as (bits' & E & _ & _ & Hbits).
    rewrite take_zseq in E, Hbits by lia.
    exists bits'. split; [exact E |]. intros i Hi.
    rewrite (Hbits i Hi), test_reset_all, zseq_In. split.
    + intros [? | ?]; [discriminate | lia].
    + intros ?. right. lia.
  - intros Hgt. apply Hfew. lia.
Qed.

Lemma test_set_all bits i :
  0 <= i < Z.of_nat (length bits) * BPW ->
  test (BitsetMember.set_all LOG2 bits) i = true.
Proof.
  intros Hi. pose proof (BPW_pos LOG2 HLOG2) as HB.
  rewrite (test_testbit LOG2 HLOG2). unfold BitsetMember.set_all.
  rewrite list_lookup_fmap.
  assert (Hq : 0 <= i / BPW) by (apply Z.div_pos; lia).
  assert (Hlt : i / BPW < Z.of_nat (length bits))
    by (apply Z.div_lt_upper_bound; lia).
  destruct (lookup_lt_is_Some_2 bits (Z.to_nat (i / BPW)) ltac:(lia))
    as [w ->].
  simpl. rewrite (WORD_MASK_ones LOG2 HLOG2).
  apply Z.ones_spec_low. apply Z.mod_pos_bound. exact HB.
Qed.

(** After [set()] every bit is one and [set(indexes, k)] finds no zero
    bit: it returns [false] and changes nothing. *)
Theorem Bitset_set_all_then_set_refuses bits indexes k :
  Z.of_nat (length bits) = Bitset.NUM_WORDS LOG2 NumBits ->
  1 <= k -> k <= Z.of_nat (length indexes) ->
  (forall i, 0 <= i < NumBits ->
     test (BitsetMember.set_all LOG2 bits) i = true) /\
  Bitset.set_n LOG2 NumBits indexes (BitsetMember.set_all LOG2 bits) k
  = Ok false (BitsetMember.set_all LOG2 bits, indexes).
Proof.
  intros Hlen Hk Hix. pose proof (BPW_pos LOG2 HLOG2) as HB.
  assert (Hcap : NumBits <= Z.of_nat (length bits) * BPW).
  { rewrite Hlen, (NUM_WORDS_div LOG2 HLOG2 NumBits HNumBits).
    pose proof (Z.div_mod NumBits BPW ltac:(lia)) as Hdm.
    pose proof (Z.mod_pos_bound NumBits BPW HB) as Hr.
    destruct (Z.eqb_spec (NumBits mod BPW) 0); nia. }
  assert (Hones : forall i, 0 <= i < NumBits ->
            test (BitsetMember.set_all LOG2 bits) i = true).
  { intros i Hi. apply test_set_all. lia. }
  split; [exact Hones |].
  assert (Hst : state (BitsetMember.set_all LOG2 bits)).
  { split.
    - unfold BitsetMember.set_all. rewrite length_map. exact Hlen.
    - unfold BitsetMember.set_all. apply list.Forall_fmap, list.Forall_true.
      intros ?. unfold is_word, Bitset.WORD_MASK. simpl.
      assert (0 < 2 ^ BPW) by (apply Z.pow_pos_nonneg; lia). lia. }
  destruct (set_n_spec (BitsetMember.set_all LOG2 bits) indexes k Hst Hk Hix)
    as [Hfew _].
  apply Hfew. cbv zeta.
  assert (Hz : Bitset.zero_bits LOG2 (BitsetMember.set_all LOG2 bits) NumBits
               = []).
  { unfold Bitset.zero_bits.
    rewrite (List.filter_ext_in _ (fun _ => false));
      [apply filter_const_false |].
    intros i Hi. apply zseq_In in Hi. rewrite Hones by lia. reflexivity. }
  rewrite Hz. simpl. lia.
Qed.

(** Clearing the bits that were set gives the earlier state back. *)
Lemma reset_loop_undoes bits bits' chosen :
  state bits -> state bits' ->
  (forall i, In i chosen -> 0 <= i < NumBits /\ test bits i = false) ->
  (forall i, 0 <= i ->
     test bits' i = true <-> test bits i = true \/ In i chosen) ->
  Bitset.reset_loop LOG2 bits' chosen NumBits = Ok tt bits.
Proof.
  intros Hst Hst' Hchosen Hbits. pose proof (BPW_pos LOG2 HLOG2) as HB.
  pose proof Hst' as [Hlen' Hws'].
  assert (Hcap : NumBits <= Z.of_nat (length bits') * BPW).
  { rewrite Hlen', (NUM_WORDS_div LOG2 HLOG2 NumBits HNumBits).
    pose proof (Z.div_mod NumBits BPW ltac:(lia)) as Hdm.
    pose proof (Z.mod_pos_bound NumBits BPW HB) as Hr.
    destruct (Z.eqb_spec (NumBits mod BPW) 0); nia. }
  destruct (reset_loop_clears LOG2 HLOG2 NumBits HNumBits chosen bits')
    as (bits'' & -> & Hl'' & Hws'' & Hfr); try assumption.
  { apply Forall_forall. intros i Hi. apply (Hchosen i Hi). }
  f_equal. destruct Hst as [Hlen Hws].
  apply (state_ext LOG2 HLOG2); try assumption.
  { apply Nat2Z.inj. rewrite Hl'', Hlen', Hlen. reflexivity. }
  intros j Hj. rewrite (Hfr j Hj).
  destruct (bool_decide (j ∈ chosen)) eqn:Hin.
  - apply bool_decide_eq_true in Hin. apply list_elem_of_In in Hin.
    rewrite andb_false_r. symmetry. apply (Hchosen j Hin).
  - apply bool_decide_eq_false in Hin. rewrite andb_true_r.
    pose proof (Hbits j Hj) as Hiff.
    destruct (test bits' j) eqn:Hb', (test bits j) eqn:Hb; try reflexivity.
    + destruct (proj1 Hiff eq_refl) as [? | Hc]; [discriminate |].
      exfalso. apply Hin, list_elem_of_In, Hc.
    + assert (false = true) by (apply Hiff; left; reflexivity).
      discriminate.
Qed.

(** The bits handed out by [set] were zero bits of the set. *)
Lemma chosen_zero_bits bits k i :
  In i (take (Z.to_nat k) (Bitset.zero_bits LOG2 bits NumBits)) ->
  0 <= i < NumBits /\ test bits i = false.
Proof.
  intros Hi. apply list_elem_of_In in Hi.
  apply elem_of_take in Hi as (n & Hn & _).
  apply list_elem_of_lookup_2, list_elem_of_In in Hn.
  unfold Bitset.zero_bits in Hn.
  apply List.filter_In in Hn as [Hr Ht]. apply zseq_In in Hr.
  split; [lia |]. apply negb_true_iff, Ht.
Qed.

(** [reset(indexes, k)] undoes [set(indexes, k)]: the bit array is again
    what it was before the bits were handed out. *)
Theorem Bitset_set_then_reset_restores bits indexes k bits' indexes' :
  state bits -> 1 <= k -> k <= Z.of_nat (length indexes) ->
  Bitset.set_n LOG2 NumBits indexes bits k = Ok true (bits', indexes') ->
  Bitset.reset_n LOG2 NumBits bits' indexes' k = Ok tt bits.
Proof.
  intros Hst Hk Hix Hset.
  destruct (set_n_spec bits indexes k Hst Hk Hix) as [Hfew Henough].
  cbv zeta in Hfew, Henough.
  set (zs := Bitset.zero_bits LOG2 bits NumBits) in *.
  destruct (Z.lt_ge_cases (Z.of_nat (length zs)) k) as [Hlt | Hge].
  { rewrite (Hfew Hlt) in Hset. discriminate. }
  destruct (Henough ltac:(lia)) as (b' & E & Hst' & _ & Hbits).
  rewrite E in Hset. injection Hset as -> <-. clear E Hfew Henough.
  set (chosen := take (Z.to_nat k) zs) in *.
  assert (Hlc : length chosen = Z.to_nat k)
    by (unfold chosen; rewrite length_take; lia).
  unfold Bitset.reset_n, Bitset.reset.
  destruct (Z.ltb_spec 0 NumBits); [| lia].
  destruct (Z.leb_spec 0 k); [| lia]. simpl negb. cbv iota.
  rewrite length_app, length_drop, Hlc.
  destruct (Z.ltb_spec (Z.of_nat (Z.to_nat k + (length indexes - Z.to_nat k)))
              k); [lia |].
  rewrite <- Hlc at 1. rewrite take_app_length.
  apply reset_loop_undoes; try assumption.
  intros i Hi. apply (chosen_zero_bits bits k i Hi).
Qed.

End BitsetCompose.

Lemma Bitset_reset_then_set_hands_out_lowest_witness :
  (3 <= 11 ->
   exists bits',
     Bitset.set_n 3 11 [0; 0; 0; 0] (Bitset.reset_all [251; 2]) 3
     = Ok true (bits', zseq 0 (Z.to_nat 3) ++ drop (Z.to_nat 3) [0; 0; 0; 0]) /\
     (forall i, 0 <= i -> Bitset.test 3 bits' i = true <-> i < 3)) /\
  (11 < 3 ->
   Bitset.set_n 3 11 [0; 0; 0; 0] (Bitset.reset_all [251; 2]) 3
   = Ok false (Bitset.reset_all [251; 2], [0; 0; 0; 0])).
Proof.
  apply (Bitset_reset_then_set_hands_out_lowest 3 ltac:(lia) 11 ltac:(lia)
           [251; 2] [0; 0; 0; 0] 3).
  - reflexivity.
  - lia.
  - simpl. lia.
Defined.

Lemma Bitset_set_all_then_set_refuses_witness :
  (forall i, 0 <= i < 11 ->
     Bitset.test 3 (BitsetMember.set_all 3 [251; 2]) i = true) /\
  Bitset.set_n 3 11 [0; 0; 0; 0] (BitsetMember.set_all 3 [251; 2]) 2
  = Ok false (BitsetMember.set_all 3 [251; 2], [0; 0; 0; 0]).
Proof.
  apply (Bitset_set_all_then_set_refuses 3 ltac:(lia) 11 ltac:(lia)
           [251; 2] [0; 0; 0; 0] 2).
  - reflexivity.
  - lia.
  - simpl. lia.
Defined.

Lemma Bitset_set_then_reset_restores_witness :
  Bitset.reset_n 3 11 [255; 3] [2; 8; 0; 0] 2 = Ok tt [251; 2].
Proof.
  apply (Bitset_set_then_reset_restores 3 ltac:(lia) 11 ltac:(lia)
           [251; 2] [0; 0; 0; 0] 2 [255; 3] [2; 8; 0; 0]).
  - split; [reflexivity |].
    repeat constructor; unfold is_word; simpl; lia.
  - lia.
  - simpl. lia.
  - vm_compute. reflexivity.
Defined.

(** ** [populationCount] without the built-in (Bitset.cc, lines 44-106) *)

Module Freed.

(** [sFreedMagic64] and [sFreedMagic32]. *)
Definition sFreedMagic64 (i : nat) : Z :=
  nth i [0x5555555555555555; 0x3333333333333333; 0x0F0F0F0F0F0F0F0F;
         0x00FF00FF00FF00FF; 0x0000FFFF0000FFFF; 0x00000000FFFFFFFF] 0.

Definition sFreedMagic32 (i : nat) : Z :=
  nth i [0x55555555; 0x33333333; 0x0F0F0F0F; 0x00FF00FF; 0x0000FFFF] 0.

(** [x + y] on [uint32_t]. *)
Definition add32 (x y : Z) : Z := wrap32 (x + y).

(** The conversion of the result to [int]. *)
Definition cast_int (x : Z) : Z := (x + 2 ^ 31) mod 2 ^ 32 - 2 ^ 31.

(** [populationCount(uint64_t)]. *)
Definition populationCount_u64 (val : Z) : Z :=
  let v := val in
  let v := add64 (Z.land (Z.shiftr v 1) (sFreedMagic64 0))
                 (Z.land v (sFreedMagic64 0)) in
  let v := add64 (Z.land (Z.shiftr v 2) (sFreedMagic64 1))
                 (Z.land v (sFreedMagic64 1)) in
  let v := add64 (Z.land (Z.shiftr v 4) (sFreedMagic64 2))
                 (Z.land v (sFreedMagic64 2)) in
  let v := add64 (Z.land (Z.shiftr v 8) (sFreedMagic64 3))
                 (Z.land v (sFreedMagic64 3)) in
  let v := add64 (Z.land (Z.shiftr v 16) (sFreedMagic64 4))
                 (Z.land v (sFreedMagic64 4)) in
  let v := add64 (Z.land (Z.shiftr v 32) (sFreedMagic64 5))
                 (Z.land v (sFreedMagic64 5)) in
  cast_int v.

(** [populationCount(uint32_t)]. *)
Definition populationCount_u32 (val : Z) : Z :=
  let v := val in
  let v := add32 (Z.land (Z.shiftr v 1) (sFreedMagic32 0))
                 (Z.land v (sFreedMagic32 0)) in
  let v := add32 (Z.land (Z.shiftr v 2) (sFreedMagic32 1))
                 (Z.land v (sFreedMagic32 1)) in
  let v := add32 (Z.land (Z.shiftr v 4) (sFreedMagic32 2))
                 (Z.land v (sFreedMagic32 2)) in
  let v := add32 (Z.land (Z.shiftr v 8) (sFreedMagic32 3))
                 (Z.land v (sFreedMagic32 3)) in
  let v := add32 (Z.land (Z.shiftr v 16) (sFreedMagic32 4))
                 (Z.land v (sFreedMagic32 4)) in
  cast_int v.

(** [populationCount(uint16_t)]: [uint32_t v = val], four steps. *)
Definition populationCount_u16 (val : Z) : Z :=
  let v := val in
  let v := add32 (Z.land (Z.shiftr v 1) (sFreedMagic32 0))
                 (Z.land v (sFreedMagic32 0)) in
  let v := add32 (Z.land (Z.shiftr v 2) (sFreedMagic32 1))
                 (Z.land v (sFreedMagic32 1)) in
  let v := add32 (Z.land (Z.shiftr v 4) (sFreedMagic32 2))
                 (Z.land v (sFreedMagic32 2)) in
  let v := add32 (Z.land (Z.shiftr v 8) (sFreedMagic32 3))
                 (Z.land v (sFreedMagic32 3)) in
  cast_int v.

(** [populationCount(uint8_t)]: [uint32_t v = val], three steps. *)
Definition populationCount_u8 (val : Z) : Z :=
  let v := val in
  let v := add32 (Z.land (Z.shiftr v 1) (sFreedMagic32 0))
                 (Z.land v (sFreedMagic32 0)) in
  let v := add32 (Z.land (Z.shiftr v 2) (sFreedMagic32 1))
                 (Z.land v (sFreedMagic32 1)) in
  let v := add32 (Z.land (Z.shiftr v 4) (sFreedMagic32 2))
                 (Z.land v (sFreedMagic32 2)) in
  cast_int v.

End Freed.

(** *** Fields of a word *)

(** The number whose fields of [w] bits, lowest first, are [l]. *)
Fixpoint pack (w : Z) (l : list Z) : Z :=
  match l with
  | [] => 0
  | a :: rest => a + 2 ^ w * pack w rest
  end.

(** The sums of the fields, two by two. *)
Fixpoint pairsum (l : list Z) : list Z :=
  match l with
  | a :: b :: rest => (a + b) :: pairsum rest
  | _ => l
  end.

Fixpoint total (l : list Z) : Z :=
  match l with
  | [] => 0
  | a :: rest => a + total rest
  end.

(** The mask that keeps every other field of [w] bits, [m] of them. *)
Definition field_mask (w : Z) (m : nat) : Z :=
  pack (2 * w) (repeat (2 ^ w - 1) m).

(** The bits of [v] from bit [lo] on, as numbers. *)
Definition bit_list (v lo : Z) (n : nat) : list Z :=
  map (fun j => Z.b2z (Z.testbit v j)) (zseq lo n).

Lemma testbit_split lo hi n i :
  0 <= n -> 0 <= lo < 2 ^ n -> 0 <= i ->
  Z.testbit (lo + 2 ^ n * hi) i
  = if i <? n then Z.testbit lo i else Z.testbit hi (i - n).
Proof.
  intros Hn Hlo Hi.
  assert (Hp : 0 < 2 ^ n) by (apply Z.pow_pos_nonneg; lia).
  destruct (Z.ltb_spec i n) as [Hlt | Hge].
  - rewrite <- (Z.mod_pow2_bits_low (lo + 2 ^ n * hi) n i) by lia.
    f_equal. symmetry. apply Z.mod_unique with hi; lia.
  - replace i with ((i - n) + n) at 1 by lia.
    rewrite <- Z.div_pow2_bits by lia.
    f_equal. symmetry. apply Z.div_unique with lo; lia.
Qed.

Lemma land_split lo1 hi1 lo2 hi2 n :
  0 <= n -> 0 <= lo1 < 2 ^ n -> 0 <= lo2 < 2 ^ n ->
  Z.land (lo1 + 2 ^ n * hi1) (lo2 + 2 ^ n * hi2)
  = Z.land lo1 lo2 + 2 ^ n * Z.land hi1 hi2.
Proof.
  intros Hn H1 H2. apply Z.bits_inj'. intros i Hi.
  assert (H3 : 0 <= Z.land lo1 lo2 < 2 ^ n).
  { split; [apply Z.land_nonneg; lia |].
    assert (Z.land lo1 lo2 <= lo2) by (apply land_le_r; lia). lia. }
  rewrite Z.land_spec, !testbit_split by lia.
  destruct (i <? n); rewrite Z.land_spec; reflexivity.
Qed.

Lemma pack_nonneg w l :
  0 <= w -> Forall (fun x => 0 <= x) l -> 0 <= pack w l.
Proof.
  intros Hw. induction 1 as [| a l Ha _ IH]; simpl; [lia |].
  assert (0 < 2 ^ w) by (apply Z.pow_pos_nonneg; lia). nia.
Qed.

Lemma pack_bound w l :
  0 <= w -> Forall (fun x => 0 <= x < 2 ^ w) l ->
  0 <= pack w l < 2 ^ (w * Z.of_nat (length l)).
Proof.
  intros Hw. induction 1 as [| a l Ha _ IH]; simpl pack.
  - simpl. lia.
  - replace (w * Z.of_nat (length (a :: l)))
      with (w + w * Z.of_nat (length l)) by (simpl length; lia).
    rewrite Z.pow_add_r by nia.
    assert (0 < 2 ^ w) by (apply Z.pow_pos_nonneg; lia). nia.
Qed.

Lemma total_pairsum l : total (pairsum l) = total l.
Proof.
  induction l as [l IH] using (induction_ltof1 _ (@length Z)).
  destruct l as [| a [| b rest]]; simpl; try reflexivity.
  rewrite IH by (unfold ltof; simpl; lia). lia.
Qed.

Lemma pairsum_length l m :
  length l = (2 * m)%nat -> length (pairsum l) = m.
Proof.
  revert l. induction m as [| m IH]; intros l Hl.
  - destruct l; [reflexivity | simpl in Hl; lia].
  - destruct l as [| a [| b rest]]; simpl in Hl; try lia.
    simpl. f_equal. apply IH. lia.
Qed.

Lemma pairsum_bound c l m :
  length l = (2 * m)%nat -> Forall (fun x => 0 <= x <= c) l ->
  Forall (fun x => 0 <= x <= 2 * c) (pairsum l).
Proof.
  revert l. induction m as [| m IH]; intros l Hl Hall.
  - destruct l; [constructor | simpl in Hl; lia].
  - destruct l as [| a [| b rest]]; simpl in Hl; try lia.
    apply list.Forall_cons in Hall as [Ha Hall].
    apply list.Forall_cons in Hall as [Hb Hall].
    simpl. constructor; [lia |]. apply IH; [lia | exact Hall].
Qed.

(** One step of the sideways addition: the fields of [w] bits are added
    two by two into fields of [2 * w] bits. *)
Lemma sideways_step w m :
  0 < w ->
  forall l,
    length l = (2 * m)%nat -> Forall (fun x => 0 <= x < 2 ^ w) l ->
    Z.land (Z.shiftr (pack w l) w) (field_mask w m)
    + Z.land (pack w l) (field_mask w m)
    = pack (2 * w) (pairsum l).
Proof.
  intros Hw. assert (Hp : 0 < 2 ^ w) by (apply Z.pow_pos_nonneg; lia).
  induction m as [| m IH]; intros l Hl Hall.
  - destruct l; [| simpl in Hl; lia].
    unfold field_mask. cbn [pack pairsum repeat].
    rewrite Z.shiftr_0_l, Z.land_0_l. reflexivity.
  - destruct l as [| a [| b rest]]; simpl in Hl; try lia.
    apply list.Forall_cons in Hall as [Ha Hall].
    apply list.Forall_cons in Hall as [Hb Hall].
    specialize (IH rest ltac:(lia) Hall).
    assert (HP : 0 <= pack w rest).
    { apply pack_nonneg; [lia |].
      eapply Forall_impl; [| exact Hall]. simpl. intros; lia. }
    unfold field_mask in *. cbn [pack pairsum repeat].
    set (P := pack w rest) in *.
    set (M := pack (2 * w) (repeat (2 ^ w - 1) m)) in *.
    replace (2 ^ (2 * w)) with (2 ^ w * 2 ^ w)
      by (rewrite <- Z.pow_add_r by lia; f_equal; lia).

    (* the unshifted word *)
    assert (H1 : Z.land (a + 2 ^ w * (b + 2 ^ w * P))
                        (2 ^ w - 1 + 2 ^ w * 2 ^ w * M)
                 = a + 2 ^ w * 2 ^ w * Z.land P M).
    { replace (a + 2 ^ w * (b + 2 ^ w * P))
        with ((a + 2 ^ w * b) + 2 ^ (2 * w) * P)
        by (replace (2 ^ (2 * w)) with (2 ^ w * 2 ^ w)
              by (rewrite <- Z.pow_add_r by lia; f_equal; lia); ring).
      replace (2 ^ w - 1 + 2 ^ w * 2 ^ w * M)
        with ((2 ^ w - 1) + 2 ^ (2 * w) * M)
        by (replace (2 ^ (2 * w)) with (2 ^ w * 2 ^ w)
              by (rewrite <- Z.pow_add_r by lia; f_equal; lia); ring).
      assert (Hpp : 2 ^ (2 * w) = 2 ^ w * 2 ^ w)
        by (rewrite <- Z.pow_add_r by lia; f_equal; lia).
      rewrite land_split by nia.
      rewrite Hpp. f_equal.
      replace (2 ^ w - 1) with (Z.ones w) by (rewrite Z.ones_equiv; lia).
      rewrite Z.land_ones by lia.
      symmetry. apply Z.mod_unique with b; lia. }
    (* the shifted word *)
    assert (H2 : Z.land (Z.shiftr (a + 2 ^ w * (b + 2 ^ w * P)) w)
                        (2 ^ w - 1 + 2 ^ w * 2 ^ w * M)
                 = b + 2 ^ w * 2 ^ w * Z.land (Z.shiftr P w) M).
    { rewrite Z.shiftr_div_pow2 by lia.
      replace ((a + 2 ^ w * (b + 2 ^ w * P)) / 2 ^ w) with (b + 2 ^ w * P)
        by (apply Z.div_unique with a; lia).
      pose proof (Z.div_mod P (2 ^ w) ltac:(lia)) as Hdm.
      pose proof (Z.mod_pos_bound P (2 ^ w) Hp) as Hr.
      assert (Hpp : 2 ^ (2 * w) = 2 ^ w * 2 ^ w)
        by (rewrite <- Z.pow_add_r by lia; f_equal; lia).
      replace (b + 2 ^ w * P)
        with ((b + 2 ^ w * (P mod 2 ^ w)) + 2 ^ (2 * w) * (P / 2 ^ w))
        by (rewrite Hpp; nia).
      replace (2 ^ w - 1 + 2 ^ w * 2 ^ w * M)
        with ((2 ^ w - 1) + 2 ^ (2 * w) * M) by (rewrite Hpp; ring).
      rewrite land_split by nia.
      rewrite Hpp, Z.shiftr_div_pow2 by lia. f_equal.
      replace (2 ^ w - 1) with (Z.ones w) by (rewrite Z.ones_equiv; lia).
      rewrite Z.land_ones by lia.
      symmetry. apply Z.mod_unique with (P mod 2 ^ w); lia. }
    rewrite H1, H2. rewrite <- IH. ring.
Qed.

(** The step on a word of [W] bits: the sum does not wrap. *)
Lemma sideways_step_wrap W w m c l :
  0 < w -> length l = (2 * m)%nat ->
  Forall (fun x => 0 <= x <= c) l -> c < 2 ^ w -> 2 * c < 2 ^ (2 * w) ->
  2 * w * Z.of_nat m <= W ->
  (Z.land (Z.shiftr (pack w l) w) (field_mask w m)
   + Z.land (pack w l) (field_mask w m)) mod 2 ^ W
  = pack (2 * w) (pairsum l) /\
  length (pairsum l) = m /\
  Forall (fun x => 0 <= x <= 2 * c) (pairsum l) /\
  total (pairsum l) = total l.
Proof.
  intros Hw Hl Hall Hc Hc2 HW.
  assert (Hall' : Forall (fun x => 0 <= x < 2 ^ w) l).
  { eapply Forall_impl; [| exact Hall]. simpl. intros; lia. }
  pose proof (pairsum_bound c l m Hl Hall) as Hb.
  pose proof (pairsum_length l m Hl) as Hlen.
  split; [| split; [exact Hlen | split; [exact Hb | apply total_pairsum]]].
  rewrite (sideways_step w m Hw l Hl Hall').
  apply Z.mod_small.
  assert (Hb' : Forall (fun x => 0 <= x < 2 ^ (2 * w)) (pairsum l)).
  { eapply Forall_impl; [| exact Hb]. simpl. intros; lia. }
  pose proof (pack_bound (2 * w) (pairsum l) ltac:(lia) Hb') as Hpb.
  rewrite Hlen in Hpb.
  assert (2 ^ (2 * w * Z.of_nat m) <= 2 ^ W)
    by (apply Z.pow_le_mono_r; lia).
  lia.
Qed.

(** A number is the pack of its bits. *)
Lemma pack_bit_list v n :
  forall lo, 0 <= lo ->
    pack 1 (bit_list v lo n) = (v / 2 ^ lo) mod 2 ^ Z.of_nat n.
Proof.
  induction n as [| n IH]; intros lo Hlo.
  - simpl. rewrite Z.mod_1_r. reflexivity.
  - unfold bit_list in *. simpl zseq. simpl map. simpl pack.
    rewrite (IH (lo + 1)) by lia.
    replace (2 ^ Z.of_nat (S n)) with (2 * 2 ^ Z.of_nat n)
      by (rewrite Nat2Z.inj_succ, Z.pow_succ_r by lia; reflexivity).
    assert (Hp : 0 < 2 ^ Z.of_nat n) by (apply Z.pow_pos_nonneg; lia).
    rewrite Z.rem_mul_r by lia.
    rewrite Z.pow_add_r, <- Z.div_div by (try apply Z.pow_pos_nonneg; lia).
    change (2 ^ 1) with 2. f_equal.
    rewrite <- Z.bit0_mod, <- Z.shiftr_div_pow2 by lia.
    rewrite Z.shiftr_spec by lia. reflexivity.
Qed.

Lemma total_bit_list v lo n :
  total (bit_list v lo n)
  = Z.of_nat (length (List.filter (fun j => Z.testbit v j) (zseq lo n))).
Proof.
  unfold bit_list. generalize (zseq lo n). intros l.
  induction l as [| j l IH]; [reflexivity |].
  cbn [map total List.filter]. rewrite IH.
  destruct (Z.testbit v j); cbn [Z.b2z length]; lia.
Qed.

Lemma bit_list_bound v lo n :
  Forall (fun x => 0 <= x <= 1) (bit_list v lo n).
Proof.
  unfold bit_list. apply list.Forall_fmap, list.Forall_true.
  intros j. simpl. destruct (Z.testbit v j); simpl; lia.
Qed.

Lemma bit_list_length v lo n : length (bit_list v lo n) = n.
Proof. unfold bit_list. rewrite length_map. apply zseq_length. Qed.

Lemma cast_int_small x : 0 <= x < 2 ^ 31 -> Freed.cast_int x = x.
Proof. intros H. unfold Freed.cast_int. rewrite Z.mod_small; lia. Qed.

Lemma pack_one w s : pack w [s] = s.
Proof. simpl. lia. Qed.

Lemma pack_bits_of v n :
  0 <= v < 2 ^ Z.of_nat n -> pack 1 (bit_list v 0 n) = v.
Proof.
  intros Hv. rewrite pack_bit_list by lia.
  rewrite Z.pow_0_r, Z.div_1_r. apply Z.mod_small. exact Hv.
Qed.

Lemma populationCount_u64_counts val :
  0 <= val < 2 ^ 64 ->
  Freed.populationCount_u64 val = Bitset.populationCount 6 val.
Proof.
  intros Hv.
  pose proof (pack_bits_of val 64 Hv) as H0.
  pose proof (bit_list_length val 0 64) as L0.
  pose proof (bit_list_bound val 0 64) as B0.
  pose proof (total_bit_list val 0 64) as T0.
  set (l0 := bit_list val 0 64) in *.
  destruct (sideways_step_wrap 64 1 32 1 l0) as (E1 & L1 & B1 & T1);
    try assumption; try reflexivity; try lia.
  set (l1 := pairsum l0) in *.
  destruct (sideways_step_wrap 64 2 16 2 l1) as (E2 & L2 & B2 & T2);
    try assumption; try reflexivity; try lia.
  set (l2 := pairsum l1) in *.
  destruct (sideways_step_wrap 64 4 8 4 l2) as (E3 & L3 & B3 & T3);
    try assumption; try reflexivity; try lia.
  set (l3 := pairsum l2) in *.
  destruct (sideways_step_wrap 64 8 4 8 l3) as (E4 & L4 & B4 & T4);
    try assumption; try reflexivity; try lia.
  set (l4 := pairsum l3) in *.
  destruct (sideways_step_wrap 64 16 2 16 l4) as (E5 & L5 & B5 & T5);
    try assumption; try reflexivity; try lia.
  set (l5 := pairsum l4) in *.
  destruct (sideways_step_wrap 64 32 1 32 l5) as (E6 & L6 & B6 & T6);
    try assumption; try reflexivity; try lia.
  set (l6 := pairsum l5) in *.
  unfold Freed.populationCount_u64, add64, wrap64. cbv zeta.
  rewrite <- H0.
  change (Freed.sFreedMagic64 0) with (field_mask 1 32).
  change (Freed.sFreedMagic64 1) with (field_mask 2 16).
  change (Freed.sFreedMagic64 2) with (field_mask 4 8).
  change (Freed.sFreedMagic64 3) with (field_mask 8 4).
  change (Freed.sFreedMagic64 4) with (field_mask 16 2).
  change (Freed.sFreedMagic64 5) with (field_mask 32 1).
  rewrite E1. change (2 * 1) with 2.
  rewrite E2. change (2 * 2) with 4.
  rewrite E3. change (2 * 4) with 8.
  rewrite E4. change (2 * 8) with 16.
  rewrite E5. change (2 * 16) with 32.
  rewrite E6. change (2 * 32) with 64.
  destruct l6 as [| s [| ? ?]]; try discriminate L6.
  rewrite pack_one.
  apply list.Forall_cons in B6 as [Hs _].
  rewrite cast_int_small by lia.
  assert (Hs' : s = total [s]) by (simpl; lia).
  rewrite Hs', T6, T5, T4, T3, T2, T1, T0, H0.
  unfold Bitset.populationCount.
  change (Z.to_nat (Bitset.BITS_PER_WORD 6)) with 64%nat. reflexivity.
Qed.

Lemma populationCount_u32_counts val :
  0 <= val < 2 ^ 32 ->
  Freed.populationCount_u32 val = Bitset.populationCount 5 val.
Proof.
  intros Hv.
  pose proof (pack_bits_of val 32 Hv) as H0.
  pose proof (bit_list_length val 0 32) as L0.
  pose proof (bit_list_bound val 0 32) as B0.
  pose proof (total_bit_list val 0 32) as T0.
  set (l0 := bit_list val 0 32) in *.
  destruct (sideways_step_wrap 32 1 16 1 l0) as (E1 & L1 & B1 & T1);
    try assumption; try reflexivity; try lia.
  set (l1 := pairsum l0) in *.
  destruct (sideways_step_wrap 32 2 8 2 l1) as (E2 & L2 & B2 & T2);
    try assumption; try reflexivity; try lia.
  set (l2 := pairsum l1) in *.
  destruct (sideways_step_wrap 32 4 4 4 l2) as (E3 & L3 & B3 & T3);
    try assumption; try reflexivity; try lia.
  set (l3 := pairsum l2) in *.
  destruct (sideways_step_wrap 32 8 2 8 l3) as (E4 & L4 & B4 & T4);
    try assumption; try reflexivity; try lia.
  set (l4 := pairsum l3) in *.
  destruct (sideways_step_wrap 32 16 1 16 l4) as (E5 & L5 & B5 & T5);
    try assumption; try reflexivity; try lia.
  set (l5 := pairsum l4) in *.
  unfold Freed.populationCount_u32, Freed.add32, wrap32. cbv zeta.
  rewrite <- H0.
  change (Freed.sFreedMagic32 0) with (field_mask 1 16).
  change (Freed.sFreedMagic32 1) with (field_mask 2 8).
  change (Freed.sFreedMagic32 2) with (field_mask 4 4).
  change (Freed.sFreedMagic32 3) with (field_mask 8 2).
  change (Freed.sFreedMagic32 4) with (field_mask 16 1).
  rewrite E1. change (2 * 1) with 2.
  rewrite E2. change (2 * 2) with 4.
  rewrite E3. change (2 * 4) with 8.
  rewrite E4. change (2 * 8) with 16.
  rewrite E5. change (2 * 16) with 32.
  destruct l5 as [| s [| ? ?]]; try discriminate L5.
  rewrite pack_one.
  apply list.Forall_cons in B5 as [Hs _].
  rewrite cast_int_small by lia.
  assert (Hs' : s = total [s]) by (simpl; lia).
  rewrite Hs', T5, T4, T3, T2, T1, T0, H0.
  unfold Bitset.populationCount.
  change (Z.to_nat (Bitset.BITS_PER_WORD 5)) with 32%nat. reflexivity.
Qed.

Lemma pairsum_app l1 l2 m :
  length l1 = (2 * m)%nat -> pairsum (l1 ++ l2) = pairsum l1 ++ pairsum l2.
Proof.
  revert l1. induction m as [| m IH]; intros l1 Hl.
  - destruct l1; [reflexivity | simpl in Hl; lia].
  - destruct l1 as [| a [| b rest]]; simpl in Hl; try lia.
    cbn [app pairsum]. f_equal. apply IH. lia.
Qed.

(** The bits above the highest bit of a number are zero. *)
Lemma bit_list_high v n k :
  0 <= v < 2 ^ n -> 0 <= n -> bit_list v n k = repeat 0 k.
Proof.
  intros Hv Hn. unfold bit_list.
  assert (H : forall lo, n <= lo ->
            map (fun j => Z.b2z (Z.testbit v j)) (zseq lo k) = repeat 0 k).
  { induction k as [| k IH]; intros lo Hlo; [reflexivity |].
    cbn [zseq map repeat]. rewrite IH by lia. f_equal.
    rewrite <- (Z.mod_small v (2 ^ n)) by lia.
    rewrite Z.mod_pow2_bits_high by lia. reflexivity. }
  apply H. lia.
Qed.

Lemma bit_list_app v lo a b :
  bit_list v lo (a + b) = bit_list v lo a ++ bit_list v (lo + Z.of_nat a) b.
Proof. unfold bit_list. rewrite zseq_app, map_app. reflexivity. Qed.

Lemma populationCount_u16_counts val :
  0 <= val < 2 ^ 16 ->
  Freed.populationCount_u16 val = Bitset.populationCount 4 val.
Proof.
  intros Hv.
  assert (Hv32 : 0 <= val < 2 ^ Z.of_nat 32).
  { change (2 ^ Z.of_nat 32) with 4294967296.
    change (2 ^ 16) with 65536 in Hv. lia. }
  pose proof (pack_bits_of val 32 Hv32) as H0.
  pose proof (bit_list_length val 0 32) as L0.
  pose proof (bit_list_bound val 0 32) as B0.
  assert (Hsplit : bit_list val 0 32 = bit_list val 0 16 ++ repeat 0 16).
  { change 32%nat with (16 + 16)%nat. rewrite bit_list_app.
    f_equal. apply bit_list_high; [exact Hv | lia]. }
  pose proof (bit_list_length val 0 16) as LA.
  pose proof (total_bit_list val 0 16) as TA.
  set (l0 := bit_list val 0 32) in *.
  set (a0 := bit_list val 0 16) in *.
  destruct (sideways_step_wrap 32 1 16 1 l0) as (E1 & L1 & B1 & _);
    try assumption; try reflexivity; try lia.
  set (l1 := pairsum l0) in *.
  destruct (sideways_step_wrap 32 2 8 2 l1) as (E2 & L2 & B2 & _);
    try assumption; try reflexivity; try lia.
  set (l2 := pairsum l1) in *.
  destruct (sideways_step_wrap 32 4 4 4 l2) as (E3 & L3 & B3 & _);
    try assumption; try reflexivity; try lia.
  set (l3 := pairsum l2) in *.
  destruct (sideways_step_wrap 32 8 2 8 l3) as (E4 & L4 & B4 & _);
    try assumption; try reflexivity; try lia.
  set (l4 := pairsum l3) in *.
  unfold Freed.populationCount_u16, Freed.add32, wrap32. cbv zeta.
  rewrite <- H0.
  change (Freed.sFreedMagic32 0) with (field_mask 1 16).
  change (Freed.sFreedMagic32 1) with (field_mask 2 8).
  change (Freed.sFreedMagic32 2) with (field_mask 4 4).
  change (Freed.sFreedMagic32 3) with (field_mask 8 2).
  rewrite E1. change (2 * 1) with 2.
  rewrite E2. change (2 * 2) with 4.
  rewrite E3. change (2 * 4) with 8.
  rewrite E4. change (2 * 8) with 16.
  (* the fields of the upper half are zero *)
  set (a1 := pairsum a0). set (a2 := pairsum a1). set (a3 := pairsum a2).
  set (a4 := pairsum a3).
  assert (LA1 : length a1 = 8%nat) by (apply pairsum_length; exact LA).
  assert (LA2 : length a2 = 4%nat) by (apply pairsum_length; exact LA1).
  assert (LA3 : length a3 = 2%nat) by (apply pairsum_length; exact LA2).
  assert (LA4 : length a4 = 1%nat) by (apply pairsum_length; exact LA3).
  assert (Hl4 : l4 = a4 ++ [0]).
  { unfold l4, l3, l2, l1. rewrite Hsplit.
    rewrite (pairsum_app a0 _ 8) by exact LA. fold a1.
    rewrite (pairsum_app a1 _ 4) by exact LA1. fold a2.
    rewrite (pairsum_app a2 _ 2) by exact LA2. fold a3.
    rewrite (pairsum_app a3 _ 1) by exact LA3. fold a4.
    reflexivity. }
  assert (TA4 : total a4 = total a0).
  { unfold a4, a3, a2, a1. rewrite !total_pairsum. reflexivity. }
  rewrite Hl4 in B4 |- *.
  destruct a4 as [| s [| ? ?]]; try discriminate LA4.
  cbn [app pack].
  apply list.Forall_cons in B4 as [Hs _].
  replace (s + 2 ^ 16 * (0 + 2 ^ 16 * 0)) with s by lia.
  rewrite cast_int_small by lia.
  assert (Hs' : s = total [s]) by (simpl; lia).
  rewrite Hs', TA4, TA, H0.
  unfold Bitset.populationCount.
  change (Z.to_nat (Bitset.BITS_PER_WORD 4)) with 16%nat. reflexivity.
Qed.

Lemma populationCount_u8_counts val :
  0 <= val < 2 ^ 8 ->
  Freed.populationCount_u8 val = Bitset.populationCount 3 val.
Proof.
  intros Hv.
  assert (Hv32 : 0 <= val < 2 ^ Z.of_nat 32).
  { change (2 ^ Z.of_nat 32) with 4294967296.
    change (2 ^ 8) with 256 in Hv. lia. }
  pose proof (pack_bits_of val 32 Hv32) as H0.
  pose proof (bit_list_length val 0 32) as L0.
  pose proof (bit_list_bound val 0 32) as B0.
  assert (Hsplit : bit_list val 0 32 = bit_list val 0 8 ++ repeat 0 24).
  { change 32%nat with (8 + 24)%nat. rewrite bit_list_app.
    f_equal. apply bit_list_high; [exact Hv | lia]. }
  pose proof (bit_list_length val 0 8) as LA.
  pose proof (total_bit_list val 0 8) as TA.
  set (l0 := bit_list val 0 32) in *.
  set (a0 := bit_list val 0 8) in *.
  destruct (sideways_step_wrap 32 1 16 1 l0) as (E1 & L1 & B1 & _);
    try assumption; try reflexivity; try lia.
  set (l1 := pairsum l0) in *.
  destruct (sideways_step_wrap 32 2 8 2 l1) as (E2 & L2 & B2 & _);
    try assumption; try reflexivity; try lia.
  set (l2 := pairsum l1) in *.
  destruct (sideways_step_wrap 32 4 4 4 l2) as (E3 & L3 & B3 & _);
    try assumption; try reflexivity; try lia.
  set (l3 := pairsum l2) in *.
  unfold Freed.populationCount_u8, Freed.add32, wrap32. cbv zeta.
  rewrite <- H0.
  change (Freed.sFreedMagic32 0) with (field_mask 1 16).
  change (Freed.sFreedMagic32 1) with (field_mask 2 8).
  change (Freed.sFreedMagic32 2) with (field_mask 4 4).
  rewrite E1. change (2 * 1) with 2.
  rewrite E2. change (2 * 2) with 4.
  rewrite E3. change (2 * 4) with 8.
  set (a1 := pairsum a0). set (a2 := pairsum a1). set (a3 := pairsum a2).
  assert (LA1 : length a1 = 4%nat) by (apply pairsum_length; exact LA).
  assert (LA2 : length a2 = 2%nat) by (apply pairsum_length; exact LA1).
  assert (LA3 : length a3 = 1%nat) by (apply pairsum_length; exact LA2).
  assert (Hl3 : l3 = a3 ++ [0; 0; 0]).
  { unfold l3, l2, l1. rewrite Hsplit.
    rewrite (pairsum_app a0 _ 4) by exact LA. fold a1.
    rewrite (pairsum_app a1 _ 2) by exact LA1. fold a2.
    rewrite (pairsum_app a2 _ 1) by exact LA2. fold a3.
    reflexivity. }
  assert (TA3 : total a3 = total a0).
  { unfold a3, a2, a1. rewrite !total_pairsum. reflexivity. }
  rewrite Hl3 in B3 |- *.
  destruct a3 as [| s [| ? ?]]; try discriminate LA3.
  cbn [app pack].
  apply list.Forall_cons in B3 as [Hs _].
  replace (s + 2 ^ 8 * (0 + 2 ^ 8 * (0 + 2 ^ 8 * (0 + 2 ^ 8 * 0))))
    with s by lia.
  rewrite cast_int_small by lia.
  assert (Hs' : s = total [s]) by (simpl; lia).
  rewrite Hs', TA3, TA, H0.
  unfold Bitset.populationCount.
  change (Z.to_nat (Bitset.BITS_PER_WORD 3)) with 8%nat. reflexivity.
Qed.

(** The sideways addition with Freed's magic numbers returns the number of
    one bits of its argument, as the built-in population count does, for
    each of the four word types. *)
Theorem populationCount_counts_the_one_bits val :
  0 <= val < 2 ^ 64 ->
  Freed.populationCount_u64 val = Bitset.populationCount 6 val /\
  (val < 2 ^ 32 ->
   Freed.populationCount_u32 val = Bitset.populationCount 5 val) /\
  (val < 2 ^ 16 ->
   Freed.populationCount_u16 val = Bitset.populationCount 4 val) /\
  (val < 2 ^ 8 ->
   Freed.populationCount_u8 val = Bitset.populationCount 3 val).
Proof.
  intros Hv. split; [apply populationCount_u64_counts, Hv |].
  split; [intros H32; apply populationCount_u32_counts; lia |].
  split.
  - intros H16. apply populationCount_u16_counts. lia.
  - intros H8. apply populationCount_u8_counts. lia.
Qed.

Lemma populationCount_counts_the_one_bits_witness :
  Freed.populationCount_u64 187 = Bitset.populationCount 6 187 /\
  (187 < 2 ^ 32 ->
   Freed.populationCount_u32 187 = Bitset.populationCount 5 187) /\
  (187 < 2 ^ 16 ->
   Freed.populationCount_u16 187 = Bitset.populationCount 4 187) /\
  (187 < 2 ^ 8 ->
   Freed.populationCount_u8 187 = Bitset.populationCount 3 187).
Proof. apply (populationCount_counts_the_one_bits 187). lia. Defined.

(** ** [hash] for 32 bit keys (ChunkManagerImpl.cc, lines 30-39, 55) *)

Module Hash32.

(** [~x], [x << n], [x + y] and [x * y] on [uint32_t]. *)
Definition not32 (x : Z) : Z := wrap32 (Z.lnot x).
Definition shl32 (x n : Z) : Z := wrap32 (Z.shiftl x n).
Definition add32 (x y : Z) : Z := wrap32 (x + y).
Definition mul32 (x y : Z) : Z := wrap32 (x * y).

(** [hash(uint32_t key)]. *)
Definition hash_u32 (key : Z) : Z :=
  let key := add32 (not32 key) (shl32 key 15) in
  let key := Z.lxor key (Z.shiftr key 12) in
  let key := add32 key (shl32 key 2) in
  let key := Z.lxor key (Z.shiftr key 4) in
  let key := mul32 key 2057 in
  let key := Z.lxor key (Z.shiftr key 16) in
  key.

(** [hash(int32_t key)] converts and calls the unsigned version. *)
Definition hash_i32 (key : Z) : Z := hash_u32 (wrap32 key).

End Hash32.

Lemma wrap32_range z : 0 <= wrap32 z < 2 ^ 32.
Proof. apply Z.mod_pos_bound. reflexivity. Qed.

(** A step [k -> a * k + c] modulo [m], with [a] invertible, loses
    nothing. *)
Lemma affine_inj a inv c m x y :
  0 < m -> (a * inv) mod m = 1 ->
  0 <= x < m -> 0 <= y < m ->
  (a * x + c) mod m = (a * y + c) mod m -> x = y.
Proof.
  intros Hm Hinv Hx Hy Heq.
  assert (Hd : (m | a * (x - y))).
  { apply Z.mod_divide; [lia |].
    replace (a * (x - y)) with ((a * x + c) - (a * y + c)) by ring.
    rewrite Zminus_mod, Heq, Z.sub_diag. apply Z.mod_0_l. lia. }
  assert (Hi : (m | a * inv - 1)).
  { apply Z.mod_divide; [lia |].
    rewrite Zminus_mod, Hinv.
    destruct (Z.eq_dec m 1) as [-> | ?]; [apply Z.mod_1_r |].
    rewrite (Z.mod_small 1 m) by lia. rewrite Z.sub_diag.
    apply Z.mod_0_l. lia. }
  destruct Hd as [q Hq]. destruct Hi as [t Ht].
  assert (Hxy : x - y = m * (inv * q - t * (x - y))).
  { transitivity ((a * inv - (a * inv - 1)) * (x - y)); [ring |].
    rewrite Ht.
    transitivity (inv * (a * (x - y)) - t * m * (x - y)); [ring |].
    rewrite Hq. ring. }
  set (z := inv * q - t * (x - y)) in *.
  assert (z = 0) by nia. lia.
Qed.

Lemma lxor_range n a b :
  0 <= n -> 0 <= a < 2 ^ n -> 0 <= b < 2 ^ n -> 0 <= Z.lxor a b < 2 ^ n.
Proof.
  intros Hn Ha Hb.
  assert (H0 : 0 <= Z.lxor a b) by (apply Z.lxor_nonneg; lia).
  split; [exact H0 |].
  destruct (Z.eq_dec (Z.lxor a b) 0) as [-> | Hne];
    [apply Z.pow_pos_nonneg; lia |].
  apply (proj2 (Z.log2_lt_pow2 (Z.lxor a b) n ltac:(lia))).
  pose proof (Z.log2_lxor a b ltac:(lia) ltac:(lia)) as Hl.
  assert (Hpos : 0 < n).
  { destruct (Z.eq_dec n 0) as [-> | ?]; [| lia].
    change (2 ^ 0) with 1 in Ha, Hb.
    assert (a = 0) by lia. assert (b = 0) by lia. subst.
    exfalso. apply Hne. reflexivity. }
  assert (Hla : Z.log2 a < n).
  { destruct (Z.eq_dec a 0) as [-> | ?]; [exact Hpos |].
    apply (proj1 (Z.log2_lt_pow2 a n ltac:(lia))). lia. }
  assert (Hlb : Z.log2 b < n).
  { destruct (Z.eq_dec b 0) as [-> | ?]; [exact Hpos |].
    apply (proj1 (Z.log2_lt_pow2 b n ltac:(lia))). lia. }
  lia.
Qed.

Lemma xorshift_range n k x :
  0 <= n -> 0 <= k -> 0 <= x < 2 ^ n ->
  0 <= Z.lxor x (Z.shiftr x k) < 2 ^ n.
Proof.
  intros Hn Hk Hx. apply lxor_range; [exact Hn | exact Hx |].
  rewrite Z.shiftr_div_pow2 by exact Hk.
  assert (Hp : 0 < 2 ^ k) by (apply Z.pow_pos_nonneg; lia).
  split; [apply Z.div_pos; lia |].
  assert (x / 2 ^ k <= x); [| lia].
  apply Z.div_le_upper_bound; nia.
Qed.

Lemma high_bits_false n x i :
  0 <= n -> 0 <= x < 2 ^ n -> n <= i -> Z.testbit x i = false.
Proof.
  intros Hn Hx Hi. rewrite <- (Z.mod_small x (2 ^ n)) by lia.
  apply Z.mod_pow2_bits_high. lia.
Qed.

(** A step [k -> k ^ (k >> s)] loses nothing: the high bits are untouched,
    and each lower bit is found from the bits above it. *)
Lemma xorshift_inj n s x y :
  0 <= n -> 0 < s -> 0 <= x < 2 ^ n -> 0 <= y < 2 ^ n ->
  Z.lxor x (Z.shiftr x s) = Z.lxor y (Z.shiftr y s) -> x = y.
Proof.
  intros Hn Hs Hx Hy Heq. apply Z.bits_inj'.
  assert (H : forall d : nat, forall i,
            0 <= i -> n - Z.of_nat d <= i -> Z.testbit x i = Z.testbit y i).
  { induction d as [| d IH]; intros i Hi Hd.
    - rewrite (high_bits_false n x i), (high_bits_false n y i) by lia.
      reflexivity.
    - pose proof (f_equal (fun z => Z.testbit z i) Heq) as Hb.
      simpl in Hb. rewrite !Z.lxor_spec, !Z.shiftr_spec in Hb by lia.
      rewrite (IH (i + s)) in Hb by lia.
      destruct (Z.testbit x i), (Z.testbit y i), (Z.testbit y (i + s));
        simpl in Hb; congruence. }
  intros i Hi. apply (H (Z.to_nat n) i Hi). lia.
Qed.

Lemma not32_add_shl32 k s :
  0 <= k < 2 ^ 32 -> 0 <= s ->
  Hash32.add32 (Hash32.not32 k) (Hash32.shl32 k s)
  = ((2 ^ s - 1) * k + (2 ^ 32 - 1)) mod 2 ^ 32.
Proof.
  intros Hk Hs.
  unfold Hash32.add32, Hash32.not32, Hash32.shl32, wrap32.
  rewrite Z.shiftl_mul_pow2 by exact Hs.
  rewrite <- Zplus_mod. unfold Z.lnot.
  replace ((2 ^ s - 1) * k + (2 ^ 32 - 1))
    with (Z.pred (- k) + k * 2 ^ s + 1 * 2 ^ 32) by (unfold Z.pred; ring).
  rewrite Z_mod_plus_full. reflexivity.
Qed.

Lemma add32_shl32 k s :
  0 <= s ->
  Hash32.add32 k (Hash32.shl32 k s) = ((1 + 2 ^ s) * k + 0) mod 2 ^ 32.
Proof.
  intros Hs. unfold Hash32.add32, Hash32.shl32, wrap32.
  rewrite Z.shiftl_mul_pow2 by exact Hs.
  rewrite Zplus_mod_idemp_r. f_equal. ring.
Qed.

(** [hash(uint32_t)] is a permutation of the 32 bit values: it stays in
    range and no two keys have the same hash. *)
Theorem hash_u32_injective x y :
  0 <= x < 2 ^ 32 -> 0 <= y < 2 ^ 32 ->
  0 <= Hash32.hash_u32 x < 2 ^ 32 /\
  (Hash32.hash_u32 x = Hash32.hash_u32 y -> x = y).
Proof.
  intros Hx Hy. unfold Hash32.hash_u32. cbv zeta.
  set (f1 := fun k => Hash32.add32 (Hash32.not32 k) (Hash32.shl32 k 15)).
  set (f2 := fun k => Z.lxor k (Z.shiftr k 12)).
  set (f3 := fun k => Hash32.add32 k (Hash32.shl32 k 2)).
  set (f4 := fun k => Z.lxor k (Z.shiftr k 4)).
  set (f5 := fun k => Hash32.mul32 k 2057).
  set (f6 := fun k => Z.lxor k (Z.shiftr k 16)).
  change (0 <= f6 (f5 (f4 (f3 (f2 (f1 x))))) < 2 ^ 32 /\
          (f6 (f5 (f4 (f3 (f2 (f1 x))))) = f6 (f5 (f4 (f3 (f2 (f1 y)))))
           -> x = y)).
  assert (R1 : forall k, 0 <= f1 k < 2 ^ 32) by (intros; apply wrap32_range).
  assert (R2 : forall k, 0 <= k < 2 ^ 32 -> 0 <= f2 k < 2 ^ 32)
    by (intros; apply xorshift_range; lia).
  assert (R3 : forall k, 0 <= f3 k < 2 ^ 32) by (intros; apply wrap32_range).
  assert (R4 : forall k, 0 <= k < 2 ^ 32 -> 0 <= f4 k < 2 ^ 32)
    by (intros; apply xorshift_range; lia).
  assert (R5 : forall k, 0 <= f5 k < 2 ^ 32) by (intros; apply wrap32_range).
  assert (R6 : forall k, 0 <= k < 2 ^ 32 -> 0 <= f6 k < 2 ^ 32)
    by (intros; apply xorshift_range; lia).
  split; [apply R6, R5 |].
  intros H6.
  apply (xorshift_inj 32 16) in H6; try lia; try apply R5.
  assert (H5 : f4 (f3 (f2 (f1 x))) = f4 (f3 (f2 (f1 y)))).
  { apply (affine_inj 2057 3369993785 0 (2 ^ 32));
      [reflexivity | reflexivity | apply R4, R3 | apply R4, R3 |].
    unfold f5, Hash32.mul32, wrap32 in H6.
    rewrite !Z.add_0_r, !(Z.mul_comm 2057). exact H6. }
  apply (xorshift_inj 32 4) in H5; try lia; try apply R3.
  assert (H3 : f2 (f1 x) = f2 (f1 y)).
  { apply (affine_inj 5 3435973837 0 (2 ^ 32));
      [reflexivity | reflexivity | apply R2, R1 | apply R2, R1 |].
    unfold f3 in H5. rewrite !add32_shl32 in H5 by lia. exact H5. }
  apply (xorshift_inj 32 12) in H3; try lia; try apply R1.
  apply (affine_inj 32767 3221192703 (2 ^ 32 - 1) (2 ^ 32));
    [reflexivity | reflexivity | exact Hx | exact Hy |].
  unfold f1 in H3. rewrite !not32_add_shl32 in H3 by lia. exact H3.
Qed.

Lemma hash_u32_injective_witness :
  0 <= Hash32.hash_u32 7 < 2 ^ 32 /\
  (Hash32.hash_u32 7 = Hash32.hash_u32 7 -> 7 = 7).
Proof. apply (hash_u32_injective 7 7); lia. Defined.

(** ** HashedSet: what [find], [insert], [findOrInsert] and [erase] do to
    each other *)

Section HashedSetUse.

Context {E : Type} `{Entry E} `{!EntryLaws E}.
Variable NumEntries : nat.
Hypothesis HNumEntries : (0 < NumEntries)%nat.

Local Abbreviation doFind := (HashedSet.doFind NumEntries).
Local Abbreviation insert := (HashedSet.insert NumEntries).
Local Abbreviation findOrInsert := (HashedSet.findOrInsert NumEntries).
Local Abbreviation erase := (HashedSet.erase NumEntries).
Local Abbreviation wf := (wf NumEntries).

(** The entry at index [i] is in use. *)
Definition in_use (s : HashedSet.t E) (i : Z) : bool :=
  match idAt (HashedSet._entries s) i with
  | Some id => negb (id =? -1)
  | None => false
  end.

Lemma ctor_table_lookup id :
  HashedSet._hashTable (HashedSet.ctor NumEntries)
    !! Z.to_nat (HashedSet.bucket NumEntries id) = Some (-1).
Proof.
  pose proof (bucket_range NumEntries HNumEntries id) as Hb.
  unfold HashedSet.ctor. cbn [HashedSet._hashTable].
  rewrite repeat_replicate. apply lookup_replicate_2. lia.
Qed.

(** A new set holds nothing: [find] returns null for every identifier,
    [erase] returns [false] and changes nothing, and the size is 0. *)
Theorem HashedSet_new_is_empty id :
  doFind (HashedSet.ctor NumEntries) id = Some None /\
  erase (HashedSet.ctor NumEntries) id
  = Some (false, HashedSet.ctor NumEntries) /\
  HashedSet._size (HashedSet.ctor NumEntries) = 0 /\
  HashedSet.space NumEntries (HashedSet.ctor NumEntries)
  = Z.of_nat NumEntries.
Proof.
  split; [| split; [| split]].
  - unfold HashedSet.doFind. rewrite ctor_table_lookup.
    rewrite doFind_loop_eq. reflexivity.
  - unfold HashedSet.erase. cbv zeta. rewrite ctor_table_lookup.
    rewrite walk_eq. reflexivity.
  - reflexivity.
  - unfold HashedSet.space. cbn [HashedSet._size HashedSet.ctor]. lia.
Qed.

(** What the operations do to the size. *)
Lemma insert_size s id c s' :
  insert s id = Some (Some c, s') ->
  c = HashedSet._free s /\ HashedSet._size s' = HashedSet._size s + 1.
Proof.
  unfold HashedSet.insert. destruct (_ <? 0); [discriminate |]. cbv zeta.
  destruct (_ !! _) as [h |]; [| discriminate].
  destruct (HashedSet.walk _ _ _ _ _) as [[? ? | last] |]; try discriminate.
  unfold HashedSet.link_new.
  destruct (_ !! _) as [ec |]; [| discriminate]. cbv zeta.
  destruct (last <? 0).
  - intros [= <- <-]. auto.
  - destruct (_ !! _) as [el |]; [| discriminate].
    intros [= <- <-]. auto.
Qed.

Lemma erase_size s id s' :
  erase s id = Some (true, s') ->
  HashedSet._size s' = HashedSet._size s - 1.
Proof.
  unfold HashedSet.erase. cbv zeta.
  destruct (_ !! _) as [h |]; [| discriminate].
  destruct (HashedSet.walk _ _ _ _ _) as [[i last | ?] |]; try discriminate.
  destruct (_ !! _) as [ei |]; [| discriminate].
  destruct (last <? 0).
  - intros [= <-]. reflexivity.
  - destruct (_ !! _) as [el |]; [| discriminate].
    intros [= <-]. reflexivity.
Qed.

(** [find] looks at the identifiers only. *)
Lemma doFind_same_ids s s' id :
  wf s -> wf s' -> id <> -1 ->
  (forall i, 0 <= i ->
     idAt (HashedSet._entries s') i = Some id
     <-> idAt (HashedSet._entries s) i = Some id) ->
  doFind s' id = doFind s id.
Proof.
  intros Hwf Hwf' Hid Hsame.
  destruct (doFind_spec NumEntries HNumEntries s id Hwf Hid)
    as (r & -> & Hr & Hn).
  destruct (doFind_spec NumEntries HNumEntries s' id Hwf' Hid)
    as (r' & -> & Hr' & Hn').
  f_equal. destruct r as [i |].
  - apply Hr'. destruct (proj1 (Hr i) eq_refl) as [Hi Hat].
    split; [exact Hi |]. apply Hsame; assumption.
  - apply Hn'. intros i Hi Hat. apply (proj1 Hn eq_refl i Hi).
    apply Hsame; assumption.
Qed.

Lemma holds_absent s id : id <> -1 -> ~ holds s id <-> absent s id.
Proof.
  intros Hid. split.
  - intros Hno i Hi Hat. apply Hno. split; [exact Hid |]. eauto.
  - intros Ha (_ & i & Hi & Hat). exact (Ha i Hi Hat).
Qed.

(** The free list is empty exactly when the set is full. *)
Lemma full_iff s :
  wf s -> HashedSet._free s < 0 <-> HashedSet._size s = Z.of_nat NumEntries.
Proof.
  intros (fl & bl & R).
  pose proof (rep_part _ _ _ _ R) as Hp. apply Permutation_length in Hp.
  rewrite length_app, zseq_length in Hp.
  rewrite (rep_size _ _ _ _ R).
  pose proof (rep_free _ _ _ _ R) as Hc.
  split.
  - intros Hf. destruct fl as [| j fl'].
    + simpl in Hp. lia.
    + apply chain_inv_cons in Hc as (Heq & Hj & _). lia.
  - intros Hs. destruct fl as [| j fl'].
    + apply chain_inv_nil in Hc. exact Hc.
    + simpl in Hp. lia.
Qed.

(** [insert] of an identifier the set does not hold, with room left: the
    entry returned is the head of the free list, freshly constructed with
    the identifier; [find] then returns it; the size grows by one; and
    [find] of any other identifier returns what it did. *)
Theorem HashedSet_insert_then_find s id :
  wf s -> id <> -1 -> ~ holds s id ->
  HashedSet._size s <> Z.of_nat NumEntries ->
  exists c s',
    insert s id = Some (Some c, s') /\ wf s' /\
    c = HashedSet._free s /\
    HashedSet._entries s' !! Z.to_nat c
    = Some (setNextInChain (-1) (setId id construct)) /\
    doFind s' id = Some (Some c) /\
    HashedSet._size s' = HashedSet._size s + 1 /\
    (forall id', id' <> id -> id' <> -1 -> doFind s' id' = doFind s id').
Proof.
  intros Hwf Hid Hno Hroom.
  assert (Hf : 0 <= HashedSet._free s).
  { pose proof (full_iff s Hwf). lia. }
  pose proof Hwf as (fl & bl & R).
  apply (holds_absent s id Hid) in Hno.
  destruct (insert_new NumEntries HNumEntries s fl bl id R Hid Hno Hf)
    as (s' & fl' & l & E1 & _ & _ & R' & He & Hrel).
  exists (HashedSet._free s), s'.
  assert (Hwf' : wf s') by (exists fl'; eexists; exact R').
  assert (Hat : idAt (HashedSet._entries s') (HashedSet._free s) = Some id).
  { unfold idAt. rewrite He. simpl.
    rewrite getId_setNextInChain, getId_setId. reflexivity. }
  split; [exact E1 |]. split; [exact Hwf' |]. split; [reflexivity |].
  split; [exact He |]. split.
  { apply (doFind_found NumEntries HNumEntries s' _ _ _ id R' Hf Hat Hid). }
  split; [apply (insert_size s id _ s' E1) |].
  intros id' Hne Hid'. apply doFind_same_ids; try assumption.
  intros i Hi. destruct (Z.eq_dec i (HashedSet._free s)) as [-> | Hi'].
  - rewrite Hat.
    assert (Hfree : idAt (HashedSet._entries s) (HashedSet._free s)
                    = Some (-1)).
    { destruct (free_head NumEntries HNumEntries s fl bl R Hf)
        as (fl0 & ec & -> & _ & _).
      apply (rep_free_id _ _ _ _ R). apply list_elem_of_here. }
    rewrite Hfree. split; intros [= ?]; congruence.
  - rewrite (relinked_idAt _ _ i (Hrel i Hi Hi')). reflexivity.
Qed.

(** [insert] returns null and changes nothing when the set holds the
    identifier, and when it holds [NumEntries] entries; in no other
    case. *)
Theorem HashedSet_insert_refuses s id :
  wf s -> id <> -1 ->
  (holds s id \/ HashedSet._size s = Z.of_nat NumEntries ->
   insert s id = Some (None, s)) /\
  (~ holds s id -> HashedSet._size s <> Z.of_nat NumEntries ->
   exists c s', insert s id = Some (Some c, s')).
Proof.
  intros Hwf Hid. pose proof Hwf as (fl & bl & R). split.
  - intros [(_ & i & Hi & Hat) | Hfull].
    + apply (insert_present NumEntries HNumEntries s fl bl i id R Hi Hat Hid).
    + apply (insert_full NumEntries HNumEntries s id).
      apply (full_iff s Hwf), Hfull.
  - intros Hno Hroom.
    assert (Hf : 0 <= HashedSet._free s).
    { pose proof (full_iff s Hwf). lia. }
    apply (holds_absent s id Hid) in Hno.
    destruct (insert_new NumEntries HNumEntries s fl bl id R Hid Hno Hf)
      as (s' & _ & _ & E1 & _).
    eauto.
Qed.

(** [erase] of an identifier the set holds returns [true]; [find] then
    returns null; the size shrinks by one; [find] of any other identifier
    returns what it did.  [erase] of an identifier the set does not hold
    returns [false] and changes nothing. *)
Theorem HashedSet_erase_then_find s id :
  wf s ->
  (holds s id ->
   exists s',
     erase s id = Some (true, s') /\ wf s' /\
     doFind s' id = Some None /\
     HashedSet._size s' = HashedSet._size s - 1 /\
     (forall id', id' <> id -> id' <> -1 -> doFind s' id' = doFind s id')) /\
  (~ holds s id -> erase s id = Some (false, s)).
Proof.
  intros Hwf. pose proof Hwf as (fl & bl & R). split.
  - intros (Hid & i & Hi & Hat).
    destruct (erase_found NumEntries HNumEntries s fl bl i id R Hi Hat Hid)
      as (s' & l1 & l2 & ei & E1 & Hbl & R' & Hei & Hei' & Hrel).
    assert (Hwf' : wf s') by (exists (i :: fl); eexists; exact R').
    assert (Hati : idAt (HashedSet._entries s') i = Some (-1)).
    { unfold idAt. rewrite Hei'. simpl.
      rewrite getId_setNextInChain, getId_setId. reflexivity. }
    exists s'. split; [exact E1 |]. split; [exact Hwf' |]. split.
    { destruct (doFind_spec NumEntries HNumEntries s' id Hwf' Hid)
        as (r & -> & _ & Hn).
      f_equal. apply Hn. intros j Hj Hatj.
      destruct (Z.eq_dec j i) as [-> | Hne]; [congruence |].
      rewrite (relinked_idAt _ _ j (Hrel j Hj Hne)) in Hatj.
      apply Hne.
      apply (rep_id_unique NumEntries HNumEntries s fl bl j i id R);
        try assumption.
      - apply (rep_id_member NumEntries HNumEntries s fl bl j id R);
          assumption.
      - apply (rep_id_member NumEntries HNumEntries s fl bl i id R);
          assumption. }
    split; [apply (erase_size s id s' E1) |].
    intros id' Hne Hid'. apply doFind_same_ids; try assumption.
    intros j Hj. destruct (Z.eq_dec j i) as [-> | Hji].
    + rewrite Hati, Hat. split; intros [= ?]; congruence.
    + rewrite (relinked_idAt _ _ j (Hrel j Hj Hji)). reflexivity.
  - intros Hno.
    destruct (erase_spec NumEntries HNumEntries s id Hwf)
      as [[_ E1] | [Hyes _]]; [exact E1 | contradiction].
Qed.

(** [findOrInsert] is [find], followed by [insert] when [find] returned
    null; this holds in every state. *)
Theorem HashedSet_findOrInsert_is_find_then_insert (s : HashedSet.t E) id :
  findOrInsert s id
  = match doFind s id with
    | Some (Some i) => Some (Some i, false, s)
    | Some None =>
        match insert s id with
        | Some (r, s') => Some (r, true, s')
        | None => None
        end
    | None => None
    end.
Proof.
  clear HNumEntries.
  unfold HashedSet.findOrInsert, HashedSet.doFind, HashedSet.insert.
  cbv zeta.
  destruct (HashedSet._hashTable s
              !! Z.to_nat (HashedSet.bucket NumEntries id)) as [h |];
    [| reflexivity].
  rewrite (doFind_loop_walk _ _ _ h (-1)).
  destruct (HashedSet.walk (length (HashedSet._entries s))
              (HashedSet._entries s) id h (-1)) as [[i last | last] |];
    try reflexivity.
  destruct (HashedSet._free s <? 0); [reflexivity |].
  destruct (HashedSet.link_new s id (HashedSet.bucket NumEntries id) last
              (HashedSet._free s)); reflexivity.
Qed.

(** No identifier is held twice. *)
Theorem HashedSet_ids_are_unique s i j id :
  wf s -> id <> -1 -> 0 <= i -> 0 <= j ->
  idAt (HashedSet._entries s) i = Some id ->
  idAt (HashedSet._entries s) j = Some id ->
  i = j.
Proof.
  intros (fl & bl & R) Hid Hi Hj Hati Hatj.
  apply (rep_id_unique NumEntries HNumEntries s fl bl i j id R);
    try assumption.
  - apply (rep_id_member NumEntries HNumEntries s fl bl i id R); assumption.
  - apply (rep_id_member NumEntries HNumEntries s fl bl j id R); assumption.
Qed.

(** [_size] is the number of entries in use; it never exceeds the
    capacity, and the free list is empty exactly when it reaches it. *)
Theorem HashedSet_size_counts_entries_in_use s :
  wf s ->
  HashedSet._size s
  = Z.of_nat (length (List.filter (in_use s) (zseq 0 NumEntries))) /\
  0 <= HashedSet._size s <= Z.of_nat NumEntries /\
  (HashedSet._free s < 0 <-> HashedSet._size s = Z.of_nat NumEntries).
Proof.
  intros Hwf. pose proof Hwf as (fl & bl & R).
  pose proof (rep_part _ _ _ _ R) as Hp.
  assert (Hcount : List.filter (in_use s) (zseq 0 NumEntries)
                   ≡ₚ concat bl).
  { rewrite <- (filter_perm (in_use s) _ _ Hp), List.filter_app.
    assert (Hfl : List.filter (in_use s) fl = []).
    { rewrite (List.filter_ext_in _ (fun _ => false));
        [apply filter_const_false |].
      intros i Hi. apply list_elem_of_In in Hi. unfold in_use.
      rewrite (rep_free_id _ _ _ _ R i Hi). reflexivity. }
    assert (Hbl : List.filter (in_use s) (concat bl) = concat bl).
    { rewrite (List.filter_ext_in _ (fun _ => true)).
      - clear. induction (concat bl) as [| x l IH]; simpl; congruence.
      - intros i Hi. apply list_elem_of_In in Hi.
        apply elem_of_concat_inv in Hi as (b & l & Hb & Hl).
        destruct (rep_member_id _ _ _ _ R b l i Hb Hl)
          as (id & Hat & Hne & _).
        unfold in_use. rewrite Hat.
        apply negb_true_iff, Z.eqb_neq, Hne. }
    rewrite Hfl, Hbl. reflexivity. }
  split; [| split].
  - rewrite (rep_size _ _ _ _ R). f_equal. symmetry.
    apply Permutation_length, Hcount.
  - rewrite (rep_size _ _ _ _ R).
    apply Permutation_length in Hp.
    rewrite length_app, zseq_length in Hp. lia.
  - apply full_iff, Hwf.
Qed.

End HashedSetUse.

Lemma one_visit_wf : wf 2 one_visit.
Proof.
  apply (reachable_wf 2 ltac:(lia) one_visit eq_refl one_visit_reachable).
Qed.

Lemma one_visit_holds_not_9 : ~ holds one_visit 9.
Proof.
  intros (_ & i & _ & Hat). unfold idAt in Hat.
  destruct (Z.to_nat i) as [| [| n]]; simpl in Hat; discriminate.
Qed.

Lemma HashedSet_new_is_empty_witness :
  HashedSet.doFind 2 (HashedSet.ctor 2 (E:=Visit)) 7 = Some None /\
  HashedSet.erase 2 (HashedSet.ctor 2 (E:=Visit)) 7
  = Some (false, HashedSet.ctor 2) /\
  HashedSet._size (HashedSet.ctor 2 (E:=Visit)) = 0 /\
  HashedSet.space 2 (HashedSet.ctor 2 (E:=Visit)) = Z.of_nat 2.
Proof. apply (HashedSet_new_is_empty 2 ltac:(lia) 7). Defined.

Lemma HashedSet_insert_then_find_witness :
  exists c s',
    HashedSet.insert 2 one_visit 9 = Some (Some c, s') /\ wf 2 s' /\
    c = HashedSet._free one_visit /\
    HashedSet._entries s' !! Z.to_nat c
    = Some (setNextInChain (-1) (setId 9 construct)) /\
    HashedSet.doFind 2 s' 9 = Some (Some c) /\
    HashedSet._size s' = HashedSet._size one_visit + 1 /\
    (forall id', id' <> 9 -> id' <> -1 ->
       HashedSet.doFind 2 s' id' = HashedSet.doFind 2 one_visit id').
Proof.
  apply (HashedSet_insert_then_find 2 ltac:(lia) one_visit 9).
  - exact one_visit_wf.
  - lia.
  - exact one_visit_holds_not_9.
  - simpl. lia.
Defined.

Lemma HashedSet_insert_refuses_witness :
  (holds one_visit 7 \/ HashedSet._size one_visit = Z.of_nat 2 ->
   HashedSet.insert 2 one_visit 7 = Some (None, one_visit)) /\
  (~ holds one_visit 7 -> HashedSet._size one_visit <> Z.of_nat 2 ->
   exists c s', HashedSet.insert 2 one_visit 7 = Some (Some c, s')).
Proof.
  apply (HashedSet_insert_refuses 2 ltac:(lia) one_visit 7).
  - exact one_visit_wf.
  - lia.
Defined.

Lemma HashedSet_erase_then_find_witness :
  (holds one_visit 7 ->
   exists s',
     HashedSet.erase 2 one_visit 7 = Some (true, s') /\ wf 2 s' /\
     HashedSet.doFind 2 s' 7 = Some None /\
     HashedSet._size s' = HashedSet._size one_visit - 1 /\
     (forall id', id' <> 7 -> id' <> -1 ->
        HashedSet.doFind 2 s' id' = HashedSet.doFind 2 one_visit id')) /\
  (~ holds one_visit 7 ->
   HashedSet.erase 2 one_visit 7 = Some (false, one_visit)).
Proof.
  apply (HashedSet_erase_then_find 2 ltac:(lia) one_visit 7).
  exact one_visit_wf.
Defined.

Lemma HashedSet_findOrInsert_is_find_then_insert_witness :
  HashedSet.findOrInsert 2 one_visit 9
  = match HashedSet.doFind 2 one_visit 9 with
    | Some (Some i) => Some (Some i, false, one_visit)
    | Some None =>
        match HashedSet.insert 2 one_visit 9 with
        | Some (r, s') => Some (r, true, s')
        | None => None
        end
    | None => None
    end.
Proof.
  apply (HashedSet_findOrInsert_is_find_then_insert 2 ltac:(lia) one_visit 9).
Defined.

Lemma HashedSet_ids_are_unique_witness : 0 = 0.
Proof.
  apply (HashedSet_ids_are_unique 2 ltac:(lia) one_visit 0 0 7).
  - exact one_visit_wf.
  - lia.
  - lia.
  - lia.
  - reflexivity.
  - reflexivity.
Defined.

Lemma HashedSet_size_counts_entries_in_use_witness :
  HashedSet._size one_visit
  = Z.of_nat (length (List.filter (in_use one_visit) (zseq 0 2))) /\
  0 <= HashedSet._size one_visit <= Z.of_nat 2 /\
  (HashedSet._free one_visit < 0
   <-> HashedSet._size one_visit = Z.of_nat 2).
Proof.
  apply (HashedSet_size_counts_entries_in_use 2 ltac:(lia) one_visit).
  exact one_visit_wf.
Defined.

(** ** BlockAllocator: [allocate()], and [allocate] followed by [free] *)

Module BlockAllocatorOne.

Section WithTraits.

Variable T : Traits.

(** [size_t allocate()] (ChunkManagerImpl.cc, lines 262-269): the index
    array is [int i[1]]. *)
Definition allocate (a : BlockAllocator.t) : result BlockAllocator.t Z :=
  match Bitset.set_n (WORD_LOG2 T) (NUM_BLOCKS T) [0]
                     (BlockAllocator._allocator a) 1 with
  | Ok false _ => Throw bad_alloc a
  | Ok true (bits, i) =>
      match i !! 0%nat with
      | Some i0 =>
          Ok (wrap64 (BlockAllocator._offset a + i0 * BLOCK_SIZE T))
             {| BlockAllocator._allocator := bits;
                BlockAllocator._offset := BlockAllocator._offset a |}
      | None => Undef
      end
  | Throw e _ => Throw e a
  | AssertFail => AssertFail
  | Undef => Undef
  end.

End WithTraits.
End BlockAllocatorOne.

Section AllocatorUse.

Variable T : Traits.
Hypothesis HT : traits_ok T.

Local Abbreviation LOG2 := (WORD_LOG2 T).
Local Abbreviation NB := (NUM_BLOCKS T).
Local Abbreviation test := (Bitset.test (WORD_LOG2 T)).

(** The bitset of the allocator holds [NUM_WORDS] words of the word type. *)
Definition allocator_state (a : BlockAllocator.t) : Prop :=
  bitset_state LOG2 NB (BlockAllocator._allocator a).

(** The free blocks, lowest first. *)
Definition free_blocks_of (a : BlockAllocator.t) : list Z :=
  Bitset.zero_bits LOG2 (BlockAllocator._allocator a) NB.

(** The offset of the block with index [j]. *)
Definition block_offset (offset j : Z) : Z :=
  wrap64 (offset + j * BLOCK_SIZE T).

(** The pool of blocks fits in the address space. *)
Definition pool_fits : Prop := NB * BLOCK_SIZE T <= 2 ^ 64.

Lemma allocator_state_ok a : allocator_state a -> allocator_ok T a.
Proof. intros [H _]. exact H. Qed.

Lemma ctor_allocator_state offset :
  allocator_state (BlockAllocator.ctor T offset).
Proof.
  split; [apply (ctor_allocator_ok T HT) |].
  unfold BlockAllocator.ctor. simpl.
  pose proof (BPW_pos _ (word_log2_ok T HT)) as HB.
  apply Forall_forall. intros x Hx. apply repeat_spec in Hx. subst x.
  split; [lia |]. apply Z.pow_pos_nonneg; lia.
Qed.

Lemma ctor_reset_all offset :
  BlockAllocator._allocator (BlockAllocator.ctor T offset)
  = Bitset.reset_all (BlockAllocator._allocator (BlockAllocator.ctor T offset)).
Proof.
  unfold BlockAllocator.ctor, Bitset.reset_all. simpl.
  induction (Z.to_nat (Bitset.NUM_WORDS LOG2 NB)) as [| n IH]; simpl;
    [reflexivity | f_equal; exact IH].
Qed.

Lemma store_offsets_spec offset idxs :
  forall out j,
    (j + length idxs <= length out)%nat ->
    BlockAllocator.store_offsets T offset out j idxs
    = Some (take j out ++ map (block_offset offset) idxs
              ++ drop (j + length idxs) out).
Proof.
  induction idxs as [| x idxs IH]; intros out j Hj; simpl.
  - rewrite Nat.add_0_r, take_drop. reflexivity.
  - simpl in Hj. destruct (decide (j < length out)%nat) as [Hlt | ?]; [| lia].
    rewrite IH by (rewrite length_insert; lia). f_equal.
    destruct (lookup_lt_is_Some_2 out j Hlt) as [y Hy].
    rewrite (take_S_r (<[j := wrap64 (offset + x * BLOCK_SIZE T)]> out) j
               (wrap64 (offset + x * BLOCK_SIZE T)))
      by (apply list_lookup_insert_eq; exact Hlt).
    rewrite take_insert_ge by lia.
    rewrite drop_insert_lt by lia.
    rewrite <- app_assoc. simpl.
    replace (S (j + length idxs))%nat with (j + S (length idxs))%nat by lia.
    reflexivity.
Qed.

Lemma store_offsets_Some offset idxs :
  forall out j out',
    BlockAllocator.store_offsets T offset out j idxs = Some out' ->
    idxs = [] \/ (j + length idxs <= length out)%nat.
Proof.
  induction idxs as [| x idxs IH]; intros out j out' E; [left; reflexivity |].
  right. simpl in E.
  destruct (decide (j < length out)%nat) as [Hlt | ?]; [| discriminate].
  destruct (IH _ _ _ E) as [-> | Hle]; simpl; [lia |].
  rewrite length_insert in Hle. lia.
Qed.

(** What [allocate(blockOffsets, n)] does, for the proofs below. *)
Lemma allocate_spec a out n :
  allocator_state a -> 1 <= n <= MAX_BLOCKS_PER_CHUNK T ->
  n <= Z.of_nat (length out) ->
  (Z.of_nat (length (free_blocks_of a)) < n ->
   BlockAllocator.allocate T a out n = Throw bad_alloc (a, out)) /\
  (n <= Z.of_nat (length (free_blocks_of a)) ->
   exists bits',
     BlockAllocator.allocate T a out n
     = Ok tt ({| BlockAllocator._allocator := bits';
                 BlockAllocator._offset := BlockAllocator._offset a |},
              map (block_offset (BlockAllocator._offset a))
                  (take (Z.to_nat n) (free_blocks_of a))
                ++ drop (Z.to_nat n) out) /\
     bitset_state LOG2 NB bits' /\
     (forall i, 0 <= i ->
        test bits' i = true <->
        test (BlockAllocator._allocator a) i = true \/
        In i (take (Z.to_nat n) (free_blocks_of a)))).
Proof.
  intros Hst Hn Hout.
  pose proof (word_log2_ok T HT) as HL. pose proof (num_blocks_ok T HT) as HNB.
  unfold BlockAllocator.allocate.
  destruct (Z.ltb_spec n 0); [lia |].
  destruct (Z.ltb_spec (MAX_BLOCKS_PER_CHUNK T) n); [lia |].
  simpl orb. cbv iota.
  destruct (set_n_spec LOG2 HL NB HNB (BlockAllocator._allocator a)
              (repeat 0 (Z.to_nat (MAX_BLOCKS_PER_CHUNK T))) n Hst
              ltac:(lia) ltac:(rewrite repeat_length; lia))
    as [Hfew Henough].
  cbv zeta in Hfew, Henough. fold (free_blocks_of a) in Hfew, Henough.
  split.
  - intros Hlt. rewrite (Hfew Hlt). reflexivity.
  - intros Hle. destruct (Henough Hle) as (bits' & E & Hst' & _ & Hbits).
    exists bits'. rewrite E.
    assert (Hlc : length (take (Z.to_nat n) (free_blocks_of a)) = Z.to_nat n)
      by (rewrite length_take; lia).
    rewrite take_app_length' by (symmetry; exact Hlc).
    rewrite store_offsets_spec by (rewrite Hlc; simpl; lia).
    rewrite take_0, Hlc. simpl.
    split; [reflexivity |]. split; assumption.
Qed.

(** A successful [allocate] was asked for between 1 and
    [MAX_BLOCKS_PER_CHUNK] blocks, and the array had room for them. *)
Lemma allocate_Ok_inv a out n a' out' :
  allocator_state a ->
  BlockAllocator.allocate T a out n = Ok tt (a', out') ->
  1 <= n <= MAX_BLOCKS_PER_CHUNK T /\ n <= Z.of_nat (length out).
Proof.
  intros Hst E.
  pose proof (word_log2_ok T HT) as HL. pose proof (num_blocks_ok T HT) as HNB.
  unfold BlockAllocator.allocate in E.
  destruct (Z.ltb_spec n 0); [discriminate |].
  destruct (Z.ltb_spec (MAX_BLOCKS_PER_CHUNK T) n); [discriminate |].
  simpl orb in E. cbv iota in E.
  assert (Hn : 1 <= n).
  { destruct (Z.eq_dec n 0) as [-> | ?]; [| lia]. exfalso.
    unfold Bitset.set_n, Bitset.set in E.
    destruct (0 <? NB); discriminate. }
  split; [lia |].
  destruct (set_n_spec LOG2 HL NB HNB (BlockAllocator._allocator a)
              (repeat 0 (Z.to_nat (MAX_BLOCKS_PER_CHUNK T))) n Hst
              ltac:(lia) ltac:(rewrite repeat_length; lia))
    as [Hfew Henough].
  cbv zeta in Hfew, Henough. fold (free_blocks_of a) in Hfew, Henough.
  destruct (Z.lt_ge_cases (Z.of_nat (length (free_blocks_of a))) n)
    as [Hlt | Hge].
  { rewrite (Hfew Hlt) in E. discriminate. }
  destruct (Henough ltac:(lia)) as (bits' & E' & _).
  rewrite E' in E.
  assert (Hlc : length (take (Z.to_nat n) (free_blocks_of a)) = Z.to_nat n)
    by (rewrite length_take; lia).
  rewrite take_app_length' in E by (symmetry; exact Hlc).
  destruct (BlockAllocator.store_offsets T (BlockAllocator._offset a) out 0
              (take (Z.to_nat n) (free_blocks_of a))) as [o |] eqn:Es;
    [| discriminate].
  apply store_offsets_Some in Es as [Hnil | Hle].
  - rewrite Hnil in Hlc. simpl in Hlc. lia.
  - rewrite Hlc in Hle. lia.
Qed.

Lemma free_blocks_of_range a n i :
  In i (take (Z.to_nat n) (free_blocks_of a)) ->
  0 <= i < NB /\ test (BlockAllocator._allocator a) i = false.
Proof.
  apply (chosen_zero_bits LOG2 (word_log2_ok T HT) NB (num_blocks_ok T HT)).
Qed.

Lemma free_blocks_of_NoDup a n :
  NoDup (take (Z.to_nat n) (free_blocks_of a)).
Proof.
  apply NoDup_ListNoDup.
  assert (H : StronglySorted Z.lt (take (Z.to_nat n) (free_blocks_of a)))
    by apply StronglySorted_take, filter_zseq_sorted.
  induction H as [| x l Hl IH Hx]; constructor; [| exact IH].
  intros Hin. rewrite List.Forall_forall in Hx. specialize (Hx x Hin). lia.
Qed.

(** [allocate(blockOffsets, n)] with [1 <= n <= MAX_BLOCKS_PER_CHUNK] and
    room for [n] offsets: when fewer than [n] blocks are free it throws
    [std::bad_alloc] and changes nothing; otherwise it returns, the first
    [n] offsets of the array are those of the [n] free blocks of lowest
    index, the rest of the array is kept, these blocks (all distinct, all
    free before) are in use afterwards and no other block changes. *)
Theorem allocate_takes_the_lowest_free_blocks a out n :
  allocator_state a -> 1 <= n <= MAX_BLOCKS_PER_CHUNK T ->
  n <= Z.of_nat (length out) ->
  let chosen := take (Z.to_nat n) (free_blocks_of a) in
  (Z.of_nat (length (free_blocks_of a)) < n ->
   BlockAllocator.allocate T a out n = Throw bad_alloc (a, out)) /\
  (n <= Z.of_nat (length (free_blocks_of a)) ->
   exists a',
     BlockAllocator.allocate T a out n
     = Ok tt (a', map (block_offset (BlockAllocator._offset a)) chosen
                    ++ drop (Z.to_nat n) out) /\
     allocator_state a' /\
     BlockAllocator._offset a' = BlockAllocator._offset a /\
     Z.of_nat (length chosen) = n /\ NoDup chosen /\
     (forall i, In i chosen ->
        0 <= i < NB /\ test (BlockAllocator._allocator a) i = false) /\
     (forall i, 0 <= i ->
        test (BlockAllocator._allocator a') i
        = test (BlockAllocator._allocator a) i || bool_decide (i ∈ chosen))).
Proof.
  intros Hst Hn Hout chosen.
  destruct (allocate_spec a out n Hst Hn Hout) as [Hfew Henough].
  split; [exact Hfew |].
  intros Hle. destruct (Henough Hle) as (bits' & E & Hst' & Hbits).
  eexists. split; [exact E |].
  split; [exact Hst' |]. split; [reflexivity |].
  split; [unfold chosen; rewrite length_take; lia |].
  split; [apply free_blocks_of_NoDup |].
  split; [intros i Hi; apply (free_blocks_of_range a n i Hi) |].
  intros i Hi. simpl. specialize (Hbits i Hi). fold chosen in Hbits.
  destruct (bool_decide (i ∈ chosen)) eqn:Hd.
  - apply bool_decide_eq_true in Hd. rewrite orb_true_r.
    apply Hbits. right. apply list_elem_of_In, Hd.
  - apply bool_decide_eq_false in Hd. rewrite orb_false_r.
    destruct (test bits' i) eqn:Hb'.
    + destruct (proj1 Hbits eq_refl) as [Hb | Hin]; [symmetry; exact Hb |].
      exfalso. apply Hd, list_elem_of_In, Hin.
    + destruct (test (BlockAllocator._allocator a) i) eqn:Hb;
        [| reflexivity].
      apply Hbits. left. reflexivity.
Qed.

(** [allocate()]: when no block is free it throws [std::bad_alloc] and
    changes nothing; otherwise it returns the offset of the free block of
    lowest index, which is in use afterwards, and no other block changes. *)
Theorem allocate_one_takes_the_lowest_free_block a :
  allocator_state a ->
  match free_blocks_of a with
  | [] => BlockAllocatorOne.allocate T a = Throw bad_alloc a
  | j :: _ =>
      exists a',
        BlockAllocatorOne.allocate T a
        = Ok (block_offset (BlockAllocator._offset a) j) a' /\
        allocator_state a' /\
        BlockAllocator._offset a' = BlockAllocator._offset a /\
        (forall i, 0 <= i ->
           test (BlockAllocator._allocator a') i
           = test (BlockAllocator._allocator a) i || (i =? j))
  end.
Proof.
  intros Hst.
  pose proof (word_log2_ok T HT) as HL. pose proof (num_blocks_ok T HT) as HNB.
  destruct (set_n_spec LOG2 HL NB HNB (BlockAllocator._allocator a) [0] 1 Hst
              ltac:(lia) ltac:(simpl; lia)) as [Hfew Henough].
  cbv zeta in Hfew, Henough. fold (free_blocks_of a) in Hfew, Henough.
  unfold BlockAllocatorOne.allocate.
  destruct (free_blocks_of a) as [| j rest] eqn:Ez.
  - rewrite Hfew by (simpl; lia). reflexivity.
  - destruct Henough as (bits' & E & Hst' & _ & Hbits); [simpl; lia |].
    change (Z.to_nat 1) with 1%nat in E, Hbits. simpl in E, Hbits.
    rewrite E. simpl. eexists. split; [reflexivity |].
    split; [exact Hst' |]. split; [reflexivity |].
    intros i Hi. simpl. specialize (Hbits i Hi).
    destruct (Z.eqb_spec i j) as [-> | Hne].
    + rewrite orb_true_r. apply Hbits. right. left. reflexivity.
    + rewrite orb_false_r. destruct (test bits' i) eqn:Hb'.
      * destruct (proj1 Hbits eq_refl) as [Hb | [Hin | []]];
          [symmetry; exact Hb | congruence].
      * destruct (test (BlockAllocator._allocator a) i) eqn:Hb;
          [| reflexivity].
        apply Hbits. left. reflexivity.
Qed.

Lemma block_index_offset offset j :
  pool_fits -> 0 <= j < NB ->
  wrap64 (block_offset offset j - offset) = j * BLOCK_SIZE T.
Proof.
  intros Hfit Hj. pose proof (block_size_ok T HT) as HBS.
  unfold block_offset, wrap64. rewrite Zminus_mod_idemp_l.
  replace (offset + j * BLOCK_SIZE T - offset) with (j * BLOCK_SIZE T) by ring.
  apply Z.mod_small. unfold pool_fits in Hfit. nia.
Qed.

Lemma to_indexes_block_offsets offset idxs :
  pool_fits -> Forall (fun j => 0 <= j < NB) idxs ->
  BlockAllocator.to_indexes T offset (map (block_offset offset) idxs)
  = Some idxs.
Proof.
  intros Hfit Hall. pose proof (block_size_ok T HT) as HBS.
  induction Hall as [| j idxs Hj Hall IH]; simpl; [reflexivity |].
  rewrite (block_index_offset offset j Hfit Hj).
  destruct (Z.ltb_spec (j * BLOCK_SIZE T) (NB * BLOCK_SIZE T)); [| nia].
  rewrite Z.mod_mul by lia. simpl. rewrite IH, Z.div_mul by lia.
  reflexivity.
Qed.

(** [free] undoes [allocate]: when the pool of blocks fits in the address
    space (so that distinct blocks have distinct offsets), freeing the
    offsets that a successful [allocate(blockOffsets, n)] stored gives back
    the allocator as it was before the allocation. *)
Theorem allocate_then_free_restores a out n a' out' :
  allocator_state a -> pool_fits ->
  BlockAllocator.allocate T a out n = Ok tt (a', out') ->
  BlockAllocator.free T a' out' n = Ok tt a.
Proof.
  intros Hst Hfit E.
  pose proof (word_log2_ok T HT) as HL. pose proof (num_blocks_ok T HT) as HNB.
  destruct (allocate_Ok_inv a out n a' out' Hst E) as [Hn Hout].
  destruct (allocate_spec a out n Hst Hn Hout) as [Hfew Henough].
  destruct (Z.lt_ge_cases (Z.of_nat (length (free_blocks_of a))) n)
    as [Hlt | Hge].
  { rewrite (Hfew Hlt) in E. discriminate. }
  destruct (Henough ltac:(lia)) as (bits' & E' & Hst' & Hbits).
  rewrite E' in E. injection E as <- <-. clear E' Hfew Henough.
  set (chosen := take (Z.to_nat n) (free_blocks_of a)) in *.
  assert (Hlc : length chosen = Z.to_nat n)
    by (unfold chosen; rewrite length_take; lia).
  unfold BlockAllocator.free. simpl.
  destruct (Z.leb_spec 0 n); [| lia].
  destruct (Z.leb_spec n (MAX_BLOCKS_PER_CHUNK T)); [| lia].
  simpl negb. cbv iota.
  rewrite length_app, length_map, length_drop, Hlc.
  destruct (Z.ltb_spec (Z.of_nat (Z.to_nat n + (length out - Z.to_nat n))) n);
    [lia |].
  rewrite take_app_length' by (rewrite length_map; symmetry; exact Hlc).
  rewrite to_indexes_block_offsets; [| exact Hfit |].
  2: { apply Forall_forall. intros i Hi.
       apply (free_blocks_of_range a n i Hi). }
  unfold Bitset.reset_n, Bitset.reset.
  destruct (Z.ltb_spec 0 NB); [| lia]. simpl negb. cbv iota.
  destruct (Z.leb_spec 0 n); [| lia]. simpl negb. cbv iota.
  destruct (Z.ltb_spec (Z.of_nat (length chosen)) n); [lia |].
  rewrite take_ge by lia.
  rewrite (reset_loop_undoes LOG2 HL NB HNB (BlockAllocator._allocator a)
             bits' chosen Hst Hst'
             (fun i Hi => free_blocks_of_range a n i Hi) Hbits).
  destruct a. reflexivity.
Qed.

(** [free] accepts exactly the blocks of its pool: with [n] offsets in the
    array, it returns when [0 <= n <= MAX_BLOCKS_PER_CHUNK] and each of the
    first [n] offsets is that of a block of the pool, and fails an assertion
    otherwise.  It never throws. *)
Theorem free_accepts_exactly_pool_blocks a blocks n :
  allocator_ok T a -> n <= Z.of_nat (length blocks) ->
  (blocks_ok T (BlockAllocator._offset a) blocks n ->
   exists a', BlockAllocator.free T a blocks n = Ok tt a') /\
  (~ blocks_ok T (BlockAllocator._offset a) blocks n ->
   BlockAllocator.free T a blocks n = AssertFail) /\
  (forall e s, BlockAllocator.free T a blocks n <> Throw e s).
Proof.
  intros Ha Hlen.
  assert (Hdec : blocks_ok T (BlockAllocator._offset a) blocks n \/
                 BlockAllocator.free T a blocks n = AssertFail).
  { unfold BlockAllocator.free.
    destruct (Z.leb_spec 0 n); [| right; reflexivity].
    destruct (Z.leb_spec n (MAX_BLOCKS_PER_CHUNK T)); [| right; reflexivity].
    simpl negb. cbv iota.
    destruct (Z.ltb_spec (Z.of_nat (length blocks)) n); [lia |].
    assert (Hall : Forall (fun b =>
               wrap64 (b - BlockAllocator._offset a) < NB * BLOCK_SIZE T /\
               wrap64 (b - BlockAllocator._offset a) mod BLOCK_SIZE T = 0)
              (take (Z.to_nat n) blocks) \/
            BlockAllocator.to_indexes T (BlockAllocator._offset a)
              (take (Z.to_nat n) blocks) = None).
    { induction (take (Z.to_nat n) blocks) as [| b l IH]; simpl.
      - left. constructor.
      - destruct (Z.ltb_spec (wrap64 (b - BlockAllocator._offset a))
                    (NB * BLOCK_SIZE T)); [| right; reflexivity].
        destruct (Z.eqb_spec
                    (wrap64 (b - BlockAllocator._offset a) mod BLOCK_SIZE T)
                    0); [| right; reflexivity].
        simpl. destruct IH as [IH | ->]; [| right; reflexivity].
        left. constructor; [split; assumption | exact IH]. }
    destruct Hall as [Hall | ->]; [| right; reflexivity].
    left. split; [lia |]. split; [lia | exact Hall]. }
  split; [| split].
  - intros Hok. destruct (free_spec T HT a blocks n Ha Hok) as (a' & E & _).
    exists a'. exact E.
  - intros Hno. destruct Hdec as [Hok | E]; [contradiction | exact E].
  - intros e s E. destruct Hdec as [Hok | E']; [| congruence].
    destruct (free_spec T HT a blocks n Ha Hok) as (a' & E' & _). congruence.
Qed.

(** A double free goes unnoticed: freeing the same blocks a second time
    returns as well and leaves the allocator as the first [free] left it. *)
Theorem free_twice_is_free_once a blocks n a' :
  allocator_state a ->
  BlockAllocator.free T a blocks n = Ok tt a' ->
  BlockAllocator.free T a' blocks n = Ok tt a'.
Proof.
  intros Hst E.
  pose proof (word_log2_ok T HT) as HL. pose proof (num_blocks_ok T HT) as HNB.
  pose proof (BPW_pos _ HL) as HB.
  destruct Hst as [Hlen Hws].
  assert (Hcap : NB <= Z.of_nat (length (BlockAllocator._allocator a))
                       * Bitset.BITS_PER_WORD LOG2).
  { rewrite Hlen, (NUM_WORDS_div LOG2 HL NB HNB).
    pose proof (Z.div_mod NB (Bitset.BITS_PER_WORD LOG2) ltac:(lia)) as Hdm.
    pose proof (Z.mod_pos_bound NB (Bitset.BITS_PER_WORD LOG2) HB) as Hr.
    destruct (Z.eqb_spec (NB mod Bitset.BITS_PER_WORD LOG2) 0); nia. }
  unfold BlockAllocator.free in E |- *.
  destruct (negb ((0 <=? n) && (n <=? MAX_BLOCKS_PER_CHUNK T)));
    [discriminate |].
  destruct (Z.of_nat (length blocks) <? n); [discriminate |].
  destruct (BlockAllocator.to_indexes T (BlockAllocator._offset a)
              (take (Z.to_nat n) blocks)) as [idxs |] eqn:Ei;
    [| discriminate].
  destruct (Bitset.reset_n LOG2 NB (BlockAllocator._allocator a) idxs n)
    as [[] bits' | | |] eqn:Er; try discriminate.
  injection E as <-. simpl. rewrite Ei.
  unfold Bitset.reset_n, Bitset.reset in Er |- *.
  destruct (negb (0 <? NB)); [discriminate |].
  destruct (negb (0 <=? n)); [discriminate |].
  destruct (Z.of_nat (length idxs) <? n); [discriminate |].
  set (l := take (Z.to_nat n) idxs) in *.
  assert (Hall : Forall (fun j => 0 <= j < NB) l).
  { clear -Er. revert Er. generalize (BlockAllocator._allocator a).
    induction l as [| j l IH]; intros words Er; [constructor |].
    cbn [Bitset.reset_loop] in Er.
    destruct (Z.leb_spec 0 j); [| discriminate].
    destruct (Z.ltb_spec j NB); [| discriminate].
    simpl negb in Er. cbv iota in Er.
    destruct (words !! Z.to_nat (Bitset.wordForBit LOG2 j)); [| discriminate].
    constructor; [lia | apply (IH _ Er)]. }
  destruct (reset_loop_clears LOG2 HL NB HNB l (BlockAllocator._allocator a)
              Hall Hcap Hws) as (w1 & E1 & Hl1 & Hw1 & Hb1).
  rewrite E1 in Er. injection Er as <-.
  destruct (reset_loop_clears LOG2 HL NB HNB l w1 Hall
              ltac:(rewrite Hl1; exact Hcap) Hw1)
    as (w2 & E2 & Hl2 & Hw2 & Hb2).
  rewrite E2. do 2 f_equal.
  apply (state_ext LOG2 HL); try assumption.
  intros j Hj. rewrite (Hb2 j Hj), (Hb1 j Hj).
  destruct (test (BlockAllocator._allocator a) j),
    (bool_decide (j ∈ l)); reflexivity.
Qed.

(** A new allocator hands out its blocks from the first one on: the first
    [allocate(blockOffsets, n)] stores the offsets of blocks 0, 1, ...,
    n-1, that is [offset + j * BLOCK_SIZE], when the pool has [n] blocks,
    and throws [std::bad_alloc] when it has fewer. *)
Theorem new_allocator_allocates_from_the_start offset out n :
  1 <= n <= MAX_BLOCKS_PER_CHUNK T -> n <= Z.of_nat (length out) ->
  (n <= NB ->
   exists a',
     BlockAllocator.allocate T (BlockAllocator.ctor T offset) out n
     = Ok tt (a', map (block_offset offset) (zseq 0 (Z.to_nat n))
                    ++ drop (Z.to_nat n) out) /\
     (forall i, 0 <= i ->
        test (BlockAllocator._allocator a') i = true <-> i < n)) /\
  (NB < n ->
   BlockAllocator.allocate T (BlockAllocator.ctor T offset) out n
   = Throw bad_alloc (BlockAllocator.ctor T offset, out)).
Proof.
  intros Hn Hout.
  pose proof (word_log2_ok T HT) as HL. pose proof (num_blocks_ok T HT) as HNB.
  destruct (allocate_spec (BlockAllocator.ctor T offset) out n
              (ctor_allocator_state offset) Hn Hout) as [Hfew Henough].
  assert (Hz : free_blocks_of (BlockAllocator.ctor T offset)
               = zseq 0 (Z.to_nat NB)).
  { unfold free_blocks_of. rewrite ctor_reset_all.
    apply (zero_bits_reset_all LOG2 HL NB HNB). }
  rewrite Hz, zseq_length in Hfew, Henough.
  split.
  - intros Hle. destruct (Henough ltac:(lia)) as (bits' & E & _ & Hbits).
    rewrite take_zseq in E, Hbits by lia.
    eexists. split; [exact E |]. intros i Hi. simpl.
    rewrite (Hbits i Hi), ctor_reset_all,
      (test_reset_all LOG2 HL), zseq_In.
    split.
    + intros [? | ?]; [discriminate | lia].
    + intros ?. right. lia.
  - intros Hgt. apply Hfew. lia.
Qed.

End AllocatorUse.

Lemma small_traits_ok : traits_ok small_traits.
Proof.
  constructor; simpl; try lia. exists 1. split; [lia | reflexivity].
Qed.

(** An allocator of [small_traits] with blocks 0 and 2 in use. *)
Definition small_allocator : BlockAllocator.t := BlockAllocator.mk [5] 1000.

Lemma small_allocator_state used :
  0 <= used < 256 ->
  allocator_state small_traits (BlockAllocator.mk [used] 1000).
Proof.
  intros H. split; [reflexivity |].
  constructor; [| constructor].
  change (0 <= used < 256). exact H.
Qed.

Lemma allocate_takes_the_lowest_free_blocks_witness :
  let a := small_allocator in
  let out := [0; 0; 0; 0] in
  let chosen := take (Z.to_nat 2) (free_blocks_of small_traits a) in
  (Z.of_nat (length (free_blocks_of small_traits a)) < 2 ->
   BlockAllocator.allocate small_traits a out 2 = Throw bad_alloc (a, out)) /\
  (2 <= Z.of_nat (length (free_blocks_of small_traits a)) ->
   exists a',
     BlockAllocator.allocate small_traits a out 2
     = Ok tt (a', map (block_offset small_traits (BlockAllocator._offset a))
                      chosen
                    ++ drop (Z.to_nat 2) out) /\
     allocator_state small_traits a' /\
     BlockAllocator._offset a' = BlockAllocator._offset a /\
     Z.of_nat (length chosen) = 2 /\ NoDup chosen /\
     (forall i, In i chosen ->
        0 <= i < NUM_BLOCKS small_traits /\
        Bitset.test (WORD_LOG2 small_traits) (BlockAllocator._allocator a) i
        = false) /\
     (forall i, 0 <= i ->
        Bitset.test (WORD_LOG2 small_traits) (BlockAllocator._allocator a') i
        = Bitset.test (WORD_LOG2 small_traits) (BlockAllocator._allocator a) i
          || bool_decide (i ∈ chosen))).
Proof.
  apply (allocate_takes_the_lowest_free_blocks small_traits small_traits_ok
           small_allocator [0; 0; 0; 0] 2).
  - apply small_allocator_state. lia.
  - simpl. lia.
  - simpl. lia.
Defined.

Lemma allocate_one_takes_the_lowest_free_block_witness :
  match free_blocks_of small_traits small_allocator with
  | [] =>
      BlockAllocatorOne.allocate small_traits small_allocator
      = Throw bad_alloc small_allocator
  | j :: _ =>
      exists a',
        BlockAllocatorOne.allocate small_traits small_allocator
        = Ok (block_offset small_traits
                (BlockAllocator._offset small_allocator) j) a' /\
        allocator_state small_traits a' /\
        BlockAllocator._offset a' = BlockAllocator._offset small_allocator /\
        (forall i, 0 <= i ->
           Bitset.test (WORD_LOG2 small_traits)
             (BlockAllocator._allocator a') i
           = Bitset.test (WORD_LOG2 small_traits)
               (BlockAllocator._allocator small_allocator) i
             || (i =? j))
  end.
Proof.
  apply (allocate_one_takes_the_lowest_free_block small_traits
           small_traits_ok small_allocator).
  apply small_allocator_state. lia.
Defined.

Lemma allocate_then_free_restores_witness :
  BlockAllocator.free small_traits (BlockAllocator.mk [15] 1000)
                      [1016; 1048; 0; 0] 2
  = Ok tt small_allocator.
Proof.
  apply (allocate_then_free_restores small_traits small_traits_ok
           small_allocator [0; 0; 0; 0] 2).
  - apply small_allocator_state. lia.
  - unfold pool_fits. simpl. lia.
  - vm_compute. reflexivity.
Defined.

Lemma free_accepts_exactly_pool_blocks_witness :
  let a := BlockAllocator.mk [15] 1000 in
  let blocks := [1016; 1048; 0; 0] in
  (blocks_ok small_traits (BlockAllocator._offset a) blocks 2 ->
   exists a', BlockAllocator.free small_traits a blocks 2 = Ok tt a') /\
  (~ blocks_ok small_traits (BlockAllocator._offset a) blocks 2 ->
   BlockAllocator.free small_traits a blocks 2 = AssertFail) /\
  (forall e s, BlockAllocator.free small_traits a blocks 2 <> Throw e s).
Proof.
  apply (free_accepts_exactly_pool_blocks small_traits small_traits_ok
           (BlockAllocator.mk [15] 1000) [1016; 1048; 0; 0] 2).
  - reflexivity.
  - simpl. lia.
Defined.

Lemma free_twice_is_free_once_witness :
  BlockAllocator.free small_traits small_allocator [1016; 1048; 0; 0] 2
  = Ok tt small_allocator.
Proof.
  apply (free_twice_is_free_once small_traits small_traits_ok
           (BlockAllocator.mk [15] 1000) [1016; 1048; 0; 0] 2
           small_allocator).
  - apply small_allocator_state. lia.
  - vm_compute. reflexivity.
Defined.

Lemma new_allocator_allocates_from_the_start_witness :
  (2 <= NUM_BLOCKS small_traits ->
   exists a',
     BlockAllocator.allocate small_traits
       (BlockAllocator.ctor small_traits 1000) [0; 0; 0; 0] 2
     = Ok tt (a', map (block_offset small_traits 1000) (zseq 0 (Z.to_nat 2))
                    ++ drop (Z.to_nat 2) [0; 0; 0; 0]) /\
     (forall i, 0 <= i ->
        Bitset.test (WORD_LOG2 small_traits)
          (BlockAllocator._allocator a') i = true <-> i < 2)) /\
  (NUM_BLOCKS small_traits < 2 ->
   BlockAllocator.allocate small_traits
     (BlockAllocator.ctor small_traits 1000) [0; 0; 0; 0] 2
   = Throw bad_alloc (BlockAllocator.ctor small_traits 1000, [0; 0; 0; 0])).
Proof.
  apply (new_allocator_allocates_from_the_start small_traits small_traits_ok
           1000 [0; 0; 0; 0] 2).
  - simpl. lia.
  - simpl. lia.
Defined.

(** ** The chunk manager: registering, failing and ending a visit *)

Section VisitCalls.

Variable T : Traits.
Hypothesis HT : traits_ok T.
Variable commit_region rollback_region : Z * Z * Z -> Z * Z * Z.

Local Hint Extern 0 (Entry ChunkDescriptor) =>
  exact (ChunkDescriptor_Entry T) : typeclass_instances.

Local Abbreviation NV := (MAX_VISITS_IN_FLIGHT T).
Local Abbreviation isValid := (SubManager.isValid T).
Local Abbreviation isVisitInFlight := (ChunkManager.isVisitInFlight T).
Local Abbreviation registerVisit := (ChunkManager.registerVisit T).
Local Abbreviation failVisit := (ChunkManager.failVisit T).
Local Abbreviation endVisit :=
  (ChunkManager.endVisit T commit_region rollback_region).
Local Abbreviation visits_of m := (ChunkManager._visits m).
Local Abbreviation data_of m := (ChunkManager._data m).

(** [isValid] gives the same answer on trackers with the same valid
    visits. *)
Lemma isValid_ext tr tr' w :
  tracker_ok T tr -> tracker_ok T tr' ->
  (valid_in tr' w <-> valid_in tr w) ->
  isValid tr' w = isValid tr w.
Proof.
  intros Htr Htr' Hiff.
  destruct (isValid_total T HT tr w Htr) as [b Hb].
  destruct (isValid_total T HT tr' w Htr') as [b' Hb'].
  rewrite Hb, Hb'. f_equal.
  destruct b, b'; try reflexivity.
  - apply (isValid_true T HT tr w Htr), Hiff in Hb.
    apply (isValid_true T HT tr' w Htr') in Hb. congruence.
  - apply (isValid_true T HT tr' w Htr'), Hiff in Hb'.
    apply (isValid_true T HT tr w Htr) in Hb'. congruence.
Qed.

Lemma not_held_not_valid tr v :
  tracker_ok T tr -> ~ holds tr v -> isValid tr v = Some false.
Proof.
  intros Htr Hno. apply (isValid_false T HT tr v Htr).
  intros Hv. apply Hno, valid_in_holds, Hv.
Qed.

(** [registerVisit] of a visit that is being tracked (failed or not) throws
    [InvalidParameter], and of a new visit with the tracker full
    [LengthError], with the manager unchanged; otherwise it returns, the
    visit is in flight afterwards, the other visits are as before and no
    chunk is touched. *)
Theorem registerVisit_puts_the_visit_in_flight m v :
  m_ok T m -> v <> -1 ->
  (holds (visits_of m) v -> registerVisit m v = Throw InvalidParameter m) /\
  (~ holds (visits_of m) v -> HashedSet.space NV (visits_of m) = 0 ->
   registerVisit m v = Throw LengthError m) /\
  (~ holds (visits_of m) v -> HashedSet.space NV (visits_of m) <> 0 ->
   exists m',
     registerVisit m v = Ok tt m' /\
     m_ok T m' /\
     isVisitInFlight m' v = Some true /\
     (forall w, w <> v -> isVisitInFlight m' w = isVisitInFlight m w) /\
     data_of m' = data_of m /\
     HashedSet.space NV (visits_of m')
     = HashedSet.space NV (visits_of m) - 1).
Proof.
  intros Hm Hv. pose proof Hm as [Htr Hs].
  pose proof (max_visits_ok T HT) as HNV.
  pose proof Htr as (fl & bl & R).
  unfold ChunkManager.registerVisit. split; [| split].
  - intros (_ & i & Hi & Hat).
    rewrite (doFind_found NV HNV _ fl bl i v R Hi Hat Hv). reflexivity.
  - intros Hno Hsp. apply (holds_absent _ _ Hv) in Hno.
    destruct (doFind_spec NV HNV _ v Htr Hv) as (r & -> & _ & Hr).
    rewrite (proj2 Hr Hno), Hsp. reflexivity.
  - intros Hno Hsp. apply (holds_absent _ _ Hv) in Hno.
    destruct (doFind_spec NV HNV _ v Htr Hv) as (r & -> & _ & Hr).
    rewrite (proj2 Hr Hno).
    destruct (Z.eqb_spec (HashedSet.space NV (visits_of m)) 0); [lia |].
    assert (Hfree : 0 <= HashedSet._free (visits_of m)).
    { destruct (Z.lt_ge_cases (HashedSet._free (visits_of m)) 0) as [Hlt | ?];
        [| lia].
      apply (full_iff NV HNV _ Htr) in Hlt.
      unfold HashedSet.space in Hsp. lia. }
    destruct (insert_new NV HNV _ fl bl v R Hv Hno Hfree)
      as (tr' & fl' & l & E & Hfl & _ & R' & Hnew & Hrest).
    rewrite E.
    assert (Htr' : tracker_ok T tr') by (eexists _, _; exact R').
    assert (Hm' : m_ok T {| ChunkManager._visits := tr';
                            ChunkManager._data := data_of m;
                            ChunkManager.notifications :=
                              ChunkManager.notifications m |})
      by (split; assumption).
    eexists. split; [reflexivity |]. split; [exact Hm' |].
    split; [| split; [| split; [reflexivity |]]].
    + unfold ChunkManager.isVisitInFlight. simpl.
      apply (isValid_true T HT tr' v Htr'). split; [exact Hv |].
      eexists _, _. split; [exact Hfree |]. split; [exact Hnew |].
      split; reflexivity.
    + intros w Hw. unfold ChunkManager.isVisitInFlight. simpl.
      apply (isValid_ext _ _ w Htr Htr').
      assert (Hfid : idAt (HashedSet._entries (visits_of m))
                          (HashedSet._free (visits_of m)) = Some (-1)).
      { apply (rep_free_id _ _ _ _ R). rewrite Hfl. left. }
      unfold valid_in. split.
      * intros (Hw1 & i & x & Hi & Hx & Hid & Hf). split; [exact Hw1 |].
        destruct (Z.eq_dec i (HashedSet._free (visits_of m))) as [-> | Hne].
        { rewrite Hnew in Hx. injection Hx as <-. simpl in Hid. congruence. }
        destruct (Hrest i Hi Hne) as [Heq | (e0 & nx & He & He2)].
        { exists i, x. rewrite <- Heq. auto. }
        rewrite Hx in He2. injection He2 as ->.
        exists i, e0. simpl in Hid, Hf. auto.
      * intros (Hw1 & i & x & Hi & Hx & Hid & Hf). split; [exact Hw1 |].
        destruct (Z.eq_dec i (HashedSet._free (visits_of m))) as [-> | Hne].
        { unfold idAt in Hfid. rewrite Hx in Hfid. simpl in Hfid.
          injection Hfid as Hfid. change (v_id x = -1) in Hfid. congruence. }
        destruct (Hrest i Hi Hne) as [Heq | (e0 & nx & He & He2)].
        { exists i, x. rewrite Heq. auto. }
        rewrite Hx in He. injection He as <-.
        eexists i, _. split; [exact Hi |]. split; [exact He2 |].
        simpl. auto.
    + simpl. unfold HashedSet.space.
      destruct (insert_size NV HNV _ v _ _ E) as [_ ->]. lia.
Qed.

(** [failVisit] returns; afterwards the visit is not in flight, while it is
    still being tracked if it was; the other visits are as before, no chunk
    is touched, and for a visit that is not being tracked nothing changes
    at all. *)
Theorem failVisit_fails_only_that_visit m v :
  m_ok T m ->
  exists m',
    failVisit m v = Some m' /\
    m_ok T m' /\
    isVisitInFlight m' v = Some false /\
    (forall w, w <> v -> isVisitInFlight m' w = isVisitInFlight m w) /\
    (forall w, holds (visits_of m') w <-> holds (visits_of m) w) /\
    data_of m' = data_of m /\
    (~ holds (visits_of m) v -> m' = m).
Proof.
  intros Hm. pose proof Hm as [Htr Hs].
  pose proof (max_visits_ok T HT) as HNV.
  pose proof Htr as (fl & bl & R).
  assert (Hsame :
            ChunkManager.failVisit T m v = Some m ->
            ~ holds (visits_of m) v ->
            exists m',
              failVisit m v = Some m' /\
              m_ok T m' /\
              isVisitInFlight m' v = Some false /\
              (forall w, w <> v ->
                 isVisitInFlight m' w = isVisitInFlight m w) /\
              (forall w, holds (visits_of m') w <-> holds (visits_of m) w) /\
              data_of m' = data_of m /\
              (~ holds (visits_of m) v -> m' = m)).
  { intros E Hno. exists m. split; [exact E |]. split; [exact Hm |].
    split; [apply (not_held_not_valid _ _ Htr Hno) |].
    split; [intros; reflexivity |]. split; [intros; reflexivity |].
    split; [reflexivity |]. intros; reflexivity. }
  destruct (Z.eq_dec v (-1)) as [-> | Hv].
  { apply Hsame; [| intros [? _]; congruence].
    unfold ChunkManager.failVisit.
    rewrite (doFind_members_absent NV HNV _ fl bl (-1) R
               (minus_one_members NV HNV _ fl bl R)).
    reflexivity. }
  destruct (doFind_spec NV HNV _ v Htr Hv) as (r & Ef & Hr & Hn).
  destruct r as [i |].
  2: { apply Hsame.
       - unfold ChunkManager.failVisit. rewrite Ef. reflexivity.
       - apply (holds_absent _ _ Hv), Hn. reflexivity. }
  clear Hsame.
  destruct (proj1 (Hr i) eq_refl) as [Hi Hat].
  unfold idAt in Hat.
  destruct (HashedSet._entries (visits_of m) !! Z.to_nat i) as [x |] eqn:Hx;
    [| discriminate].
  simpl in Hat. injection Hat as Hat. change (v_id x = v) in Hat.
  destruct (ChunkManager.failVisit T m v) as [m' |] eqn:E.
  2: { unfold ChunkManager.failVisit in E. rewrite Ef, Hx in E.
       discriminate. }
  pose proof (failVisit_ok T HT m v m' Hm E) as Hm'.
  unfold ChunkManager.failVisit in E. rewrite Ef, Hx in E.
  injection E as <-. destruct Hm' as [Htr' Hs'].
  exists {| ChunkManager._visits :=
              {| HashedSet._hashTable := HashedSet._hashTable (visits_of m);
                 HashedSet._entries :=
                   <[Z.to_nat i := setFailed x]>
                     (HashedSet._entries (visits_of m));
                 HashedSet._free := HashedSet._free (visits_of m);
                 HashedSet._size := HashedSet._size (visits_of m) |};
            ChunkManager._data := data_of m;
            ChunkManager.notifications := ChunkManager.notifications m |}.
  split; [reflexivity |]. split; [split; assumption |].
  assert (Hlt : (Z.to_nat i < length (HashedSet._entries (visits_of m)))%nat)
    by (apply lookup_lt_Some in Hx; exact Hx).
  assert (Hentry : forall j, 0 <= j ->
            <[Z.to_nat i := setFailed x]> (HashedSet._entries (visits_of m))
              !! Z.to_nat j
            = if decide (j = i) then Some (setFailed x)
              else HashedSet._entries (visits_of m) !! Z.to_nat j).
  { intros j Hj. destruct (decide (j = i)) as [-> | Hne].
    - apply list_lookup_insert_eq. exact Hlt.
    - apply list_lookup_insert_ne. lia. }
  assert (Hids : forall j, 0 <= j ->
            idAt (<[Z.to_nat i := setFailed x]>
                    (HashedSet._entries (visits_of m))) j
            = idAt (HashedSet._entries (visits_of m)) j).
  { intros j Hj. unfold idAt. rewrite (Hentry j Hj).
    destruct (decide (j = i)) as [-> | Hne]; [| reflexivity].
    rewrite Hx. reflexivity. }
  split; [| split; [| split; [| split; [reflexivity |]]]].
  - unfold ChunkManager.isVisitInFlight. simpl.
    apply (isValid_false T HT _ v Htr').
    intros (_ & j & y & Hj & Hy & Hid & Hf). simpl in Hy.
    rewrite (Hentry j Hj) in Hy.
    destruct (decide (j = i)) as [-> | Hne].
    + injection Hy as <-. simpl in Hf. discriminate.
    + apply Hne.
      apply (rep_id_unique NV HNV _ fl bl j i v R).
      * apply (rep_id_member NV HNV _ fl bl j v R Hj); [| exact Hv].
        unfold idAt. rewrite Hy. simpl. f_equal. exact Hid.
      * apply (rep_id_member NV HNV _ fl bl i v R Hi); [| exact Hv].
        unfold idAt. rewrite Hx. simpl. f_equal. exact Hat.
      * unfold idAt. rewrite Hy. simpl. f_equal. exact Hid.
      * unfold idAt. rewrite Hx. simpl. f_equal. exact Hat.
  - intros w Hw. unfold ChunkManager.isVisitInFlight. simpl.
    apply (isValid_ext _ _ w Htr Htr'). unfold valid_in. simpl. split.
    + intros (Hw1 & j & y & Hj & Hy & Hid & Hf). split; [exact Hw1 |].
      rewrite (Hentry j Hj) in Hy.
      destruct (decide (j = i)) as [-> | Hne].
      * injection Hy as <-. simpl in Hid. congruence.
      * exists j, y. auto.
    + intros (Hw1 & j & y & Hj & Hy & Hid & Hf). split; [exact Hw1 |].
      exists j, y. rewrite (Hentry j Hj).
      destruct (decide (j = i)) as [-> | Hne]; [| auto].
      rewrite Hx in Hy. injection Hy as <-. congruence.
  - intros w. unfold holds. simpl. split.
    + intros (Hw1 & j & Hj & Hid). split; [exact Hw1 |].
      exists j. rewrite <- (Hids j Hj). auto.
    + intros (Hw1 & j & Hj & Hid). split; [exact Hw1 |].
      exists j. rewrite (Hids j Hj). auto.
  - intros Hno. exfalso. apply Hno. split; [exact Hv |].
    exists i. split; [exact Hi |]. unfold idAt. rewrite Hx. simpl.
    f_equal. exact Hat.
Qed.

(** Once [endVisit] has returned, the visit is not in flight, a second
    [endVisit] of it returns [false] and changes nothing, the status of the
    other visits is as before, and, if the visit was being tracked, no chunk
    is owned by it any more. *)
Theorem endVisit_ends_the_visit m v rollback b m' :
  m_ok T m -> endVisit m v rollback = Ok b m' ->
  m_ok T m' /\
  isVisitInFlight m' v = Some false /\
  (forall rollback', endVisit m' v rollback' = Ok false m') /\
  (forall w, w <> v -> isVisitInFlight m' w = isVisitInFlight m w) /\
  (holds (visits_of m) v ->
   forall j d, 0 <= j -> entry (data_of m') j = Some d -> ~ owned_by v d).
Proof.
  intros Hm E. pose proof Hm as [Htr Hs].
  pose proof (max_visits_ok T HT) as HNV.
  pose proof (endVisit_ok T HT commit_region rollback_region m v rollback b m'
                Hm E) as Hm'.
  split; [exact Hm' |].
  assert (Hagain : forall m1, m_ok T m1 -> ~ holds (visits_of m1) v ->
            forall rb, endVisit m1 v rb = Ok false m1).
  { intros m1 [Htr1 _] Hno rb. unfold ChunkManager.endVisit.
    rewrite (not_held_not_valid _ _ Htr1 Hno).
    destruct (erase_spec NV HNV (visits_of m1) v Htr1)
      as [[_ ->] | [Hyes _]]; [reflexivity | contradiction]. }
  unfold ChunkManager.endVisit in E.
  destruct (isValid_total T HT _ v Htr) as [valid Hvalid].
  rewrite Hvalid in E.
  destruct (erase_spec NV HNV (visits_of m) v Htr)
    as [[Hno He] | (Hyes & tr' & He & Htr' & Hgone)]; rewrite He in E.
  - injection E as <- <-.
    split; [apply (not_held_not_valid _ _ Htr Hno) |].
    split; [apply (Hagain m Hm Hno) |].
    split; [reflexivity | intros Hyes; contradiction].
  - destruct (relinquishOwnership_spec T HT commit_region rollback_region
                (data_of m) v (rollback || negb valid) tr' Hs Htr')
      as (change & evs & s' & Er & Hs' & _ & Hother & Hmine & _).
    rewrite Er in E. injection E as <- <-.
    split; [simpl; apply (not_held_not_valid _ _ Htr' Hgone) |].
    split; [apply (Hagain _ Hm'); exact Hgone |].
    split.
    + intros w Hw. unfold ChunkManager.isVisitInFlight. simpl.
      apply (isValid_ext _ _ w Htr Htr').
      apply (erase_valid_in T HT _ v tr' Htr He). exact Hw.
    + intros _ j d' Hj Hd'. simpl in Hd'.
      pose proof (entry_range T HT s' j d' Hs' Hj Hd') as Hjr.
      destruct (entry_exists T HT (data_of m) j Hs ltac:(lia)) as [dj Hdj].
      destruct (owned_by_dec v dj) as [Hown | Hnot].
      * destruct (Hmine j dj Hj Hdj Hown) as (q' & r & Hsucc & Hr).
        destruct r as [w |].
        -- destruct Hr as (d1 & Hd1 & Hsf).
           rewrite Hd' in Hd1. injection Hd1 as <-.
           destruct Hsucc as (_ & dropped & _ & _ & Hw).
           apply same_fields_proj in Hsf as (_ & Hvis & _).
           destruct (finish_proj commit_region rollback_region
                       (rollback || negb valid) w q' dj) as (_ & Hfw & _).
           intros [_ Hown']. apply Hgone.
           apply valid_in_holds. congruence.
        -- destruct Hr as (d1 & Hd1 & Hfree).
           rewrite Hd' in Hd1. injection Hd1 as <-.
           intros [Hid _]. contradiction.
      * destruct (Hother j dj Hj Hdj) as (d1 & Hd1 & Hsf).
        { intros [? ?]. destruct Hnot; contradiction. }
        rewrite Hd' in Hd1. injection Hd1 as <-.
        intros Hown. apply (owned_by_same_fields v dj d' Hsf) in Hown.
        destruct Hown as [? ?]. destruct Hnot; contradiction.
Qed.

End VisitCalls.

Lemma demo_calls_ok :
  Forall call_ok [RegisterVisit 1; RegisterVisit 2; StartVisit 1 [100];
                  StartVisit 2 [100; 200]].
Proof.
  repeat (constructor; try (simpl; lia)).
Qed.

(** Visit 1 is in flight. *)
Definition one_registered : ChunkManager.t := demo_run [RegisterVisit 1].

(** Visits 1 and 2 are in flight, visit 1 owns chunk 100. *)
Definition first_started : ChunkManager.t :=
  demo_run [RegisterVisit 1; RegisterVisit 2; StartVisit 1 [100]].

(** [first_started] once visit 1 has ended. *)
Definition first_ended : ChunkManager.t :=
  Eval vm_compute in
    match ChunkManager.endVisit demo_traits demo_commit demo_rollback
            first_started 1 false with
    | Ok _ m => m
    | _ => first_started
    end.

Lemma one_registered_ok : m_ok demo_traits one_registered.
Proof.
  apply demo_run_ok. pose proof demo_calls_ok as H.
  apply list.Forall_cons in H as [H1 _]. constructor; [exact H1 | constructor].
Qed.

Lemma first_started_ok : m_ok demo_traits first_started.
Proof.
  apply demo_run_ok. pose proof demo_calls_ok as H.
  apply list.Forall_cons in H as [H1 H].
  apply list.Forall_cons in H as [H2 H].
  apply list.Forall_cons in H as [H3 _].
  repeat (constructor; try assumption).
Qed.

Lemma registerVisit_puts_the_visit_in_flight_witness :
  let m := ChunkManager.ctor demo_traits 4096 in
  (holds (ChunkManager._visits m) 1 ->
   ChunkManager.registerVisit demo_traits m 1 = Throw InvalidParameter m) /\
  (~ holds (ChunkManager._visits m) 1 ->
   HashedSet.space (MAX_VISITS_IN_FLIGHT demo_traits)
     (ChunkManager._visits m) = 0 ->
   ChunkManager.registerVisit demo_traits m 1 = Throw LengthError m) /\
  (~ holds (ChunkManager._visits m) 1 ->
   HashedSet.space (MAX_VISITS_IN_FLIGHT demo_traits)
     (ChunkManager._visits m) <> 0 ->
   exists m',
     ChunkManager.registerVisit demo_traits m 1 = Ok tt m' /\
     m_ok demo_traits m' /\
     ChunkManager.isVisitInFlight demo_traits m' 1 = Some true /\
     (forall w, w <> 1 ->
        ChunkManager.isVisitInFlight demo_traits m' w
        = ChunkManager.isVisitInFlight demo_traits m w) /\
     ChunkManager._data m' = ChunkManager._data m /\
     HashedSet.space (MAX_VISITS_IN_FLIGHT demo_traits)
       (ChunkManager._visits m')
     = HashedSet.space (MAX_VISITS_IN_FLIGHT demo_traits)
         (ChunkManager._visits m) - 1).
Proof.
  apply (registerVisit_puts_the_visit_in_flight demo_traits demo_traits_ok
           (ChunkManager.ctor demo_traits 4096) 1).
  - apply ctor_m_ok, demo_traits_ok.
  - lia.
Defined.

Lemma failVisit_fails_only_that_visit_witness :
  exists m',
    ChunkManager.failVisit demo_traits one_registered 1 = Some m' /\
    m_ok demo_traits m' /\
    ChunkManager.isVisitInFlight demo_traits m' 1 = Some false /\
    (forall w, w <> 1 ->
       ChunkManager.isVisitInFlight demo_traits m' w
       = ChunkManager.isVisitInFlight demo_traits one_registered w) /\
    (forall w, holds (ChunkManager._visits m') w
               <-> holds (ChunkManager._visits one_registered) w) /\
    ChunkManager._data m' = ChunkManager._data one_registered /\
    (~ holds (ChunkManager._visits one_registered) 1 -> m' = one_registered).
Proof.
  apply (failVisit_fails_only_that_visit demo_traits demo_traits_ok
           one_registered 1).
  exact one_registered_ok.
Defined.

Lemma endVisit_ends_the_visit_witness :
  m_ok demo_traits first_ended /\
  ChunkManager.isVisitInFlight demo_traits first_ended 1 = Some false /\
  (forall rollback',
     ChunkManager.endVisit demo_traits demo_commit demo_rollback
       first_ended 1 rollback' = Ok false first_ended) /\
  (forall w, w <> 1 ->
     ChunkManager.isVisitInFlight demo_traits first_ended w
     = ChunkManager.isVisitInFlight demo_traits first_started w) /\
  (holds (ChunkManager._visits first_started) 1 ->
   forall j d, 0 <= j ->
     entry (ChunkManager._data first_ended) j = Some d -> ~ owned_by 1 d).
Proof.
  apply (endVisit_ends_the_visit demo_traits demo_traits_ok demo_commit
           demo_rollback first_started 1 false true first_ended).
  - exact first_started_ok.
  - vm_compute. reflexivity.
Defined.

(** ** The chunk manager: [startVisit] and [getChunks] *)

Section StartVisit.

Variable T : Traits.
Hypothesis HT : traits_ok T.

Local Hint Extern 0 (Entry ChunkDescriptor) =>
  exact (ChunkDescriptor_Entry T) : typeclass_instances.

Local Abbreviation NC := (MAX_CHUNKS T).
Local Abbreviation CAP := (INTERESTED_PARTIES_CAPACITY T).
Local Abbreviation startVisit := (ChunkManager.startVisit T).
Local Abbreviation getChunks := (ChunkManager.getChunks T).
Local Abbreviation createOrRegisterInterest :=
  (SubManager.createOrRegisterInterest T).
Local Abbreviation visits_of m := (ChunkManager._visits m).
Local Abbreviation data_of m := (ChunkManager._data m).
Local Abbreviation chunks_of s := (SubManager._chunks s).
Local Abbreviation space s := (HashedSet.space NC (SubManager._chunks s)).

(** Every chunk of [s] is a chunk of [s'], at the same place, with the same
    owner and the same flag, and with the visits that waited for it still
    waiting. *)
Definition chunks_kept (s s' : SubManager.t) : Prop :=
  forall j d, 0 <= j -> entry s j = Some d -> _chunkId d <> -1 ->
    exists d',
      entry s' j = Some d' /\ _chunkId d' = _chunkId d /\
      _visitId d' = _visitId d /\ _usable d' = _usable d /\
      (forall x, x ∈ queue T d -> x ∈ queue T d').

Lemma chunks_kept_refl s : chunks_kept s s.
Proof. intros j d Hj Hd Hid. exists d. auto. Qed.

Lemma chunks_kept_trans s1 s2 s3 :
  chunks_kept s1 s2 -> chunks_kept s2 s3 -> chunks_kept s1 s3.
Proof.
  intros H12 H23 j d Hj Hd Hid.
  destruct (H12 j d Hj Hd Hid) as (d2 & Hd2 & E1 & E2 & E3 & Hq).
  destruct (H23 j d2 Hj Hd2 ltac:(congruence))
    as (d3 & Hd3 & F1 & F2 & F3 & Hq').
  exists d3. repeat split; try congruence. auto.
Qed.

(** One turn of the loop of [createOrRegisterInterest]. *)
Lemma createOrRegisterInterest_step s r w v i rest :
  sm_ok T s -> i <> -1 ->
  (exists c d,
     0 <= c /\ entry s c = Some d /\ _chunkId d = i /\
     Fifo._size (_interestedParties d) = CAP /\
     createOrRegisterInterest s r w v (i :: rest)
     = Throw LengthError (s, r, w)) \/
  (absent (chunks_of s) i /\ space s = 0 /\
   createOrRegisterInterest s r w v (i :: rest)
   = Throw bad_alloc (s, r, w)) \/
  (exists s1 c d1,
     sm_ok T s1 /\
     SubManager._allocator s1 = SubManager._allocator s /\
     0 <= c /\ entry s1 c = Some d1 /\ _chunkId d1 = i /\
     chunks_kept s s1 /\
     ((absent (chunks_of s) i /\ _visitId d1 = v /\ _usable d1 = false /\
       space s1 = space s - 1 /\
       createOrRegisterInterest s r w v (i :: rest)
       = createOrRegisterInterest s1 (r ++ [c]) w v rest) \/
      (exists d,
         entry s c = Some d /\ _chunkId d = i /\
         queue T d1 = queue T d ++ [v] /\
         space s1 = space s /\
         createOrRegisterInterest s r w v (i :: rest)
         = createOrRegisterInterest s1 r (w ++ [c]) v rest))).
Proof.
  intros Hs Hi. pose proof (max_chunks_ok T HT) as HNC.
  destruct s as [chunks alloc]. pose proof Hs as (Hwf & Ha & Hall).
  simpl in Hwf, Ha, Hall. destruct Hwf as (fl & bl & R).
  cbn [SubManager.createOrRegisterInterest SubManager._chunks
       SubManager._allocator].
  destruct (present_or_absent chunks i) as [(c & Hc & Hat) | Habs].
  - (* an existing descriptor *)
    rewrite (findOrInsert_found NC HNC chunks fl bl c i R Hc Hat Hi).
    cbv iota beta.
    set (s0 := {| SubManager._chunks := chunks;
                  SubManager._allocator := alloc |}) in *.
    rewrite (descriptor_entry s0 c Hc).
    assert (Hd : exists d, entry s0 c = Some d /\ _chunkId d = i).
    { unfold idAt in Hat. unfold entry. simpl.
      destruct (HashedSet._entries chunks !! Z.to_nat c) as [d |];
        [| discriminate].
      exists d. split; [reflexivity |]. simpl in Hat. congruence. }
    destruct Hd as (d & Hd & Hdi). rewrite Hd.
    destruct (sm_ok_entry T HT s0 c d Hs Hd) as [Hqd Hbd].
    destruct (Z.eq_dec (Fifo._size (_interestedParties d)) CAP)
      as [Hfull | Hroom].
    + left. exists c, d.
      rewrite (enqueue_full CAP (capacity_ok T HT) _ v Hfull). auto.
    + right. right.
      destruct (enqueue_ok CAP (capacity_ok T HT) _ v Hqd)
        as (q & Hq & Hokq & Hcq).
      { destruct Hqd as (_ & _ & ? & _). lia. }
      rewrite Hq.
      exists (SubManager.set_descriptor s0 c (with_interestedParties q d)),
        c, (with_interestedParties q d).
      split.
      { apply (set_descriptor_ok T HT s0 c d); try assumption;
          try (destruct d; reflexivity).
        split; [| destruct d; exact Hbd]. destruct d; exact Hokq. }
      split; [reflexivity |]. split; [exact Hc |].
      split; [apply (set_descriptor_entry s0 c d _ Hd) |].
      split; [destruct d; exact Hdi |].
      split.
      { intros j dj Hj Hdj Hid.
        destruct (Z.eq_dec j c) as [-> | Hne].
        - rewrite Hd in Hdj. injection Hdj as <-.
          exists (with_interestedParties q d).
          split; [apply (set_descriptor_entry s0 c d _ Hd) |].
          repeat split; try (destruct d; reflexivity).
          intros x Hx. unfold queue in *. simpl. rewrite Hcq.
          apply elem_of_app. left. exact Hx.
        - exists dj. rewrite (set_descriptor_other s0 c j _ Hc Hj Hne).
          auto. }
      right. exists d. split; [exact Hd |]. split; [exact Hdi |].
      split; [unfold queue; simpl; exact Hcq |].
      split; reflexivity.
  - destruct (Z.lt_ge_cases (HashedSet._free chunks) 0) as [Hfull | Hfree].
    + (* no descriptor left *)
      right. left.
      rewrite (findOrInsert_full NC HNC chunks fl bl i R Hi Habs Hfull).
      split; [exact Habs |]. split; [| reflexivity].
      apply (full_iff NC HNC chunks (ex_intro _ fl (ex_intro _ bl R)))
        in Hfull.
      unfold HashedSet.space. lia.
    + (* a new descriptor *)
      right. right.
      destruct (findOrInsert_new NC HNC chunks fl bl i R Hi Habs Hfree)
        as (c' & fl' & l & -> & Hfl & Hl & R' & He & Hrel).
      cbv iota beta.
      set (s0 := {| SubManager._chunks := c';
                    SubManager._allocator := alloc |}).
      assert (Hs0 : sm_ok T s0).
      { split; [eexists _, _; exact R' |]. split; [exact Ha |]. simpl.
        apply list.Forall_lookup. intros k e Hk.
        destruct (decide (k = Z.to_nat (HashedSet._free chunks)))
          as [-> | Hne].
        - rewrite He in Hk. injection Hk as <-.
          apply (descriptor_ok_fields T HT _ construct); try reflexivity.
          apply (construct_ok T HT).
        - pose proof (Hrel (Z.of_nat k) ltac:(lia) ltac:(lia)) as Hr.
          rewrite Nat2Z.id, Hk in Hr.
          rewrite list.Forall_lookup in Hall.
          destruct Hr as [Hr | (e0 & nx & Hr & [= ->])].
          + symmetry in Hr. exact (Hall _ _ Hr).
          + apply (descriptor_ok_fields T HT _ e0); try reflexivity.
            exact (Hall _ _ Hr). }
      rewrite (descriptor_entry s0 _ Hfree).
      assert (Hd : entry s0 (HashedSet._free chunks)
                   = Some (setNextInChain (-1) (setId i construct)))
        by exact He.
      rewrite Hd.
      set (d := setNextInChain (-1) (setId i construct)) in *.
      exists (SubManager.set_descriptor s0 (HashedSet._free chunks)
                (with_usable false (with_visitId v d))),
        (HashedSet._free chunks), (with_usable false (with_visitId v d)).
      split.
      { apply (set_descriptor_ok T HT s0 _ d); try assumption;
          try reflexivity.
        destruct (sm_ok_entry T HT s0 _ d Hs0 Hd) as [Hqd Hbd].
        split; assumption. }
      split; [reflexivity |]. split; [exact Hfree |].
      split; [apply (set_descriptor_entry s0 _ d _ Hd) |].
      split; [reflexivity |].
      split.
      { intros j dj Hj Hdj Hid.
        destruct (Z.eq_dec j (HashedSet._free chunks)) as [-> | Hne].
        - exfalso. apply Hid.
          assert (Hfid : idAt (HashedSet._entries chunks)
                              (HashedSet._free chunks) = Some (-1)).
          { apply (rep_free_id _ _ _ _ R). rewrite Hfl. left. }
          unfold idAt in Hfid. unfold entry in Hdj. simpl in Hdj.
          rewrite Hdj in Hfid. simpl in Hfid. congruence.
        - rewrite (set_descriptor_other s0 _ j _ Hfree Hj Hne).
          pose proof (Hrel j Hj Hne) as Hr.
          unfold entry in Hdj |- *. simpl in Hdj |- *. rewrite Hdj in Hr.
          destruct (HashedSet._entries c' !! Z.to_nat j) as [dj' |] eqn:Hdj'.
          2: { destruct Hr as [Hr | (? & ? & _ & Hr)]; discriminate. }
          apply relinked_same_fields, same_fields_proj in Hr
            as (E1 & E2 & E3 & E4 & _); [| exact HT].
          exists dj'. split; [reflexivity |]. repeat split; try assumption.
          intros x Hx. unfold queue in *. rewrite E4. exact Hx. }
      left. split; [exact Habs |]. split; [reflexivity |].
      split; [reflexivity |]. split; [| reflexivity].
      simpl. unfold HashedSet.space.
      rewrite (rep_size _ _ _ _ R'), (rep_size _ _ _ _ R).
      pose proof (rep_part _ _ _ _ R) as Hp.
      pose proof (rep_part _ _ _ _ R') as Hp'.
      apply Permutation_length in Hp, Hp'.
      rewrite length_app in Hp, Hp'. rewrite Hfl in Hp. simpl in Hp.
      cbn [HashedSet._size]. lia.
Qed.

Lemma absent_before s s1 id :
  chunks_kept s s1 -> id <> -1 ->
  absent (chunks_of s1) id -> absent (chunks_of s) id.
Proof.
  intros Hk Hid Ha j Hj Hat. unfold idAt in Hat.
  destruct (HashedSet._entries (chunks_of s) !! Z.to_nat j) as [d |] eqn:Hd;
    [| discriminate].
  simpl in Hat. injection Hat as Hat. change (_chunkId d = id) in Hat.
  destruct (Hk j d Hj Hd ltac:(congruence)) as (d' & Hd' & E & _).
  apply (Ha j Hj). unfold idAt. unfold entry in Hd'. rewrite Hd'. simpl.
  f_equal. change (_chunkId d' = id). congruence.
Qed.

(** The chunk handles that a run of the loop hands out: the new chunks
    [news] go to [toRead], the others [olds] to [toWaitFor]; [hs] are the
    handles in the order of the identifiers. *)
Lemma createOrRegisterInterest_handles ids :
  forall s r w v s' r' w',
    sm_ok T s -> Forall (fun c => c <> -1) ids ->
    createOrRegisterInterest s r w v ids = Ok tt (s', r', w') ->
    sm_ok T s' /\ chunks_kept s s' /\
    SubManager._allocator s' = SubManager._allocator s /\
    exists news olds hs,
      r' = r ++ news /\ w' = w ++ olds /\ news ++ olds ≡ₚ hs /\
      Forall2 (fun id c =>
                 0 <= c /\
                 exists d, entry s' c = Some d /\ _chunkId d = id) ids hs /\
      Forall (fun c =>
                exists d,
                  entry s' c = Some d /\ In (_chunkId d) ids /\
                  _visitId d = v /\ _usable d = false /\
                  absent (chunks_of s) (_chunkId d)) news /\
      Forall (fun c =>
                exists d,
                  entry s' c = Some d /\ In (_chunkId d) ids /\
                  v ∈ queue T d) olds.
Proof.
  induction ids as [| i rest IH]; intros s r w v s' r' w' Hs Hids E.
  - simpl in E. injection E as <- <- <-.
    split; [exact Hs |]. split; [apply chunks_kept_refl |].
    split; [reflexivity |].
    exists [], [], []. rewrite !app_nil_r.
    repeat split; constructor.
  - apply list.Forall_cons in Hids as [Hi Hrest].
    destruct (createOrRegisterInterest_step s r w v i rest Hs Hi)
      as [(c & d & _ & _ & _ & _ & E') | [(_ & _ & E') |
          (s1 & c & d1 & Hs1 & Hal & Hc & Hd1 & Hid1 & Hk & Hcase)]];
      try (rewrite E' in E; discriminate).
    assert (Hafter : forall s2, chunks_kept s1 s2 ->
              exists d', entry s2 c = Some d' /\ _chunkId d' = i /\
                         _visitId d' = _visitId d1 /\
                         _usable d' = _usable d1 /\
                         (forall x, x ∈ queue T d1 -> x ∈ queue T d')).
    { intros s2 Hk2.
      destruct (Hk2 c d1 Hc Hd1 ltac:(congruence))
        as (d' & Hd' & E1 & E2 & E3 & Hq).
      exists d'. repeat split; try assumption. congruence. }
    assert (Hweak : forall (P : ChunkDescriptor -> Prop) l,
              Forall (fun c => exists d,
                        entry s' c = Some d /\ In (_chunkId d) rest /\ P d) l ->
              Forall (fun c => exists d,
                        entry s' c = Some d /\ In (_chunkId d) (i :: rest) /\
                        P d) l).
    { intros P l. apply Forall_impl. intros x (d & ? & ? & ?).
      exists d. simpl. auto. }
    destruct Hcase as [(Habs & Hv & Hu & _ & E') | (d & Hd & Hdi & Hq & _ & E')];
      rewrite E' in E;
      destruct (IH _ _ _ _ _ _ _ Hs1 Hrest E)
        as (Hs' & Hk' & Hal' & news & olds & hs & -> & -> & Hp & Hf2 & Hn & Ho);
      (split; [exact Hs' |]);
      (split; [exact (chunks_kept_trans _ _ _ Hk Hk') |]);
      (split; [congruence |]);
      destruct (Hafter s' Hk') as (d' & Hd' & F1 & F2 & F3 & Hq').
    + exists (c :: news), olds, (c :: hs).
      rewrite <- app_assoc. split; [reflexivity |]. split; [reflexivity |].
      split; [simpl; constructor; exact Hp |].
      split; [constructor; [split; [exact Hc |]; eauto | exact Hf2] |].
      split.
      * constructor.
        -- exists d'. rewrite F1. simpl.
           repeat split; try congruence; auto.
        -- apply (Hweak (fun d => _visitId d = v /\ _usable d = false /\
                                  absent (chunks_of s) (_chunkId d))).
           revert Hn. apply Forall_impl.
           intros x (dx & ? & Hin & ? & ? & Ha). exists dx.
           repeat split; try assumption.
           apply (absent_before s s1 _ Hk); [| exact Ha].
           rewrite List.Forall_forall in Hrest. apply Hrest, Hin.
      * apply (Hweak (fun d => v ∈ queue T d)). exact Ho.
    + exists news, (c :: olds), (c :: hs).
      rewrite <- app_assoc. split; [reflexivity |]. split; [reflexivity |].
      split; [symmetry; apply Permutation_cons_app; symmetry; exact Hp |].
      split; [constructor; [split; [exact Hc |]; eauto | exact Hf2] |].
      split.
      * apply (Hweak (fun d => _visitId d = v /\ _usable d = false /\
                                absent (chunks_of s) (_chunkId d))).
        revert Hn. apply Forall_impl.
        intros x (dx & ? & Hin & ? & ? & Ha). exists dx.
        repeat split; try assumption.
        apply (absent_before s s1 _ Hk); [| exact Ha].
        rewrite List.Forall_forall in Hrest. apply Hrest, Hin.
      * constructor; [| apply (Hweak (fun d => v ∈ queue T d)); exact Ho].
        exists d'. rewrite F1. simpl. split; [exact Hd' |].
        split; [auto |]. apply Hq'. rewrite Hq.
        apply elem_of_app. right. apply list_elem_of_singleton. reflexivity.
Qed.

(** [getChunks] on identifiers that all have a descriptor. *)
Lemma getChunks_all_held s ids hs :
  sm_ok T s -> Forall (fun c => c <> -1) ids ->
  Forall2 (fun id c =>
             0 <= c /\ exists d, entry s c = Some d /\ _chunkId d = id)
          ids hs ->
  forall acc, SubManager.getChunks T s acc ids = Some (acc ++ hs).
Proof.
  intros Hs Hids Hf2. pose proof (max_chunks_ok T HT) as HNC.
  destruct Hs as ((fl & bl & R) & _).
  induction Hf2 as [| i c ids hs (Hc & d & Hd & Hdi) Hf2 IH]; intros acc.
  - simpl. rewrite app_nil_r. reflexivity.
  - apply list.Forall_cons in Hids as [Hi Hrest]. simpl.
    rewrite (doFind_found NC HNC _ fl bl c i R Hc); [| | exact Hi].
    + rewrite (IH Hrest), <- app_assoc. reflexivity.
    + unfold idAt. unfold entry in Hd. rewrite Hd. simpl. f_equal. exact Hdi.
Qed.

(** After [startVisit] has returned, every identifier of the list has a
    chunk: [getChunks] on the same list returns one chunk for each
    identifier, and these are the chunks that [startVisit] stored in
    [toRead] and [toWaitFor] together.  The set of visits and the block
    allocator are as before. *)
Theorem startVisit_then_getChunks m r0 w0 v ids m' r' w' :
  m_ok T m -> Forall (fun c => c <> -1) ids ->
  startVisit m r0 w0 v ids = Ok tt (m', r', w') ->
  m_ok T m' /\
  visits_of m' = visits_of m /\
  SubManager._allocator (data_of m') = SubManager._allocator (data_of m) /\
  exists hs,
    getChunks m' [] ids = Some hs /\
    length hs = length ids /\
    r' ++ w' ≡ₚ hs.
Proof.
  intros Hm Hids E.
  pose proof (startVisit_ok T HT m r0 w0 v ids m' r' w' Hm Hids E) as Hm'.
  split; [exact Hm' |]. destruct Hm as [Htr Hs].
  unfold ChunkManager.startVisit in E.
  destruct (_ <? _); [discriminate |].
  destruct (SubManager.isValid T (visits_of m) v) as [[|] |];
    try discriminate.
  destruct (createOrRegisterInterest (data_of m) [] [] v ids)
    as [[] [[s1 r1] w1] | ? [[? ?] ?] | |] eqn:Hc; try discriminate.
  injection E as <- <- <-.
  destruct (createOrRegisterInterest_handles ids _ _ _ _ _ _ _ Hs Hids Hc)
    as (Hs1 & _ & Hal & news & olds & hs & -> & -> & Hp & Hf2 & _).
  split; [reflexivity |]. split; [exact Hal |].
  exists hs. unfold ChunkManager.getChunks. simpl.
  rewrite (getChunks_all_held s1 ids hs Hs1 Hids Hf2 []).
  split; [reflexivity |].
  split; [symmetry; eapply Forall2_length; exact Hf2 | exact Hp].
Qed.

(** After [startVisit] has returned, the visit is in flight, each chunk in
    [toRead] is a chunk of the list that did not exist before, is owned by
    the visit and is not usable; each chunk in [toWaitFor] is a chunk of the
    list with the visit in its queue of interested parties; and every chunk
    that existed before has the owner and the flag it had, and the visits
    that were waiting for it still are. *)
Theorem startVisit_owns_new_chunks_and_queues_for_others
        m r0 w0 v ids m' r' w' :
  m_ok T m -> Forall (fun c => c <> -1) ids ->
  startVisit m r0 w0 v ids = Ok tt (m', r', w') ->
  valid_in (visits_of m) v /\
  (forall c, c ∈ r' ->
     exists d,
       entry (data_of m') c = Some d /\ In (_chunkId d) ids /\
       _visitId d = v /\ _usable d = false /\
       ~ holds (chunks_of (data_of m)) (_chunkId d)) /\
  (forall c, c ∈ w' ->
     exists d,
       entry (data_of m') c = Some d /\ In (_chunkId d) ids /\
       v ∈ queue T d) /\
  chunks_kept (data_of m) (data_of m').
Proof.
  intros Hm Hids E. destruct Hm as [Htr Hs].
  unfold ChunkManager.startVisit in E.
  destruct (_ <? _); [discriminate |].
  destruct (SubManager.isValid T (visits_of m) v) as [[|] |] eqn:Hv;
    try discriminate.
  destruct (createOrRegisterInterest (data_of m) [] [] v ids)
    as [[] [[s1 r1] w1] | ? [[? ?] ?] | |] eqn:Hc; try discriminate.
  injection E as <- <- <-.
  destruct (createOrRegisterInterest_handles ids _ _ _ _ _ _ _ Hs Hids Hc)
    as (Hs1 & Hk & _ & news & olds & hs & -> & -> & _ & _ & Hn & Ho).
  split; [apply (isValid_true T HT _ v Htr), Hv |]. simpl.
  split; [| split; [| exact Hk]].
  - intros c Hin. rewrite List.Forall_forall in Hn.
    destruct (Hn c ltac:(apply list_elem_of_In; exact Hin))
      as (d & Hd & Hid & Ho1 & Hu & Ha).
    exists d. repeat split; try assumption.
    intros (_ & j & Hj & Hat). exact (Ha j Hj Hat).
  - intros c Hin. rewrite List.Forall_forall in Ho.
    apply (Ho c). apply list_elem_of_In. exact Hin.
Qed.

(** How the loop of [createOrRegisterInterest] ends when there are as many
    free descriptors as identifiers: it returns or a queue of interested
    parties is full. *)
Lemma createOrRegisterInterest_outcome ids :
  forall s r w v,
    sm_ok T s -> Forall (fun c => c <> -1) ids ->
    Z.of_nat (length ids) <= space s ->
    (exists st, createOrRegisterInterest s r w v ids = Ok tt st) \/
    (exists st, createOrRegisterInterest s r w v ids = Throw LengthError st).
Proof.
  induction ids as [| i rest IH]; intros s r w v Hs Hids Hsp.
  - left. eexists. reflexivity.
  - apply list.Forall_cons in Hids as [Hi Hrest]. simpl length in Hsp.
    destruct (createOrRegisterInterest_step s r w v i rest Hs Hi)
      as [(c & d & _ & _ & _ & _ & E') | [(_ & Hz & E') |
          (s1 & c & d1 & Hs1 & _ & _ & _ & _ & _ & Hcase)]].
    + right. eexists. exact E'.
    + lia.
    + destruct Hcase as [(_ & _ & _ & Hsp1 & ->) | (d & _ & _ & _ & Hsp1 & ->)];
        apply IH; try assumption; lia.
Qed.

(** [startVisit] throws [LengthError], with the manager unchanged and the
    vectors empty, when there are more identifiers than free descriptors;
    failing that, it throws [InvalidParameter], again with nothing changed,
    when the visit is not in flight; failing that, it returns or throws
    [LengthError]: it never throws [std::bad_alloc] and fails no
    assertion. *)
Theorem startVisit_outcomes m r0 w0 v ids :
  m_ok T m -> Forall (fun c => c <> -1) ids ->
  (space (data_of m) < Z.of_nat (length ids) ->
   startVisit m r0 w0 v ids = Throw LengthError (m, [], [])) /\
  (Z.of_nat (length ids) <= space (data_of m) ->
   ~ valid_in (visits_of m) v ->
   startVisit m r0 w0 v ids = Throw InvalidParameter (m, [], [])) /\
  (Z.of_nat (length ids) <= space (data_of m) ->
   valid_in (visits_of m) v ->
   (exists st, startVisit m r0 w0 v ids = Ok tt st) \/
   (exists st, startVisit m r0 w0 v ids = Throw LengthError st)).
Proof.
  intros [Htr Hs] Hids. unfold ChunkManager.startVisit.
  split; [| split].
  - intros Hlt.
    destruct (Z.ltb_spec (space (data_of m)) (Z.of_nat (length ids)));
      [reflexivity | lia].
  - intros Hle Hno.
    destruct (Z.ltb_spec (space (data_of m)) (Z.of_nat (length ids)));
      [lia |].
    rewrite (proj2 (isValid_false T HT _ v Htr) Hno). reflexivity.
  - intros Hle Hyes.
    destruct (Z.ltb_spec (space (data_of m)) (Z.of_nat (length ids)));
      [lia |].
    rewrite (proj2 (isValid_true T HT _ v Htr) Hyes).
    destruct (createOrRegisterInterest_outcome ids (data_of m) [] [] v
                Hs Hids Hle) as [[[[s1 r1] w1] ->] | [[[s1 r1] w1] ->]].
    + left. eexists. reflexivity.
    + right. eexists. reflexivity.
Qed.

(** [getChunks] appends to the vector the chunks of the identifiers of the
    list that have one, and passes over the others: a handle is appended
    exactly when it is the descriptor of an identifier of the list. *)
Theorem getChunks_skips_unknown_ids m ids acc :
  m_ok T m ->
  exists found,
    getChunks m acc ids = Some (acc ++ found) /\
    (length found <= length ids)%nat /\
    (forall c, c ∈ found <->
       exists id, In id ids /\ id <> -1 /\ 0 <= c /\
                  idAt (HashedSet._entries (chunks_of (data_of m))) c
                  = Some id).
Proof.
  intros [_ Hs]. pose proof (max_chunks_ok T HT) as HNC.
  destruct Hs as (Hwf & _). pose proof Hwf as (fl & bl & R).
  unfold ChunkManager.getChunks. revert acc.
  induction ids as [| i rest IH]; intros acc.
  - exists []. simpl. rewrite app_nil_r. split; [reflexivity |].
    split; [lia |]. intros c. split.
    + intros Hin. inversion Hin.
    + intros (id & [] & _).
  - simpl.
    destruct (Z.eq_dec i (-1)) as [-> | Hi].
    + rewrite (doFind_members_absent NC HNC _ fl bl (-1) R
                 (minus_one_members NC HNC _ fl bl R)).
      destruct (IH acc) as (found & -> & Hlen & Hin).
      exists found. split; [reflexivity |]. split; [lia |].
      intros c. rewrite (Hin c). split.
      * intros (id & ? & ?). exists id. auto.
      * intros (id & [<- | ?] & Hid & ?); [congruence |].
        exists id. auto.
    + destruct (doFind_spec NC HNC _ i Hwf Hi) as (r & -> & Hr & Hn).
      destruct r as [c0 |].
      * destruct (IH (acc ++ [c0])) as (found & -> & Hlen & Hin).
        exists (c0 :: found). rewrite <- app_assoc.
        split; [reflexivity |]. split; [simpl; lia |].
        intros c. rewrite elem_of_cons, (Hin c). split.
        -- intros [-> | (id & ? & ?)].
           ++ exists i. destruct (proj1 (Hr c0) eq_refl). auto.
           ++ exists id. auto.
        -- intros (id & [<- | ?] & Hid & Hc & Hat).
           ++ left. assert (Some c0 = Some c) by (apply Hr; auto).
              congruence.
           ++ right. exists id. auto.
      * destruct (IH acc) as (found & -> & Hlen & Hin).
        exists found. split; [reflexivity |]. split; [simpl; lia |].
        intros c. rewrite (Hin c). split.
        -- intros (id & ? & ?). exists id. auto.
        -- intros (id & [<- | ?] & Hid & Hc & Hat).
           ++ exfalso. exact (proj1 Hn eq_refl c Hc Hat).
           ++ exists id. auto.
Qed.

End StartVisit.

Section StartVisitDemo.

Local Hint Extern 0 (Entry ChunkDescriptor) =>
  exact (ChunkDescriptor_Entry demo_traits) : typeclass_instances.

(** [first_started] once visit 2 has started on chunks 100 and 200. *)
Definition second_started : ChunkManager.t :=
  demo_run [RegisterVisit 1; RegisterVisit 2; StartVisit 1 [100];
            StartVisit 2 [100; 200]].

Lemma second_started_ok : m_ok demo_traits second_started.
Proof. apply demo_run_ok, demo_calls_ok. Qed.

Lemma second_started_eq :
  ChunkManager.startVisit demo_traits first_started [] [] 2 [100; 200]
  = Ok tt (second_started, [1], [0]).
Proof. vm_compute. reflexivity. Qed.

Lemma startVisit_then_getChunks_witness :
  m_ok demo_traits second_started /\
  ChunkManager._visits second_started = ChunkManager._visits first_started /\
  SubManager._allocator (ChunkManager._data second_started)
  = SubManager._allocator (ChunkManager._data first_started) /\
  exists hs,
    ChunkManager.getChunks demo_traits second_started [] [100; 200]
    = Some hs /\
    length hs = length [100; 200] /\
    [1] ++ [0] ≡ₚ hs.
Proof.
  apply (startVisit_then_getChunks demo_traits demo_traits_ok first_started
           [] [] 2 [100; 200] second_started [1] [0]).
  - exact first_started_ok.
  - repeat constructor; lia.
  - exact second_started_eq.
Defined.

Lemma startVisit_owns_new_chunks_and_queues_for_others_witness :
  valid_in (ChunkManager._visits first_started) 2 /\
  (forall c, c ∈ [1] ->
     exists d,
       entry (ChunkManager._data second_started) c = Some d /\
       In (_chunkId d) [100; 200] /\
       _visitId d = 2 /\ _usable d = false /\
       ~ holds
           (SubManager._chunks (ChunkManager._data first_started))
           (_chunkId d)) /\
  (forall c, c ∈ [0] ->
     exists d,
       entry (ChunkManager._data second_started) c = Some d /\
       In (_chunkId d) [100; 200] /\
       2 ∈ queue demo_traits d) /\
  chunks_kept demo_traits (ChunkManager._data first_started)
              (ChunkManager._data second_started).
Proof.
  apply (startVisit_owns_new_chunks_and_queues_for_others demo_traits
           demo_traits_ok first_started [] [] 2 [100; 200] second_started
           [1] [0]).
  - exact first_started_ok.
  - repeat constructor; lia.
  - exact second_started_eq.
Defined.

Lemma startVisit_outcomes_witness :
  let m := first_started in
  let sp := HashedSet.space (MAX_CHUNKS demo_traits)
              (SubManager._chunks (ChunkManager._data m)) in
  (sp < Z.of_nat (length [100; 200]) ->
   ChunkManager.startVisit demo_traits m [] [] 2 [100; 200]
   = Throw LengthError (m, [], [])) /\
  (Z.of_nat (length [100; 200]) <= sp ->
   ~ valid_in (ChunkManager._visits m) 2 ->
   ChunkManager.startVisit demo_traits m [] [] 2 [100; 200]
   = Throw InvalidParameter (m, [], [])) /\
  (Z.of_nat (length [100; 200]) <= sp ->
   valid_in (ChunkManager._visits m) 2 ->
   (exists st,
      ChunkManager.startVisit demo_traits m [] [] 2 [100; 200] = Ok tt st) \/
   (exists st,
      ChunkManager.startVisit demo_traits m [] [] 2 [100; 200]
      = Throw LengthError st)).
Proof.
  apply (startVisit_outcomes demo_traits demo_traits_ok first_started
           [] [] 2 [100; 200]).
  - exact first_started_ok.
  - repeat constructor; lia.
Defined.

Lemma getChunks_skips_unknown_ids_witness :
  exists found,
    ChunkManager.getChunks demo_traits second_started [7] [200; 300; 100]
    = Some ([7] ++ found) /\
    (length found <= length [200; 300; 100])%nat /\
    (forall c, c ∈ found <->
       exists id, In id [200; 300; 100] /\ id <> -1 /\ 0 <= c /\
                  idAt
                    (HashedSet._entries
                       (SubManager._chunks (ChunkManager._data second_started)))
                    c
                  = Some id).
Proof.
  apply (getChunks_skips_unknown_ids demo_traits demo_traits_ok
           second_started [200; 300; 100] [7]).
  exact second_started_ok.
Defined.

End StartVisitDemo.
